(** * Live status coordination layer: a shallow embedding

    This development embeds these pieces of the repository and settles the
    properties its specification states about them:

    - [Runs]        src/agents/pi-embedded-runner/runs.ts        (active-run registry)
    - [PhaseStatus] src/slack/monitor/thread-status.ts            (phase/counter manager)
    - [TextStatus]  src/slack/threading-tool-context.ts, 2nd part (text manager)
    - [Typing]      the typing controller (createTypingController)
    - [ToolContext] src/slack/threading-tool-context.ts, 1st part (tool context)
    - [Dispatch], [DispatchDirect]
                    src/slack/monitor/message-handler/dispatch.ts (the status
                    callbacks of its two versions)

    Conventions shared by all modules.

    - JavaScript objects that are shared by reference (run handles, manager
      instances, [Set]s of waiters, closures returned by [acquire]) live in
      append-only stores; a reference is the index of the object in its store.
    - [setTimeout]/[setInterval] allocate a timer in a timer table; a timer
      fires only while it is live, and [clearTimeout]/[clearInterval] kill it.
      A timer records the delay it was armed with; [timer_duration] is what
      the Node.js runtime makes of that delay.  Delays and timeouts are
      whole numbers of milliseconds.
    - A call of an injected asynchronous function is recorded in a call log;
      the call is in flight until an explicit settle event.  Real time is not
      modelled: timer expiry and promise settlement are events of a trace.
    - Diagnostic logging ([logVerbose], [diag.debug], [logSessionStateChange])
      touches none of the modelled state and is left out. *)

From stdpp Require Import gmap strings list.
From Stdlib Require Import ZArith Lia DecimalString.

Local Open Scope string_scope.
Local Open Scope Z_scope.

(** ** Stores of shared objects *)

(** Allocate a new object; its reference is the old length of the store. *)
Definition alloc {A : Type} (x : A) (st : list A) : list A := st ++ [x].

(** ** Timers of the Node.js runtime *)

(** The longest delay of a Node.js timer, in milliseconds (2^31 - 1). *)
Definition TIMEOUT_MAX : Z := 2147483647.

(** How long [setTimeout(f, after)] and [setInterval(f, after)] wait before
    they call [f], for a whole number [after] of milliseconds: Node.js runs
    a delay under 1 or over [TIMEOUT_MAX] as a delay of 1 ms.  The models
    below record the delay a timer was armed with, that is, the argument
    the code passes; this function gives the time the runtime makes of
    it. *)
Definition timer_duration (after : Z) : Z :=
  if bool_decide (1 ≤ after ≤ TIMEOUT_MAX) then after else 1.

(** ** JavaScript [Map] and [Set] where iteration order is observable *)

Section JsMap.
Context {V : Type}.

(** [Map.prototype.get] *)
Fixpoint jsmap_get (k : string) (m : list (string * V)) : option V :=
  match m with
  | [] => None
  | (k', v) :: m' => if decide (k' = k) then Some v else jsmap_get k m'
  end.

(** [Map.prototype.set]: an existing key keeps its place in the order. *)
Fixpoint jsmap_set (k : string) (v : V) (m : list (string * V)) : list (string * V) :=
  match m with
  | [] => [(k, v)]
  | (k', v') :: m' =>
      if decide (k' = k) then (k, v) :: m' else (k', v') :: jsmap_set k v m'
  end.

(** [Map.prototype.delete] *)
Fixpoint jsmap_delete (k : string) (m : list (string * V)) : list (string * V) :=
  match m with
  | [] => []
  | (k', v') :: m' =>
      if decide (k' = k) then m' else (k', v') :: jsmap_delete k m'
  end.
End JsMap.

(** [Set.prototype.add] and [Set.prototype.delete] on a set of references. *)
Definition jsset_add (x : nat) (s : list nat) : list nat :=
  if decide (x ∈ s) then s else s ++ [x].

Definition jsset_delete (x : nat) (s : list nat) : list nat :=
  filter (λ y, y ≠ x) s.

(** * The active-run registry (runs.ts) *)

Module Runs.

(** What the two query capabilities of a run handle answer right now. *)
Record HandleView := { isStreaming : bool; isCompacting : bool }.

(** [EmbeddedRunWaiter]: the promise's [resolve] and the timeout timer,
    with what the timer's callback captured ([sessionId] and the [Set]).
    [w_delay] is the delay the timer was armed with (the second argument
    of [setTimeout]); [timer_duration] gives the time the runtime makes of
    it.  Timeouts are whole numbers of milliseconds. *)
Record EmbeddedRunWaiter := {
  w_session : string;
  w_set : nat;
  w_delay : Z;
  timer_live : bool;
  resolve_calls : list bool;
}.

Record Registry := {
  ACTIVE_EMBEDDED_RUNS : gmap string nat;
  SESSION_KEY_TO_SESSION_ID : list (string * string);
  EMBEDDED_RUN_WAITERS : gmap string nat;
  waiter_sets : list (list nat);
  waiter_objs : list EmbeddedRunWaiter;
  queueMessage_calls : list (nat * string);
  abort_calls : list nat;
}.

Definition empty : Registry :=
  {| ACTIVE_EMBEDDED_RUNS := ∅; SESSION_KEY_TO_SESSION_ID := [];
     EMBEDDED_RUN_WAITERS := ∅; waiter_sets := []; waiter_objs := [];
     queueMessage_calls := []; abort_calls := [] |}.

Definition set_runs (f : gmap string nat → gmap string nat) (r : Registry) : Registry :=
  {| ACTIVE_EMBEDDED_RUNS := f (ACTIVE_EMBEDDED_RUNS r);
     SESSION_KEY_TO_SESSION_ID := SESSION_KEY_TO_SESSION_ID r;
     EMBEDDED_RUN_WAITERS := EMBEDDED_RUN_WAITERS r;
     waiter_sets := waiter_sets r; waiter_objs := waiter_objs r;
     queueMessage_calls := queueMessage_calls r; abort_calls := abort_calls r |}.

Definition set_aliases (f : list (string * string) → list (string * string))
    (r : Registry) : Registry :=
  {| ACTIVE_EMBEDDED_RUNS := ACTIVE_EMBEDDED_RUNS r;
     SESSION_KEY_TO_SESSION_ID := f (SESSION_KEY_TO_SESSION_ID r);
     EMBEDDED_RUN_WAITERS := EMBEDDED_RUN_WAITERS r;
     waiter_sets := waiter_sets r; waiter_objs := waiter_objs r;
     queueMessage_calls := queueMessage_calls r; abort_calls := abort_calls r |}.

Definition set_waiting (f : gmap string nat → gmap string nat) (r : Registry) : Registry :=
  {| ACTIVE_EMBEDDED_RUNS := ACTIVE_EMBEDDED_RUNS r;
     SESSION_KEY_TO_SESSION_ID := SESSION_KEY_TO_SESSION_ID r;
     EMBEDDED_RUN_WAITERS := f (EMBEDDED_RUN_WAITERS r);
     waiter_sets := waiter_sets r; waiter_objs := waiter_objs r;
     queueMessage_calls := queueMessage_calls r; abort_calls := abort_calls r |}.

Definition set_sets (f : list (list nat) → list (list nat)) (r : Registry) : Registry :=
  {| ACTIVE_EMBEDDED_RUNS := ACTIVE_EMBEDDED_RUNS r;
     SESSION_KEY_TO_SESSION_ID := SESSION_KEY_TO_SESSION_ID r;
     EMBEDDED_RUN_WAITERS := EMBEDDED_RUN_WAITERS r;
     waiter_sets := f (waiter_sets r); waiter_objs := waiter_objs r;
     queueMessage_calls := queueMessage_calls r; abort_calls := abort_calls r |}.

Definition set_objs (f : list EmbeddedRunWaiter → list EmbeddedRunWaiter)
    (r : Registry) : Registry :=
  {| ACTIVE_EMBEDDED_RUNS := ACTIVE_EMBEDDED_RUNS r;
     SESSION_KEY_TO_SESSION_ID := SESSION_KEY_TO_SESSION_ID r;
     EMBEDDED_RUN_WAITERS := EMBEDDED_RUN_WAITERS r;
     waiter_sets := waiter_sets r; waiter_objs := f (waiter_objs r);
     queueMessage_calls := queueMessage_calls r; abort_calls := abort_calls r |}.

Definition log_queueMessage (h : nat) (text : string) (r : Registry) : Registry :=
  {| ACTIVE_EMBEDDED_RUNS := ACTIVE_EMBEDDED_RUNS r;
     SESSION_KEY_TO_SESSION_ID := SESSION_KEY_TO_SESSION_ID r;
     EMBEDDED_RUN_WAITERS := EMBEDDED_RUN_WAITERS r;
     waiter_sets := waiter_sets r; waiter_objs := waiter_objs r;
     queueMessage_calls := queueMessage_calls r ++ [(h, text)];
     abort_calls := abort_calls r |}.

Definition log_abort (h : nat) (r : Registry) : Registry :=
  {| ACTIVE_EMBEDDED_RUNS := ACTIVE_EMBEDDED_RUNS r;
     SESSION_KEY_TO_SESSION_ID := SESSION_KEY_TO_SESSION_ID r;
     EMBEDDED_RUN_WAITERS := EMBEDDED_RUN_WAITERS r;
     waiter_sets := waiter_sets r; waiter_objs := waiter_objs r;
     queueMessage_calls := queueMessage_calls r;
     abort_calls := abort_calls r ++ [h] |}.

(** [clearTimeout(waiter.timer)] and [waiter.resolve(b)]. *)
Definition kill_timer (w : EmbeddedRunWaiter) : EmbeddedRunWaiter :=
  {| w_session := w_session w; w_set := w_set w; w_delay := w_delay w;
     timer_live := false; resolve_calls := resolve_calls w |}.

Definition call_resolve (b : bool) (w : EmbeddedRunWaiter) : EmbeddedRunWaiter :=
  {| w_session := w_session w; w_set := w_set w; w_delay := w_delay w;
     timer_live := timer_live w; resolve_calls := resolve_calls w ++ [b] |}.

Definition clearTimeout (w : nat) (r : Registry) : Registry :=
  set_objs (alter kill_timer w) r.

Definition resolve (w : nat) (b : bool) (r : Registry) : Registry :=
  set_objs (alter (call_resolve b) w) r.

(** The value a waiter's promise has settled to: the first [resolve] wins. *)
Definition promise_value (w : nat) (r : Registry) : option bool :=
  w' ← waiter_objs r !! w; head (resolve_calls w').

Definition queueEmbeddedPiMessage (view : nat → HandleView)
    (sessionId text : string) (r : Registry) : bool * Registry :=
  match ACTIVE_EMBEDDED_RUNS r !! sessionId with
  | None => (false, r)
  | Some handle =>
      if negb (isStreaming (view handle)) then (false, r)
      else if isCompacting (view handle) then (false, r)
      else (true, log_queueMessage handle text r)
  end.

Definition abortEmbeddedPiRun (sessionId : string) (r : Registry) : bool * Registry :=
  match ACTIVE_EMBEDDED_RUNS r !! sessionId with
  | None => (false, r)
  | Some handle => (true, log_abort handle r)
  end.

Definition isEmbeddedPiRunActive (sessionId : string) (r : Registry) : bool :=
  bool_decide (is_Some (ACTIVE_EMBEDDED_RUNS r !! sessionId)).

Definition resolveActiveSessionId (sessionKey : string) (r : Registry) : option string :=
  match jsmap_get sessionKey (SESSION_KEY_TO_SESSION_ID r) with
  | Some mapped =>
      if negb (bool_decide (mapped = "")) && isEmbeddedPiRunActive mapped r
      then Some mapped else None
  | None => None
  end.

Definition isEmbeddedPiRunStreaming (view : nat → HandleView)
    (sessionId : string) (r : Registry) : bool :=
  match ACTIVE_EMBEDDED_RUNS r !! sessionId with
  | None => false
  | Some handle => isStreaming (view handle)
  end.

(** What [waitForEmbeddedPiRunEnd] returns: [Promise.resolve(b)], or the
    promise whose [resolve] the new waiter holds. *)
Inductive WaitPromise := Settled (b : bool) | OfWaiter (w : nat).

(** [waiters.delete(waiter); if (waiters.size === 0) EMBEDDED_RUN_WAITERS.delete(sessionId)] *)
Definition drop_waiter (sessionId : string) (sref w : nat) (r : Registry) : Registry :=
  let r1 := set_sets (alter (jsset_delete w) sref) r in
  match waiter_sets r1 !! sref with
  | Some [] => set_waiting (delete sessionId) r1
  | _ => r1
  end.

Definition waitForEmbeddedPiRunEnd (sessionId : string) (timeoutMs : option Z)
    (r : Registry) : WaitPromise * Registry :=
  let timeoutMs := default 15000 timeoutMs in
  if bool_decide (sessionId = "") || negb (isEmbeddedPiRunActive sessionId r)
  then (Settled true, r)
  else
    (* EMBEDDED_RUN_WAITERS.get(sessionId) ?? new Set() *)
    let '(sref, r1) :=
      match EMBEDDED_RUN_WAITERS r !! sessionId with
      | Some s => (s, r)
      | None => (length (waiter_sets r), set_sets (alloc []) r)
      end in
    let w := length (waiter_objs r1) in
    let waiter := {| w_session := sessionId; w_set := sref;
                     w_delay := Z.max 100 timeoutMs;
                     timer_live := true; resolve_calls := [] |} in
    let r2 := set_objs (alloc waiter) r1 in
    let r3 := set_sets (alter (jsset_add w) sref) r2 in
    let r4 := set_waiting (<[sessionId := sref]>) r3 in
    if negb (isEmbeddedPiRunActive sessionId r4)
    then (OfWaiter w, resolve w true (clearTimeout w (drop_waiter sessionId sref w r4)))
    else (OfWaiter w, r4).

(** The callback of a waiter's [setTimeout]; a dead timer does not fire. *)
Definition waiter_timeout (w : nat) (r : Registry) : Registry :=
  match waiter_objs r !! w with
  | Some wo =>
      if timer_live wo
      then resolve w false
             (drop_waiter (w_session wo) (w_set wo) w (clearTimeout w r))
      else r
  | None => r
  end.

Definition notifyEmbeddedRunEnded (sessionId : string) (r : Registry) : Registry :=
  match EMBEDDED_RUN_WAITERS r !! sessionId with
  | None => r
  | Some sref =>
      match waiter_sets r !! sref with
      | None | Some [] => r
      | Some waiters =>
          foldl (λ acc w, resolve w true (clearTimeout w acc))
                (set_waiting (delete sessionId) r) waiters
      end
  end.

Definition setActiveEmbeddedRun (sessionId : string) (handle : nat)
    (sessionKey : option string) (r : Registry) : Registry :=
  let r1 := set_runs (<[sessionId := handle]>) r in
  match sessionKey with
  | Some key =>
      if bool_decide (key = "") then r1
      else set_aliases (jsmap_set key sessionId) r1
  | None => r1
  end.

(** The [for (const [key, id] of SESSION_KEY_TO_SESSION_ID)] loop with its
    [break]: [rest] is what the iterator has still to visit. *)
Fixpoint drop_first_alias (sessionId : string) (rest m : list (string * string))
    : list (string * string) :=
  match rest with
  | [] => m
  | (key, id) :: rest' =>
      if decide (id = sessionId) then jsmap_delete key m
      else drop_first_alias sessionId rest' m
  end.

Definition clearActiveEmbeddedRun (sessionId : string) (handle : nat)
    (r : Registry) : Registry :=
  if decide (ACTIVE_EMBEDDED_RUNS r !! sessionId = Some handle) then
    let r1 := set_runs (delete sessionId) r in
    let r2 := set_aliases (λ m, drop_first_alias sessionId m m) r1 in
    notifyEmbeddedRunEnded sessionId r2
  else r.

(** *** Traces of registry operations *)

Inductive event :=
| ESetActive (sessionId : string) (handle : nat) (sessionKey : option string)
| EClearActive (sessionId : string) (handle : nat)
| EWaitForEnd (sessionId : string) (timeoutMs : option Z)
| ETimerFires (w : nat)
| EQueueMessage (view : nat → HandleView) (sessionId text : string)
| EAbort (sessionId : string).

Definition step (r : Registry) (e : event) : Registry :=
  match e with
  | ESetActive sid h key => setActiveEmbeddedRun sid h key r
  | EClearActive sid h => clearActiveEmbeddedRun sid h r
  | EWaitForEnd sid ms => (waitForEmbeddedPiRunEnd sid ms r).2
  | ETimerFires w => waiter_timeout w r
  | EQueueMessage view sid text => (queueEmbeddedPiMessage view sid text r).2
  | EAbort sid => (abortEmbeddedPiRun sid r).2
  end.

Definition run (evs : list event) : Registry := foldl step empty evs.

Definition reachable (r : Registry) : Prop := ∃ evs, r = run evs.

(** A waiter is pending while its promise is unsettled. *)
Definition pending_for (sessionId : string) (wo : EmbeddedRunWaiter) : Prop :=
  w_session wo = sessionId ∧ timer_live wo = true ∧ resolve_calls wo = [].

(** What [notifyEmbeddedRunEnded] does to one waiter. *)
Definition woken (wo : EmbeddedRunWaiter) : EmbeddedRunWaiter :=
  call_resolve true (kill_timer wo).

(** What its timeout does to one waiter. *)
Definition timed_out (wo : EmbeddedRunWaiter) : EmbeddedRunWaiter :=
  call_resolve false (kill_timer wo).

(** The registry invariant: the waiter table, the [Set]s it points to and
    the waiter objects agree. *)
Record inv (r : Registry) : Prop := {
  inv_alias_keys : NoDup (SESSION_KEY_TO_SESSION_ID r).*1;
  inv_registered : ∀ sid s, EMBEDDED_RUN_WAITERS r !! sid = Some s →
    is_Some (ACTIVE_EMBEDDED_RUNS r !! sid) ∧
    ∃ ws, waiter_sets r !! s = Some ws ∧ ws ≠ [] ∧ NoDup ws ∧
          ∀ w, w ∈ ws → ∃ wo, waiter_objs r !! w = Some wo ∧
                               w_set wo = s ∧ pending_for sid wo;
  inv_waiter : ∀ w wo, waiter_objs r !! w = Some wo →
    if timer_live wo
    then resolve_calls wo = [] ∧
         EMBEDDED_RUN_WAITERS r !! w_session wo = Some (w_set wo) ∧
         ∃ ws, waiter_sets r !! w_set wo = Some ws ∧ w ∈ ws
    else length (resolve_calls wo) = 1%nat;
}.

(** *** Auxiliary definitions and a sample registry *)

(** Whether [clearActiveEmbeddedRun sid] wakes this waiter. *)
Definition waits_on (sid : string) (wo : EmbeddedRunWaiter) : Prop :=
  timer_live wo = true ∧ w_session wo = sid.

#[export] Instance waits_on_dec sid wo : Decision (waits_on sid wo).
Proof. unfold waits_on. apply _. Defined.

(** The waiter object a call of [waitForEmbeddedPiRunEnd] creates. *)
Definition new_waiter (sid : string) (sref : nat) (timeoutMs : option Z) : EmbeddedRunWaiter :=
  {| w_session := sid; w_set := sref; w_delay := Z.max 100 (default 15000 timeoutMs);
     timer_live := true; resolve_calls := [] |}.

(** A run registered under ["S1"] with an alias, and two callers waiting
    for it to end. *)
Definition two_waiters : Registry :=
  run [ESetActive "S1" 1 (Some "agent:main"); EWaitForEnd "S1" None;
       EWaitForEnd "S1" (Some 50)].

End Runs.

(** * The phase/counter status manager (slack/monitor/thread-status.ts) *)

Module PhaseStatus.

Inductive StatusPhase := reading | thinking | reasoning.

Definition PHASE_LABELS (p : StatusPhase) : string :=
  match p with
  | reading => "reading messages..."
  | thinking => "thinking"
  | reasoning => "reasoning"
  end.

(** A number in a template literal. *)
Definition show_nat (n : nat) : string := NilEmpty.string_of_uint (Nat.to_uint n).

Definition formatStatus (phase : StatusPhase) (seconds : nat) : string :=
  match phase with
  | reading => PHASE_LABELS reading
  | _ => PHASE_LABELS phase ++ " " ++ show_nat seconds ++ "s"
  end.

(** The injected callbacks ([push], [onError], [shouldGrace]) are opaque
    functions of the caller; a callback is named by a number. *)
Record ThreadStatusManagerParams := {
  key : string;
  push : nat;
  graceMs : Z;
  onError : option nat;
}.

Record ThreadStatusManager := {
  phase : option StatusPhase;
  seconds : nat;
  activeHandles : Z;
  counterTimer : option nat;
  graceTimer : option nat;
  pushing : bool;
  params : ThreadStatusManagerParams;
}.

(** The closure [acquire] returns: its manager, its [released] variable and
    the [shouldGrace] it captured. *)
Record ThreadStatusHandle := {
  h_mgr : nat;
  released : bool;
  shouldGrace : option nat;
}.

Inductive TimerCallback := CounterTick (m : nat) | GraceEnd (m : nat).

Record Timer := { t_callback : TimerCallback; t_ms : Z; t_live : bool }.

(** One call of a manager's [pushFn]; in flight until [c_done]. *)
Record PushCall := { c_mgr : nat; c_fn : nat; c_text : string; c_done : bool }.

Record World := {
  managers : gmap string nat;
  objects : list ThreadStatusManager;
  handles : list ThreadStatusHandle;
  timers : list Timer;
  calls : list PushCall;
  onError_calls : list (nat * nat);
}.

Definition init : World :=
  {| managers := ∅; objects := []; handles := []; timers := []; calls := [];
     onError_calls := [] |}.

Definition set_managers (f : gmap string nat → gmap string nat) (w : World) : World :=
  {| managers := f (managers w); objects := objects w; handles := handles w;
     timers := timers w; calls := calls w; onError_calls := onError_calls w |}.

Definition set_objects (f : list ThreadStatusManager → list ThreadStatusManager)
    (w : World) : World :=
  {| managers := managers w; objects := f (objects w); handles := handles w;
     timers := timers w; calls := calls w; onError_calls := onError_calls w |}.

Definition set_handles (f : list ThreadStatusHandle → list ThreadStatusHandle)
    (w : World) : World :=
  {| managers := managers w; objects := objects w; handles := f (handles w);
     timers := timers w; calls := calls w; onError_calls := onError_calls w |}.

Definition set_timers (f : list Timer → list Timer) (w : World) : World :=
  {| managers := managers w; objects := objects w; handles := handles w;
     timers := f (timers w); calls := calls w; onError_calls := onError_calls w |}.

Definition set_calls (f : list PushCall → list PushCall) (w : World) : World :=
  {| managers := managers w; objects := objects w; handles := handles w;
     timers := timers w; calls := f (calls w); onError_calls := onError_calls w |}.

Definition set_onError_calls (f : list (nat * nat) → list (nat * nat)) (w : World) : World :=
  {| managers := managers w; objects := objects w; handles := handles w;
     timers := timers w; calls := calls w; onError_calls := f (onError_calls w) |}.

(** Field assignments on a manager object. *)
Definition with_phase (p : option StatusPhase) (s : nat) (mg : ThreadStatusManager) :=
  {| phase := p; seconds := s; activeHandles := activeHandles mg;
     counterTimer := counterTimer mg; graceTimer := graceTimer mg;
     pushing := pushing mg; params := params mg |}.

Definition with_activeHandles (n : Z) (mg : ThreadStatusManager) :=
  {| phase := phase mg; seconds := seconds mg; activeHandles := n;
     counterTimer := counterTimer mg; graceTimer := graceTimer mg;
     pushing := pushing mg; params := params mg |}.

Definition with_counterTimer (t : option nat) (mg : ThreadStatusManager) :=
  {| phase := phase mg; seconds := seconds mg; activeHandles := activeHandles mg;
     counterTimer := t; graceTimer := graceTimer mg;
     pushing := pushing mg; params := params mg |}.

Definition with_graceTimer (t : option nat) (mg : ThreadStatusManager) :=
  {| phase := phase mg; seconds := seconds mg; activeHandles := activeHandles mg;
     counterTimer := counterTimer mg; graceTimer := t;
     pushing := pushing mg; params := params mg |}.

Definition with_pushing (b : bool) (mg : ThreadStatusManager) :=
  {| phase := phase mg; seconds := seconds mg; activeHandles := activeHandles mg;
     counterTimer := counterTimer mg; graceTimer := graceTimer mg;
     pushing := b; params := params mg |}.

Definition with_released (b : bool) (h : ThreadStatusHandle) :=
  {| h_mgr := h_mgr h; released := b; shouldGrace := shouldGrace h |}.

Definition with_live (b : bool) (t : Timer) :=
  {| t_callback := t_callback t; t_ms := t_ms t; t_live := b |}.

Definition with_done (b : bool) (c : PushCall) :=
  {| c_mgr := c_mgr c; c_fn := c_fn c; c_text := c_text c; c_done := b |}.

(** [this.<field> = ...] on the manager object [this]. *)
Definition assign (this : nat) (f : ThreadStatusManager → ThreadStatusManager)
    (w : World) : World :=
  set_objects (alter f this) w.

(** Run a method body that reads the fields of [this]. *)
Definition method (this : nat) (w : World) (body : ThreadStatusManager → World) : World :=
  match objects w !! this with
  | Some mg => body mg
  | None => w
  end.

(** [clearTimeout] / [clearInterval] *)
Definition clearTimer (t : nat) (w : World) : World :=
  set_timers (alter (with_live false) t) w.

(** [setTimeout] / [setInterval]: the new timer's reference is
    [length (timers w)]. *)
Definition setTimer (cb : TimerCallback) (ms : Z) (w : World) : World :=
  set_timers (alloc {| t_callback := cb; t_ms := ms; t_live := true |}) w.

Definition isActive (mg : ThreadStatusManager) : bool := bool_decide (0 < activeHandles mg).

Definition getFormattedStatus (mg : ThreadStatusManager) : option string :=
  match phase mg with
  | None => None
  | Some p => Some (formatStatus p (seconds mg))
  end.

(** [pushOnce] up to its [await]: nothing happens while a push is in
    flight; otherwise the flag is raised and [pushFn] is called. *)
Definition pushOnce (this : nat) (text : string) (w : World) : World :=
  method this w (λ mg,
    if pushing mg then w
    else
      let w1 := assign this (with_pushing true) w in
      set_calls (alloc {| c_mgr := this; c_fn := push (params mg);
                          c_text := text; c_done := false |}) w1).

(** [pushOnce] after its [await]: [catch] forwards a rejection to
    [onError], [finally] lowers the flag. *)
Definition push_settles (c : nat) (ok : bool) (w : World) : World :=
  match calls w !! c with
  | Some call =>
      if c_done call then w
      else
        let this := c_mgr call in
        let w1 := set_calls (alter (with_done true) c) w in
        method this w1 (λ mg,
          let w2 :=
            if ok then w1
            else match onError (params mg) with
                 | Some cb => set_onError_calls (alloc (cb, c)) w1
                 | None => w1
                 end in
          assign this (with_pushing false) w2)
  | None => w
  end.

Definition rePush (this : nat) (w : World) : World :=
  method this w (λ mg,
    match getFormattedStatus mg with
    | Some text => if bool_decide (text = "") then w else pushOnce this text w
    | None => w
    end).

Definition cancelGrace (this : nat) (w : World) : World :=
  method this w (λ mg,
    match graceTimer mg with
    | Some t => assign this (with_graceTimer None) (clearTimer t w)
    | None => w
    end).

Definition stopCounter (this : nat) (w : World) : World :=
  method this w (λ mg,
    match counterTimer mg with
    | Some t => assign this (with_counterTimer None) (clearTimer t w)
    | None => w
    end).

Definition forceDestroy (this : nat) (w : World) : World :=
  stopCounter this (cancelGrace this w).

Definition destroy (this : nat) (w : World) : World :=
  let w1 := stopCounter this (cancelGrace this w) in
  method this w1 (λ mg, set_managers (delete (key (params mg))) w1).

Definition stopAndDestroy (this : nat) (w : World) : World :=
  destroy this (stopCounter this w).

Definition setPhase (this : nat) (p : StatusPhase) (w : World) : World :=
  let w1 := assign this (with_phase (Some p) 0) w in
  let w2 := stopCounter this w1 in
  let w3 := pushOnce this (formatStatus p 0) w2 in
  match p with
  | reading => w3
  | _ =>
      let t := length (timers w3) in
      assign this (with_counterTimer (Some t)) (setTimer (CounterTick this) 1000 w3)
  end.

(** The callback of the counter's [setInterval].  [this.phase!] is not
    checked at run time: with no phase the label would print as
    [undefined]. *)
Definition counter_tick (this : nat) (w : World) : World :=
  let w1 := assign this (λ mg, with_phase (phase mg) (S (seconds mg)) mg) w in
  method this w1 (λ mg,
    let tickText :=
      match phase mg with
      | Some p => formatStatus p (seconds mg)
      | None => "undefined " ++ show_nat (seconds mg) ++ "s"
      end in
    pushOnce this tickText w1).

(** The callback of the grace [setTimeout]. *)
Definition grace_end (this : nat) (w : World) : World :=
  stopAndDestroy this (assign this (with_graceTimer None) w).

(** [graceResult] is [shouldGrace ? shouldGrace() : undefined]. *)
Definition releaseHandle (this : nat) (graceResult : option bool) (w : World) : World :=
  let w1 := assign this (λ mg, with_activeHandles (Z.max 0 (activeHandles mg - 1)) mg) w in
  method this w1 (λ mg,
    if bool_decide (0 < activeHandles mg) then w1
    else match phase mg with
         | None => destroy this w1
         | Some _ =>
             match graceResult with
             | Some false => stopAndDestroy this w1
             | _ =>
                 let w2 := stopCounter this w1 in
                 let t := length (timers w2) in
                 assign this (with_graceTimer (Some t))
                   (setTimer (GraceEnd this) (graceMs (params mg)) w2)
             end
         end).

(** [acquire]: the new handle's reference is [length (handles w)]. *)
Definition acquire (this : nat) (sg : option nat) (w : World) : World :=
  let w1 := assign this (λ mg, with_activeHandles (activeHandles mg + 1) mg) w in
  let w2 := cancelGrace this w1 in
  set_handles (alloc {| h_mgr := this; released := false; shouldGrace := sg |}) w2.

Record AcquireParams := {
  a_key : string;
  a_push : nat;
  a_graceMs : option Z;
  a_shouldGrace : option nat;
  a_onError : option nat;
}.

Definition new_ThreadStatusManager (p : ThreadStatusManagerParams) : ThreadStatusManager :=
  {| phase := None; seconds := 0; activeHandles := 0; counterTimer := None;
     graceTimer := None; pushing := false; params := p |}.

Definition acquireThreadStatus (a : AcquireParams) (w : World) : World :=
  match managers w !! a_key a with
  | Some mgr => acquire mgr (a_shouldGrace a) w
  | None =>
      let mgr := length (objects w) in
      let p := {| key := a_key a; push := a_push a;
                  graceMs := default 5000 (a_graceMs a); onError := a_onError a |} in
      let w1 := set_objects (alloc (new_ThreadStatusManager p)) w in
      let w2 := set_managers (<[a_key a := mgr]>) w1 in
      acquire mgr (a_shouldGrace a) w2
  end.

(** The three methods of a handle.  [answer] is what the handle's
    [shouldGrace] returns if it is called now. *)
Definition handle_setStatus (h : nat) (p : StatusPhase) (w : World) : World :=
  match handles w !! h with
  | Some hd => if released hd then w else setPhase (h_mgr hd) p w
  | None => w
  end.

Definition handle_pause (h : nat) (w : World) : World :=
  match handles w !! h with
  | Some hd => if released hd then w else stopCounter (h_mgr hd) w
  | None => w
  end.

Definition handle_release (h : nat) (answer : bool) (w : World) : World :=
  match handles w !! h with
  | Some hd =>
      if released hd then w
      else
        let w1 := set_handles (alter (with_released true) h) w in
        releaseHandle (h_mgr hd) (shouldGrace hd ≫= λ _, Some answer) w1
  | None => w
  end.

Definition isThreadActive (k : string) (w : World) : bool :=
  match managers w !! k ≫= λ m, objects w !! m with
  | Some mg => isActive mg
  | None => false
  end.

Definition getCurrentStatus (k : string) (w : World) : option string :=
  managers w !! k ≫= λ m, objects w !! m ≫= getFormattedStatus.

Definition pushCurrentStatus (k : string) (w : World) : World :=
  match managers w !! k with
  | Some mgr => rePush mgr w
  | None => w
  end.

(** [_resetAllManagers] (test support). *)
Definition _resetAllManagers (w : World) : World :=
  set_managers (λ _, ∅)
    (foldr (λ kv acc, forceDestroy kv.2 acc) w (map_to_list (managers w))).

(** A timer fires: an interval timer stays live, a timeout is spent. *)
Definition timer_fires (t : nat) (w : World) : World :=
  match timers w !! t with
  | Some tm =>
      if t_live tm then
        match t_callback tm with
        | CounterTick m => counter_tick m w
        | GraceEnd m => grace_end m (clearTimer t w)
        end
      else w
  | None => w
  end.

(** What can happen to the module: a caller uses one of its exported
    functions ([acquireThreadStatus], [pushCurrentStatus],
    [_resetAllManagers]) or a method of a handle, a timer fires, or a call
    of a push function settles. *)
Inductive event :=
| EAcquire (a : AcquireParams)
| ESetStatus (h : nat) (p : StatusPhase)
| EPause (h : nat)
| ERelease (h : nat) (answer : bool)
| EPushCurrent (k : string)
| ETimer (t : nat)
| ESettle (c : nat) (ok : bool)
| EReset.

Definition step (w : World) (e : event) : World :=
  match e with
  | EAcquire a => acquireThreadStatus a w
  | ESetStatus h p => handle_setStatus h p w
  | EPause h => handle_pause h w
  | ERelease h answer => handle_release h answer w
  | EPushCurrent k => pushCurrentStatus k w
  | ETimer t => timer_fires t w
  | ESettle c ok => push_settles c ok w
  | EReset => _resetAllManagers w
  end.

Definition run (evs : list event) : World := foldl step init evs.

Definition reachable (w : World) : Prop := ∃ evs, w = run evs.

(** Reachable without [_resetAllManagers], which is exported for tests
    only. *)
Definition reachable_without_reset (w : World) : Prop :=
  ∃ evs, (EReset ∉ evs) ∧ w = run evs.

(** A call of manager [m]'s push function that has not settled yet. *)
Definition in_flight (m : nat) (w : World) (c : nat) : Prop :=
  ∃ call, calls w !! c = Some call ∧ c_mgr call = m ∧ c_done call = false.

(** *** Invariants, frame relations and sample states *)

(** The invariant of the phase manager: [pushing] is raised exactly while
    a call is in flight, of which there is at most one per manager; no call
    carried the empty string; a registered manager is an object of the
    store, under its own key; the handle counter is not negative. *)
Record inv (w : World) : Prop := {
  inv_gate_unique : ∀ m c1 c2, in_flight m w c1 → in_flight m w c2 → c1 = c2;
  inv_gate_flag : ∀ m c, in_flight m w c →
    ∃ mg, objects w !! m = Some mg ∧ pushing mg = true;
  inv_flag_gate : ∀ m mg, objects w !! m = Some mg → pushing mg = true →
    ∃ c, in_flight m w c;
  inv_text : ∀ c call, calls w !! c = Some call → c_text call ≠ "";
  inv_key : ∀ k m, managers w !! k = Some m →
    ∃ mg, objects w !! m = Some mg ∧ key (params mg) = k;
  inv_nonneg : ∀ m mg, objects w !! m = Some mg → 0 ≤ activeHandles mg;
}.

(** A field assignment that leaves the push flag and the parameters alone. *)
Definition quiet (f : ThreadStatusManager → ThreadStatusManager) : Prop :=
  ∀ mg, pushing (f mg) = pushing mg ∧ params (f mg) = params mg ∧
        (0 ≤ activeHandles mg → 0 ≤ activeHandles (f mg)).

(** The manager objects of [w] are still there in [w'], with the
    parameters they were constructed with. *)
Definition keeps_params (w w' : World) : Prop :=
  ∀ m mg, objects w !! m = Some mg →
    ∃ mg', objects w' !! m = Some mg' ∧ params mg' = params mg.

(** A caller of [acquireThreadStatus] for thread ["K"] that passes a
    [shouldGrace] callback and leaves [graceMs] to its default. *)
Definition sample_acquire : AcquireParams :=
  {| a_key := "K"; a_push := 7; a_graceMs := None; a_shouldGrace := Some 3%nat;
     a_onError := None |}.

(** One holder that has set the phase [thinking]; the first push has been
    delivered. *)
Definition thinking_shown : World :=
  run [EAcquire sample_acquire; ESetStatus 0 thinking; ESettle 0 true].

(** The same holder with its first push still in flight. *)
Definition thinking_in_flight : World :=
  run [EAcquire sample_acquire; ESetStatus 0 thinking].

(** The state after the events [evs], starting from [w]. *)
Definition run_from (w : World) (evs : list event) : World := foldl step w evs.

(** A later caller for thread ["K"] with a different push function, grace
    time and error handler. *)
Definition other_acquire : AcquireParams :=
  {| a_key := "K"; a_push := 9; a_graceMs := Some 1; a_shouldGrace := Some 3%nat;
     a_onError := Some 4%nat |}.

(** *** Housekeeping invariant and counter relations *)

(** A handle of manager [m] that has not been released. *)
Definition is_live (m : nat) (hd : ThreadStatusHandle) : Prop :=
  h_mgr hd = m ∧ released hd = false.

#[export] Instance is_live_decision m hd : Decision (is_live m hd).
Proof. unfold is_live. apply _. Defined.

Definition live_handles (m : nat) (hs : list ThreadStatusHandle) : nat :=
  length (filter (is_live m) hs).

(** A manager that holds nothing: no handle and no timer. *)
Definition dormant (mg : ThreadStatusManager) : Prop :=
  activeHandles mg = 0 ∧ graceTimer mg = None ∧ counterTimer mg = None.

(** The housekeeping invariant of the phase manager: the counter counts the
    unreleased handles; a timer is live exactly while its manager remembers
    it; a pending grace timer belongs to an idle manager whose counter is
    stopped; a registered manager sits under its own key.  The [strict]
    invariant adds that a manager that is not registered holds nothing: it
    is kept by everything but [_resetAllManagers], which empties the
    registry under the holders of handles. *)
Record hygiene (strict : bool) (w : World) : Prop := {
  hy_count : ∀ m mg, objects w !! m = Some mg →
    activeHandles mg = Z.of_nat (live_handles m (handles w));
  hy_handle_mgr : ∀ h hd, handles w !! h = Some hd → is_Some (objects w !! h_mgr hd);
  hy_grace : ∀ m mg t, objects w !! m = Some mg → graceTimer mg = Some t →
    ∃ tm, timers w !! t = Some tm ∧ t_live tm = true ∧ t_callback tm = GraceEnd m;
  hy_grace_timer : ∀ t tm m, timers w !! t = Some tm → t_live tm = true →
    t_callback tm = GraceEnd m → ∃ mg, objects w !! m = Some mg ∧ graceTimer mg = Some t;
  hy_counter : ∀ m mg t, objects w !! m = Some mg → counterTimer mg = Some t →
    ∃ tm, timers w !! t = Some tm ∧ t_live tm = true ∧ t_callback tm = CounterTick m;
  hy_counter_timer : ∀ t tm m, timers w !! t = Some tm → t_live tm = true →
    t_callback tm = CounterTick m →
    ∃ mg, objects w !! m = Some mg ∧ counterTimer mg = Some t;
  hy_idle : ∀ m mg, objects w !! m = Some mg → is_Some (graceTimer mg) →
    activeHandles mg = 0 ∧ counterTimer mg = None ∧ is_Some (phase mg);
  hy_key : ∀ k m, managers w !! k = Some m →
    ∃ mg, objects w !! m = Some mg ∧ key (params mg) = k;
  hy_registered : strict = true → ∀ m mg, objects w !! m = Some mg →
    managers w !! key (params mg) = Some m ∨ dormant mg;
}.

(** What one manager shows and how its counter stands. *)
Definition shows (m : nat) (p : StatusPhase) (s : nat) (t : nat) (w : World) : Prop :=
  ∃ mg, objects w !! m = Some mg ∧ phase mg = Some p ∧ seconds mg = s ∧
        counterTimer mg = Some t ∧
        ∃ tm, timers w !! t = Some tm ∧ t_live tm = true ∧ t_callback tm = CounterTick m.

(** A call of manager [m] whose text is a status of phase [p] with a count
    of at most [n]. *)
Definition counts_upto (m : nat) (p : StatusPhase) (n : nat) (call : PushCall) : Prop :=
  c_mgr call = m ∧ c_done call = false ∧
  ∃ i, (i ≤ n)%nat ∧ c_text call = formatStatus p i.

(** The call log of [w'] is that of [w] followed by such calls. *)
Definition pushes_counts (m : nat) (p : StatusPhase) (n : nat) (w w' : World) : Prop :=
  ∃ news, calls w' = (calls w ++ news)%list ∧ Forall (counts_upto m p n) news.

(** From index [base] on, the call log of [w] holds calls of manager [m]
    that show phase [p] with a count of at most [n]. *)
Definition counted (m : nat) (p : StatusPhase) (n base : nat) (w : World) : Prop :=
  (base ≤ length (calls w))%nat ∧
  ∀ c call, calls w !! c = Some call → (base ≤ c)%nat →
    c_mgr call = m ∧ ∃ i, (i ≤ n)%nat ∧ c_text call = formatStatus p i.

(** How often timer [t] fires in a trace. *)
Definition is_tick (t : nat) (e : event) : bool :=
  match e with
  | ETimer t' => bool_decide (t' = t)
  | _ => false
  end.

Definition ticks (t : nat) (evs : list event) : nat := length (filter (is_tick t) evs).

End PhaseStatus.

(** * The text status manager (slack/threading-tool-context.ts, second part) *)

Module TextStatus.

Record ThreadStatusManagerParams := {
  key : string;
  push : nat;
  pushIntervalMs : Z;
  graceMs : Z;
  graceText : string;
  onError : option nat;
}.

Record ThreadStatusManager := {
  currentText : string;
  activeHandles : Z;
  pushTimer : option nat;
  graceTimer : option nat;
  pushing : bool;
  params : ThreadStatusManagerParams;
}.

Record ThreadStatusHandle := {
  h_mgr : nat;
  released : bool;
  shouldGrace : option nat;
}.

Inductive TimerCallback := PushTick (m : nat) | GraceEnd (m : nat).

Record Timer := { t_callback : TimerCallback; t_ms : Z; t_live : bool }.

(** Which method called [pushFn]: [pushTick], or [pushOnce] whose promise
    carries [.finally(() => this.stopAndDestroy())]. *)
Inductive CallSite := ByPushTick | ByPushOnce.

Record PushCall := {
  c_mgr : nat;
  c_fn : nat;
  c_text : string;
  c_site : CallSite;
  c_done : bool;
}.

Record World := {
  managers : gmap string nat;
  objects : list ThreadStatusManager;
  handles : list ThreadStatusHandle;
  timers : list Timer;
  calls : list PushCall;
  onError_calls : list (nat * nat);
}.

Definition init : World :=
  {| managers := ∅; objects := []; handles := []; timers := []; calls := [];
     onError_calls := [] |}.

Definition set_managers (f : gmap string nat → gmap string nat) (w : World) : World :=
  {| managers := f (managers w); objects := objects w; handles := handles w;
     timers := timers w; calls := calls w; onError_calls := onError_calls w |}.

Definition set_objects (f : list ThreadStatusManager → list ThreadStatusManager)
    (w : World) : World :=
  {| managers := managers w; objects := f (objects w); handles := handles w;
     timers := timers w; calls := calls w; onError_calls := onError_calls w |}.

Definition set_handles (f : list ThreadStatusHandle → list ThreadStatusHandle)
    (w : World) : World :=
  {| managers := managers w; objects := objects w; handles := f (handles w);
     timers := timers w; calls := calls w; onError_calls := onError_calls w |}.

Definition set_timers (f : list Timer → list Timer) (w : World) : World :=
  {| managers := managers w; objects := objects w; handles := handles w;
     timers := f (timers w); calls := calls w; onError_calls := onError_calls w |}.

Definition set_calls (f : list PushCall → list PushCall) (w : World) : World :=
  {| managers := managers w; objects := objects w; handles := handles w;
     timers := timers w; calls := f (calls w); onError_calls := onError_calls w |}.

Definition set_onError_calls (f : list (nat * nat) → list (nat * nat)) (w : World) : World :=
  {| managers := managers w; objects := objects w; handles := handles w;
     timers := timers w; calls := calls w; onError_calls := f (onError_calls w) |}.

Definition with_currentText (s : string) (mg : ThreadStatusManager) :=
  {| currentText := s; activeHandles := activeHandles mg; pushTimer := pushTimer mg;
     graceTimer := graceTimer mg; pushing := pushing mg; params := params mg |}.

Definition with_activeHandles (n : Z) (mg : ThreadStatusManager) :=
  {| currentText := currentText mg; activeHandles := n; pushTimer := pushTimer mg;
     graceTimer := graceTimer mg; pushing := pushing mg; params := params mg |}.

Definition with_pushTimer (t : option nat) (mg : ThreadStatusManager) :=
  {| currentText := currentText mg; activeHandles := activeHandles mg; pushTimer := t;
     graceTimer := graceTimer mg; pushing := pushing mg; params := params mg |}.

Definition with_graceTimer (t : option nat) (mg : ThreadStatusManager) :=
  {| currentText := currentText mg; activeHandles := activeHandles mg;
     pushTimer := pushTimer mg; graceTimer := t; pushing := pushing mg;
     params := params mg |}.

Definition with_pushing (b : bool) (mg : ThreadStatusManager) :=
  {| currentText := currentText mg; activeHandles := activeHandles mg;
     pushTimer := pushTimer mg; graceTimer := graceTimer mg; pushing := b;
     params := params mg |}.

Definition with_released (b : bool) (h : ThreadStatusHandle) :=
  {| h_mgr := h_mgr h; released := b; shouldGrace := shouldGrace h |}.

Definition with_live (b : bool) (t : Timer) :=
  {| t_callback := t_callback t; t_ms := t_ms t; t_live := b |}.

Definition with_done (b : bool) (c : PushCall) :=
  {| c_mgr := c_mgr c; c_fn := c_fn c; c_text := c_text c; c_site := c_site c;
     c_done := b |}.

Definition assign (this : nat) (f : ThreadStatusManager → ThreadStatusManager)
    (w : World) : World :=
  set_objects (alter f this) w.

Definition method (this : nat) (w : World) (body : ThreadStatusManager → World) : World :=
  match objects w !! this with
  | Some mg => body mg
  | None => w
  end.

Definition clearTimer (t : nat) (w : World) : World :=
  set_timers (alter (with_live false) t) w.

Definition setTimer (cb : TimerCallback) (ms : Z) (w : World) : World :=
  set_timers (alloc {| t_callback := cb; t_ms := ms; t_live := true |}) w.

Definition call_pushFn (this : nat) (text : string) (site : CallSite) (w : World) : World :=
  method this w (λ mg,
    set_calls (alloc {| c_mgr := this; c_fn := push (params mg); c_text := text;
                        c_site := site; c_done := false |}) w).

(** [pushTick] up to its [await]. *)
Definition pushTick (this : nat) (w : World) : World :=
  method this w (λ mg,
    if pushing mg then w
    else call_pushFn this (currentText mg) ByPushTick (assign this (with_pushing true) w)).

(** [pushOnce] up to its [await]: no in-flight guard here. *)
Definition pushOnce (this : nat) (text : string) (w : World) : World :=
  call_pushFn this text ByPushOnce w.

Definition cancelGrace (this : nat) (w : World) : World :=
  method this w (λ mg,
    match graceTimer mg with
    | Some t => assign this (with_graceTimer None) (clearTimer t w)
    | None => w
    end).

Definition stopLoop (this : nat) (w : World) : World :=
  method this w (λ mg,
    match pushTimer mg with
    | Some t => assign this (with_pushTimer None) (clearTimer t w)
    | None => w
    end).

Definition forceDestroy (this : nat) (w : World) : World :=
  stopLoop this (cancelGrace this w).

Definition destroy (this : nat) (w : World) : World :=
  let w1 := stopLoop this (cancelGrace this w) in
  method this w1 (λ mg, set_managers (delete (key (params mg))) w1).

Definition stopAndDestroy (this : nat) (w : World) : World :=
  destroy this (stopLoop this w).

Definition report_error (this c : nat) (ok : bool) (w : World) : World :=
  if ok then w
  else method this w (λ mg,
         match onError (params mg) with
         | Some cb => set_onError_calls (alloc (cb, c)) w
         | None => w
         end).

(** What runs when the promise of call [c] settles: the rest of [pushTick]
    ([catch], then [finally] lowers the flag), or the rest of [pushOnce]
    ([catch]) followed by the [.finally] its caller chained. *)
Definition push_settles (c : nat) (ok : bool) (w : World) : World :=
  match calls w !! c with
  | Some call =>
      if c_done call then w
      else
        let this := c_mgr call in
        let w1 := report_error this c ok (set_calls (alter (with_done true) c) w) in
        match c_site call with
        | ByPushTick => assign this (with_pushing false) w1
        | ByPushOnce => stopAndDestroy this w1
        end
  | None => w
  end.

Definition startPushLoop (this : nat) (w : World) : World :=
  let w1 := pushTick this w in
  method this w1 (λ mg,
    let t := length (timers w1) in
    assign this (with_pushTimer (Some t))
      (setTimer (PushTick this) (pushIntervalMs (params mg)) w1)).

(** The callback of the grace [setTimeout]. *)
Definition grace_end (this : nat) (w : World) : World :=
  let w1 := assign this (with_graceTimer None) w in
  let w2 := assign this (with_currentText "") w1 in
  pushOnce this "" w2.

Definition releaseHandle (this : nat) (graceResult : option bool) (w : World) : World :=
  let w1 := assign this (λ mg, with_activeHandles (Z.max 0 (activeHandles mg - 1)) mg) w in
  method this w1 (λ mg,
    if bool_decide (0 < activeHandles mg) then w1
    else match pushTimer mg with
         | None => destroy this w1
         | Some _ =>
             match graceResult with
             | Some false =>
                 pushOnce this "" (assign this (with_currentText "") w1)
             | _ =>
                 let w2 := assign this (with_currentText (graceText (params mg))) w1 in
                 let t := length (timers w2) in
                 assign this (with_graceTimer (Some t))
                   (setTimer (GraceEnd this) (graceMs (params mg)) w2)
             end
         end).

Definition acquire (this : nat) (sg : option nat) (w : World) : World :=
  let w1 := assign this (λ mg, with_activeHandles (activeHandles mg + 1) mg) w in
  let w2 := cancelGrace this w1 in
  set_handles (alloc {| h_mgr := this; released := false; shouldGrace := sg |}) w2.

Record AcquireParams := {
  a_key : string;
  a_push : nat;
  a_pushIntervalMs : option Z;
  a_graceMs : option Z;
  a_graceText : option string;
  a_shouldGrace : option nat;
  a_onError : option nat;
}.

Definition new_ThreadStatusManager (p : ThreadStatusManagerParams) : ThreadStatusManager :=
  {| currentText := ""; activeHandles := 0; pushTimer := None; graceTimer := None;
     pushing := false; params := p |}.

Definition acquireThreadStatus (a : AcquireParams) (w : World) : World :=
  match managers w !! a_key a with
  | Some mgr => acquire mgr (a_shouldGrace a) w
  | None =>
      let mgr := length (objects w) in
      let p := {| key := a_key a; push := a_push a;
                  pushIntervalMs := default 100 (a_pushIntervalMs a);
                  graceMs := default 5000 (a_graceMs a);
                  graceText := default "is thinking..." (a_graceText a);
                  onError := a_onError a |} in
      let w1 := set_objects (alloc (new_ThreadStatusManager p)) w in
      let w2 := set_managers (<[a_key a := mgr]>) w1 in
      acquire mgr (a_shouldGrace a) w2
  end.

Definition handle_setStatus (h : nat) (text : string) (w : World) : World :=
  match handles w !! h with
  | Some hd =>
      if released hd then w
      else
        let this := h_mgr hd in
        let w1 := assign this (with_currentText text) w in
        method this w1 (λ mg,
          if negb (bool_decide (text = "")) && negb (bool_decide (is_Some (pushTimer mg)))
          then startPushLoop this w1 else w1)
  | None => w
  end.

Definition handle_release (h : nat) (answer : bool) (w : World) : World :=
  match handles w !! h with
  | Some hd =>
      if released hd then w
      else
        let w1 := set_handles (alter (with_released true) h) w in
        releaseHandle (h_mgr hd) (shouldGrace hd ≫= λ _, Some answer) w1
  | None => w
  end.

(** [_resetAllManagers] (test support). *)
Definition _resetAllManagers (w : World) : World :=
  set_managers (λ _, ∅)
    (foldr (λ kv acc, forceDestroy kv.2 acc) w (map_to_list (managers w))).

Definition timer_fires (t : nat) (w : World) : World :=
  match timers w !! t with
  | Some tm =>
      if t_live tm then
        match t_callback tm with
        | PushTick m => pushTick m w
        | GraceEnd m => grace_end m (clearTimer t w)
        end
      else w
  | None => w
  end.

Inductive event :=
| EAcquire (a : AcquireParams)
| ESetStatus (h : nat) (text : string)
| ERelease (h : nat) (answer : bool)
| ETimer (t : nat)
| ESettle (c : nat) (ok : bool).

Definition step (w : World) (e : event) : World :=
  match e with
  | EAcquire a => acquireThreadStatus a w
  | ESetStatus h text => handle_setStatus h text w
  | ERelease h answer => handle_release h answer w
  | ETimer t => timer_fires t w
  | ESettle c ok => push_settles c ok w
  end.

Definition run (evs : list event) : World := foldl step init evs.

Definition reachable (w : World) : Prop := ∃ evs, w = run evs.

Definition in_flight (m : nat) (w : World) (c : nat) : Prop :=
  ∃ call, calls w !! c = Some call ∧ c_mgr call = m ∧ c_done call = false.

Definition tick_in_flight (m : nat) (w : World) (c : nat) : Prop :=
  ∃ call, calls w !! c = Some call ∧ c_mgr call = m ∧ c_done call = false ∧
          c_site call = ByPushTick.

(** *** Invariants, frame relations and sample states *)

(** The tick gate: [pushing] is raised exactly while a [pushTick] call is in
    flight, and there is at most one such call per manager. *)
Record gate_inv (w : World) : Prop := {
  gate_unique : ∀ m c1 c2, tick_in_flight m w c1 → tick_in_flight m w c2 → c1 = c2;
  gate_flag : ∀ m c, tick_in_flight m w c →
    ∃ mg, objects w !! m = Some mg ∧ pushing mg = true;
  flag_gate : ∀ m mg, objects w !! m = Some mg → pushing mg = true →
    ∃ c, tick_in_flight m w c;
}.

(** A handle of manager [m] that has not been released. *)
Definition is_live (m : nat) (hd : ThreadStatusHandle) : Prop :=
  h_mgr hd = m ∧ released hd = false.

#[export] Instance is_live_dec m hd : Decision (is_live m hd).
Proof. unfold is_live. apply _. Defined.

Definition live_handles (m : nat) (hs : list ThreadStatusHandle) : nat :=
  length (filter (is_live m) hs).

(** The life-cycle invariant: the counter counts the unreleased handles, a
    pending grace timer belongs to an idle manager showing [graceText], and
    every live grace timer is the one its manager remembers. *)
Record life_inv (w : World) : Prop := {
  life_count : ∀ m mg, objects w !! m = Some mg →
    activeHandles mg = Z.of_nat (live_handles m (handles w));
  life_handle_mgr : ∀ h hd, handles w !! h = Some hd → is_Some (objects w !! h_mgr hd);
  life_grace : ∀ m mg t, objects w !! m = Some mg → graceTimer mg = Some t →
    currentText mg = graceText (params mg) ∧
    ∃ tm, timers w !! t = Some tm ∧ t_live tm = true ∧ t_callback tm = GraceEnd m;
  life_grace_timer : ∀ t tm m, timers w !! t = Some tm → t_live tm = true →
    t_callback tm = GraceEnd m → ∃ mg, objects w !! m = Some mg ∧ graceTimer mg = Some t;
  life_push_timer : ∀ m mg t, objects w !! m = Some mg → pushTimer mg = Some t →
    ∃ tm, timers w !! t = Some tm ∧ t_callback tm = PushTick m;
  life_idle : ∀ m mg, objects w !! m = Some mg → is_Some (graceTimer mg) →
    activeHandles mg = 0;
}.

(** Every registered manager is an object of the store, under its own key. *)
Record reg_inv (w : World) : Prop := {
  reg_key : ∀ k m, managers w !! k = Some m →
    ∃ mg, objects w !! m = Some mg ∧ key (params mg) = k;
}.

(** The parameters of a manager never change. *)
Definition keeps_params (w w' : World) : Prop :=
  ∀ m mg, objects w !! m = Some mg →
    ∃ mg', objects w' !! m = Some mg' ∧ params mg' = params mg.

(** Why a step made a new call of a manager's push function. *)
Inductive call_cause (w : World) (e : event) (call : PushCall) : Prop :=
| cause_tick t tm mg :
    e = ETimer t → timers w !! t = Some tm → t_live tm = true →
    t_callback tm = PushTick (c_mgr call) →
    objects w !! c_mgr call = Some mg → c_text call = currentText mg →
    call_cause w e call
| cause_grace_end t tm :
    e = ETimer t → timers w !! t = Some tm → t_live tm = true →
    t_callback tm = GraceEnd (c_mgr call) → c_text call = "" →
    call_cause w e call
| cause_setStatus h text hd :
    e = ESetStatus h text → handles w !! h = Some hd → released hd = false →
    h_mgr hd = c_mgr call → c_text call = text → text ≠ "" →
    call_cause w e call
| cause_release h answer hd mg :
    e = ERelease h answer → handles w !! h = Some hd → released hd = false →
    h_mgr hd = c_mgr call → objects w !! c_mgr call = Some mg →
    activeHandles mg ≤ 1 → shouldGrace hd ≫= (λ _, Some answer) = Some false →
    c_text call = "" →
    call_cause w e call.



(** A timer reference, once forgotten, is never remembered again. *)
Definition no_revive (t m : nat) (w w' : World) : Prop :=
  (length (timers w) ≤ length (timers w'))%nat ∧
  ∀ mg', objects w' !! m = Some mg' → graceTimer mg' = Some t →
    (∃ mg, objects w !! m = Some mg ∧ graceTimer mg = Some t) ∨
    (length (timers w) ≤ t)%nat.

(** The grace timer [t] of manager [m] is pending. *)
Definition pending_grace (m t : nat) (w : World) : Prop :=
  ∃ mg, objects w !! m = Some mg ∧ graceTimer mg = Some t.



(** The state after the events [evs], starting from [w]. *)
Definition run_from (w : World) (evs : list event) : World := foldl step w evs.

(** What each kind of event does to the call log: nothing, or one new
    call that has not settled. *)
Definition one_call_more (w w' : World) : Prop :=
  calls w' = calls w ∨ ∃ x, c_done x = false ∧ calls w' = alloc x (calls w).

(** A caller of [acquireThreadStatus] for thread ["K"] that passes a
    [shouldGrace] callback and leaves the rest to the defaults. *)
Definition sample_acquire : AcquireParams :=
  {| a_key := "K"; a_push := 7; a_pushIntervalMs := None; a_graceMs := None;
     a_graceText := None; a_shouldGrace := Some 3%nat; a_onError := None |}.


(** One holder has set a status; the first push of the loop is in flight. *)
Definition status_in_flight : World :=
  run [EAcquire sample_acquire; ESetStatus 0 "x"].

(** The holder released with [shouldGrace() = true]: grace timer 1 is
    armed (timer 0 is the push loop). *)
Definition grace_started (a : AcquireParams) : World :=
  run [EAcquire a; ESetStatus 0 "x"; ESettle 0 true; ERelease 0 true].

(** The holder releases with [shouldGrace() = false] while the clearing
    push is slow; a second dispatch acquires the key before that push
    settles. *)
Definition reacquired_before_clear_settles : list event :=
  [EAcquire sample_acquire; ESetStatus 0 "x"; ERelease 0 false;
   EAcquire sample_acquire; ESettle 1 true].

(** A later caller for thread ["K"] with a different push function,
    interval, grace time, grace text and error handler. *)
Definition other_acquire : AcquireParams :=
  {| a_key := "K"; a_push := 9; a_pushIntervalMs := Some 1; a_graceMs := Some 1;
     a_graceText := Some "one moment"; a_shouldGrace := Some 3%nat;
     a_onError := Some 4%nat |}.

(** *** Error-log and push-loop invariants *)

(** What the [onError] log records: every entry names a settled call and
    the [onError] callback of the manager that made it, and no call is
    reported twice. *)
Record err_inv (w : World) : Prop := {
  err_entry : ∀ i cb c, onError_calls w !! i = Some (cb, c) →
    ∃ call mg, calls w !! c = Some call ∧ c_done call = true ∧
               objects w !! c_mgr call = Some mg ∧ onError (params mg) = Some cb;
  err_once : NoDup (onError_calls w).*2;
}.

(** The push-loop invariant: a manager's [pushTimer] is a live interval
    timer that ticks for it, every live interval timer is the one its
    manager remembers, and a remembered grace timer is a timeout. *)
Record loop_inv (w : World) : Prop := {
  loop_live : ∀ m mg t, objects w !! m = Some mg → pushTimer mg = Some t →
    ∃ tm, timers w !! t = Some tm ∧ t_live tm = true ∧ t_callback tm = PushTick m;
  loop_timer : ∀ t tm m, timers w !! t = Some tm → t_live tm = true →
    t_callback tm = PushTick m → ∃ mg, objects w !! m = Some mg ∧ pushTimer mg = Some t;
  loop_grace : ∀ m mg t, objects w !! m = Some mg → graceTimer mg = Some t →
    ∃ tm m', timers w !! t = Some tm ∧ t_callback tm = GraceEnd m';
}.

End TextStatus.

(** * The typing controller (createTypingController) *)

Module Typing.

Inductive Phase := ph_thinking | ph_typing.

#[global] Instance Phase_eq_dec : EqDecision Phase.
Proof. solve_decision. Defined.

(** The parameters of [createTypingController] after their defaults: which
    optional callbacks were given, and the numbers (whole seconds and
    milliseconds). *)
Record Params := {
  has_onReplyStart : bool;
  has_onCleanup : bool;
  has_onPhaseChange : bool;
  has_log : bool;
  typingIntervalSeconds : Z;
  typingTtlMs : Z;
  silentToken : string;
}.

(** One invocation of an injected callback. *)
Inductive Callback :=
| CbReplyStart
| CbCleanup
| CbPhaseChange (p : Phase)
| CbLog (message : string).

Inductive TimerKind := TriggerInterval | TtlTimeout.

(** [t_ms] is the delay the timer was armed with; [timer_duration] gives
    the time the runtime makes of it. *)
Record Timer := { t_kind : TimerKind; t_ms : Z; t_live : bool }.

(** An [async] loop starter parked at [await ensureStart()]: when it
    resumes it arms the trigger interval.  [on_call] tells whether it waits
    for a call of [onReplyStart] (which may reject) or only for a
    microtask turn. *)
Record Parked := { on_call : bool; p_done : bool }.

Record Controller := {
  started : bool;
  active : bool;
  runComplete : bool;
  dispatchIdle : bool;
  transitioning : bool;
  sealed : bool;
  phase : option Phase;
  typingTimer : option nat;
  typingTtlTimer : option nat;
  timers : list Timer;
  parked : list Parked;
  invoked : list Callback;
}.

Definition create : Controller :=
  {| started := false; active := false; runComplete := false; dispatchIdle := false;
     transitioning := false; sealed := false; phase := None; typingTimer := None;
     typingTtlTimer := None; timers := []; parked := []; invoked := [] |}.

Definition with_started (b : bool) (s : Controller) : Controller :=
  {| started := b; active := active s; runComplete := runComplete s;
     dispatchIdle := dispatchIdle s; transitioning := transitioning s; sealed := sealed s;
     phase := phase s; typingTimer := typingTimer s; typingTtlTimer := typingTtlTimer s;
     timers := timers s; parked := parked s; invoked := invoked s |}.

Definition with_active (b : bool) (s : Controller) : Controller :=
  {| started := started s; active := b; runComplete := runComplete s;
     dispatchIdle := dispatchIdle s; transitioning := transitioning s; sealed := sealed s;
     phase := phase s; typingTimer := typingTimer s; typingTtlTimer := typingTtlTimer s;
     timers := timers s; parked := parked s; invoked := invoked s |}.

Definition with_runComplete (b : bool) (s : Controller) : Controller :=
  {| started := started s; active := active s; runComplete := b;
     dispatchIdle := dispatchIdle s; transitioning := transitioning s; sealed := sealed s;
     phase := phase s; typingTimer := typingTimer s; typingTtlTimer := typingTtlTimer s;
     timers := timers s; parked := parked s; invoked := invoked s |}.

Definition with_dispatchIdle (b : bool) (s : Controller) : Controller :=
  {| started := started s; active := active s; runComplete := runComplete s;
     dispatchIdle := b; transitioning := transitioning s; sealed := sealed s;
     phase := phase s; typingTimer := typingTimer s; typingTtlTimer := typingTtlTimer s;
     timers := timers s; parked := parked s; invoked := invoked s |}.

Definition with_transitioning (b : bool) (s : Controller) : Controller :=
  {| started := started s; active := active s; runComplete := runComplete s;
     dispatchIdle := dispatchIdle s; transitioning := b; sealed := sealed s;
     phase := phase s; typingTimer := typingTimer s; typingTtlTimer := typingTtlTimer s;
     timers := timers s; parked := parked s; invoked := invoked s |}.

Definition with_sealed (b : bool) (s : Controller) : Controller :=
  {| started := started s; active := active s; runComplete := runComplete s;
     dispatchIdle := dispatchIdle s; transitioning := transitioning s; sealed := b;
     phase := phase s; typingTimer := typingTimer s; typingTtlTimer := typingTtlTimer s;
     timers := timers s; parked := parked s; invoked := invoked s |}.

Definition with_phase (p : option Phase) (s : Controller) : Controller :=
  {| started := started s; active := active s; runComplete := runComplete s;
     dispatchIdle := dispatchIdle s; transitioning := transitioning s; sealed := sealed s;
     phase := p; typingTimer := typingTimer s; typingTtlTimer := typingTtlTimer s;
     timers := timers s; parked := parked s; invoked := invoked s |}.

Definition with_typingTimer (t : option nat) (s : Controller) : Controller :=
  {| started := started s; active := active s; runComplete := runComplete s;
     dispatchIdle := dispatchIdle s; transitioning := transitioning s; sealed := sealed s;
     phase := phase s; typingTimer := t; typingTtlTimer := typingTtlTimer s;
     timers := timers s; parked := parked s; invoked := invoked s |}.

Definition with_typingTtlTimer (t : option nat) (s : Controller) : Controller :=
  {| started := started s; active := active s; runComplete := runComplete s;
     dispatchIdle := dispatchIdle s; transitioning := transitioning s; sealed := sealed s;
     phase := phase s; typingTimer := typingTimer s; typingTtlTimer := t;
     timers := timers s; parked := parked s; invoked := invoked s |}.

Definition set_timers (f : list Timer → list Timer) (s : Controller) : Controller :=
  {| started := started s; active := active s; runComplete := runComplete s;
     dispatchIdle := dispatchIdle s; transitioning := transitioning s; sealed := sealed s;
     phase := phase s; typingTimer := typingTimer s; typingTtlTimer := typingTtlTimer s;
     timers := f (timers s); parked := parked s; invoked := invoked s |}.

Definition set_parked (f : list Parked → list Parked) (s : Controller) : Controller :=
  {| started := started s; active := active s; runComplete := runComplete s;
     dispatchIdle := dispatchIdle s; transitioning := transitioning s; sealed := sealed s;
     phase := phase s; typingTimer := typingTimer s; typingTtlTimer := typingTtlTimer s;
     timers := timers s; parked := f (parked s); invoked := invoked s |}.

Definition invoke (cb : Callback) (s : Controller) : Controller :=
  {| started := started s; active := active s; runComplete := runComplete s;
     dispatchIdle := dispatchIdle s; transitioning := transitioning s; sealed := sealed s;
     phase := phase s; typingTimer := typingTimer s; typingTtlTimer := typingTtlTimer s;
     timers := timers s; parked := parked s; invoked := alloc cb (invoked s) |}.

(** [cb?.(...)]: the call happens only when the callback was given. *)
Definition invoke_opt (given : bool) (cb : Callback) (s : Controller) : Controller :=
  if given then invoke cb s else s.

Definition with_live (b : bool) (t : Timer) : Timer :=
  {| t_kind := t_kind t; t_ms := t_ms t; t_live := b |}.

Definition with_done (b : bool) (p : Parked) : Parked :=
  {| on_call := on_call p; p_done := b |}.

Definition clearTimer (t : nat) (s : Controller) : Controller :=
  set_timers (alter (with_live false) t) s.

Definition setTimer (k : TimerKind) (ms : Z) (s : Controller) : Controller :=
  set_timers (alloc {| t_kind := k; t_ms := ms; t_live := true |}) s.

Definition show_Z (z : Z) : string := NilZero.string_of_int (Z.to_int z).

Definition formatTypingTtl (ms : Z) : string :=
  if bool_decide (ms mod 60000 = 0) then show_Z (ms / 60000) ++ "m"
  else show_Z ((ms + 500) / 1000) ++ "s".

Section Controller.

(** [String.prototype.trim], and [isSilentReplyText] of tokens.js, which is
    not part of the sources at hand. *)
Variable trim : string → string.
Variable isSilentReplyText : string → string → bool.
Variable cfg : Params.

Definition typingIntervalMs : Z := typingIntervalSeconds cfg * 1000.

Definition resetCycle (s : Controller) : Controller :=
  with_phase None
    (with_transitioning false
       (with_dispatchIdle false
          (with_runComplete false (with_active false (with_started false s))))).

Definition clear_typingTtlTimer (s : Controller) : Controller :=
  match typingTtlTimer s with
  | Some t => with_typingTtlTimer None (clearTimer t s)
  | None => s
  end.

Definition clear_typingTimer (s : Controller) : Controller :=
  match typingTimer s with
  | Some t => with_typingTimer None (clearTimer t s)
  | None => s
  end.

Definition cleanup (s : Controller) : Controller :=
  if sealed s then s
  else
    let s1 := clear_typingTtlTimer s in
    let s2 := clear_typingTimer s1 in
    let s3 := if active s2 then invoke_opt (has_onCleanup cfg) CbCleanup s2 else s2 in
    with_sealed true (resetCycle s3).

Definition refreshTypingTtl (s : Controller) : Controller :=
  if sealed s then s
  else if bool_decide (typingIntervalMs = 0) || bool_decide (typingIntervalMs ≤ 0) then s
  else if bool_decide (typingTtlMs cfg ≤ 0) then s
  else
    let s1 := match typingTtlTimer s with
              | Some t => clearTimer t s
              | None => s
              end in
    let t := length (timers s1) in
    with_typingTtlTimer (Some t) (setTimer TtlTimeout (typingTtlMs cfg) s1).

(** The callback of the TTL [setTimeout]. *)
Definition ttl_expires (s : Controller) : Controller :=
  match typingTimer s with
  | None => s
  | Some _ =>
      cleanup
        (invoke_opt (has_log cfg)
           (CbLog ("typing TTL reached (" ++ formatTypingTtl (typingTtlMs cfg)
                   ++ "); stopping typing indicator")) s)
  end.

Definition isActive (s : Controller) : bool := active s && negb (sealed s).

(** [triggerTyping] up to its [await]. *)
Definition triggerTyping (s : Controller) : Controller :=
  if sealed s then s else invoke_opt (has_onReplyStart cfg) CbReplyStart s.

(** [ensureStart] up to its [await]. *)
Definition ensureStart (s : Controller) : Controller :=
  if sealed s then s
  else if runComplete s then s
  else
    let s1 := if negb (active s) then with_active true s else s in
    if started s1 then s1
    else triggerTyping (with_started true s1).

Definition maybeStopOnIdle (s : Controller) : Controller :=
  if negb (active s) then s
  else if runComplete s && dispatchIdle s then cleanup s
  else s.

(** [await ensureStart(); typingTimer = setInterval(...)]: run [ensureStart]
    and park the rest of the loop starter. *)
Definition await_ensureStart_then_arm (s : Controller) : Controller :=
  let calls_out := negb (sealed s) && negb (runComplete s) && negb (started s)
                   && has_onReplyStart cfg in
  set_parked (alloc {| on_call := calls_out; p_done := false |}) (ensureStart s).

Definition startThinkingLoop (s : Controller) : Controller :=
  if sealed s then s
  else if runComplete s then s
  else
    let s1 := match phase s with
              | None => invoke_opt (has_onPhaseChange cfg) (CbPhaseChange ph_thinking)
                          (with_phase (Some ph_thinking) s)
              | Some _ => s
              end in
    let s2 := refreshTypingTtl s1 in
    if negb (has_onReplyStart cfg) then s2
    else if bool_decide (typingIntervalMs ≤ 0) then s2
    else match typingTimer s2 with
         | Some _ => s2
         | None => await_ensureStart_then_arm s2
         end.

Definition startTypingLoop (s : Controller) : Controller :=
  if sealed s then s
  else if runComplete s then s
  else
    let upgraded := bool_decide (phase s = Some ph_thinking) in
    let s1 := match phase s with
              | Some ph_typing => s
              | _ => invoke_opt (has_onPhaseChange cfg) (CbPhaseChange ph_typing)
                       (with_phase (Some ph_typing) s)
              end in
    let s2 := refreshTypingTtl s1 in
    if negb (has_onReplyStart cfg) then s2
    else if bool_decide (typingIntervalMs ≤ 0) then s2
    else match typingTimer s2 with
         | Some _ => if upgraded then triggerTyping s2 else s2
         | None => await_ensureStart_then_arm s2
         end.

Definition startTypingOnText (text : option string) (s : Controller) : Controller :=
  if sealed s then s
  else
    match trim <$> text with
    | None => s
    | Some trimmed =>
        if bool_decide (trimmed = "") then s
        else if negb (bool_decide (silentToken cfg = ""))
                && isSilentReplyText trimmed (silentToken cfg) then s
        else startTypingLoop (refreshTypingTtl s)
    end.

Definition markRunComplete (s : Controller) : Controller :=
  maybeStopOnIdle (with_runComplete true s).

Definition markDispatchIdle (s : Controller) : Controller :=
  let s1 := maybeStopOnIdle (with_dispatchIdle true s) in
  if transitioning s1 && active s1 && negb (sealed s1)
  then triggerTyping (with_transitioning false s1)
  else s1.

Definition transitionToFollowup (s : Controller) : Controller :=
  if sealed s then s
  else
    let s1 := with_transitioning true (with_runComplete false (with_started false s)) in
    let s2 := if bool_decide (phase s1 = Some ph_thinking) then s1
              else triggerTyping
                     (invoke_opt (has_onPhaseChange cfg) (CbPhaseChange ph_thinking)
                        (with_phase (Some ph_thinking) s1)) in
    if has_onReplyStart cfg && bool_decide (0 < typingIntervalMs) then
      let s3 := match typingTimer s2 with
                | Some t => clearTimer t s2
                | None => s2
                end in
      let t := length (timers s3) in
      with_typingTimer (Some t) (setTimer TriggerInterval (Z.min typingIntervalMs 2000) s3)
    else s2.

Definition resetForFollowup (s : Controller) : Controller :=
  let s1 := clear_typingTimer (clear_typingTtlTimer s) in
  with_phase None
    (with_dispatchIdle true
       (with_transitioning false
          (with_runComplete false
             (with_active false (with_started false (with_sealed false s1)))))).

(** A timer fires. *)
Definition timer_fires (t : nat) (s : Controller) : Controller :=
  match timers s !! t with
  | Some tm =>
      if t_live tm then
        match t_kind tm with
        | TriggerInterval => triggerTyping s
        | TtlTimeout => ttl_expires (clearTimer t s)
        end
      else s
  | None => s
  end.

(** A parked loop starter resumes: [ok] is false when the [onReplyStart]
    call it waited for rejected, and then the starter ends there. *)
Definition resume (i : nat) (ok : bool) (s : Controller) : Controller :=
  match parked s !! i with
  | Some p =>
      if p_done p then s
      else
        let s1 := set_parked (alter (with_done true) i) s in
        if ok || negb (on_call p) then
          let t := length (timers s1) in
          with_typingTimer (Some t) (setTimer TriggerInterval typingIntervalMs s1)
        else s1
  | None => s
  end.

(** The operations of the object [createTypingController] returns. *)
Inductive operation :=
| OnReplyStart
| StartThinkingLoop
| StartTypingLoop
| StartTypingOnText (text : option string)
| RefreshTypingTtl
| MarkRunComplete
| MarkDispatchIdle
| TransitionToFollowup
| ResetForFollowup
| Cleanup.

Definition perform (op : operation) (s : Controller) : Controller :=
  match op with
  | OnReplyStart => ensureStart s
  | StartThinkingLoop => startThinkingLoop s
  | StartTypingLoop => startTypingLoop s
  | StartTypingOnText text => startTypingOnText text s
  | RefreshTypingTtl => refreshTypingTtl s
  | MarkRunComplete => markRunComplete s
  | MarkDispatchIdle => markDispatchIdle s
  | TransitionToFollowup => transitionToFollowup s
  | ResetForFollowup => resetForFollowup s
  | Cleanup => cleanup s
  end.

End Controller.

(** *** A sample configuration *)

(** Every callback given, a 6 s typing interval and a 2 min TTL. *)
Definition sample_params : Params :=
  {| has_onReplyStart := true; has_onCleanup := true; has_onPhaseChange := true;
     has_log := true; typingIntervalSeconds := 6; typingTtlMs := 120000;
     silentToken := "NO_REPLY" |}.

(** Stand-ins for [String.prototype.trim] and [isSilentReplyText], which
    the controller takes as given. *)
Definition sample_trim (s : string) : string := s.
Definition sample_isSilentReplyText (text token : string) : bool :=
  bool_decide (text = token).

(** A controller that has been cleaned up right after creation. *)
Definition sealed_controller : Controller := cleanup sample_params create.

(** *** Traces of a controller and their invariants *)

(** What can happen to a controller: a caller performs one of its
    operations, one of its timers fires, or a parked loop starter resumes. *)
Inductive event :=
| EOp (op : operation)
| ETimer (t : nat)
| EResume (i : nat) (ok : bool).

Definition step (trim : string → string) (isSilentReplyText : string → string → bool)
    (cfg : Params) (s : Controller) (e : event) : Controller :=
  match e with
  | EOp op => perform trim isSilentReplyText cfg op s
  | ETimer t => timer_fires cfg t s
  | EResume i ok => resume cfg i ok s
  end.

Definition run (trim : string → string) (isSilentReplyText : string → string → bool)
    (cfg : Params) (evs : list event) : Controller :=
  foldl (step trim isSilentReplyText cfg) create evs.

Definition is_cleanup (cb : Callback) : bool :=
  match cb with CbCleanup => true | _ => false end.

Definition is_reset (e : event) : bool :=
  match e with EOp ResetForFollowup => true | _ => false end.

(** How often [onCleanup] was called, and how often the controller was
    reset for a follow-up run. *)
Definition cleanups (s : Controller) : nat := length (filter is_cleanup (invoked s)).
Definition resets (evs : list event) : nat := length (filter is_reset evs).

(** The cycle state [cleanup] leaves behind. *)
Definition reset_flags (s : Controller) : Prop :=
  active s = false ∧ started s = false ∧ phase s = None ∧ transitioning s = false ∧
  typingTtlTimer s = None.

(** A change that neither seals nor un-seals, calls [onCleanup] not at
    all, and leaves the cycle state of a sealed controller alone. *)
Definition calm (s s' : Controller) : Prop :=
  sealed s' = sealed s ∧ cleanups s' = cleanups s ∧
  (sealed s = true →
     active s' = active s ∧ started s' = started s ∧ phase s' = phase s ∧
     transitioning s' = transitioning s ∧ typingTtlTimer s' = typingTtlTimer s).

(** A change that is calm or seals an open controller, calling
    [onCleanup] at most once. *)
Definition seals_or_calm (s s' : Controller) : Prop :=
  calm s s' ∨
  (sealed s = false ∧ sealed s' = true ∧ (cleanups s' ≤ cleanups s + 1)%nat ∧
   reset_flags s').

(** The timers of a controller: a live TTL timeout is the one the
    controller remembers, a TTL timeout runs for [typingTtlMs], a trigger
    interval for at most the typing interval, both for a positive time,
    and a loop starter is only parked under a positive typing interval. *)
Record timers_ok (cfg : Params) (s : Controller) : Prop := {
  ttl_live : ∀ t tm, timers s !! t = Some tm → t_live tm = true →
    t_kind tm = TtlTimeout → typingTtlTimer s = Some t;
  ttl_ms : ∀ t tm, timers s !! t = Some tm → t_kind tm = TtlTimeout →
    t_ms tm = typingTtlMs cfg ∧ 0 < t_ms tm;
  interval_ms : ∀ t tm, timers s !! t = Some tm → t_kind tm = TriggerInterval →
    0 < t_ms tm ≤ typingIntervalMs cfg;
  parked_interval : ∀ i p, parked s !! i = Some p → 0 < typingIntervalMs cfg;
}.

(** The state [cleanup] leaves when it stops an active controller. *)
Definition stopped (cfg : Params) (s s' : Controller) : Prop :=
  sealed s' = true ∧ active s' = false ∧ transitioning s' = false ∧
  typingTimer s' = None ∧ typingTtlTimer s' = None ∧
  cleanups s' = (cleanups s + (if has_onCleanup cfg then 1 else 0))%nat.

End Typing.

(** * The threading tool context (slack/threading-tool-context.ts, first part) *)

Module ToolContext.

Inductive ReplyToMode := off | first | all.

(** [MessageThreadId] is a string or a number. *)
Inductive ThreadId := IdString (s : string) | IdNumber (n : Z).

(** The fields of [ChannelThreadingContext] the function reads.
    [ChatType] only feeds [resolveSlackReplyToMode]. *)
Record ChannelThreadingContext := {
  ThreadLabel : option string;
  MessageThreadId : option ThreadId;
  ReplyToId : option string;
  To : option string;
}.

Record ChannelThreadingToolContext := {
  currentChannelId : option string;
  currentDmUserId : option string;
  currentThreadTs : option string;
  replyToMode : ReplyToMode;
  hasRepliedRef : option nat;
}.

(** [String.prototype.startsWith] *)
Fixpoint startsWith (s p : string) {struct p} : bool :=
  match p with
  | EmptyString => true
  | String c p' =>
      match s with
      | EmptyString => false
      | String d s' => bool_decide (c = d) && startsWith s' p'
      end
  end.

(** [s.slice(n)] for [0 <= n] *)
Fixpoint slice (s : string) (n : nat) {struct n} : string :=
  match n with
  | O => s
  | S n' => match s with EmptyString => EmptyString | String _ s' => slice s' n' end
  end.

(** Truthiness of an optional string. *)
Definition truthy (s : option string) : bool :=
  match s with
  | None => false
  | Some s => negb (bool_decide (s = ""))
  end.

Section Build.

(** [String(n)] for a number, and the mode [resolveSlackReplyToMode]
    returns for the account and chat type; accounts.js is not part of the
    sources at hand. *)
Variable String_of_number : Z → string.
Variable configuredReplyToMode : ReplyToMode.

Definition String_of (t : ThreadId) : string :=
  match t with
  | IdString s => s
  | IdNumber n => String_of_number n
  end.

Definition buildSlackThreadingToolContext (context : ChannelThreadingContext)
    (hasRepliedRef : option nat) : ChannelThreadingToolContext :=
  let effectiveReplyToMode :=
    if truthy (ThreadLabel context) then all else configuredReplyToMode in
  let threadId :=
    match MessageThreadId context with
    | Some t => Some t
    | None => IdString <$> ReplyToId context
    end in
  let to := To context in
  {| currentChannelId :=
       to ≫= λ t, if startsWith t "channel:" then Some (slice t (String.length "channel:"))
                  else None;
     currentDmUserId :=
       to ≫= λ t, if startsWith t "user:" then Some (slice t (String.length "user:"))
                  else None;
     currentThreadTs := String_of <$> threadId;
     replyToMode := effectiveReplyToMode;
     hasRepliedRef := hasRepliedRef |}.

End Build.

End ToolContext.

(** * The dispatch that holds a phase status handle (message-handler/dispatch.ts) *)

Module Dispatch.
Import PhaseStatus.

(** What [dispatchPreparedSlackMessage] reads of the prepared message:
    the channel, the thread the status goes to (computed by
    [resolveSlackThreadTargets] of threading.js, which is not part of the
    sources at hand), the optional [hasPendingMessages] callback, and the
    two closures it passes to [acquireThreadStatus]. *)
Record Prepared := {
  channel : string;
  statusThreadTs : option string;
  hasPendingMessages : option nat;
  push_closure : nat;
  onError_closure : nat;
}.

(** The variables the callbacks share. *)
Record Dispatch := {
  statusRef_phase : StatusPhase;
  statusHandle : option nat;
}.

(** Up to the creation of the typing callbacks. *)
Definition begin (p : Prepared) (w : World) : World * Dispatch :=
  match statusThreadTs p with
  | Some ts =>
      if bool_decide (ts = "") then
        (w, {| statusRef_phase := thinking; statusHandle := None |})
      else
        (acquireThreadStatus
           {| a_key := channel p ++ ":" ++ ts; a_push := push_closure p;
              a_graceMs := None; a_shouldGrace := hasPendingMessages p;
              a_onError := Some (onError_closure p) |} w,
         {| statusRef_phase := thinking; statusHandle := Some (length (handles w)) |})
  | None => (w, {| statusRef_phase := thinking; statusHandle := None |})
  end.

Definition start (d : Dispatch) (w : World) : World :=
  match statusHandle d with
  | Some h => handle_setStatus h (statusRef_phase d) w
  | None => w
  end.

(** [pending] is what [prepared.hasPendingMessages?.()] returns here,
    [answer] what the same callback returns when [release] asks it. *)
Definition stop (p : Prepared) (pending answer : bool) (d : Dispatch) (w : World) : World :=
  let w1 :=
    if match hasPendingMessages p with Some _ => pending | None => false end then
      match statusHandle d with
      | Some h => handle_setStatus h reading w
      | None => w
      end
    else w in
  match statusHandle d with
  | Some h => handle_release h answer w1
  | None => w1
  end.

(** The first statement of [deliver]. *)
Definition deliver_pause (d : Dispatch) (w : World) : World :=
  match statusHandle d with
  | Some h => handle_pause h w
  | None => w
  end.

Definition onPhaseChange (phase : Typing.Phase) (d : Dispatch) (w : World)
    : World * Dispatch :=
  let d' := {| statusRef_phase := match phase with
                                  | Typing.ph_thinking => thinking
                                  | Typing.ph_typing => reasoning
                                  end;
               statusHandle := statusHandle d |} in
  (start d' w, d').

End Dispatch.

(** * The dispatch that sets the Slack status itself (message-handler/dispatch.ts,
    second version) *)

Module DispatchDirect.

(** A JavaScript string: its UTF-16 code units. *)
Definition jsstring := list N.

(** A string literal without characters beyond ASCII. *)
Definition lit (s : string) : jsstring :=
  (λ c, N.of_nat (Ascii.nat_of_ascii c)) <$> String.list_ascii_of_string s.

(** U+2026, the horizontal ellipsis. *)
Definition ellipsis : jsstring := [8230%N].

(** The code units [String.prototype.trim] strips: WhiteSpace and
    LineTerminator of ECMAScript. *)
Definition is_space (c : N) : bool :=
  bool_decide (c ∈ [9; 10; 11; 12; 13; 32; 160; 5760; 8232; 8233; 8239; 8287; 12288;
                    65279]%N)
  || bool_decide (8192 ≤ c ≤ 8202)%N.

Fixpoint trimStart (s : jsstring) : jsstring :=
  match s with
  | [] => []
  | c :: s' => if is_space c then trimStart s' else s
  end.

Definition trim (s : jsstring) : jsstring := reverse (trimStart (reverse (trimStart s))).

(** [s.replace(/\n/g, " ")] *)
Definition replace_newlines (s : jsstring) : jsstring :=
  (λ c, if bool_decide (c = 10%N) then 32%N else c) <$> s.

Definition WORKING_STATUS_DEBOUNCE_MS : Z := 3000.
Definition STATUS_PREVIEW_MAX_LEN : nat := 80.

(** The status [onPartialReply] computes from [payload.text]. *)
Definition partial_status (payload_text : option jsstring) : jsstring :=
  match trim <$> (replace_newlines <$> payload_text) with
  | Some text =>
      if bool_decide (text ≠ []) && bool_decide (0 < length text)%nat then
        if bool_decide (length text ≤ STATUS_PREVIEW_MAX_LEN)%nat then text
        else (take STATUS_PREVIEW_MAX_LEN text ++ ellipsis)%list
      else (lit "working" ++ ellipsis)%list
  | None => (lit "working" ++ ellipsis)%list
  end.

(** The status [onToolUse] computes from the tool name. *)
Definition tool_status (toolName : option jsstring) : jsstring :=
  match toolName with
  | Some name =>
      if bool_decide (name = []) then (lit "working" ++ ellipsis)%list
      else (lit "working: " ++ name ++ ellipsis)%list
  | None => (lit "working" ++ ellipsis)%list
  end.

(** The variables the callbacks of one dispatch share, and the statuses
    passed to [ctx.setSlackThreadStatus], oldest first. *)
Record Dispatch := {
  didSetStatus : bool;
  lastWorkingStatusAt : Z;
  sent : list jsstring;
}.

Definition send (status : jsstring) (d : Dispatch) : Dispatch :=
  {| didSetStatus := didSetStatus d; lastWorkingStatusAt := lastWorkingStatusAt d;
     sent := (sent d ++ [status])%list |}.

Definition with_didSetStatus (b : bool) (d : Dispatch) : Dispatch :=
  {| didSetStatus := b; lastWorkingStatusAt := lastWorkingStatusAt d; sent := sent d |}.

Definition with_lastWorkingStatusAt (t : Z) (d : Dispatch) : Dispatch :=
  {| didSetStatus := didSetStatus d; lastWorkingStatusAt := t; sent := sent d |}.

Section Callbacks.

(** Whether [statusThreadTs] is truthy; threading.js, which computes it, is
    not part of the sources at hand. *)
Variable has_statusThreadTs : bool.

(** The variables as declared, and the first status. *)
Definition begin : Dispatch :=
  let d := {| didSetStatus := false; lastWorkingStatusAt := 0; sent := [] |} in
  if has_statusThreadTs then send (lit "thinking...") (with_didSetStatus true d) else d.

Definition start (d : Dispatch) : Dispatch := with_didSetStatus true d.

Definition stop (d : Dispatch) : Dispatch :=
  if negb (didSetStatus d) then d
  else send [] (with_didSetStatus false d).

(** The first statement of [deliver]. *)
Definition deliver_status (d : Dispatch) : Dispatch :=
  if has_statusThreadTs then send (lit "typing...") (with_didSetStatus true d) else d.

(** [onPartialReply], [onToolUse] and [onDrainPhaseChange] are only
    defined when [statusThreadTs] is truthy. *)
Definition onPartialReply (now : Z) (payload_text : option jsstring) (d : Dispatch)
    : Dispatch :=
  if negb has_statusThreadTs then d
  else if bool_decide (now - lastWorkingStatusAt d < WORKING_STATUS_DEBOUNCE_MS) then d
  else send (partial_status payload_text)
         (with_didSetStatus true (with_lastWorkingStatusAt now d)).

Definition onToolUse (toolName : option jsstring) (d : Dispatch) : Dispatch :=
  if negb has_statusThreadTs then d
  else send (tool_status toolName) (with_didSetStatus true d).

Definition onDrainPhaseChange (debounce_start : bool) (d : Dispatch) : Dispatch :=
  if negb has_statusThreadTs then d
  else send (if debounce_start then lit "read messages..." else lit "thinking...")
         (with_didSetStatus true d).

Inductive event :=
| Start
| Stop
| Deliver
| PartialReply (now : Z) (payload_text : option jsstring)
| ToolUse (toolName : option jsstring)
| DrainPhaseChange (debounce_start : bool).

Definition step (d : Dispatch) (e : event) : Dispatch :=
  match e with
  | Start => start d
  | Stop => stop d
  | Deliver => deliver_status d
  | PartialReply now text => onPartialReply now text d
  | ToolUse name => onToolUse name d
  | DrainPhaseChange b => onDrainPhaseChange b d
  end.

Definition run (evs : list event) : Dispatch := foldl step begin evs.

End Callbacks.

End DispatchDirect.

(** * Properties

    Facts about the stores first, then one module of facts per source
    module, then the statements that speak about both status managers. *)

#[local] Set Warnings "-clear-no-such-hyp".

Section StoreFacts.
Context {A : Type}.

Lemma alloc_lookup_new (x : A) (st : list A) : alloc x st !! length st = Some x.
Proof. unfold alloc. by rewrite lookup_app_r, Nat.sub_diag. Qed.

Lemma alloc_lookup_old (x : A) (st : list A) (i : nat) (y : A) :
  st !! i = Some y → alloc x st !! i = Some y.
Proof. intros H. unfold alloc. by apply lookup_app_l_Some. Qed.

Lemma alloc_lookup_lt (x : A) (st : list A) (i : nat) :
  (i < length st)%nat → alloc x st !! i = st !! i.
Proof. intros H. unfold alloc. by apply lookup_app_l. Qed.

Lemma alloc_lookup_inv (x : A) (st : list A) (i : nat) (y : A) :
  alloc x st !! i = Some y → st !! i = Some y ∨ (i = length st ∧ y = x).
Proof.
  unfold alloc. intros H. apply lookup_app_Some in H as [H | [Hge H]]; [by left |].
  right. destruct (i - length st)%nat as [| k] eqn:E; simpl in H; [| done].
  split; [lia | congruence].
Qed.

Lemma alloc_length (x : A) (st : list A) : length (alloc x st) = S (length st).
Proof. unfold alloc. rewrite length_app. simpl. lia. Qed.

Lemma alter_lookup_inv (f : A → A) (st : list A) (i j : nat) (y : A) :
  alter f i st !! j = Some y →
  (i ≠ j ∧ st !! j = Some y) ∨ (i = j ∧ ∃ x, st !! j = Some x ∧ y = f x).
Proof.
  intros H. destruct (decide (i = j)) as [-> | Hne].
  - right. split; [done |]. rewrite list_lookup_alter_eq in H.
    destruct (st !! j) as [x |]; simpl in H; [| done]. exists x. split; congruence.
  - left. rewrite list_lookup_alter_ne in H by done. done.
Qed.
End StoreFacts.

(** ** The embedded-run registry (runs.ts) *)
Module RunsFacts.
Import Runs.

Lemma runs_jsmap_set_keys {V} (k : string) (v : V) m :
  ∀ k', k' ∈ (jsmap_set k v m).*1 ↔ k' = k ∨ k' ∈ m.*1.
Proof.
  induction m as [| [k0 v0] m IH]; intros k'; simpl.
  - set_solver.
  - destruct (decide (k0 = k)) as [-> | Hne]; simpl; [set_solver |].
    rewrite elem_of_cons, IH, elem_of_cons. naive_solver.
Qed.

Lemma runs_jsmap_set_NoDup {V} (k : string) (v : V) m :
  NoDup m.*1 → NoDup (jsmap_set k v m).*1.
Proof.
  induction m as [| [k0 v0] m IH]; simpl; intros Hnd.
  - apply NoDup_singleton.
  - apply NoDup_cons in Hnd as [Hnotin Hnd].
    destruct (decide (k0 = k)) as [-> | Hne]; simpl.
    + by apply NoDup_cons.
    + apply NoDup_cons. split; [| by apply IH].
      rewrite runs_jsmap_set_keys. naive_solver.
Qed.

Lemma runs_jsmap_delete_sub {V} (k : string) (m : list (string * V)) :
  ∀ k', k' ∈ (jsmap_delete k m).*1 → k' ∈ m.*1.
Proof.
  induction m as [| [k0 v0] m IH]; intros k'; simpl; [done |].
  destruct (decide (k0 = k)); simpl; set_solver.
Qed.

Lemma runs_jsmap_delete_NoDup {V} (k : string) (m : list (string * V)) :
  NoDup m.*1 → NoDup (jsmap_delete k m).*1.
Proof.
  induction m as [| [k0 v0] m IH]; simpl; intros Hnd; [done |].
  apply NoDup_cons in Hnd as [Hnotin Hnd].
  destruct (decide (k0 = k)); simpl; [done |].
  apply NoDup_cons. split; [| by apply IH].
  intros Hin. by apply runs_jsmap_delete_sub in Hin.
Qed.


Lemma runs_drop_first_alias_sub sid rest m :
  ∀ k', k' ∈ (drop_first_alias sid rest m).*1 → k' ∈ m.*1.
Proof.
  induction rest as [| [k0 id0] rest IH]; intros k'; simpl; [done |].
  destruct (decide (id0 = sid)); [apply runs_jsmap_delete_sub | apply IH].
Qed.

Lemma runs_drop_first_alias_NoDup sid rest m :
  NoDup m.*1 → NoDup (drop_first_alias sid rest m).*1.
Proof.
  induction rest as [| [k0 id0] rest IH]; simpl; intros Hnd; [done |].
  destruct (decide (id0 = sid)); [by apply runs_jsmap_delete_NoDup | by apply IH].
Qed.



(** The registry invariant holds in every reachable state. *)

Lemma runs_inv_empty : inv empty.
Proof.
  split; simpl.
  - apply NoDup_nil_2.
  - intros sid s H. by rewrite lookup_empty in H.
  - intros w wo H. by rewrite lookup_nil in H.
Qed.

Lemma runs_inv_setActive sid h key r : inv r → inv (setActiveEmbeddedRun sid h key r).
Proof.
  intros [Hk Hr Hw].
  assert (Hbase : inv (set_runs (<[sid := h]>) r)).
  { split; simpl; [done | | done].
    intros sid' s Hs. destruct (Hr sid' s Hs) as [Hact Hrest]. split; [| done].
    destruct (decide (sid = sid')) as [-> | Hne].
    - rewrite lookup_insert_eq. by eexists.
    - by rewrite lookup_insert_ne. }
  unfold setActiveEmbeddedRun. destruct key as [key |]; [| done].
  case_bool_decide; [done |].
  destruct Hbase as [Hk' Hr' Hw']. split; simpl in *; [| done | done].
  by apply runs_jsmap_set_NoDup.
Qed.

Lemma runs_inv_queue view sid text r : inv r → inv (queueEmbeddedPiMessage view sid text r).2.
Proof.
  intros Hinv. unfold queueEmbeddedPiMessage.
  destruct (ACTIVE_EMBEDDED_RUNS r !! sid) as [h |]; [| done].
  destruct (isStreaming (view h)); simpl; [| done].
  destruct (isCompacting (view h)); simpl; [done |].
  destruct Hinv as [Hk Hr Hw]. by split.
Qed.

Lemma runs_inv_abort sid r : inv r → inv (abortEmbeddedPiRun sid r).2.
Proof.
  intros Hinv. unfold abortEmbeddedPiRun.
  destruct (ACTIVE_EMBEDDED_RUNS r !! sid) as [h |]; [| done].
  destruct Hinv as [Hk Hr Hw]. by split.
Qed.

(** Two table entries never share a [Set]. *)
Lemma runs_inv_sets_disjoint r sid1 sid2 s :
  inv r → EMBEDDED_RUN_WAITERS r !! sid1 = Some s →
  EMBEDDED_RUN_WAITERS r !! sid2 = Some s → sid1 = sid2.
Proof.
  intros [_ Hr _] H1 H2.
  destruct (Hr _ _ H1) as [_ (ws1 & Hs1 & Hne1 & _ & Hm1)].
  destruct (Hr _ _ H2) as [_ (ws2 & Hs2 & _ & _ & Hm2)].
  assert (ws2 = ws1) as -> by congruence.
  destruct ws1 as [| w ws1]; [done |].
  destruct (Hm1 w) as (wo1 & Ho1 & _ & Hp1 & _); [set_solver |].
  destruct (Hm2 w) as (wo2 & Ho2 & _ & Hp2 & _); [set_solver |].
  congruence.
Qed.

Lemma runs_jsset_delete_in (x y : nat) (ws : list nat) :
  y ∈ jsset_delete x ws ↔ y ∈ ws ∧ y ≠ x.
Proof. unfold jsset_delete. rewrite list_elem_of_filter. naive_solver. Qed.

(** The state a firing timeout leaves behind, field by field. *)
Lemma runs_waiter_timeout_fields w wo ws r :
  waiter_objs r !! w = Some wo → timer_live wo = true →
  waiter_sets r !! w_set wo = Some ws →
  let r' := waiter_timeout w r in
  ACTIVE_EMBEDDED_RUNS r' = ACTIVE_EMBEDDED_RUNS r ∧
  SESSION_KEY_TO_SESSION_ID r' = SESSION_KEY_TO_SESSION_ID r ∧
  EMBEDDED_RUN_WAITERS r' =
    (if decide (jsset_delete w ws = []) then delete (w_session wo) (EMBEDDED_RUN_WAITERS r)
     else EMBEDDED_RUN_WAITERS r) ∧
  waiter_sets r' = alter (jsset_delete w) (w_set wo) (waiter_sets r) ∧
  waiter_objs r' = alter timed_out w (waiter_objs r) ∧
  queueMessage_calls r' = queueMessage_calls r ∧ abort_calls r' = abort_calls r.
Proof.
  intros Ho Hlive Hs. unfold waiter_timeout. rewrite Ho, Hlive.
  unfold drop_waiter. cbn [waiter_sets set_sets clearTimeout set_objs].
  rewrite list_lookup_alter_eq, Hs. simpl.
  assert (Hobjs : alter (call_resolve false) w (alter kill_timer w (waiter_objs r))
                  = alter timed_out w (waiter_objs r)).
  { by rewrite list_alter_alter_eq. }
  destruct (decide (jsset_delete w ws = [])) as [E | E].
  - rewrite E. simpl. rewrite Hobjs. done.
  - destruct (jsset_delete w ws) eqn:E'; [done |]. simpl. rewrite Hobjs. done.
Qed.

Lemma runs_inv_timeout w r : inv r → inv (waiter_timeout w r).
Proof.
  intros Hinv.
  destruct (waiter_objs r !! w) as [wo |] eqn:Ho;
    [| unfold waiter_timeout; by rewrite Ho].
  destruct (timer_live wo) eqn:Hlive;
    [| unfold waiter_timeout; by rewrite Ho, Hlive].
  pose proof (inv_waiter r Hinv w wo Ho) as Hw0. rewrite Hlive in Hw0.
  destruct Hw0 as (Hcalls & Hreg & ws & Hs & Hin).
  destruct (runs_waiter_timeout_fields w wo ws r Ho Hlive Hs)
    as (Ea & Ek & Ew & Es & Eo & _ & _).
  set (r' := waiter_timeout w r) in *.
  (* another registered session uses another Set *)
  assert (Hother : ∀ sid' s', sid' ≠ w_session wo →
            EMBEDDED_RUN_WAITERS r !! sid' = Some s' → s' ≠ w_set wo).
  { intros sid' s' Hne Hs' ->. apply Hne. symmetry.
    by eapply runs_inv_sets_disjoint. }
  split.
  - rewrite Ek. apply Hinv.
  - intros sid' s' Hs'. rewrite Ea.
    assert (Hold : EMBEDDED_RUN_WAITERS r !! sid' = Some s').
    { rewrite Ew in Hs'. case_decide; [| done].
      apply lookup_delete_Some in Hs'. by destruct Hs'. }
    destruct (inv_registered r Hinv sid' s' Hold) as [Hact (ws' & Hs'' & Hne' & Hnd' & Hm')].
    split; [done |].
    destruct (decide (sid' = w_session wo)) as [-> | Hne].
    + assert (s' = w_set wo) as -> by congruence.
      assert (ws' = ws) as -> by congruence.
      exists (jsset_delete w ws). rewrite Es, Eo.
      rewrite list_lookup_alter_eq, Hs. simpl. split; [done |].
      split.
      { rewrite Ew in Hs'. case_decide as Hd; [| done].
        by rewrite lookup_delete_eq in Hs'. }
      split; [by apply NoDup_filter |].
      intros w' Hw'. apply runs_jsset_delete_in in Hw' as [Hw' Hneq].
      destruct (Hm' w' Hw') as (wo' & Ho' & Hrest).
      exists wo'. by rewrite list_lookup_alter_ne.
    + exists ws'. rewrite Es, Eo.
      rewrite list_lookup_alter_ne by (apply not_eq_sym; by eapply Hother).
      do 3 (split; [done |]).
      intros w' Hw'. destruct (Hm' w' Hw') as (wo' & Ho' & Hset' & Hp').
      exists wo'. split; [| done].
      rewrite list_lookup_alter_ne; [done |].
      intros <-. apply (Hother sid' s' Hne Hold). congruence.
  - intros w' wo' Ho'. rewrite Eo in Ho'.
    apply alter_lookup_inv in Ho' as [[Hneq Ho'] | [<- (x & Hx & ->)]].
    + pose proof (inv_waiter r Hinv w' wo' Ho') as Hw'.
      destruct (timer_live wo'); [| done].
      destruct Hw' as (Hc' & Hreg' & ws' & Hs' & Hin').
      split; [done |].
      destruct (decide (w_session wo' = w_session wo)) as [Heq | Hne].
      * assert (w_set wo' = w_set wo) as Hseteq by congruence.
        assert (ws' = ws) as -> by congruence.
        assert (Hin2 : w' ∈ jsset_delete w ws) by (apply runs_jsset_delete_in; done).
        split.
        { rewrite Ew. rewrite decide_False; [done |].
          intros E. rewrite E in Hin2. by apply not_elem_of_nil in Hin2. }
        exists (jsset_delete w ws). rewrite Es, Hseteq.
        by rewrite list_lookup_alter_eq, Hs.
      * split.
        { rewrite Ew. case_decide; [| done]. by rewrite lookup_delete_ne. }
        exists ws'. rewrite Es.
        rewrite list_lookup_alter_ne; [done |].
        apply not_eq_sym. by eapply Hother.
    + assert (x = wo) as -> by congruence. simpl.
      rewrite Hcalls. done.
Qed.

(** The loop of [notifyEmbeddedRunEnded] touches waiter objects only. *)
Lemma runs_wake_loop_fields ws r :
  let r' := foldl (λ acc w, resolve w true (clearTimeout w acc)) r ws in
  ACTIVE_EMBEDDED_RUNS r' = ACTIVE_EMBEDDED_RUNS r ∧
  SESSION_KEY_TO_SESSION_ID r' = SESSION_KEY_TO_SESSION_ID r ∧
  EMBEDDED_RUN_WAITERS r' = EMBEDDED_RUN_WAITERS r ∧
  waiter_sets r' = waiter_sets r ∧
  queueMessage_calls r' = queueMessage_calls r ∧ abort_calls r' = abort_calls r.
Proof.
  revert r. induction ws as [| w ws IH]; intros r; simpl; [done |].
  specialize (IH (resolve w true (clearTimeout w r))). simpl in IH.
  destruct IH as (-> & -> & -> & -> & -> & ->). done.
Qed.

Lemma runs_wake_loop_other ws r w :
  w ∉ ws →
  waiter_objs (foldl (λ acc w, resolve w true (clearTimeout w acc)) r ws) !! w
  = waiter_objs r !! w.
Proof.
  revert r. induction ws as [| w0 ws IH]; intros r Hnotin; simpl; [done |].
  apply not_elem_of_cons in Hnotin as [Hne Hnotin].
  rewrite IH by done. simpl.
  by rewrite !list_lookup_alter_ne.
Qed.

Lemma runs_wake_loop_member ws r w :
  NoDup ws → w ∈ ws →
  waiter_objs (foldl (λ acc w, resolve w true (clearTimeout w acc)) r ws) !! w
  = woken <$> waiter_objs r !! w.
Proof.
  revert r. induction ws as [| w0 ws IH]; intros r Hnd Hin; simpl.
  - by apply not_elem_of_nil in Hin.
  - apply NoDup_cons in Hnd as [Hnotin Hnd].
    apply elem_of_cons in Hin as [-> | Hin].
    + rewrite runs_wake_loop_other by done. simpl.
      rewrite !list_lookup_alter_eq. by destruct (waiter_objs r !! w0).
    + rewrite IH by done. simpl.
      assert (w0 ≠ w) by (intros ->; done).
      by rewrite !list_lookup_alter_ne.
Qed.

(** The state a matching [clearActiveEmbeddedRun] leaves behind. *)
Lemma runs_clear_fields sid h r :
  inv r → ACTIVE_EMBEDDED_RUNS r !! sid = Some h →
  let r' := clearActiveEmbeddedRun sid h r in
  ACTIVE_EMBEDDED_RUNS r' = delete sid (ACTIVE_EMBEDDED_RUNS r) ∧
  SESSION_KEY_TO_SESSION_ID r' =
    drop_first_alias sid (SESSION_KEY_TO_SESSION_ID r) (SESSION_KEY_TO_SESSION_ID r) ∧
  EMBEDDED_RUN_WAITERS r' = delete sid (EMBEDDED_RUN_WAITERS r) ∧
  waiter_sets r' = waiter_sets r ∧
  (∀ w, waiter_objs r' !! w =
        (λ wo, if decide (waits_on sid wo) then woken wo else wo) <$> waiter_objs r !! w) ∧
  queueMessage_calls r' = queueMessage_calls r ∧ abort_calls r' = abort_calls r.
Proof.
  intros Hinv Hact r'. subst r'. unfold clearActiveEmbeddedRun.
  rewrite decide_True by done. unfold notifyEmbeddedRunEnded.
  cbn [EMBEDDED_RUN_WAITERS set_aliases set_runs waiter_sets].
  destruct (EMBEDDED_RUN_WAITERS r !! sid) as [s |] eqn:Hreg.
  - destruct (inv_registered r Hinv sid s Hreg) as [_ (ws & Hs & Hne & Hnd & Hm)].
    rewrite Hs. destruct ws as [| w0 ws0] eqn:Ews; [done |]. rewrite <- Ews in *.
    clear Ews w0 ws0.
    match goal with |- context [foldl ?f ?r0 ws] =>
      pose proof (runs_wake_loop_fields ws r0) as Hf; simpl in Hf;
      destruct Hf as (-> & -> & -> & -> & -> & ->);
      pose proof (runs_wake_loop_other ws r0) as Hoth;
      pose proof (λ w, runs_wake_loop_member ws r0 w Hnd) as Hmem
    end.
    simpl in *. do 4 (split; [done |]). split; [| done].
    intros w. destruct (decide (w ∈ ws)) as [Hin | Hnotin].
    + rewrite (Hmem w Hin). destruct (Hm w Hin) as (wo & Ho & _ & Hsess & Hlive & _).
      rewrite Ho. simpl. rewrite decide_True; [done |]. by split.
    + rewrite (Hoth w Hnotin). destruct (waiter_objs r !! w) as [wo |] eqn:Ho; [| done].
      simpl. rewrite decide_False; [done |]. intros [Hlive Hsess].
      pose proof (inv_waiter r Hinv w wo Ho) as Hw. rewrite Hlive in Hw.
      destruct Hw as (_ & Hreg' & ws' & Hs' & Hin').
      rewrite Hsess, Hreg in Hreg'. apply Hnotin. congruence.
  - simpl. rewrite (delete_id (EMBEDDED_RUN_WAITERS r)) by done. do 4 (split; [done |]). split; [| done].
    intros w. destruct (waiter_objs r !! w) as [wo |] eqn:Ho; [| done].
    simpl. rewrite decide_False; [done |]. intros [Hlive Hsess].
    pose proof (inv_waiter r Hinv w wo Ho) as Hw. rewrite Hlive in Hw.
    destruct Hw as (_ & Hreg' & _). congruence.
Qed.

Lemma runs_inv_clear sid h r : inv r → inv (clearActiveEmbeddedRun sid h r).
Proof.
  intros Hinv.
  destruct (decide (ACTIVE_EMBEDDED_RUNS r !! sid = Some h)) as [Hact | Hno];
    [| unfold clearActiveEmbeddedRun; by rewrite decide_False].
  destruct (runs_clear_fields sid h r Hinv Hact) as (Ea & Ek & Ew & Es & Eo & _ & _).
  set (r' := clearActiveEmbeddedRun sid h r) in *.
  split.
  - rewrite Ek. apply runs_drop_first_alias_NoDup, Hinv.
  - intros sid' s' Hs'. rewrite Ew in Hs'.
    apply lookup_delete_Some in Hs' as [Hne Hs'].
    destruct (inv_registered r Hinv sid' s' Hs') as [Hact' (ws' & Hs'' & Hne' & Hnd' & Hm')].
    split; [rewrite Ea; by rewrite lookup_delete_ne |].
    exists ws'. rewrite Es. do 3 (split; [done |]).
    intros w Hw. destruct (Hm' w Hw) as (wo & Ho & Hset & Hp).
    exists wo. split; [| done]. rewrite Eo, Ho. simpl.
    rewrite decide_False; [done |]. intros [_ Hsess].
    destruct Hp as [Hp _]. congruence.
  - intros w wo' Ho'. rewrite Eo in Ho'.
    destruct (waiter_objs r !! w) as [wo |] eqn:Ho; simpl in Ho'; [| done].
    pose proof (inv_waiter r Hinv w wo Ho) as Hw.
    case_decide as Hd; simplify_eq.
    + destruct Hd as [Hlive _]. rewrite Hlive in Hw. destruct Hw as [Hc _].
      simpl. rewrite Hc. done.
    + destruct (timer_live wo') eqn:Hlive; [| done].
      destruct Hw as (Hc & Hreg & ws & Hs & Hin).
      assert (Hne : w_session wo' ≠ sid) by (intros E; apply Hd; by split).
      split; [done |]. split; [rewrite Ew; by rewrite lookup_delete_ne |].
      exists ws. by rewrite Es.
Qed.

Lemma runs_isEmbeddedPiRunActive_true sid r :
  isEmbeddedPiRunActive sid r = true ↔ is_Some (ACTIVE_EMBEDDED_RUNS r !! sid).
Proof. unfold isEmbeddedPiRunActive. apply bool_decide_eq_true. Qed.

Lemma runs_active_set_waiting sid f r :
  isEmbeddedPiRunActive sid (set_waiting f r) = isEmbeddedPiRunActive sid r.
Proof. reflexivity. Qed.

Lemma runs_active_set_sets sid f r :
  isEmbeddedPiRunActive sid (set_sets f r) = isEmbeddedPiRunActive sid r.
Proof. reflexivity. Qed.

Lemma runs_active_set_objs sid f r :
  isEmbeddedPiRunActive sid (set_objs f r) = isEmbeddedPiRunActive sid r.
Proof. reflexivity. Qed.

(** The state a registering [waitForEmbeddedPiRunEnd] leaves behind. *)
Lemma runs_wait_fields sid ms r :
  inv r → sid ≠ "" → is_Some (ACTIVE_EMBEDDED_RUNS r !! sid) →
  let w := length (waiter_objs r) in
  let s := default (length (waiter_sets r)) (EMBEDDED_RUN_WAITERS r !! sid) in
  let ws := default [] (EMBEDDED_RUN_WAITERS r !! sid ≫= λ s, waiter_sets r !! s) in
  let r' := (waitForEmbeddedPiRunEnd sid ms r).2 in
  (waitForEmbeddedPiRunEnd sid ms r).1 = OfWaiter w ∧
  ACTIVE_EMBEDDED_RUNS r' = ACTIVE_EMBEDDED_RUNS r ∧
  SESSION_KEY_TO_SESSION_ID r' = SESSION_KEY_TO_SESSION_ID r ∧
  EMBEDDED_RUN_WAITERS r' = <[sid := s]> (EMBEDDED_RUN_WAITERS r) ∧
  waiter_sets r' !! s = Some (ws ++ [w])%list ∧
  (∀ s', s' ≠ s → waiter_sets r' !! s' = waiter_sets r !! s') ∧
  waiter_objs r' = alloc (new_waiter sid s ms) (waiter_objs r) ∧
  queueMessage_calls r' = queueMessage_calls r ∧ abort_calls r' = abort_calls r.
Proof.
  intros Hinv Hsid Hact. unfold waitForEmbeddedPiRunEnd.
  rewrite bool_decide_eq_false_2 by done.
  apply runs_isEmbeddedPiRunActive_true in Hact as Hact'. rewrite Hact'. simpl.
  destruct (EMBEDDED_RUN_WAITERS r !! sid) as [s |] eqn:Hreg; simpl.
  - destruct (inv_registered r Hinv sid s Hreg) as [_ (ws & Hs & Hne & Hnd & Hm)].
    rewrite Hs.
    rewrite runs_active_set_waiting, runs_active_set_sets, runs_active_set_objs, Hact'. simpl.
    do 4 (split; [done |]).
    assert (Hfresh : length (waiter_objs r) ∉ ws).
    { intros Hin. destruct (Hm _ Hin) as (wo & Ho & _).
      apply lookup_lt_Some in Ho. lia. }
    split.
    { rewrite list_lookup_alter_eq, Hs. simpl. unfold jsset_add.
      by rewrite decide_False. }
    split; [| done].
    intros s' Hne'. by rewrite list_lookup_alter_ne.
  - rewrite runs_active_set_waiting, runs_active_set_sets, runs_active_set_objs, runs_active_set_sets, Hact'.
    simpl. do 4 (split; [done |]).
    split.
    { rewrite list_lookup_alter_eq, alloc_lookup_new. simpl. done. }
    split; [| done].
    intros s' Hne'. rewrite list_lookup_alter_ne by done.
    destruct (decide (s' < length (waiter_sets r))%nat).
    + by rewrite alloc_lookup_lt.
    + rewrite (lookup_ge_None_2 (waiter_sets r)) by lia.
      apply lookup_ge_None_2. rewrite alloc_length. lia.
Qed.

Lemma runs_wait_immediate sid ms r :
  sid = "" ∨ ACTIVE_EMBEDDED_RUNS r !! sid = None →
  waitForEmbeddedPiRunEnd sid ms r = (Settled true, r).
Proof.
  intros H. unfold waitForEmbeddedPiRunEnd.
  destruct H as [-> | Hnone]; [done |].
  case_bool_decide; [done |]. simpl.
  unfold isEmbeddedPiRunActive. rewrite Hnone.
  rewrite bool_decide_eq_false_2; [done |]. by intros [? ?].
Qed.

Lemma runs_inv_wait sid ms r : inv r → inv (waitForEmbeddedPiRunEnd sid ms r).2.
Proof.
  intros Hinv.
  destruct (decide (sid = "")) as [Hsid | Hsid];
    [by rewrite runs_wait_immediate by (by left) |].
  destruct (ACTIVE_EMBEDDED_RUNS r !! sid) as [h |] eqn:Hact;
    [| by rewrite runs_wait_immediate by (by right)].
  destruct (runs_wait_fields sid ms r Hinv Hsid) as (_ & Ea & Ek & Ew & Es & Es' & Eo & _ & _);
    [by eexists |].
  set (r' := (waitForEmbeddedPiRunEnd sid ms r).2) in *.
  set (w := length (waiter_objs r)) in *.
  set (s := default (length (waiter_sets r)) (EMBEDDED_RUN_WAITERS r !! sid)) in *.
  set (ws := default [] (EMBEDDED_RUN_WAITERS r !! sid ≫= λ s, waiter_sets r !! s)) in *.
  (* the old members of the Set the new waiter joins *)
  assert (Hold : ∀ w', w' ∈ ws → EMBEDDED_RUN_WAITERS r !! sid = Some s ∧
            ∃ wo, waiter_objs r !! w' = Some wo ∧ w_set wo = s ∧ pending_for sid wo).
  { intros w' Hin. subst ws s.
    destruct (EMBEDDED_RUN_WAITERS r !! sid) as [s0 |] eqn:Hreg; simpl in *;
      [| by apply not_elem_of_nil in Hin].
    split; [done |].
    destruct (inv_registered r Hinv sid s0 Hreg) as [_ (ws0 & Hs0 & _ & _ & Hm0)].
    rewrite Hs0 in Hin. simpl in Hin. by apply Hm0. }
  assert (Hnd : NoDup (ws ++ [w])%list).
  { apply NoDup_app. split; [| split; [| apply NoDup_singleton]].
    - subst ws. destruct (EMBEDDED_RUN_WAITERS r !! sid) as [s0 |] eqn:Hreg; simpl;
        [| apply NoDup_nil_2].
      destruct (inv_registered r Hinv sid s0 Hreg) as [_ (ws0 & Hs0 & _ & Hnd0 & _)].
      by rewrite Hs0.
    - intros w' Hin Hin'. apply list_elem_of_singleton in Hin'. subst w'.
      destruct (Hold _ Hin) as [_ (wo & Ho & _)].
      apply lookup_lt_Some in Ho. subst w. lia. }
  (* a Set registered for another session is another Set *)
  assert (Hother : ∀ sid' s', sid' ≠ sid →
            EMBEDDED_RUN_WAITERS r !! sid' = Some s' → s' ≠ s).
  { intros sid' s' Hne Hs' Heq. rewrite Heq in Hs'. clear Heq. subst s.
    destruct (EMBEDDED_RUN_WAITERS r !! sid) as [s0 |] eqn:Hreg; simpl in *.
    - apply Hne. by eapply runs_inv_sets_disjoint.
    - destruct (inv_registered r Hinv sid' _ Hs') as [_ (ws0 & Hs0 & _)].
      apply lookup_lt_Some in Hs0. lia. }
  split.
  - rewrite Ek. apply Hinv.
  - intros sid' s' Hs'. rewrite Ew in Hs'. rewrite Ea.
    destruct (decide (sid' = sid)) as [-> | Hne].
    + rewrite lookup_insert_eq in Hs'. assert (s' = s) as -> by congruence.
      clear Hs'. split; [by eexists |].
      exists (ws ++ [w])%list. split; [done |].
      split; [by destruct ws |]. split; [done |].
      intros w' Hin. apply elem_of_app in Hin as [Hin | Hin].
      * destruct (Hold _ Hin) as [_ (wo & Ho & Hrest)].
        exists wo. split; [| done]. rewrite Eo. by apply alloc_lookup_old.
      * apply list_elem_of_singleton in Hin. subst w'.
        exists (new_waiter sid s ms). rewrite Eo. split; [apply alloc_lookup_new |].
        done.
    + rewrite lookup_insert_ne in Hs' by done.
      destruct (inv_registered r Hinv sid' s' Hs') as [Hact' (ws' & Hs'' & Hne' & Hnd' & Hm')].
      split; [done |]. exists ws'.
      rewrite Es' by (by eapply Hother). do 3 (split; [done |]).
      intros w' Hin. destruct (Hm' w' Hin) as (wo & Ho & Hrest).
      exists wo. split; [| done]. rewrite Eo. by apply alloc_lookup_old.
  - intros w' wo' Ho'. rewrite Eo in Ho'.
    apply alloc_lookup_inv in Ho' as [Ho' | [-> ->]].
    + pose proof (inv_waiter r Hinv w' wo' Ho') as Hw'.
      destruct (timer_live wo'); [| done].
      destruct Hw' as (Hc' & Hreg' & ws' & Hs'' & Hin').
      split; [done |].
      destruct (decide (w_session wo' = sid)) as [Heq | Hne].
      * rewrite Heq in *. assert (Hs0 : s = w_set wo') by (subst s; by rewrite Hreg').
        assert (Hws : ws = ws') by (subst ws; by rewrite Hreg'; simpl; rewrite Hs'').
        rewrite Ew, lookup_insert_eq. split; [by rewrite Hs0 |].
        exists (ws ++ [w])%list. rewrite <- Hs0. split; [done |].
        apply elem_of_app. left. by rewrite Hws.
      * rewrite Ew, lookup_insert_ne by done. split; [done |].
        exists ws'. rewrite Es' by (by eapply Hother). done.
    + simpl. split; [done |]. rewrite Ew, lookup_insert_eq. split; [done |].
      exists (ws ++ [w])%list. split; [done |]. apply elem_of_app. right.
      by apply list_elem_of_singleton.
Qed.

Lemma runs_inv_step r e : inv r → inv (step r e).
Proof.
  intros Hinv. destruct e; simpl.
  - by apply runs_inv_setActive.
  - by apply runs_inv_clear.
  - by apply runs_inv_wait.
  - by apply runs_inv_timeout.
  - by apply runs_inv_queue.
  - by apply runs_inv_abort.
Qed.

Lemma runs_reachable_inv r : reachable r → inv r.
Proof.
  intros [evs ->]. unfold run.
  induction evs as [| e evs IH] using rev_ind; simpl.
  - apply runs_inv_empty.
  - rewrite foldl_app. simpl. by apply runs_inv_step.
Qed.

(** A settled waiter is out of reach of every later operation. *)
Lemma runs_settled_waiter_untouched r e w wo :
  inv r → waiter_objs r !! w = Some wo → resolve_calls wo ≠ [] →
  waiter_objs (step r e) !! w = Some wo.
Proof.
  intros Hinv Ho Hset.
  assert (Hdead : timer_live wo = false).
  { pose proof (inv_waiter r Hinv w wo Ho) as Hw.
    destruct (timer_live wo); [by destruct Hw | done]. }
  destruct e as [sid h key | sid h | sid ms | w0 | view sid text | sid]; simpl.
  - unfold setActiveEmbeddedRun. destruct key as [key |]; [| done].
    by case_bool_decide.
  - destruct (decide (ACTIVE_EMBEDDED_RUNS r !! sid = Some h)) as [Hact | Hno];
      [| unfold clearActiveEmbeddedRun; by rewrite decide_False].
    destruct (runs_clear_fields sid h r Hinv Hact) as (_ & _ & _ & _ & Eo & _).
    rewrite Eo, Ho. simpl. rewrite decide_False; [done |].
    intros [Hlive _]. congruence.
  - destruct (decide (sid = "")) as [Hsid | Hsid];
      [by rewrite runs_wait_immediate by (by left) |].
    destruct (ACTIVE_EMBEDDED_RUNS r !! sid) as [h |] eqn:Hact;
      [| by rewrite runs_wait_immediate by (by right)].
    destruct (runs_wait_fields sid ms r Hinv Hsid) as (_ & _ & _ & _ & _ & _ & Eo & _);
      [by eexists |].
    rewrite Eo. by apply alloc_lookup_old.
  - destruct (waiter_objs r !! w0) as [wo0 |] eqn:Ho0;
      [| unfold waiter_timeout; by rewrite Ho0].
    destruct (timer_live wo0) eqn:Hlive0;
      [| unfold waiter_timeout; by rewrite Ho0, Hlive0].
    pose proof (inv_waiter r Hinv w0 wo0 Ho0) as Hw0. rewrite Hlive0 in Hw0.
    destruct Hw0 as (_ & _ & ws & Hs & _).
    destruct (runs_waiter_timeout_fields w0 wo0 ws r Ho0 Hlive0 Hs) as (_ & _ & _ & _ & Eo & _).
    rewrite Eo. rewrite list_lookup_alter_ne; [done |]. intros ->. congruence.
  - unfold queueEmbeddedPiMessage.
    destruct (ACTIVE_EMBEDDED_RUNS r !! sid) as [h |]; [| done].
    destruct (isStreaming (view h)); simpl; [| done].
    by destruct (isCompacting (view h)).
  - unfold abortEmbeddedPiRun.
    by destruct (ACTIVE_EMBEDDED_RUNS r !! sid).
Qed.

(** C7.  queueEmbeddedPiMessage returns true exactly when a handle is
    registered for the session, it is streaming and it is not compacting; a
    compacting handle is refused even while it streams; a refusal leaves the
    whole registry state unchanged, the log of queueMessage calls included;
    an acceptance does nothing but call the handle's queueMessage once. *)
Theorem queueEmbeddedPiMessage_true_iff
    (view : nat → HandleView) (sessionId text : string) (r : Registry) :
  let res := queueEmbeddedPiMessage view sessionId text r in
  (res.1 = true ↔
     ∃ h, ACTIVE_EMBEDDED_RUNS r !! sessionId = Some h ∧
          isStreaming (view h) = true ∧ isCompacting (view h) = false) ∧
  (∀ h, ACTIVE_EMBEDDED_RUNS r !! sessionId = Some h →
        isCompacting (view h) = true → res.1 = false) ∧
  (res.1 = false → res.2 = r) ∧
  (res.1 = true →
     ∃ h, ACTIVE_EMBEDDED_RUNS r !! sessionId = Some h ∧
          res.2 = log_queueMessage h text r).
Proof.
  unfold queueEmbeddedPiMessage.
  destruct (ACTIVE_EMBEDDED_RUNS r !! sessionId) as [h |] eqn:Hact; simpl.
  - destruct (isStreaming (view h)) eqn:Hs, (isCompacting (view h)) eqn:Hc; simpl;
      (split; [split; [done || (intros _; exists h; by rewrite ?Hs, ?Hc) |
                       intros (h' & Hh' & Hs' & Hc'); simplify_eq; congruence] |]);
      (split; [intros h' Hh' Hc'; simplify_eq; congruence || done |]);
      (split; [done |]); first [done | intros _; by exists h].
  - split; [split; [done | by intros (h & Hh & _)] |].
    split; [by intros h Hh |]. done.
Qed.


(** C2 as the specification words it fails for the empty session id: a
    run registered under [""] is never waited for. *)
Lemma wait_empty_session_not_registered :
  let r := setActiveEmbeddedRun "" 1 None empty in
  isEmbeddedPiRunActive "" r = true ∧
  waitForEmbeddedPiRunEnd "" None r = (Settled true, r) ∧
  waiter_objs (waitForEmbeddedPiRunEnd "" None r).2 = [].
Proof. vm_compute. done. Qed.

(** C2 (amended).  In every reachable registry state:
    (1) waitForEmbeddedPiRunEnd resolves true at once, registering nothing,
        when the session id is empty or no run is registered for it;
    (2) otherwise the call registers exactly one new pending waiter (timer
        armed with max(100, timeoutMs)) in the session's waiter set, next
        to the waiters already pending there;
    (3) clearActiveEmbeddedRun with the stored handle calls resolve(true)
        once on every waiter pending for the session, all in that one call,
        and cancels their timers;
    (4) a waiter whose timeout fires first is resolved false, its timer is
        spent, it is in no registered waiter set any more, and no other
        waiter is touched;
    (5) resolve is called at most once per waiter: a waiter is pending
        exactly while its timer is live, and once settled no operation
        touches it again. *)
Theorem waitForEmbeddedPiRunEnd_contract (r : Registry) :
  reachable r →
  (∀ sid ms, sid = "" ∨ ACTIVE_EMBEDDED_RUNS r !! sid = None →
     waitForEmbeddedPiRunEnd sid ms r = (Settled true, r)) ∧
  (∀ sid ms, sid ≠ "" → is_Some (ACTIVE_EMBEDDED_RUNS r !! sid) →
     let w := length (waiter_objs r) in
     let r' := (waitForEmbeddedPiRunEnd sid ms r).2 in
     (waitForEmbeddedPiRunEnd sid ms r).1 = OfWaiter w ∧
     promise_value w r' = None ∧
     ∃ s ws,
       waiter_objs r' = alloc (new_waiter sid s ms) (waiter_objs r) ∧
       EMBEDDED_RUN_WAITERS r' !! sid = Some s ∧
       waiter_sets r' !! s = Some ws ∧ w ∈ ws ∧
       (∀ w' wo, waiter_objs r !! w' = Some wo → pending_for sid wo → w' ∈ ws)) ∧
  (∀ sid h, ACTIVE_EMBEDDED_RUNS r !! sid = Some h →
     let r' := clearActiveEmbeddedRun sid h r in
     ∀ w wo, waiter_objs r !! w = Some wo → pending_for sid wo →
       waiter_objs r' !! w = Some (woken wo) ∧
       resolve_calls (woken wo) = [true] ∧ timer_live (woken wo) = false ∧
       promise_value w r' = Some true) ∧
  (∀ w wo, waiter_objs r !! w = Some wo → timer_live wo = true →
     let r' := waiter_timeout w r in
     waiter_objs r' !! w = Some (timed_out wo) ∧
     resolve_calls (timed_out wo) = [false] ∧ timer_live (timed_out wo) = false ∧
     promise_value w r' = Some false ∧
     (∀ sid s ws, EMBEDDED_RUN_WAITERS r' !! sid = Some s →
                  waiter_sets r' !! s = Some ws → w ∉ ws) ∧
     (∀ w', w' ≠ w → waiter_objs r' !! w' = waiter_objs r !! w')) ∧
  (∀ w wo, waiter_objs r !! w = Some wo →
     (length (resolve_calls wo) ≤ 1)%nat ∧
     (timer_live wo = true ↔ resolve_calls wo = []) ∧
     (resolve_calls wo ≠ [] → ∀ e, waiter_objs (step r e) !! w = Some wo)).
Proof.
  intros Hreach. apply runs_reachable_inv in Hreach as Hinv.
  split; [intros sid ms; apply runs_wait_immediate |].
  split.
  { intros sid ms Hsid Hact w r'.
    destruct (runs_wait_fields sid ms r Hinv Hsid Hact) as (E1 & _ & _ & Ew & Es & _ & Eo & _ & _).
    fold w r' in E1, Ew, Es, Eo.
    split; [done |]. split.
    { unfold promise_value. rewrite Eo. subst w. by rewrite alloc_lookup_new. }
    eexists _, _. split; [exact Eo |]. split; [by rewrite Ew, lookup_insert_eq |].
    split; [exact Es |]. split; [apply elem_of_app; right; by apply list_elem_of_singleton |].
    intros w' wo Ho (Hsess & Hlive & _). apply elem_of_app. left.
    pose proof (inv_waiter r Hinv w' wo Ho) as Hw. rewrite Hlive in Hw.
    destruct Hw as (_ & Hreg & ws & Hs & Hin).
    rewrite Hsess in Hreg. rewrite Hreg. simpl. by rewrite Hs. }
  split.
  { intros sid h Hact r' w wo Ho Hp.
    destruct (runs_clear_fields sid h r Hinv Hact) as (_ & _ & _ & _ & Eo & _).
    fold r' in Eo. destruct Hp as (Hsess & Hlive & Hc).
    assert (E : waiter_objs r' !! w = Some (woken wo)).
    { rewrite Eo, Ho. simpl. rewrite decide_True; [done |]. by split. }
    split; [done |]. split; [simpl; by rewrite Hc |]. split; [done |].
    unfold promise_value. rewrite E. simpl. by rewrite Hc. }
  split.
  { intros w wo Ho Hlive r'.
    pose proof (inv_waiter r Hinv w wo Ho) as Hw. rewrite Hlive in Hw.
    destruct Hw as (Hc & _ & ws & Hs & _).
    destruct (runs_waiter_timeout_fields w wo ws r Ho Hlive Hs) as (_ & _ & _ & _ & Eo & _).
    fold r' in Eo.
    assert (E : waiter_objs r' !! w = Some (timed_out wo)).
    { rewrite Eo, list_lookup_alter_eq, Ho. done. }
    split; [done |]. split; [simpl; by rewrite Hc |]. split; [done |].
    split; [unfold promise_value; rewrite E; simpl; by rewrite Hc |].
    split; [| intros w' Hne; rewrite Eo; by rewrite list_lookup_alter_ne].
    intros sid s ws' Hreg Hs' Hin.
    pose proof (runs_inv_timeout w r Hinv) as Hinv'. fold r' in Hinv'.
    destruct (inv_registered r' Hinv' sid s Hreg) as [_ (ws0 & Hs0 & _ & _ & Hm)].
    assert (ws0 = ws') as -> by congruence.
    destruct (Hm w Hin) as (wo' & Ho' & _ & _ & Hlive' & _).
    rewrite E in Ho'. by simplify_eq. }
  intros w wo Ho. pose proof (inv_waiter r Hinv w wo Ho) as Hw.
  split; [destruct (timer_live wo); [destruct Hw as [-> _]; simpl |]; lia |].
  split.
  - destruct (timer_live wo); [by destruct Hw |].
    split; [done |]. intros Hc. rewrite Hc in Hw. done.
  - intros Hset e. by apply runs_settled_waiter_untouched.
Qed.

Lemma runs_reachable_two_waiters : reachable two_waiters.
Proof. by eexists. Qed.

(** Two waiters on one session: both wake on one clear; the second can
    time out instead. *)
Lemma waitForEmbeddedPiRunEnd_contract_witness :
  promise_value 0 (clearActiveEmbeddedRun "S1" 1 two_waiters) = Some true ∧
  promise_value 1 (clearActiveEmbeddedRun "S1" 1 two_waiters) = Some true ∧
  promise_value 1 (waiter_timeout 1 two_waiters) = Some false.
Proof.
  destruct (waitForEmbeddedPiRunEnd_contract two_waiters runs_reachable_two_waiters)
    as (_ & _ & Hclear & Htimeout & _).
  split; [| split].
  - destruct (Hclear "S1" 1%nat eq_refl 0%nat _ eq_refl) as (_ & _ & _ & H);
      [by repeat split | exact H].
  - destruct (Hclear "S1" 1%nat eq_refl 1%nat _ eq_refl) as (_ & _ & _ & H);
      [by repeat split | exact H].
  - destruct (Htimeout 1%nat _ eq_refl eq_refl) as (_ & _ & _ & H & _). exact H.
Defined.


(** Every pending waiter waits for a session with an active run and sits in
    the set registered for that session; the waiter table holds no empty
    set and no entry for a session without an active run; a session
    without an active run has no pending waiter. *)
Theorem pending_waiters_wait_on_active_runs (r : Registry) :
  reachable r →
  (∀ w wo, waiter_objs r !! w = Some wo → timer_live wo = true →
     resolve_calls wo = [] ∧
     is_Some (ACTIVE_EMBEDDED_RUNS r !! w_session wo) ∧
     EMBEDDED_RUN_WAITERS r !! w_session wo = Some (w_set wo) ∧
     ∃ ws, waiter_sets r !! w_set wo = Some ws ∧ w ∈ ws) ∧
  (∀ sid s, EMBEDDED_RUN_WAITERS r !! sid = Some s →
     is_Some (ACTIVE_EMBEDDED_RUNS r !! sid) ∧
     ∃ ws, waiter_sets r !! s = Some ws ∧ ws ≠ [] ∧ NoDup ws ∧
           ∀ w, w ∈ ws → ∃ wo, waiter_objs r !! w = Some wo ∧ pending_for sid wo) ∧
  (∀ sid, ACTIVE_EMBEDDED_RUNS r !! sid = None →
     EMBEDDED_RUN_WAITERS r !! sid = None ∧
     ∀ w wo, waiter_objs r !! w = Some wo → ¬ pending_for sid wo).
Proof.
  intros Hreach. apply runs_reachable_inv in Hreach as Hinv.
  assert (H1 : ∀ w wo, waiter_objs r !! w = Some wo → timer_live wo = true →
     resolve_calls wo = [] ∧
     is_Some (ACTIVE_EMBEDDED_RUNS r !! w_session wo) ∧
     EMBEDDED_RUN_WAITERS r !! w_session wo = Some (w_set wo) ∧
     ∃ ws, waiter_sets r !! w_set wo = Some ws ∧ w ∈ ws).
  { intros w wo Ho Hlive. pose proof (inv_waiter r Hinv w wo Ho) as Hw.
    rewrite Hlive in Hw. destruct Hw as (Hc & Hreg & Hset).
    split; [done |]. split; [| done].
    by destruct (inv_registered r Hinv _ _ Hreg). }
  split; [exact H1 |]. split.
  - intros sid s Hs. destruct (inv_registered r Hinv sid s Hs) as [Hact (ws & Hws & Hne & Hnd & Hm)].
    split; [done |]. exists ws. repeat split; try done.
    intros w Hin. destruct (Hm w Hin) as (wo & Ho & _ & Hp). by exists wo.
  - intros sid Hnone. split.
    + destruct (EMBEDDED_RUN_WAITERS r !! sid) as [s |] eqn:Hs; [| done].
      destruct (inv_registered r Hinv sid s Hs) as [[h Hact] _]. congruence.
    + intros w wo Ho (Hsess & Hlive & _).
      destruct (H1 w wo Ho Hlive) as (_ & [h Hact] & _). congruence.
Qed.

Lemma pending_waiters_wait_on_active_runs_witness :
  is_Some (ACTIVE_EMBEDDED_RUNS two_waiters !! "S1") ∧
  EMBEDDED_RUN_WAITERS two_waiters !! "S1" = Some 0%nat.
Proof.
  destruct (pending_waiters_wait_on_active_runs two_waiters runs_reachable_two_waiters)
    as (Hw & _ & _).
  destruct (Hw 1%nat _ eq_refl eq_refl) as (_ & Hact & Hreg & _).
  split; [exact Hact | exact Hreg].
Defined.

Section JsMapFacts.
Context {V : Type}.

Lemma runs_jsmap_get_set_eq (k : string) (v : V) m : jsmap_get k (jsmap_set k v m) = Some v.
Proof.
  induction m as [| [k0 v0] m IH]; simpl.
  - by rewrite decide_True.
  - destruct (decide (k0 = k)) as [-> | Hne]; simpl.
    + by rewrite decide_True.
    + by rewrite decide_False.
Qed.

Lemma runs_jsmap_get_set_ne (k k' : string) (v : V) m :
  k' ≠ k → jsmap_get k' (jsmap_set k v m) = jsmap_get k' m.
Proof.
  intros Hne. induction m as [| [k0 v0] m IH]; simpl.
  - by rewrite decide_False.
  - destruct (decide (k0 = k)) as [-> | Hne0]; simpl.
    + by rewrite !decide_False.
    + destruct (decide (k0 = k')); [done | exact IH].
Qed.

Lemma runs_jsmap_get_delete_ne (k k' : string) (m : list (string * V)) :
  k' ≠ k → jsmap_get k' (jsmap_delete k m) = jsmap_get k' m.
Proof.
  intros Hne. induction m as [| [k0 v0] m IH]; simpl; [done |].
  destruct (decide (k0 = k)) as [-> | Hne0]; simpl.
  - by rewrite decide_False.
  - destruct (decide (k0 = k')); [done | exact IH].
Qed.

Lemma runs_jsmap_get_elem (k : string) (v : V) m :
  NoDup m.*1 → (k, v) ∈ m → jsmap_get k m = Some v.
Proof.
  induction m as [| [k0 v0] m IH]; simpl; intros Hnd Hin.
  - by apply not_elem_of_nil in Hin.
  - apply NoDup_cons in Hnd as [Hnotin Hnd].
    apply elem_of_cons in Hin as [[= -> ->] | Hin].
    + by rewrite decide_True.
    + rewrite decide_False; [by apply IH |].
      intros ->. apply Hnotin. apply list_elem_of_fmap. by exists (k, v).
Qed.

End JsMapFacts.

Lemma runs_get_drop_first_alias sid rest m key :
  NoDup m.*1 → rest ⊆ m → jsmap_get key m ≠ Some sid →
  jsmap_get key (drop_first_alias sid rest m) = jsmap_get key m.
Proof.
  intros Hnd. induction rest as [| [k0 id0] rest IH]; simpl; intros Hsub Hne; [done |].
  destruct (decide (id0 = sid)) as [-> | Hid].
  - apply runs_jsmap_get_delete_ne. intros ->. apply Hne.
    apply runs_jsmap_get_elem; [done |]. apply Hsub. by left.
  - apply IH; [| done]. intros x Hx. apply Hsub. by right.
Qed.

(** How [resolveActiveSessionId] follows the registry.  It answers with a
    session id only when that id is non-empty, is what the key maps to and
    has an active run.  Registering a run under a key makes the key resolve
    to it, and makes every older key that maps to the same id resolve again;
    other keys are unaffected.  Registering under the empty session id is
    never resolvable.  After the matching clear no key resolves to the
    session, and keys of other sessions resolve as before. *)
Theorem resolveActiveSessionId_follows_registry :
  (∀ key r sid, resolveActiveSessionId key r = Some sid ↔
     jsmap_get key (SESSION_KEY_TO_SESSION_ID r) = Some sid ∧ sid ≠ "" ∧
     is_Some (ACTIVE_EMBEDDED_RUNS r !! sid)) ∧
  (∀ sid h key r, key ≠ "" → sid ≠ "" →
     resolveActiveSessionId key (setActiveEmbeddedRun sid h (Some key) r) = Some sid) ∧
  (∀ h key r, key ≠ "" →
     resolveActiveSessionId key (setActiveEmbeddedRun "" h (Some key) r) = None) ∧
  (∀ sid h (key : option string) key' r, key ≠ Some key' →
     let r' := setActiveEmbeddedRun sid h key r in
     (jsmap_get key' (SESSION_KEY_TO_SESSION_ID r) = Some sid → sid ≠ "" →
        resolveActiveSessionId key' r' = Some sid) ∧
     (jsmap_get key' (SESSION_KEY_TO_SESSION_ID r) ≠ Some sid →
        resolveActiveSessionId key' r' = resolveActiveSessionId key' r)) ∧
  (∀ sid h key r, reachable r → ACTIVE_EMBEDDED_RUNS r !! sid = Some h →
     let r' := clearActiveEmbeddedRun sid h r in
     resolveActiveSessionId key r' ≠ Some sid ∧
     (jsmap_get key (SESSION_KEY_TO_SESSION_ID r) ≠ Some sid →
        resolveActiveSessionId key r' = resolveActiveSessionId key r)).
Proof.
  assert (Hiff : ∀ key r sid, resolveActiveSessionId key r = Some sid ↔
     jsmap_get key (SESSION_KEY_TO_SESSION_ID r) = Some sid ∧ sid ≠ "" ∧
     is_Some (ACTIVE_EMBEDDED_RUNS r !! sid)).
  { intros key r sid. unfold resolveActiveSessionId, isEmbeddedPiRunActive.
    destruct (jsmap_get key (SESSION_KEY_TO_SESSION_ID r)) as [mapped |]; [| naive_solver].
    repeat case_bool_decide; simpl; naive_solver. }
  assert (Hnone : ∀ key r, resolveActiveSessionId key r = None ↔
     ∀ sid, ¬ (jsmap_get key (SESSION_KEY_TO_SESSION_ID r) = Some sid ∧ sid ≠ "" ∧
               is_Some (ACTIVE_EMBEDDED_RUNS r !! sid))).
  { intros key r. split.
    - intros Hn sid Hs. apply Hiff in Hs. congruence.
    - intros Hall. destruct (resolveActiveSessionId key r) as [sid |] eqn:E; [| done].
      apply Hiff in E. by destruct (Hall sid). }
  assert (Heq : ∀ key r key' r',
     (∀ sid, (jsmap_get key (SESSION_KEY_TO_SESSION_ID r) = Some sid ∧ sid ≠ "" ∧
              is_Some (ACTIVE_EMBEDDED_RUNS r !! sid)) ↔
             (jsmap_get key' (SESSION_KEY_TO_SESSION_ID r') = Some sid ∧ sid ≠ "" ∧
              is_Some (ACTIVE_EMBEDDED_RUNS r' !! sid))) →
     resolveActiveSessionId key r = resolveActiveSessionId key' r').
  { intros key r key' r' Hall.
    destruct (resolveActiveSessionId key' r') as [sid |] eqn:E.
    - apply Hiff. apply Hall. by apply Hiff.
    - apply Hnone. intros sid Hs. apply Hall in Hs. apply Hiff in Hs. congruence. }
  split; [exact Hiff |]. split; [| split; [| split]].
  - intros sid h key r Hkey Hsid. apply Hiff. unfold setActiveEmbeddedRun.
    rewrite bool_decide_eq_false_2 by done. simpl.
    rewrite runs_jsmap_get_set_eq, lookup_insert_eq. by eauto.
  - intros h key r Hkey. apply Hnone. intros sid (Hget & Hsid & _).
    revert Hget. unfold setActiveEmbeddedRun. rewrite bool_decide_eq_false_2 by done. simpl.
    rewrite runs_jsmap_get_set_eq. congruence.
  - intros sid h key key' r Hne r'.
    assert (Hal : jsmap_get key' (SESSION_KEY_TO_SESSION_ID r')
                  = jsmap_get key' (SESSION_KEY_TO_SESSION_ID r)).
    { subst r'. unfold setActiveEmbeddedRun. destruct key as [key |]; [| done].
      case_bool_decide; [done |]. simpl. apply runs_jsmap_get_set_ne. congruence. }
    assert (Hact : ACTIVE_EMBEDDED_RUNS r' = <[sid := h]> (ACTIVE_EMBEDDED_RUNS r)).
    { subst r'. unfold setActiveEmbeddedRun. destruct key as [key |]; [| done].
      by case_bool_decide. }
    split.
    + intros Hget Hsid. apply Hiff. rewrite Hal, Hact, lookup_insert_eq. by eauto.
    + intros Hget. apply Heq. intros sid'. rewrite Hal, Hact. split.
      * intros (H1 & H2 & H3). repeat split; try done.
        rewrite lookup_insert_ne in H3; [done | congruence].
      * intros (H1 & H2 & H3). repeat split; try done.
        rewrite lookup_insert_ne; [done | congruence].
  - intros sid h key r Hreach Hact r'. apply runs_reachable_inv in Hreach as Hinv.
    destruct (runs_clear_fields sid h r Hinv Hact) as (Ea & Ek & _). fold r' in Ea, Ek.
    split.
    + intros Hs. apply Hiff in Hs as (_ & _ & [h' Hh']).
      rewrite Ea, lookup_delete_eq in Hh'. done.
    + intros Hget. apply Heq. intros sid'. rewrite Ea, Ek.
      rewrite runs_get_drop_first_alias; [| apply (inv_alias_keys r Hinv) | done | done].
      split.
      * intros (H1 & H2 & H3). repeat split; try done.
        rewrite lookup_delete_ne in H3; [done | congruence].
      * intros (H1 & H2 & H3). repeat split; try done.
        rewrite lookup_delete_ne; [done | congruence].
Qed.

(** A key resolves once its run is registered and no longer after the
    matching clear. *)
Lemma resolveActiveSessionId_follows_registry_witness :
  let r1 := setActiveEmbeddedRun "S1" 1 (Some "agent:main") empty in
  let r2 := clearActiveEmbeddedRun "S1" 1 r1 in
  resolveActiveSessionId "agent:main" r1 = Some "S1" ∧
  resolveActiveSessionId "agent:main" r2 ≠ Some "S1".
Proof.
  destruct resolveActiveSessionId_follows_registry as (_ & Hset & _ & _ & Hclear).
  split.
  - by apply Hset.
  - apply (Hclear "S1" 1%nat "agent:main"
             (setActiveEmbeddedRun "S1" 1 (Some "agent:main") empty));
      [by exists [ESetActive "S1" 1 (Some "agent:main")] | reflexivity].
Defined.

(** Replacing a run's handle under the same session id: the end signal of
    the replaced run (a clear with the old handle) then changes nothing,
    the callers already waiting keep waiting, and they are woken by the
    clear that carries the new handle. *)
Theorem replaced_run_ignores_stale_clear
    (r : Registry) (sid : string) (h1 h2 : nat) (key : option string) :
  reachable r → ACTIVE_EMBEDDED_RUNS r !! sid = Some h1 → h2 ≠ h1 →
  let r1 := setActiveEmbeddedRun sid h2 key r in
  clearActiveEmbeddedRun sid h1 r1 = r1 ∧
  ∀ w wo, waiter_objs r !! w = Some wo → pending_for sid wo →
    waiter_objs r1 !! w = Some wo ∧
    promise_value w r1 = None ∧
    promise_value w (clearActiveEmbeddedRun sid h2 r1) = Some true.
Proof.
  intros Hreach Hact Hne r1. apply runs_reachable_inv in Hreach as Hinv.
  assert (Hinv1 : inv r1) by by apply runs_inv_setActive.
  assert (Hact1 : ACTIVE_EMBEDDED_RUNS r1 !! sid = Some h2).
  { subst r1. unfold setActiveEmbeddedRun. destruct key as [k |]; [case_bool_decide |];
      simpl; by rewrite lookup_insert_eq. }
  assert (Hobjs : waiter_objs r1 = waiter_objs r).
  { subst r1. unfold setActiveEmbeddedRun. destruct key as [k |]; [case_bool_decide |]; done. }
  split.
  - unfold clearActiveEmbeddedRun. rewrite decide_False; [done |]. rewrite Hact1. congruence.
  - intros w wo Ho (Hsess & Hlive & Hc). rewrite Hobjs. split; [done |].
    split; [unfold promise_value; by rewrite Hobjs, Ho; simpl; rewrite Hc |].
    destruct (runs_clear_fields sid h2 r1 Hinv1 Hact1) as (_ & _ & _ & _ & Eo & _).
    unfold promise_value. rewrite Eo, Hobjs, Ho. simpl.
    rewrite decide_True by done. simpl. by rewrite Hc.
Qed.

(** The first waiter of [two_waiters] across a replacement of handle 1 by
    handle 2. *)
Lemma replaced_run_ignores_stale_clear_witness :
  let r1 := setActiveEmbeddedRun "S1" 2 None two_waiters in
  clearActiveEmbeddedRun "S1" 1 r1 = r1 ∧
  promise_value 0 (clearActiveEmbeddedRun "S1" 2 r1) = Some true.
Proof.
  assert (Hne : 2%nat ≠ 1%nat) by lia.
  destruct (replaced_run_ignores_stale_clear two_waiters "S1" 1%nat 2%nat None
              runs_reachable_two_waiters eq_refl Hne) as [Hstale Hwake].
  split; [exact Hstale |].
  destruct (Hwake 0%nat _ eq_refl) as (_ & _ & H); [by repeat split | exact H].
Defined.

(** The delay a waiter's timeout is armed with. *)
Lemma runs_waiter_delay (r : Registry) :
  reachable r →
  (∀ w wo, waiter_objs r !! w = Some wo → 100 ≤ w_delay wo) ∧
  (∀ sid ms, sid ≠ "" → is_Some (ACTIVE_EMBEDDED_RUNS r !! sid) →
     w_delay <$> waiter_objs (waitForEmbeddedPiRunEnd sid ms r).2 !! length (waiter_objs r)
     = Some (Z.max 100 (default 15000 ms))) ∧
  (∀ e w wo, waiter_objs r !! w = Some wo →
     w_delay <$> waiter_objs (step r e) !! w = Some (w_delay wo)).
Proof.
  intros Hreach.
  assert (Hkeep : ∀ r0 e w wo, inv r0 → waiter_objs r0 !! w = Some wo →
            w_delay <$> waiter_objs (step r0 e) !! w = Some (w_delay wo)).
  { intros r0 e w wo Hinv Ho. destruct e as [sid h key | sid h | sid ms | w0 | view sid text | sid];
      simpl.
    - unfold setActiveEmbeddedRun. destruct key as [k |]; [case_bool_decide |];
        simpl; by rewrite Ho.
    - destruct (decide (ACTIVE_EMBEDDED_RUNS r0 !! sid = Some h)) as [Hact | Hno].
      + destruct (runs_clear_fields sid h r0 Hinv Hact) as (_ & _ & _ & _ & Eo & _).
        rewrite Eo, Ho. simpl. by case_decide.
      + unfold clearActiveEmbeddedRun. rewrite decide_False by done. by rewrite Ho.
    - destruct (decide (sid = "")) as [-> | Hsid];
        [rewrite runs_wait_immediate by (by left); simpl; by rewrite Ho |].
      destruct (ACTIVE_EMBEDDED_RUNS r0 !! sid) as [h |] eqn:Hact;
        [| rewrite runs_wait_immediate by (by right); simpl; by rewrite Ho].
      destruct (runs_wait_fields sid ms r0 Hinv Hsid) as (_ & _ & _ & _ & _ & _ & Eo & _);
        [by eauto |].
      rewrite Eo. erewrite alloc_lookup_old by done. done.
    - unfold waiter_timeout. destruct (waiter_objs r0 !! w0) as [wo0 |] eqn:Ho0;
        [| by rewrite Ho].
      destruct (timer_live wo0) eqn:Hlive; [| by rewrite Ho].
      pose proof (inv_waiter r0 Hinv w0 wo0 Ho0) as Hw. rewrite Hlive in Hw.
      destruct Hw as (_ & _ & ws & Hs & _).
      destruct (runs_waiter_timeout_fields w0 wo0 ws r0 Ho0 Hlive Hs)
        as (_ & _ & _ & _ & Eo & _).
      unfold waiter_timeout in Eo. rewrite Ho0, Hlive in Eo. rewrite Eo.
      destruct (decide (w0 = w)) as [-> | Hne].
      * rewrite list_lookup_alter_eq, Ho. simpl. congruence.
      * rewrite list_lookup_alter_ne by done. by rewrite Ho.
    - unfold queueEmbeddedPiMessage. repeat case_match; simpl; by rewrite Ho.
    - unfold abortEmbeddedPiRun. repeat case_match; simpl; by rewrite Ho. }
  assert (Hnew : ∀ r0 sid ms, inv r0 → sid ≠ "" → is_Some (ACTIVE_EMBEDDED_RUNS r0 !! sid) →
     w_delay <$> waiter_objs (waitForEmbeddedPiRunEnd sid ms r0).2 !! length (waiter_objs r0)
     = Some (Z.max 100 (default 15000 ms))).
  { intros r0 sid ms Hinv Hsid Hact.
    destruct (runs_wait_fields sid ms r0 Hinv Hsid Hact) as (_ & _ & _ & _ & _ & _ & Eo & _).
    by rewrite Eo, alloc_lookup_new. }
  apply runs_reachable_inv in Hreach as Hinv.
  split; [| split; [intros sid ms; by apply Hnew | intros e w wo; by apply Hkeep]].
  destruct Hreach as [evs ->]. clear Hinv. unfold run.
  induction evs as [| e evs IH] using rev_ind; [intros w wo H; by cbn in H |].
  rewrite foldl_app. simpl. set (r0 := foldl step empty evs) in *.
  assert (Hinv0 : inv r0) by (apply runs_reachable_inv; by exists evs).
  intros w wo Ho.
  destruct (waiter_objs r0 !! w) as [wo0 |] eqn:Ho0.
  - pose proof (Hkeep r0 e w wo0 Hinv0 Ho0) as Hk. rewrite Ho in Hk. simpl in Hk.
    injection Hk as ->. by apply (IH w).
  - destruct e as [sid h key | sid h | sid ms | w0 | view sid text | sid]; simpl in Ho.
    + revert Ho. unfold setActiveEmbeddedRun. destruct key as [k |]; [case_bool_decide |];
        simpl; congruence.
    + destruct (decide (ACTIVE_EMBEDDED_RUNS r0 !! sid = Some h)) as [Hact | Hno].
      * destruct (runs_clear_fields sid h r0 Hinv0 Hact) as (_ & _ & _ & _ & Eo & _).
        rewrite Eo, Ho0 in Ho. done.
      * unfold clearActiveEmbeddedRun in Ho. rewrite decide_False in Ho by done. congruence.
    + destruct (decide (sid = "")) as [-> | Hsid];
        [rewrite runs_wait_immediate in Ho by (by left); simpl in Ho; congruence |].
      destruct (ACTIVE_EMBEDDED_RUNS r0 !! sid) as [h |] eqn:Hact;
        [| rewrite runs_wait_immediate in Ho by (by right); simpl in Ho; congruence].
      destruct (runs_wait_fields sid ms r0 Hinv0 Hsid) as (_ & _ & _ & _ & _ & _ & Eo & _);
        [by eauto |].
      rewrite Eo in Ho. apply alloc_lookup_inv in Ho as [Ho | [_ ->]]; [congruence |].
      simpl. lia.
    + exfalso. revert Ho. unfold waiter_timeout.
      destruct (waiter_objs r0 !! w0) as [wo0 |] eqn:Hw0; [| congruence].
      destruct (timer_live wo0) eqn:Hlive; [| congruence].
      pose proof (inv_waiter r0 Hinv0 w0 wo0 Hw0) as Hw. rewrite Hlive in Hw.
      destruct Hw as (_ & _ & ws & Hs & _).
      destruct (runs_waiter_timeout_fields w0 wo0 ws r0 Hw0 Hlive Hs)
        as (_ & _ & _ & _ & Eo & _).
      unfold waiter_timeout in Eo. rewrite Hw0, Hlive in Eo. rewrite Eo.
      intros Ho. apply lookup_lt_Some in Ho. rewrite length_alter in Ho.
      apply lookup_ge_None in Ho0. lia.
    + revert Ho. unfold queueEmbeddedPiMessage. repeat case_match; simpl; congruence.
    + revert Ho. unfold abortEmbeddedPiRun. repeat case_match; simpl; congruence.
Qed.

(** The timeout of a waiter, for a timeout of a whole number of
    milliseconds.  The delay passed to [setTimeout] is what the caller
    asked for (15000 ms when it gave none) but never under 100 ms, and it
    never changes.  The runtime runs that delay as it is when it is at most
    2^31 - 1 ms, so that such a waiter waits at least 100 ms; it runs a
    larger delay as 1 ms, so that a caller asking for more than 2^31 - 1 ms
    waits 1 ms. *)
Theorem waiter_timeout_delay_bounds (r : Registry) :
  reachable r →
  (∀ w wo, waiter_objs r !! w = Some wo →
     100 ≤ w_delay wo ∧
     timer_duration (w_delay wo)
     = (if bool_decide (w_delay wo ≤ TIMEOUT_MAX) then w_delay wo else 1)) ∧
  (∀ sid ms, sid ≠ "" → is_Some (ACTIVE_EMBEDDED_RUNS r !! sid) →
     let wo := waiter_objs (waitForEmbeddedPiRunEnd sid ms r).2 !! length (waiter_objs r) in
     w_delay <$> wo = Some (Z.max 100 (default 15000 ms)) ∧
     (timer_duration ∘ w_delay) <$> wo
     = Some (if bool_decide (default 15000 ms ≤ TIMEOUT_MAX)
             then Z.max 100 (default 15000 ms) else 1)) ∧
  (∀ e w wo, waiter_objs r !! w = Some wo →
     w_delay <$> waiter_objs (step r e) !! w = Some (w_delay wo)).
Proof.
  intros Hreach. destruct (runs_waiter_delay r Hreach) as (Hmin & Hnew & Hkeep).
  split; [| split; [| exact Hkeep]].
  - intros w wo Ho. pose proof (Hmin w wo Ho). split; [done |].
    unfold timer_duration. repeat case_bool_decide; lia.
  - intros sid ms Hsid Hact. cbv zeta. specialize (Hnew sid ms Hsid Hact).
    split; [exact Hnew |].
    destruct (waiter_objs (waitForEmbeddedPiRunEnd sid ms r).2 !! length (waiter_objs r))
      as [wo |]; [| done].
    simpl in *. injection Hnew as ->. f_equal.
    unfold timer_duration, TIMEOUT_MAX. repeat case_bool_decide; lia.
Qed.

(** A caller that asks for 50 ms waits 100 ms; one that asks for 2^31 ms
    waits 1 ms. *)
Lemma waiter_timeout_delay_bounds_witness :
  let r := run [ESetActive "S1" 1 (Some "agent:main")] in
  w_delay <$> waiter_objs (waitForEmbeddedPiRunEnd "S1" (Some 50) r).2 !! 0%nat = Some 100 ∧
  (timer_duration ∘ w_delay)
    <$> waiter_objs (waitForEmbeddedPiRunEnd "S1" (Some 2147483648) r).2 !! 0%nat = Some 1.
Proof.
  intros r.
  destruct (waiter_timeout_delay_bounds r) as (_ & Hnew & _); [by eexists |].
  split.
  - apply (Hnew "S1" (Some 50)); [done | by eexists].
  - apply (Hnew "S1" (Some 2147483648)); [done | by eexists].
Defined.

End RunsFacts.

(** ** The phase/counter status manager (monitor/thread-status.ts) *)
Module PhaseFacts.
Import PhaseStatus.

Lemma phase_inv_init : inv init.
Proof.
  split.
  - intros m c1 c2 (call & H & _). by cbn in H.
  - intros m c (call & H & _). by cbn in H.
  - intros m mg H. by cbn in H.
  - intros c call H. by cbn in H.
  - intros k m H. cbn in H. by rewrite lookup_empty in H.
  - intros m mg H. by cbn in H.
Qed.

Lemma phase_inv_assign this f w : quiet f → inv w → inv (assign this f w).
Proof.
  intros Hq [Hu Hgf Hfg Ht Hk Hn]. split; simpl.
  - exact Hu.
  - intros m c Hc. destruct (Hgf m c Hc) as (mg & Ho & Hp).
    destruct (decide (this = m)) as [-> | Hne].
    + exists (f mg). rewrite list_lookup_alter_eq, Ho. split; [done |].
      by rewrite (proj1 (Hq mg)).
    + exists mg. by rewrite list_lookup_alter_ne.
  - intros m mg' Ho' Hp'. apply alter_lookup_inv in Ho' as [[Hne Ho'] | [-> (mg & Ho & ->)]].
    + by apply (Hfg m mg').
    + apply (Hfg m mg Ho). by rewrite <- (proj1 (Hq mg)).
  - exact Ht.
  - intros k m Hm. destruct (Hk k m Hm) as (mg & Ho & Hkey).
    destruct (decide (this = m)) as [-> | Hne].
    + exists (f mg). rewrite list_lookup_alter_eq, Ho. split; [done |].
      by rewrite (proj1 (proj2 (Hq mg))).
    + exists mg. by rewrite list_lookup_alter_ne.
  - intros m mg' Ho'. apply alter_lookup_inv in Ho' as [[Hne Ho'] | [-> (mg & Ho & ->)]].
    + by apply (Hn m).
    + apply Hq. by apply (Hn m).
Qed.

Lemma phase_inv_set_timers f w : inv w → inv (set_timers f w).
Proof. intros [Hu Hgf Hfg Ht Hk Hn]. by split. Qed.

Lemma phase_inv_set_handles f w : inv w → inv (set_handles f w).
Proof. intros [Hu Hgf Hfg Ht Hk Hn]. by split. Qed.

Lemma phase_inv_set_onError_calls f w : inv w → inv (set_onError_calls f w).
Proof. intros [Hu Hgf Hfg Ht Hk Hn]. by split. Qed.

Lemma phase_inv_delete_key k w : inv w → inv (set_managers (delete k) w).
Proof.
  intros [Hu Hgf Hfg Ht Hk Hn]. split; try done.
  simpl. intros k' m Hm. apply lookup_delete_Some in Hm as [_ Hm]. by apply Hk.
Qed.

Lemma phase_in_flight_alloc m w c call :
  in_flight m (set_calls (alloc call) w) c ↔
  in_flight m w c ∨ (c = length (calls w) ∧ c_mgr call = m ∧ c_done call = false).
Proof.
  unfold in_flight. simpl. split.
  - intros (x & Hx & Hm & Hd). apply alloc_lookup_inv in Hx as [Hx | [-> ->]].
    + left. by exists x.
    + by right.
  - intros [(x & Hx & Hm & Hd) | (-> & Hm & Hd)].
    + exists x. split; [by apply alloc_lookup_old | done].
    + exists call. split; [apply alloc_lookup_new | done].
Qed.

Lemma phase_in_flight_lt m w c : in_flight m w c → (c < length (calls w))%nat.
Proof. intros (x & Hx & _). by apply lookup_lt_Some in Hx. Qed.

Lemma phase_inv_pushOnce this text w : text ≠ "" → inv w → inv (pushOnce this text w).
Proof.
  intros Htext Hinv. unfold pushOnce, method.
  destruct (objects w !! this) as [mg |] eqn:Ho; [| done].
  destruct (pushing mg) eqn:Hp; [done |].
  destruct Hinv as [Hu Hgf Hfg Ht Hk Hn].
  assert (Hnone : ∀ c, ¬ in_flight this w c).
  { intros c Hc. destruct (Hgf this c Hc) as (mg' & Ho' & Hp'). congruence. }
  split.
  - intros m c1 c2 H1 H2.
    apply phase_in_flight_alloc in H1 as [H1 | (-> & Hm1 & _)];
      apply phase_in_flight_alloc in H2 as [H2 | (-> & Hm2 & _)]; simpl in *.
    + by apply (Hu m).
    + subst m. by destruct (Hnone c1).
    + subst m. by destruct (Hnone c2).
    + done.
  - intros m c Hc. apply phase_in_flight_alloc in Hc as [Hc | (-> & Hm & _)]; simpl in *.
    + destruct (Hgf m c Hc) as (mg' & Ho' & Hp').
      assert (this ≠ m) by (intros ->; congruence).
      exists mg'. by rewrite list_lookup_alter_ne.
    + subst m. exists (with_pushing true mg).
      by rewrite list_lookup_alter_eq, Ho.
  - intros m mg' Ho' Hp'. simpl in Ho'.
    apply alter_lookup_inv in Ho' as [[Hne Ho'] | [-> (x & Hx & ->)]].
    + destruct (Hfg m mg' Ho' Hp') as [c Hc]. exists c.
      apply phase_in_flight_alloc. by left.
    + exists (length (calls w)). apply phase_in_flight_alloc. by right.
  - simpl. intros c call Hc. apply alloc_lookup_inv in Hc as [Hc | [_ ->]].
    + by apply (Ht c).
    + done.
  - simpl. intros k m Hm. destruct (Hk k m Hm) as (mg' & Ho' & Hkey).
    destruct (decide (this = m)) as [-> | Hne].
    + exists (with_pushing true mg'). by rewrite list_lookup_alter_eq, Ho'.
    + exists mg'. by rewrite list_lookup_alter_ne.
  - simpl. intros m mg' Ho'.
    apply alter_lookup_inv in Ho' as [[Hne Ho'] | [-> (x & Hx & ->)]].
    + by apply (Hn m).
    + simpl. by apply (Hn m).
Qed.

Ltac solve_quiet := intros ?; simpl; repeat split; lia.

Lemma phase_formatStatus_nonempty p s : formatStatus p s ≠ "".
Proof. by destruct p. Qed.

Lemma phase_inv_clearTimer t w : inv w → inv (clearTimer t w).
Proof. apply phase_inv_set_timers. Qed.

Lemma phase_inv_setTimer cb ms w : inv w → inv (setTimer cb ms w).
Proof. apply phase_inv_set_timers. Qed.

Lemma phase_inv_cancelGrace this w : inv w → inv (cancelGrace this w).
Proof.
  intros Hinv. unfold cancelGrace, method.
  destruct (objects w !! this) as [mg |]; [| done].
  destruct (graceTimer mg); [| done].
  apply phase_inv_assign; [solve_quiet | by apply phase_inv_clearTimer].
Qed.

Lemma phase_inv_stopCounter this w : inv w → inv (stopCounter this w).
Proof.
  intros Hinv. unfold stopCounter, method.
  destruct (objects w !! this) as [mg |]; [| done].
  destruct (counterTimer mg); [| done].
  apply phase_inv_assign; [solve_quiet | by apply phase_inv_clearTimer].
Qed.

Lemma phase_inv_destroy this w : inv w → inv (destroy this w).
Proof.
  intros Hinv. unfold destroy, method.
  assert (inv (stopCounter this (cancelGrace this w)))
    by by apply phase_inv_stopCounter, phase_inv_cancelGrace.
  destruct (objects _ !! this) as [mg |]; [| done].
  by apply phase_inv_delete_key.
Qed.

Lemma phase_inv_stopAndDestroy this w : inv w → inv (stopAndDestroy this w).
Proof. intros Hinv. by apply phase_inv_destroy, phase_inv_stopCounter. Qed.

Lemma phase_inv_setPhase this p w : inv w → inv (setPhase this p w).
Proof.
  intros Hinv. unfold setPhase.
  assert (inv (pushOnce this (formatStatus p 0)
                 (stopCounter this (assign this (with_phase (Some p) 0) w)))).
  { apply phase_inv_pushOnce; [apply phase_formatStatus_nonempty |].
    apply phase_inv_stopCounter, phase_inv_assign; [solve_quiet | done]. }
  destruct p; [done | |];
    (apply phase_inv_assign; [solve_quiet | by apply phase_inv_setTimer]).
Qed.

Lemma phase_inv_counter_tick this w : inv w → inv (counter_tick this w).
Proof.
  intros Hinv. unfold counter_tick, method.
  assert (inv (assign this (λ mg, with_phase (phase mg) (S (seconds mg)) mg) w))
    by (apply phase_inv_assign; [solve_quiet | done]).
  destruct (objects _ !! this) as [mg |]; [| done].
  apply phase_inv_pushOnce; [| done].
  destruct (phase mg); [apply phase_formatStatus_nonempty | done].
Qed.

Lemma phase_inv_grace_end this w : inv w → inv (grace_end this w).
Proof.
  intros Hinv. apply phase_inv_stopAndDestroy, phase_inv_assign; [solve_quiet | done].
Qed.

Lemma phase_inv_releaseHandle this g w : inv w → inv (releaseHandle this g w).
Proof.
  intros Hinv. unfold releaseHandle, method.
  assert (inv (assign this
                 (λ mg, with_activeHandles (Z.max 0 (activeHandles mg - 1)) mg) w))
    by (apply phase_inv_assign; [solve_quiet | done]).
  destruct (objects _ !! this) as [mg |]; [| done].
  case_bool_decide; [done |].
  destruct (phase mg); [| by apply phase_inv_destroy].
  destruct g as [[] |]; try by apply phase_inv_stopAndDestroy.
  all: apply phase_inv_assign; [solve_quiet |]; by apply phase_inv_setTimer, phase_inv_stopCounter.
Qed.

Lemma phase_inv_acquire this sg w : inv w → inv (acquire this sg w).
Proof.
  intros Hinv. unfold acquire.
  apply phase_inv_set_handles, phase_inv_cancelGrace, phase_inv_assign; [solve_quiet | done].
Qed.

(** [new ThreadStatusManager(...)] followed by [managers.set(key, mgr)]. *)
Lemma phase_inv_register p w :
  inv w → managers w !! key p = None →
  inv (set_managers (<[key p := length (objects w)]>)
         (set_objects (alloc (new_ThreadStatusManager p)) w)).
Proof.
  intros [Hu Hgf Hfg Ht Hk Hn] Hfree. split; simpl.
  - exact Hu.
  - intros m c Hc. destruct (Hgf m c Hc) as (mg & Ho & Hp).
    exists mg. split; [by apply alloc_lookup_old | done].
  - intros m mg Ho Hp. apply alloc_lookup_inv in Ho as [Ho | [_ ->]]; [| done].
    by apply (Hfg m mg).
  - exact Ht.
  - intros k m Hm. destruct (decide (key p = k)) as [<- | Hne].
    + rewrite lookup_insert_eq in Hm. simplify_eq.
      exists (new_ThreadStatusManager p). split; [apply alloc_lookup_new | done].
    + rewrite lookup_insert_ne in Hm by done.
      destruct (Hk k m Hm) as (mg & Ho & Hkey).
      exists mg. split; [by apply alloc_lookup_old | done].
  - intros m mg Ho. apply alloc_lookup_inv in Ho as [Ho | [_ ->]]; [| done].
    by apply (Hn m).
Qed.

Lemma phase_inv_acquireThreadStatus a w : inv w → inv (acquireThreadStatus a w).
Proof.
  intros Hinv. unfold acquireThreadStatus.
  destruct (managers w !! a_key a) as [m |] eqn:Hm; [by apply phase_inv_acquire |].
  apply phase_inv_acquire.
  by apply (phase_inv_register
    {| key := a_key a; push := a_push a; graceMs := default 5000 (a_graceMs a);
       onError := a_onError a |}).
Qed.

Lemma phase_inv_handle_setStatus h p w : inv w → inv (handle_setStatus h p w).
Proof.
  intros Hinv. unfold handle_setStatus.
  destruct (handles w !! h) as [hd |]; [| done].
  destruct (released hd); [done | by apply phase_inv_setPhase].
Qed.

Lemma phase_inv_handle_pause h w : inv w → inv (handle_pause h w).
Proof.
  intros Hinv. unfold handle_pause.
  destruct (handles w !! h) as [hd |]; [| done].
  destruct (released hd); [done | by apply phase_inv_stopCounter].
Qed.

Lemma phase_inv_handle_release h answer w : inv w → inv (handle_release h answer w).
Proof.
  intros Hinv. unfold handle_release.
  destruct (handles w !! h) as [hd |]; [| done].
  destruct (released hd); [done |].
  by apply phase_inv_releaseHandle, phase_inv_set_handles.
Qed.

Lemma phase_inv_rePush this w : inv w → inv (rePush this w).
Proof.
  intros Hinv. unfold rePush, method.
  destruct (objects w !! this) as [mg |]; [| done].
  destruct (getFormattedStatus mg) as [text |]; [| done].
  case_bool_decide; [done | by apply phase_inv_pushOnce].
Qed.

Lemma phase_inv_pushCurrentStatus k w : inv w → inv (pushCurrentStatus k w).
Proof.
  intros Hinv. unfold pushCurrentStatus.
  destruct (managers w !! k); [by apply phase_inv_rePush | done].
Qed.

Lemma phase_in_flight_settled m w c c' :
  in_flight m (set_calls (alter (with_done true) c) w) c' ↔ c' ≠ c ∧ in_flight m w c'.
Proof.
  unfold in_flight. simpl. split.
  - intros (x & Hx & Hm & Hd).
    apply alter_lookup_inv in Hx as [[Hne Hx] | [-> (y & Hy & ->)]]; [| done].
    split; [done |]. by exists x.
  - intros [Hne (x & Hx & Hm & Hd)]. exists x.
    by rewrite list_lookup_alter_ne.
Qed.

Lemma phase_inv_push_settles c ok w : inv w → inv (push_settles c ok w).
Proof.
  intros Hinv. unfold push_settles.
  destruct (calls w !! c) as [call |] eqn:Hc; [| done].
  destruct (c_done call) eqn:Hd; [done |].
  assert (Hfl : in_flight (c_mgr call) w c) by by exists call.
  destruct (inv_gate_flag w Hinv _ _ Hfl) as (mg & Ho & Hp).
  unfold method. cbn [objects set_calls]. rewrite Ho.
  set (w1 := set_calls (alter (with_done true) c) w).
  set (w2 := if ok then w1 else
               match onError (params mg) with
               | Some cb => set_onError_calls (alloc (cb, c)) w1
               | None => w1
               end).
  assert (E : calls w2 = calls w1 ∧ objects w2 = objects w ∧ managers w2 = managers w).
  { subst w2. destruct ok; [done |]. by destruct (onError (params mg)). }
  destruct E as (Ec & Eo & Em). destruct Hinv as [Hu Hgf Hfg Ht Hk Hn].
  assert (Hfl' : ∀ m c', in_flight m (assign (c_mgr call) (with_pushing false) w2) c'
                         ↔ c' ≠ c ∧ in_flight m w c').
  { intros m c'. rewrite <- phase_in_flight_settled. unfold in_flight. simpl. by rewrite Ec. }
  split.
  - intros m c1 c2 H1 H2. apply Hfl' in H1 as [_ H1]. apply Hfl' in H2 as [_ H2].
    by apply (Hu m).
  - intros m c' Hc'. apply Hfl' in Hc' as [Hne Hc'].
    destruct (Hgf m c' Hc') as (mg' & Ho' & Hp').
    assert (c_mgr call ≠ m).
    { intros <-. apply Hne. by apply (Hu (c_mgr call)). }
    exists mg'. simpl. rewrite Eo. by rewrite list_lookup_alter_ne.
  - intros m mg' Ho' Hp'. simpl in Ho'. rewrite Eo in Ho'.
    apply alter_lookup_inv in Ho' as [[Hne Ho'] | [<- (x & Hx & ->)]]; [| done].
    destruct (Hfg m mg' Ho' Hp') as [c' Hc']. exists c'. apply Hfl'.
    split; [| done]. intros ->. destruct Hc' as (x & Hx & Hm & _). congruence.
  - simpl. rewrite Ec. simpl. intros c' call' Hc'.
    apply alter_lookup_inv in Hc' as [[Hne Hc'] | [-> (y & Hy & ->)]].
    + by apply (Ht c').
    + simpl. by apply (Ht c').
  - simpl. rewrite Em, Eo. intros k m Hm. destruct (Hk k m Hm) as (mg' & Ho' & Hkey).
    destruct (decide (c_mgr call = m)) as [<- | Hne].
    + exists (with_pushing false mg'). by rewrite list_lookup_alter_eq, Ho'.
    + exists mg'. by rewrite list_lookup_alter_ne.
  - simpl. rewrite Eo. intros m mg' Ho'.
    apply alter_lookup_inv in Ho' as [[Hne Ho'] | [<- (x & Hx & ->)]].
    + by apply (Hn m).
    + simpl. by apply (Hn (c_mgr call)).
Qed.

Lemma phase_inv_timer_fires t w : inv w → inv (timer_fires t w).
Proof.
  intros Hinv. unfold timer_fires.
  destruct (timers w !! t) as [tm |]; [| done].
  destruct (t_live tm); [| done].
  destruct (t_callback tm).
  - by apply phase_inv_counter_tick.
  - by apply phase_inv_grace_end, phase_inv_clearTimer.
Qed.

(** [_resetAllManagers] keeps whatever [forceDestroy] and emptying the
    registry keep. *)
Lemma phase_reset_ind (P : World → Prop) w :
  P w → (∀ m w0, P w0 → P (forceDestroy m w0)) →
  (∀ w0, P w0 → P (set_managers (λ _, ∅) w0)) →
  P (_resetAllManagers w).
Proof.
  intros H0 Hforce Hclear. unfold _resetAllManagers. apply Hclear.
  induction (map_to_list (managers w)) as [| [k m] l IH]; simpl; [done |].
  by apply Hforce.
Qed.

(** What [_resetAllManagers] leaves alone: the handles, both logs, and
    the size of the stores. *)
Lemma phase_resetAllManagers_frame w :
  managers (_resetAllManagers w) = ∅ ∧
  handles (_resetAllManagers w) = handles w ∧
  calls (_resetAllManagers w) = calls w ∧
  onError_calls (_resetAllManagers w) = onError_calls w ∧
  length (timers (_resetAllManagers w)) = length (timers w) ∧
  length (objects (_resetAllManagers w)) = length (objects w).
Proof.
  split; [done |].
  apply (phase_reset_ind (λ w', handles w' = handles w ∧ calls w' = calls w ∧
           onError_calls w' = onError_calls w ∧
           length (timers w') = length (timers w) ∧
           length (objects w') = length (objects w))); [done | | done].
  intros m w0 (Eh & Ec & Ee & Et & Eo). rewrite <- Eh, <- Ec, <- Ee, <- Et, <- Eo.
  unfold forceDestroy, stopCounter, cancelGrace, method, assign, clearTimer.
  repeat case_match; simpl; by rewrite ?length_alter.
Qed.

Lemma phase_resetAllManagers_calls w : calls (_resetAllManagers w) = calls w.
Proof. apply phase_resetAllManagers_frame. Qed.

Lemma phase_resetAllManagers_handles w : handles (_resetAllManagers w) = handles w.
Proof. apply phase_resetAllManagers_frame. Qed.

Lemma phase_inv_resetAllManagers w : inv w → inv (_resetAllManagers w).
Proof.
  intros Hinv. apply phase_reset_ind; [done | |].
  - intros m w0 H0. by apply phase_inv_stopCounter, phase_inv_cancelGrace.
  - intros w0 [Hu Hgf Hfg Ht Hk Hn]. by split.
Qed.

Lemma phase_inv_step w e : inv w → inv (step w e).
Proof.
  intros Hinv. destruct e; simpl.
  - by apply phase_inv_acquireThreadStatus.
  - by apply phase_inv_handle_setStatus.
  - by apply phase_inv_handle_pause.
  - by apply phase_inv_handle_release.
  - by apply phase_inv_pushCurrentStatus.
  - by apply phase_inv_timer_fires.
  - by apply phase_inv_push_settles.
  - by apply phase_inv_resetAllManagers.
Qed.

Lemma phase_reachable_inv w : reachable w → inv w.
Proof.
  intros [evs ->]. unfold run.
  induction evs as [| e evs IH] using rev_ind; simpl.
  - apply phase_inv_init.
  - rewrite foldl_app. simpl. by apply phase_inv_step.
Qed.

(** Unfold the methods down to the store updates and split on every
    lookup and test on the way. *)
Ltac open_methods :=
  unfold handle_release, handle_setStatus, handle_pause, pushCurrentStatus, rePush,
    acquireThreadStatus, acquire, releaseHandle, grace_end, counter_tick, setPhase,
    stopAndDestroy, destroy, forceDestroy, stopCounter, cancelGrace, pushOnce,
    method, assign, setTimer, clearTimer;
  repeat case_match; try reflexivity.

Lemma phase_stopCounter_frame this w :
  managers (stopCounter this w) = managers w ∧ handles (stopCounter this w) = handles w ∧
  calls (stopCounter this w) = calls w.
Proof. open_methods. all: done. Qed.

Lemma phase_releaseHandle_handles this g w : handles (releaseHandle this g w) = handles w.
Proof. open_methods. Qed.

Lemma phase_releaseHandle_calls this g w : calls (releaseHandle this g w) = calls w.
Proof. open_methods. Qed.

Lemma phase_grace_end_calls this w : calls (grace_end this w) = calls w.
Proof. open_methods. Qed.

(** Reduce the lookups that [open_methods] leaves in the hypotheses. *)
Ltac norm_lookups :=
  repeat match goal with
  | H : context [alter _ ?i _ !! ?i] |- _ => rewrite list_lookup_alter_eq in H
  | H : ?l !! ?i = Some _, H' : context [?l !! ?i] |- _ =>
      lazymatch H' with H => fail | _ => rewrite H in H' end
  | H : _ <$> Some _ = _ |- _ => simpl in H
  | H : Some _ = Some _ |- _ => injection H as H; subst
  | H : Some _ = None |- _ => discriminate H
  | H : None = Some _ |- _ => discriminate H
  end.

Lemma phase_destroy_unregisters this w mg :
  objects w !! this = Some mg →
  managers (destroy this w) = delete (key (params mg)) (managers w).
Proof.
  intros Ho. unfold destroy, stopCounter, cancelGrace, method, assign, clearTimer.
  repeat (case_match; simpl in *; norm_lookups); simpl; try done.
Qed.

Lemma phase_kp_refl w : keeps_params w w.
Proof. intros m mg H. by exists mg. Qed.

Lemma phase_kp_assign this f w w1 :
  (∀ mg, params (f mg) = params mg) → keeps_params w w1 →
  keeps_params w (assign this f w1).
Proof.
  intros Hf Hk m mg Ho. destruct (Hk m mg Ho) as (mg1 & Ho1 & Hp1). simpl.
  destruct (decide (this = m)) as [-> | Hne].
  - exists (f mg1). rewrite list_lookup_alter_eq, Ho1. split; [done |]. by rewrite Hf.
  - exists mg1. by rewrite list_lookup_alter_ne.
Qed.

Lemma phase_kp_objects w w1 w2 :
  objects w2 = objects w1 → keeps_params w w1 → keeps_params w w2.
Proof. intros E Hk m mg Ho. rewrite E. by apply Hk. Qed.

Lemma phase_kp_new_object x w w1 :
  keeps_params w w1 → keeps_params w (set_objects (alloc x) w1).
Proof.
  intros Hk m mg Ho. destruct (Hk m mg Ho) as (mg1 & Ho1 & Hp1).
  exists mg1. split; [by apply alloc_lookup_old | done].
Qed.

Lemma phase_kp_set_handles f w w1 : keeps_params w w1 → keeps_params w (set_handles f w1).
Proof. by apply phase_kp_objects. Qed.

Lemma phase_kp_set_timers f w w1 : keeps_params w w1 → keeps_params w (set_timers f w1).
Proof. by apply phase_kp_objects. Qed.

Lemma phase_kp_set_calls f w w1 : keeps_params w w1 → keeps_params w (set_calls f w1).
Proof. by apply phase_kp_objects. Qed.

Lemma phase_kp_set_managers f w w1 : keeps_params w w1 → keeps_params w (set_managers f w1).
Proof. by apply phase_kp_objects. Qed.

Lemma phase_kp_set_onError_calls f w w1 :
  keeps_params w w1 → keeps_params w (set_onError_calls f w1).
Proof. by apply phase_kp_objects. Qed.

Ltac solve_kp :=
  repeat first
    [ apply phase_kp_refl
    | apply phase_kp_assign; [intros ?; reflexivity |]
    | apply phase_kp_new_object
    | apply phase_kp_set_handles | apply phase_kp_set_timers | apply phase_kp_set_calls
    | apply phase_kp_set_managers | apply phase_kp_set_onError_calls ].

Lemma phase_kp_step w e : keeps_params w (step w e).
Proof.
  destruct e; simpl.
  - unfold acquireThreadStatus, acquire, cancelGrace, method.
    repeat case_match; unfold clearTimer; solve_kp.
  - unfold handle_setStatus, setPhase, pushOnce, stopCounter, method.
    repeat case_match; unfold setTimer, clearTimer; solve_kp.
  - unfold handle_pause, stopCounter, method.
    repeat case_match; unfold clearTimer; solve_kp.
  - unfold handle_release, releaseHandle, stopAndDestroy, destroy, stopCounter,
      cancelGrace, method.
    repeat case_match; unfold setTimer, clearTimer; solve_kp.
  - unfold pushCurrentStatus, rePush, pushOnce, method.
    repeat case_match; solve_kp.
  - unfold timer_fires, counter_tick, grace_end, stopAndDestroy, destroy, stopCounter,
      cancelGrace, pushOnce, method.
    repeat case_match; unfold clearTimer; solve_kp.
  - unfold push_settles, method.
    repeat case_match; solve_kp.
  - apply (phase_reset_ind (keeps_params w)); [apply phase_kp_refl | |].
    + intros m w0 H0. unfold forceDestroy, stopCounter, cancelGrace, method.
      repeat case_match; unfold clearTimer; solve_kp; exact H0.
    + intros w0 H0. by apply phase_kp_set_managers.
Qed.

(** After [release()] the handle's [released] variable is set, whatever
    the manager did. *)
Lemma phase_released_after_release h answer w hd :
  handles w !! h = Some hd →
  ∃ hd', handles (handle_release h answer w) !! h = Some hd' ∧ released hd' = true.
Proof.
  intros Hh. unfold handle_release. rewrite Hh.
  destruct (released hd) eqn:Hr; [by exists hd |].
  rewrite phase_releaseHandle_handles. simpl.
  exists (with_released true hd). by rewrite list_lookup_alter_eq, Hh.
Qed.

Lemma phase_release_idempotent h a1 a2 p w :
  let w1 := handle_release h a1 w in
  handle_release h a2 w1 = w1 ∧ handle_setStatus h p w1 = w1 ∧ handle_pause h w1 = w1.
Proof.
  intros w1. destruct (handles w !! h) as [hd |] eqn:Hh.
  - destruct (phase_released_after_release h a1 w hd Hh) as (hd' & Hh' & Hr').
    fold w1 in Hh'. unfold handle_release, handle_setStatus, handle_pause.
    by rewrite Hh', Hr'.
  - assert (w1 = w) as -> by (subst w1; unfold handle_release; by rewrite Hh).
    unfold handle_release, handle_setStatus, handle_pause. by rewrite Hh.
Qed.

(** A first [release()] does take effect; the guard is not vacuous. *)
Lemma phase_first_release_counts h answer w hd mg :
  handles w !! h = Some hd → released hd = false →
  objects w !! h_mgr hd = Some mg → 1 ≤ activeHandles mg →
  ∃ mg', objects (handle_release h answer w) !! h_mgr hd = Some mg' ∧
         activeHandles mg' = activeHandles mg - 1.
Proof.
  intros Hh Hr Ho Hpos. unfold handle_release. rewrite Hh, Hr.
  unfold releaseHandle, stopAndDestroy, destroy, stopCounter, cancelGrace, method,
    assign, setTimer, clearTimer.
  repeat (case_match; simpl in *; norm_lookups); simpl;
    rewrite ?list_lookup_alter_eq, ?Ho; simpl; eexists; (split; [reflexivity |]);
    simpl; lia.
Qed.

Lemma phase_acquire_existing a w m :
  managers w !! a_key a = Some m →
  let w' := acquireThreadStatus a w in
  (∀ a', a_key a' = a_key a → a_shouldGrace a' = a_shouldGrace a →
         acquireThreadStatus a' w = w') ∧
  handles w' = alloc {| h_mgr := m; released := false; shouldGrace := a_shouldGrace a |}
                 (handles w) ∧
  managers w' = managers w ∧ length (objects w') = length (objects w) ∧
  keeps_params w w'.
Proof.
  intros Hm w'. split; [| split; [| split; [| split]]].
  - intros a' Hk Hs. subst w'. unfold acquireThreadStatus. by rewrite Hk, Hm, Hs.
  - subst w'. unfold acquireThreadStatus. rewrite Hm. open_methods.
  - subst w'. unfold acquireThreadStatus. rewrite Hm. open_methods.
  - subst w'. unfold acquireThreadStatus. rewrite Hm. open_methods.
    all: simpl; by rewrite ?length_alter.
  - apply (phase_kp_step w (EAcquire a)).
Qed.

(** The creating call fixes the configuration. *)
Lemma phase_acquire_fresh a w :
  managers w !! a_key a = None →
  let w' := acquireThreadStatus a w in
  let m := length (objects w) in
  managers w' !! a_key a = Some m ∧
  ∃ mg, objects w' !! m = Some mg ∧
        params mg = {| key := a_key a; push := a_push a;
                       graceMs := default 5000 (a_graceMs a); onError := a_onError a |}.
Proof.
  intros Hm w' m. subst w'. unfold acquireThreadStatus. rewrite Hm.
  unfold acquire, cancelGrace, method, assign, clearTimer.
  repeat (case_match; simpl in *; norm_lookups); simpl;
    rewrite ?lookup_insert_eq, ?list_lookup_alter_eq, ?alloc_lookup_new; simpl;
    (split; [done |]); eexists; (split; [reflexivity |]); done.
Qed.

Lemma phase_handle_release_calls h answer w : calls (handle_release h answer w) = calls w.
Proof.
  unfold handle_release. repeat case_match; try done. by rewrite phase_releaseHandle_calls.
Qed.

Lemma phase_grace_timer_calls t tm m w :
  timers w !! t = Some tm → t_callback tm = GraceEnd m →
  calls (timer_fires t w) = calls w.
Proof.
  intros Ht Hcb. unfold timer_fires. rewrite Ht, Hcb.
  destruct (t_live tm); [| done]. by rewrite phase_grace_end_calls.
Qed.

Lemma phase_stopAndDestroy_unregisters this w mg :
  objects w !! this = Some mg →
  managers (stopAndDestroy this w) = delete (key (params mg)) (managers w).
Proof.
  intros Ho. unfold stopAndDestroy.
  assert (Hk : keeps_params w (stopCounter this w)).
  { unfold stopCounter, method. repeat case_match; unfold clearTimer; solve_kp. }
  destruct (Hk this mg Ho) as (mg' & Ho' & Hp').
  rewrite (phase_destroy_unregisters this _ mg' Ho'), Hp'.
  by rewrite (proj1 (phase_stopCounter_frame this w)).
Qed.

(** The last release with [shouldGrace() === false] unregisters the manager
    in the same step. *)
Lemma phase_release_last_immediate h w hd mg sg :
  handles w !! h = Some hd → released hd = false → shouldGrace hd = Some sg →
  objects w !! h_mgr hd = Some mg → activeHandles mg ≤ 1 → is_Some (phase mg) →
  managers (handle_release h false w) = delete (key (params mg)) (managers w).
Proof.
  intros Hh Hr Hsg Ho Hah [p Hp]. unfold handle_release. rewrite Hh, Hr, Hsg. simpl.
  unfold releaseHandle, method. simpl. rewrite list_lookup_alter_eq, Ho. simpl.
  rewrite bool_decide_eq_false_2 by lia. rewrite Hp.
  erewrite phase_stopAndDestroy_unregisters;
    [| simpl; by rewrite list_lookup_alter_eq, Ho]. done.
Qed.

(** Any other last release arms the grace timer and leaves the registry
    alone; when that timer fires the manager is unregistered.  Neither step
    calls the push function. *)
Lemma phase_release_last_graced h answer w hd mg :
  handles w !! h = Some hd → released hd = false →
  (shouldGrace hd = None ∨ answer = true) →
  objects w !! h_mgr hd = Some mg → activeHandles mg ≤ 1 → is_Some (phase mg) →
  let w' := handle_release h answer w in
  let t := length (timers w) in
  managers w' = managers w ∧
  timers w' !! t = Some {| t_callback := GraceEnd (h_mgr hd);
                           t_ms := graceMs (params mg); t_live := true |} ∧
  (∃ mg', objects w' !! h_mgr hd = Some mg' ∧ graceTimer mg' = Some t ∧
          counterTimer mg' = None ∧ activeHandles mg' = 0) ∧
  managers (timer_fires t w') = delete (key (params mg)) (managers w) ∧
  calls (timer_fires t w') = calls w.
Proof.
  intros Hh Hr Hsg Ho Hah [p Hp] w' t.
  assert (Hg : shouldGrace hd ≫= (λ _, Some answer) ≠ Some false).
  { destruct Hsg as [-> | ->]; [done |]. by destruct (shouldGrace hd). }
  assert (E : w' = let w1 := assign (h_mgr hd)
                        (λ mg, with_activeHandles (Z.max 0 (activeHandles mg - 1)) mg)
                        (set_handles (alter (with_released true) h) w) in
                   let w2 := stopCounter (h_mgr hd) w1 in
                   assign (h_mgr hd) (with_graceTimer (Some (length (timers w2))))
                     (setTimer (GraceEnd (h_mgr hd)) (graceMs (params mg)) w2)).
  { subst w'. unfold handle_release. rewrite Hh, Hr.
    unfold releaseHandle, method. simpl. rewrite list_lookup_alter_eq, Ho. simpl.
    rewrite bool_decide_eq_false_2 by lia. rewrite Hp.
    destruct (shouldGrace hd ≫= (λ _, Some answer)) as [[] |]; done. }
  assert (Hlen : ∀ w0, length (timers (stopCounter (h_mgr hd) w0)) = length (timers w0)).
  { intros w0. unfold stopCounter, method, assign, clearTimer.
    repeat case_match; simpl; by rewrite ?length_alter. }
  assert (Htm : timers w' !! t = Some {| t_callback := GraceEnd (h_mgr hd);
                                         t_ms := graceMs (params mg); t_live := true |}).
  { rewrite E. simpl. subst t.
    match goal with |- alloc _ (timers ?w0) !! _ = _ =>
      replace (length (timers w)) with (length (timers w0)) by by rewrite Hlen
    end.
    apply alloc_lookup_new. }
  assert (Hobj : ∃ mg', objects w' !! h_mgr hd = Some mg' ∧ graceTimer mg' = Some t ∧
                        counterTimer mg' = None ∧ activeHandles mg' = 0 ∧
                        params mg' = params mg).
  { rewrite E. simpl. rewrite Hlen. simpl. fold t.
    unfold stopCounter, method, assign, clearTimer. simpl.
    rewrite !list_lookup_alter_eq, Ho. simpl.
    destruct (counterTimer mg) eqn:Hct; simpl;
      rewrite ?list_lookup_alter_eq, ?Ho; simpl;
      eexists; (split; [reflexivity |]); simpl; repeat split; try done; lia. }
  assert (Hman : managers w' = managers w).
  { rewrite E. simpl. by rewrite (proj1 (phase_stopCounter_frame _ _)). }
  split; [done |]. split; [done |].
  destruct Hobj as (mg' & Ho' & Hgt & Hct & Hz & Hpar).
  split; [by exists mg' |].
  unfold timer_fires. rewrite Htm. simpl. split.
  - unfold grace_end. erewrite phase_stopAndDestroy_unregisters;
      [| simpl; by rewrite list_lookup_alter_eq, Ho'].
    simpl. by rewrite Hman, Hpar.
  - rewrite phase_grace_end_calls. simpl. subst w'. apply phase_handle_release_calls.
Qed.

(** While a push of manager [m] is in flight, [pushOnce] does nothing. *)
Lemma phase_pushOnce_skipped m c text w :
  inv w → in_flight m w c → pushOnce m text w = w.
Proof.
  intros Hinv Hc. destruct (inv_gate_flag w Hinv m c Hc) as (mg & Ho & Hp).
  unfold pushOnce, method. by rewrite Ho, Hp.
Qed.

(** What one event other than a settlement does to the call log: nothing,
    or one new call, in flight. *)
Lemma phase_step_calls w e :
  (∃ c ok, e = ESettle c ok) ∨ calls (step w e) = calls w ∨
  ∃ call, calls (step w e) = alloc call (calls w) ∧ c_done call = false.
Proof.
  destruct e; [right .. | left; by eexists _, _ | right]; simpl.
  7: { left. apply phase_resetAllManagers_frame. }
  - left. unfold acquireThreadStatus. open_methods.
  - unfold handle_setStatus, setPhase, pushOnce, stopCounter, method, assign,
      setTimer, clearTimer.
    repeat case_match; simpl;
      first [left; reflexivity | right; eexists; split; reflexivity].
  - left. open_methods.
  - left. apply phase_handle_release_calls.
  - unfold pushCurrentStatus, rePush, pushOnce, method, assign.
    repeat case_match; simpl;
      first [left; reflexivity | right; eexists; split; reflexivity].
  - unfold timer_fires, counter_tick, pushOnce, method, assign.
    repeat case_match; simpl;
      first [left; reflexivity | left; rewrite phase_grace_end_calls; reflexivity
            | right; eexists; split; reflexivity].
Qed.

(** While a push of manager [m] is in flight no event makes another call
    of [m]'s push function. *)
Lemma phase_no_call_while_in_flight m c w e c' call' :
  inv w → in_flight m w c →
  calls (step w e) !! c' = Some call' → c_mgr call' = m →
  (c' < length (calls w))%nat.
Proof.
  intros Hinv Hc Hc' Hm.
  destruct (phase_step_calls w e) as [(c0 & ok & ->) | [E | (call & E & Hd)]].
  - apply lookup_lt_Some in Hc'. simpl in Hc'.
    assert (length (calls (push_settles c0 ok w)) = length (calls w)); [| lia].
    unfold push_settles, method, assign.
    repeat case_match; simpl; by rewrite ?length_alter.
  - rewrite E in Hc'. by apply lookup_lt_Some in Hc'.
  - rewrite E in Hc'. apply alloc_lookup_inv in Hc' as [Hc' | [-> ->]];
      [by apply lookup_lt_Some in Hc' |].
    assert (Hin1 : in_flight m (step w e) (length (calls w))).
    { exists call. rewrite E. split; [apply alloc_lookup_new | done]. }
    assert (Hin2 : in_flight m (step w e) c).
    { destruct Hc as (x & Hx & Hxm & Hxd). exists x. rewrite E.
      split; [by apply alloc_lookup_old | done]. }
    pose proof (inv_gate_unique _ (phase_inv_step w e Hinv) m _ _ Hin1 Hin2) as Heq.
    apply phase_in_flight_lt in Hc. lia.
Qed.

Ltac open_events :=
  unfold handle_release, handle_setStatus, handle_pause, pushCurrentStatus, rePush,
    timer_fires, push_settles,
    acquireThreadStatus, acquire, releaseHandle, grace_end, counter_tick, setPhase,
    stopAndDestroy, destroy, forceDestroy, stopCounter, cancelGrace, pushOnce,
    method, assign, setTimer, clearTimer;
  repeat case_match.

Ltac old_entry H :=
  simpl in H; apply lookup_lt_Some in H; simpl in H; rewrite ?length_alter in H; lia.

Ltac new_entry H :=
  simpl in H; apply alloc_lookup_inv in H as [H | [-> ->]]; [old_entry H |].

Ltac find_object :=
  simpl in *; norm_lookups;
  first
    [ eexists; split; [eassumption | reflexivity]
    | match goal with
      | |- ∃ mg, ?l !! ?i = Some mg ∧ _ => destruct (l !! i) eqn:?
      end;
      simpl in *; simplify_eq; eexists; split; reflexivity ].

(** A call made by a step goes to the push function the manager was
    constructed with. *)
Lemma phase_new_call_fn w e c call :
  calls (step w e) !! c = Some call → (length (calls w) ≤ c)%nat →
  ∃ mg, objects w !! c_mgr call = Some mg ∧ c_fn call = push (params mg).
Proof.
  intros Hc Hge. destruct e.
  8: { change (step w EReset) with (_resetAllManagers w) in Hc.
       rewrite phase_resetAllManagers_calls in Hc. apply lookup_lt_Some in Hc. lia. }
  all: simpl in Hc.
  all: revert Hc; open_events; simpl; intros Hc; try (old_entry Hc).
  all: new_entry Hc; find_object.
Qed.

(** A grace timer armed by a step runs for the [graceMs] the manager was
    constructed with. *)
Lemma phase_new_grace_timer_ms w e t tm m :
  timers (step w e) !! t = Some tm → (length (timers w) ≤ t)%nat →
  t_callback tm = GraceEnd m →
  ∃ mg, objects w !! m = Some mg ∧ t_ms tm = graceMs (params mg).
Proof.
  intros Ht Hge Hcb. destruct e.
  8: { change (step w EReset) with (_resetAllManagers w) in Ht.
       apply lookup_lt_Some in Ht.
       destruct (phase_resetAllManagers_frame w) as (_ & _ & _ & _ & Et & _). lia. }
  all: simpl in Ht.
  all: revert Ht; open_events; simpl; intros Ht; try (old_entry Ht).
  all: new_entry Ht; simpl in Hcb; try discriminate Hcb.
  all: injection Hcb as <-; find_object.
Qed.

(** Only the settlement of a rejected push adds to the error log: the
    rejection goes to the [onError] the manager was constructed with. *)
Lemma phase_step_errors w e :
  onError_calls (step w e) = onError_calls w ∨
  ∃ c call mg cb, e = ESettle c false ∧ calls w !! c = Some call ∧ c_done call = false ∧
    objects w !! c_mgr call = Some mg ∧ onError (params mg) = Some cb ∧
    onError_calls (step w e) = alloc (cb, c) (onError_calls w).
Proof.
  destruct e as [a | h p | h | h answer | k | t | c ok |].
  8: { left. apply phase_resetAllManagers_frame. }
  1-6: left; simpl; open_events; reflexivity.
  simpl. unfold push_settles, method.
  destruct (calls w !! c) as [call |] eqn:Hc; [| by left].
  destruct (c_done call) eqn:Hd; [by left |]. simpl.
  destruct (objects w !! c_mgr call) as [mg |] eqn:Ho; [| by left].
  destruct ok; [by left |].
  destruct (onError (params mg)) as [cb |] eqn:Hcb; [| by left].
  right. by exists c, call, mg, cb.
Qed.

(** C5 as the specification words it: the last release with
    [shouldGrace() = false] after a phase was set unregisters the manager,
    and the only call ever made to the push function is the one that showed
    the phase; no [""] is pushed. *)
Lemma phase_release_makes_no_clearing_push :
  let w := handle_release 0 false thinking_shown in
  managers w !! "K" = None ∧
  calls w = [ {| c_mgr := 0; c_fn := 7; c_text := "thinking 0s"; c_done := true |} ] ∧
  calls (timer_fires 1 (handle_release 0 true thinking_shown)) = calls w ∧
  managers (timer_fires 1 (handle_release 0 true thinking_shown)) !! "K" = None.
Proof. vm_compute. done. Qed.

Lemma phase_run_from_snoc w evs e : run_from w (evs ++ [e]) = step (run_from w evs) e.
Proof. unfold run_from. by rewrite foldl_app. Qed.

Lemma phase_run_from_params w evs : keeps_params w (run_from w evs).
Proof.
  induction evs as [| e evs IH] using rev_ind; [apply phase_kp_refl |].
  rewrite phase_run_from_snoc. intros m mg Ho. destruct (IH m mg Ho) as (mg1 & Ho1 & Hp1).
  destruct (phase_kp_step (run_from w evs) e m mg1 Ho1) as (mg2 & Ho2 & Hp2).
  exists mg2. split; [done | congruence].
Qed.

(** Handles are only ever added, and only [release()] changes one. *)
Lemma phase_handles_step w e h hd :
  handles w !! h = Some hd →
  ∃ hd', handles (step w e) !! h = Some hd' ∧ h_mgr hd' = h_mgr hd ∧
         (released hd = true → released hd' = true).
Proof.
  intros Hh. destruct e as [a | h0 p | h0 | h0 answer | k | t | c0 ok |].
  8: { exists hd. change (step w EReset) with (_resetAllManagers w).
       by rewrite phase_resetAllManagers_handles. }
  all: simpl.
  - exists hd. split; [| done]. open_events; simpl; by apply alloc_lookup_old.
  - exists hd. split; [| done]. open_events; simpl; done.
  - exists hd. split; [| done]. open_events; simpl; done.
  - unfold handle_release.
    destruct (handles w !! h0) as [hd0 |] eqn:Hh0; [| by exists hd].
    destruct (released hd0) eqn:Hr0; [by exists hd |].
    rewrite phase_releaseHandle_handles. simpl.
    destruct (decide (h0 = h)) as [-> | Hne].
    + exists (with_released true hd). by rewrite list_lookup_alter_eq, Hh.
    + exists hd. by rewrite list_lookup_alter_ne.
  - exists hd. split; [| done]. open_events; simpl; done.
  - exists hd. split; [| done]. open_events; simpl; done.
  - exists hd. split; [| done]. open_events; simpl; done.
Qed.

(** A released handle stays released. *)
Lemma phase_released_for_good w evs h hd :
  handles w !! h = Some hd → released hd = true →
  ∃ hd', handles (run_from w evs) !! h = Some hd' ∧ released hd' = true.
Proof.
  intros Hh Hr. induction evs as [| e evs IH] using rev_ind; [by exists hd |].
  rewrite phase_run_from_snoc. destruct IH as (hd1 & Hh1 & Hr1).
  destruct (phase_handles_step (run_from w evs) e h hd1 Hh1) as (hd2 & Hh2 & _ & Hr2).
  exists hd2. split; [done | by apply Hr2].
Qed.

Lemma phase_release_idempotent_later h a1 a2 p evs w :
  is_Some (handles w !! h) →
  let w1 := run_from (handle_release h a1 w) evs in
  handle_release h a2 w1 = w1 ∧ handle_setStatus h p w1 = w1 ∧ handle_pause h w1 = w1.
Proof.
  intros [hd Hh] w1.
  destruct (phase_released_after_release h a1 w hd Hh) as (hd1 & Hh1 & Hr1).
  destruct (phase_released_for_good _ evs h hd1 Hh1 Hr1) as (hd2 & Hh2 & Hr2).
  fold w1 in Hh2. unfold handle_release, handle_setStatus, handle_pause.
  by rewrite Hh2, Hr2.
Qed.

Lemma phase_live_handles_alloc m hd hs :
  live_handles m (alloc hd hs) =
  (live_handles m hs + if decide (is_live m hd) then 1 else 0)%nat.
Proof.
  unfold live_handles, alloc. rewrite filter_app, length_app. f_equal.
  rewrite filter_cons, filter_nil. by case_decide.
Qed.

Lemma phase_live_handles_release m h hd hs :
  hs !! h = Some hd → released hd = false →
  (live_handles m (alter (with_released true) h hs)
   + (if decide (h_mgr hd = m) then 1 else 0))%nat = live_handles m hs.
Proof.
  unfold live_handles. revert h. induction hs as [| x hs IH]; intros h Hh Hr; [done |].
  destruct h as [| h]; simpl in *.
  - simplify_eq. rewrite !filter_cons.
    rewrite (decide_False (P := is_live m (with_released true hd)))
      by (by intros [_ ?]).
    destruct (decide (h_mgr hd = m)) as [Hm | Hm].
    + rewrite decide_True by done. simpl. by rewrite Nat.add_1_r.
    + rewrite decide_False by (by intros [? _]). by rewrite Nat.add_0_r.
  - rewrite !filter_cons. specialize (IH h Hh Hr).
    destruct (decide (is_live m x)); simpl; [| exact IH].
    by rewrite <- IH.
Qed.

Lemma phase_live_handles_pos m h hd hs :
  hs !! h = Some hd → is_live m hd → (1 ≤ live_handles m hs)%nat.
Proof.
  intros Hh Hl. unfold live_handles.
  assert (Hin : hd ∈ filter (is_live m) hs).
  { apply list_elem_of_filter. split; [done |]. by eapply list_elem_of_lookup_2. }
  destruct (filter (is_live m) hs); [by apply not_elem_of_nil in Hin | simpl; lia].
Qed.

Lemma phase_live_handles_some m hs :
  (1 ≤ live_handles m hs)%nat → ∃ h hd, hs !! h = Some hd ∧ is_live m hd.
Proof.
  unfold live_handles. intros Hpos.
  destruct (filter (is_live m) hs) as [| hd l] eqn:E; [simpl in Hpos; lia |].
  assert (Hin : hd ∈ filter (is_live m) hs) by (rewrite E; by left).
  apply list_elem_of_filter in Hin as [Hl Hin].
  apply list_elem_of_lookup in Hin as [h Hh]. by exists h, hd.
Qed.

Section Hygiene.
(** With [strict] the invariant includes the registry clause. *)
Context {strict : bool}.

Lemma phase_hygiene_init : hygiene strict init.
Proof.
  split; try (intros ? ? H; by cbn in H); try (intros ? ? ? H; by cbn in H).
Qed.

(** Updates of the call log and of the error log. *)
Lemma phase_hygiene_frame w w' :
  objects w' = objects w → handles w' = handles w → timers w' = timers w →
  managers w' = managers w → hygiene strict w → hygiene strict w'.
Proof.
  intros Eo Eh Et Em [Hc Hh Hg Hgt Hk Hkt Hi Hkey Hr].
  split; rewrite ?Eo, ?Eh, ?Et, ?Em; done.
Qed.

(** Assignments to the fields the invariant does not read. *)
Lemma phase_hygiene_assign this f w :
  (∀ mg, activeHandles (f mg) = activeHandles mg ∧ graceTimer (f mg) = graceTimer mg ∧
         counterTimer (f mg) = counterTimer mg ∧ params (f mg) = params mg ∧
         (is_Some (phase mg) → is_Some (phase (f mg)))) →
  hygiene strict w → hygiene strict (assign this f w).
Proof.
  intros Hf [Hc Hh Hg Hgt Hk Hkt Hi Hkey Hr].
  assert (Hold : ∀ m mg', alter f this (objects w) !! m = Some mg' →
            ∃ mg, objects w !! m = Some mg ∧ activeHandles mg' = activeHandles mg ∧
                  graceTimer mg' = graceTimer mg ∧ counterTimer mg' = counterTimer mg ∧
                  params mg' = params mg ∧ (is_Some (phase mg) → is_Some (phase mg'))).
  { intros m mg' Ho'. apply alter_lookup_inv in Ho' as [[Hne Ho'] | [-> (mg & Ho & ->)]].
    - exists mg'. by repeat split.
    - exists mg. split; [done |]. apply Hf. }
  assert (Hnew : ∀ m mg, objects w !! m = Some mg →
            ∃ mg', alter f this (objects w) !! m = Some mg' ∧
                   graceTimer mg' = graceTimer mg ∧ counterTimer mg' = counterTimer mg ∧
                   params mg' = params mg).
  { intros m mg Ho. destruct (decide (this = m)) as [-> | Hne].
    - exists (f mg). rewrite list_lookup_alter_eq, Ho. split; [done |].
      destruct (Hf mg) as (_ & ? & ? & ? & _). done.
    - exists mg. by rewrite list_lookup_alter_ne. }
  split; simpl.
  - intros m mg' Ho'. destruct (Hold m mg' Ho') as (mg & Ho & -> & _). by apply Hc.
  - intros h hd Hhd. destruct (Hh h hd Hhd) as [mg Ho].
    destruct (Hnew _ mg Ho) as (mg' & Ho' & _). by exists mg'.
  - intros m mg' t Ho' Hgt'. destruct (Hold m mg' Ho') as (mg & Ho & _ & Eg & _).
    rewrite Eg in Hgt'. by apply (Hg m mg).
  - intros t tm m Ht Hl Hcb. destruct (Hgt t tm m Ht Hl Hcb) as (mg & Ho & Hgt').
    destruct (Hnew m mg Ho) as (mg' & Ho' & Eg & _). exists mg'. split; [done | congruence].
  - intros m mg' t Ho' Hk'. destruct (Hold m mg' Ho') as (mg & Ho & _ & _ & Ek & _).
    rewrite Ek in Hk'. by apply (Hk m mg).
  - intros t tm m Ht Hl Hcb. destruct (Hkt t tm m Ht Hl Hcb) as (mg & Ho & Hk').
    destruct (Hnew m mg Ho) as (mg' & Ho' & _ & Ek & _). exists mg'. split; [done | congruence].
  - intros m mg' Ho' Hs. destruct (Hold m mg' Ho') as (mg & Ho & Ea & Eg & Ek & _ & Hph).
    rewrite Eg in Hs. destruct (Hi m mg Ho Hs) as (H1 & H2 & H3).
    rewrite Ea, Ek. auto.
  - intros k m Hm. destruct (Hkey k m Hm) as (mg & Ho & Hkk).
    destruct (Hnew m mg Ho) as (mg' & Ho' & _ & _ & Ep). exists mg'. split; [done | congruence].
  - intros Hst m mg' Ho'. destruct (Hold m mg' Ho') as (mg & Ho & Ea & Eg & Ek & Ep & _).
    rewrite Ep. destruct (Hr Hst m mg Ho) as [Hreg | (D1 & D2 & D3)]; [by left | right].
    unfold dormant. rewrite Ea, Eg, Ek. done.
Qed.

(** What an assignment that keeps [params] and may only lower what the
    manager holds does to the objects. *)
Lemma phase_alter_object f this (w : World) m mg' :
  alter f this (objects w) !! m = Some mg' →
  (this ≠ m ∧ objects w !! m = Some mg') ∨
  (this = m ∧ ∃ mg, objects w !! m = Some mg ∧ mg' = f mg).
Proof.
  intros H. apply alter_lookup_inv in H as [[Hne Ho] | [-> (mg & Ho & ->)]]; [by left |].
  right. split; [done |]. by exists mg.
Qed.

Lemma phase_hygiene_stopCounter this w : hygiene strict w → hygiene strict (stopCounter this w).
Proof.
  intros Hinv. unfold stopCounter, method.
  destruct (objects w !! this) as [mg0 |] eqn:Ho0; [| done].
  destruct (counterTimer mg0) as [t |] eqn:Hk0; [| done].
  destruct (hy_counter _ w Hinv this mg0 t Ho0 Hk0) as (tm0 & Htm0 & Hl0 & Hcb0).
  destruct Hinv as [Hc Hh Hg Hgt Hk Hkt Hi Hkey Hr]. split; simpl.
  - intros m mg' Ho'. apply phase_alter_object in Ho' as [[Hne Ho] | [-> (mg & Ho & ->)]];
      simpl; by apply Hc.
  - intros h hd Hhd. destruct (Hh h hd Hhd) as [mg Ho].
    destruct (decide (this = h_mgr hd)) as [-> | Hne].
    + eexists. by rewrite list_lookup_alter_eq, Ho.
    + exists mg. by rewrite list_lookup_alter_ne.
  - intros m mg' t' Ho' Hgt'.
    assert (∃ mg, objects w !! m = Some mg ∧ graceTimer mg = Some t') as (mg & Ho & Hg').
    { apply phase_alter_object in Ho' as [[Hne Ho] | [-> (mg & Ho & ->)]]; eauto. }
    destruct (Hg m mg t' Ho Hg') as (tm & Htm & Hl & Hcb). exists tm. split; [| done].
    rewrite list_lookup_alter_ne; [done |]. intros ->. congruence.
  - intros t' tm' m Ht' Hl Hcb.
    apply alter_lookup_inv in Ht' as [[Hne Ht'] | [-> (x & Hx & ->)]]; [| done].
    destruct (Hgt t' tm' m Ht' Hl Hcb) as (mg & Ho & Hg').
    destruct (decide (this = m)) as [-> | Hnm].
    + eexists. rewrite list_lookup_alter_eq, Ho. by split.
    + exists mg. by rewrite list_lookup_alter_ne.
  - intros m mg' t' Ho' Hk'.
    apply phase_alter_object in Ho' as [[Hne Ho] | [-> (mg & Ho & ->)]]; [| done].
    destruct (Hk m mg' t' Ho Hk') as (tm & Htm & Hl & Hcb). exists tm. split; [| done].
    rewrite list_lookup_alter_ne; [done |]. intros ->. congruence.
  - intros t' tm' m Ht' Hl Hcb.
    apply alter_lookup_inv in Ht' as [[Hne Ht'] | [-> (x & Hx & ->)]]; [| done].
    destruct (Hkt t' tm' m Ht' Hl Hcb) as (mg & Ho & Hk').
    destruct (decide (this = m)) as [-> | Hnm]; [congruence |].
    exists mg. by rewrite list_lookup_alter_ne.
  - intros m mg' Ho' Hs.
    apply phase_alter_object in Ho' as [[Hne Ho] | [-> (mg & Ho & ->)]].
    + by apply (Hi m).
    + simpl in *. destruct (Hi m mg Ho Hs) as (? & ? & ?). done.
  - intros k m Hm. destruct (Hkey k m Hm) as (mg & Ho & Hkk).
    destruct (decide (this = m)) as [-> | Hnm].
    + eexists. rewrite list_lookup_alter_eq, Ho. by split.
    + exists mg. by rewrite list_lookup_alter_ne.
  - intros Hst m mg' Ho'.
    apply phase_alter_object in Ho' as [[Hne Ho] | [-> (mg & Ho & ->)]]; [by apply Hr |].
    simpl. destruct (Hr Hst m mg Ho) as [Hreg | (D1 & D2 & D3)]; [by left | by right].
Qed.

Lemma phase_hygiene_cancelGrace this w : hygiene strict w → hygiene strict (cancelGrace this w).
Proof.
  intros Hinv. unfold cancelGrace, method.
  destruct (objects w !! this) as [mg0 |] eqn:Ho0; [| done].
  destruct (graceTimer mg0) as [t |] eqn:Hg0; [| done].
  destruct (hy_grace _ w Hinv this mg0 t Ho0 Hg0) as (tm0 & Htm0 & Hl0 & Hcb0).
  destruct Hinv as [Hc Hh Hg Hgt Hk Hkt Hi Hkey Hr]. split; simpl.
  - intros m mg' Ho'. apply phase_alter_object in Ho' as [[Hne Ho] | [-> (mg & Ho & ->)]];
      simpl; by apply Hc.
  - intros h hd Hhd. destruct (Hh h hd Hhd) as [mg Ho].
    destruct (decide (this = h_mgr hd)) as [-> | Hne].
    + eexists. by rewrite list_lookup_alter_eq, Ho.
    + exists mg. by rewrite list_lookup_alter_ne.
  - intros m mg' t' Ho' Hgt'.
    apply phase_alter_object in Ho' as [[Hne Ho] | [-> (mg & Ho & ->)]]; [| done].
    destruct (Hg m mg' t' Ho Hgt') as (tm & Htm & Hl & Hcb). exists tm. split; [| done].
    rewrite list_lookup_alter_ne; [done |]. intros ->. congruence.
  - intros t' tm' m Ht' Hl Hcb.
    apply alter_lookup_inv in Ht' as [[Hne Ht'] | [-> (x & Hx & ->)]]; [| done].
    destruct (Hgt t' tm' m Ht' Hl Hcb) as (mg & Ho & Hg').
    destruct (decide (this = m)) as [-> | Hnm]; [congruence |].
    exists mg. by rewrite list_lookup_alter_ne.
  - intros m mg' t' Ho' Hk'.
    assert (∃ mg, objects w !! m = Some mg ∧ counterTimer mg = Some t') as (mg & Ho & Hk0).
    { apply phase_alter_object in Ho' as [[Hne Ho] | [-> (mg & Ho & ->)]]; eauto. }
    destruct (Hk m mg t' Ho Hk0) as (tm & Htm & Hl & Hcb). exists tm. split; [| done].
    rewrite list_lookup_alter_ne; [done |]. intros ->. congruence.
  - intros t' tm' m Ht' Hl Hcb.
    apply alter_lookup_inv in Ht' as [[Hne Ht'] | [-> (x & Hx & ->)]]; [| done].
    destruct (Hkt t' tm' m Ht' Hl Hcb) as (mg & Ho & Hk').
    destruct (decide (this = m)) as [-> | Hnm].
    + eexists. rewrite list_lookup_alter_eq, Ho. by split.
    + exists mg. by rewrite list_lookup_alter_ne.
  - intros m mg' Ho' Hs.
    apply phase_alter_object in Ho' as [[Hne Ho] | [-> (mg & Ho & ->)]].
    + by apply (Hi m).
    + simpl in Hs. by destruct Hs.
  - intros k m Hm. destruct (Hkey k m Hm) as (mg & Ho & Hkk).
    destruct (decide (this = m)) as [-> | Hnm].
    + eexists. rewrite list_lookup_alter_eq, Ho. by split.
    + exists mg. by rewrite list_lookup_alter_ne.
  - intros Hst m mg' Ho'.
    apply phase_alter_object in Ho' as [[Hne Ho] | [-> (mg & Ho & ->)]]; [by apply Hr |].
    simpl. destruct (Hr Hst m mg Ho) as [Hreg | (D1 & D2 & D3)]; [by left | by right].
Qed.

(** After [stopCounter] and [cancelGrace] the manager remembers no timer. *)
Lemma phase_stopCounter_field this w mg :
  objects (stopCounter this w) !! this = Some mg →
  counterTimer mg = None ∧
  ∃ mg0, objects w !! this = Some mg0 ∧ activeHandles mg = activeHandles mg0 ∧
         graceTimer mg = graceTimer mg0 ∧ params mg = params mg0 ∧ phase mg = phase mg0.
Proof.
  unfold stopCounter, method.
  destruct (objects w !! this) as [mg0 |] eqn:Ho; [| congruence].
  destruct (counterTimer mg0) as [t |] eqn:Hk.
  - simpl. rewrite list_lookup_alter_eq, Ho. simpl. intros [= <-]. split; [done |].
    by exists mg0.
  - rewrite Ho. intros [= <-]. split; [done |]. by exists mg0.
Qed.

Lemma phase_cancelGrace_field this w mg :
  objects (cancelGrace this w) !! this = Some mg →
  graceTimer mg = None ∧
  ∃ mg0, objects w !! this = Some mg0 ∧ activeHandles mg = activeHandles mg0 ∧
         counterTimer mg = counterTimer mg0 ∧ params mg = params mg0 ∧
         phase mg = phase mg0.
Proof.
  unfold cancelGrace, method.
  destruct (objects w !! this) as [mg0 |] eqn:Ho; [| congruence].
  destruct (graceTimer mg0) as [t |] eqn:Hk.
  - simpl. rewrite list_lookup_alter_eq, Ho. simpl. intros [= <-]. split; [done |].
    by exists mg0.
  - rewrite Ho. intros [= <-]. split; [done |]. by exists mg0.
Qed.

Lemma phase_stopCounter_some this w mg :
  objects w !! this = Some mg → ∃ mg', objects (stopCounter this w) !! this = Some mg'.
Proof.
  intros Ho. unfold stopCounter, method. rewrite Ho.
  destruct (counterTimer mg); [| by eexists].
  simpl. rewrite list_lookup_alter_eq, Ho. by eexists.
Qed.

Lemma phase_cancelGrace_some this w mg :
  objects w !! this = Some mg → ∃ mg', objects (cancelGrace this w) !! this = Some mg'.
Proof.
  intros Ho. unfold cancelGrace, method. rewrite Ho.
  destruct (graceTimer mg); [| by eexists].
  simpl. rewrite list_lookup_alter_eq, Ho. by eexists.
Qed.

Lemma phase_stopCounter_managers this w : managers (stopCounter this w) = managers w.
Proof. unfold stopCounter, method. by repeat case_match. Qed.

Lemma phase_cancelGrace_managers this w : managers (cancelGrace this w) = managers w.
Proof. unfold cancelGrace, method. by repeat case_match. Qed.

(** Arming a timer and remembering it, on a registered manager that
    remembers none of that kind. *)
Lemma phase_hygiene_arm_counter this mg ms w :
  objects w !! this = Some mg → counterTimer mg = None → graceTimer mg = None →
  (strict = true → managers w !! key (params mg) = Some this) →
  hygiene strict w →
  hygiene strict (assign this (with_counterTimer (Some (length (timers w))))
             (setTimer (CounterTick this) ms w)).
Proof.
  intros Ho0 Hk0 Hg0 Hreg0 [Hc Hh Hg Hgt Hk Hkt Hi Hkey Hr]. split; simpl.
  - intros m mg' Ho'. apply phase_alter_object in Ho' as [[Hne Ho] | [-> (x & Ho & ->)]];
      simpl; by apply Hc.
  - intros h hd Hhd. destruct (Hh h hd Hhd) as [x Ho].
    destruct (decide (this = h_mgr hd)) as [-> | Hne].
    + eexists. by rewrite list_lookup_alter_eq, Ho.
    + exists x. by rewrite list_lookup_alter_ne.
  - intros m mg' t' Ho' Hgt'.
    assert (∃ x, objects w !! m = Some x ∧ graceTimer x = Some t') as (x & Ho & Hg').
    { apply phase_alter_object in Ho' as [[Hne Ho] | [-> (x & Ho & ->)]]; eauto. }
    destruct (Hg m x t' Ho Hg') as (tm & Htm & Hl & Hcb). exists tm.
    split; [by apply alloc_lookup_old | done].
  - intros t' tm' m Ht' Hl Hcb. apply alloc_lookup_inv in Ht' as [Ht' | [_ ->]]; [| done].
    destruct (Hgt t' tm' m Ht' Hl Hcb) as (x & Ho & Hg').
    destruct (decide (this = m)) as [-> | Hnm].
    + eexists. rewrite list_lookup_alter_eq, Ho. by split.
    + exists x. by rewrite list_lookup_alter_ne.
  - intros m mg' t' Ho' Hk'.
    apply phase_alter_object in Ho' as [[Hne Ho] | [-> (x & Ho & ->)]].
    + destruct (Hk m mg' t' Ho Hk') as (tm & Htm & Hl & Hcb). exists tm.
      split; [by apply alloc_lookup_old | done].
    + simpl in Hk'. injection Hk' as <-. eexists. by rewrite alloc_lookup_new.
  - intros t' tm' m Ht' Hl Hcb. apply alloc_lookup_inv in Ht' as [Ht' | [-> ->]].
    + destruct (Hkt t' tm' m Ht' Hl Hcb) as (x & Ho & Hk').
      destruct (decide (this = m)) as [-> | Hnm]; [congruence |].
      exists x. by rewrite list_lookup_alter_ne.
    + simpl in Hcb. injection Hcb as <-. eexists. rewrite list_lookup_alter_eq, Ho0. by split.
  - intros m mg' Ho' Hs.
    apply phase_alter_object in Ho' as [[Hne Ho] | [-> (x & Ho & ->)]].
    + by apply (Hi m).
    + simpl in Hs. assert (x = mg) as -> by congruence. rewrite Hg0 in Hs. by destruct Hs.
  - intros k m Hm. destruct (Hkey k m Hm) as (x & Ho & Hkk).
    destruct (decide (this = m)) as [-> | Hnm].
    + eexists. rewrite list_lookup_alter_eq, Ho. by split.
    + exists x. by rewrite list_lookup_alter_ne.
  - intros Hst m mg' Ho'.
    pose proof (Hreg0 Hst) as Hreg1.
    apply phase_alter_object in Ho' as [[Hne Ho] | [-> (x & Ho & ->)]]; [by apply Hr |].
    simpl. left. congruence.
Qed.

Lemma phase_hygiene_arm_grace this mg ms w :
  objects w !! this = Some mg → graceTimer mg = None → counterTimer mg = None →
  activeHandles mg = 0 → is_Some (phase mg) →
  (strict = true → managers w !! key (params mg) = Some this) →
  hygiene strict w →
  hygiene strict (assign this (with_graceTimer (Some (length (timers w))))
             (setTimer (GraceEnd this) ms w)).
Proof.
  intros Ho0 Hg0 Hk0 Ha0 Hp0 Hreg0 [Hc Hh Hg Hgt Hk Hkt Hi Hkey Hr]. split; simpl.
  - intros m mg' Ho'. apply phase_alter_object in Ho' as [[Hne Ho] | [-> (x & Ho & ->)]];
      simpl; by apply Hc.
  - intros h hd Hhd. destruct (Hh h hd Hhd) as [x Ho].
    destruct (decide (this = h_mgr hd)) as [-> | Hne].
    + eexists. by rewrite list_lookup_alter_eq, Ho.
    + exists x. by rewrite list_lookup_alter_ne.
  - intros m mg' t' Ho' Hgt'.
    apply phase_alter_object in Ho' as [[Hne Ho] | [-> (x & Ho & ->)]].
    + destruct (Hg m mg' t' Ho Hgt') as (tm & Htm & Hl & Hcb). exists tm.
      split; [by apply alloc_lookup_old | done].
    + simpl in Hgt'. injection Hgt' as <-. eexists. by rewrite alloc_lookup_new.
  - intros t' tm' m Ht' Hl Hcb. apply alloc_lookup_inv in Ht' as [Ht' | [-> ->]].
    + destruct (Hgt t' tm' m Ht' Hl Hcb) as (x & Ho & Hg').
      destruct (decide (this = m)) as [-> | Hnm]; [congruence |].
      exists x. by rewrite list_lookup_alter_ne.
    + simpl in Hcb. injection Hcb as <-. eexists. rewrite list_lookup_alter_eq, Ho0. by split.
  - intros m mg' t' Ho' Hk'.
    assert (∃ x, objects w !! m = Some x ∧ counterTimer x = Some t') as (x & Ho & Hkx).
    { apply phase_alter_object in Ho' as [[Hne Ho] | [-> (x & Ho & ->)]]; eauto. }
    destruct (Hk m x t' Ho Hkx) as (tm & Htm & Hl & Hcb). exists tm.
    split; [by apply alloc_lookup_old | done].
  - intros t' tm' m Ht' Hl Hcb. apply alloc_lookup_inv in Ht' as [Ht' | [_ ->]]; [| done].
    destruct (Hkt t' tm' m Ht' Hl Hcb) as (x & Ho & Hk').
    destruct (decide (this = m)) as [-> | Hnm].
    + eexists. rewrite list_lookup_alter_eq, Ho. by split.
    + exists x. by rewrite list_lookup_alter_ne.
  - intros m mg' Ho' Hs.
    apply phase_alter_object in Ho' as [[Hne Ho] | [-> (x & Ho & ->)]].
    + by apply (Hi m).
    + simpl. assert (x = mg) as -> by congruence. done.
  - intros k m Hm. destruct (Hkey k m Hm) as (x & Ho & Hkk).
    destruct (decide (this = m)) as [-> | Hnm].
    + eexists. rewrite list_lookup_alter_eq, Ho. by split.
    + exists x. by rewrite list_lookup_alter_ne.
  - intros Hst m mg' Ho'.
    pose proof (Hreg0 Hst) as Hreg1.
    apply phase_alter_object in Ho' as [[Hne Ho] | [-> (x & Ho & ->)]]; [by apply Hr |].
    simpl. left. congruence.
Qed.

(** [managers.delete(this.key)] by a registered manager that holds nothing. *)
Lemma phase_hygiene_unregister this mg w :
  objects w !! this = Some mg → dormant mg →
  (strict = true → managers w !! key (params mg) = Some this) →
  hygiene strict w → hygiene strict (set_managers (delete (key (params mg))) w).
Proof.
  intros Ho0 Hd0 Hreg0 [Hc Hh Hg Hgt Hk Hkt Hi Hkey Hr]. split; simpl; try done.
  - intros k m Hm. apply lookup_delete_Some in Hm as [_ Hm]. by apply Hkey.
  - intros Hst m x Ho. destruct (Hr Hst m x Ho) as [Hreg | Hd]; [| by right].
    pose proof (Hreg0 Hst) as Hreg1.
    destruct (decide (key (params x) = key (params mg))) as [E | Hne].
    + rewrite E in Hreg. assert (m = this) as -> by congruence.
      right. congruence.
    + left. by rewrite lookup_delete_ne.
Qed.

(** [released = true] together with
    [this.activeHandles = Math.max(0, this.activeHandles - 1)]. *)
Lemma phase_hygiene_released h hd w :
  handles w !! h = Some hd → released hd = false →
  hygiene strict w →
  hygiene strict (assign (h_mgr hd) (λ mg, with_activeHandles (Z.max 0 (activeHandles mg - 1)) mg)
             (set_handles (alter (with_released true) h) w)).
Proof.
  intros Hh0 Hr0 [Hc Hh Hg Hgt Hk Hkt Hi Hkey Hr].
  assert (Hlive : ∀ mg, objects w !! h_mgr hd = Some mg → 1 ≤ activeHandles mg).
  { intros mg Ho. rewrite (Hc _ mg Ho).
    assert (Hl : is_live (h_mgr hd) hd) by by split.
    pose proof (phase_live_handles_pos (h_mgr hd) h hd (handles w) Hh0 Hl). lia. }
  split; simpl.
  - intros m mg' Ho'. apply phase_alter_object in Ho' as [[Hne Ho] | [<- (x & Ho & ->)]].
    + rewrite (Hc m mg' Ho).
      pose proof (phase_live_handles_release m h hd (handles w) Hh0 Hr0) as E.
      rewrite decide_False in E by done. lia.
    + simpl. pose proof (Hlive x Ho). rewrite (Hc _ x Ho) in *.
      pose proof (phase_live_handles_release (h_mgr hd) h hd (handles w) Hh0 Hr0) as E.
      rewrite decide_True in E by done. lia.
  - intros h' hd' Hhd'.
    assert (∃ y, handles w !! h' = Some y ∧ h_mgr hd' = h_mgr y) as (y & Hy & ->).
    { apply alter_lookup_inv in Hhd' as [[Hne Hy] | [-> (y & Hy & ->)]]; eauto. }
    destruct (Hh h' y Hy) as [x Ho].
    destruct (decide (h_mgr hd = h_mgr y)) as [E | Hne].
    + eexists. by rewrite E, list_lookup_alter_eq, Ho.
    + exists x. by rewrite list_lookup_alter_ne.
  - intros m mg' t' Ho' Hgt'.
    assert (∃ x, objects w !! m = Some x ∧ graceTimer x = Some t') as (x & Ho & Hg').
    { apply phase_alter_object in Ho' as [[Hne Ho] | [<- (x & Ho & ->)]]; eauto. }
    by apply (Hg m x).
  - intros t' tm' m Ht' Hl Hcb. destruct (Hgt t' tm' m Ht' Hl Hcb) as (x & Ho & Hg').
    destruct (decide (h_mgr hd = m)) as [<- | Hnm].
    + eexists. rewrite list_lookup_alter_eq, Ho. by split.
    + exists x. by rewrite list_lookup_alter_ne.
  - intros m mg' t' Ho' Hk'.
    assert (∃ x, objects w !! m = Some x ∧ counterTimer x = Some t') as (x & Ho & Hkx).
    { apply phase_alter_object in Ho' as [[Hne Ho] | [<- (x & Ho & ->)]]; eauto. }
    by apply (Hk m x).
  - intros t' tm' m Ht' Hl Hcb. destruct (Hkt t' tm' m Ht' Hl Hcb) as (x & Ho & Hk').
    destruct (decide (h_mgr hd = m)) as [<- | Hnm].
    + eexists. rewrite list_lookup_alter_eq, Ho. by split.
    + exists x. by rewrite list_lookup_alter_ne.
  - intros m mg' Ho' Hs.
    apply phase_alter_object in Ho' as [[Hne Ho] | [<- (x & Ho & ->)]].
    + by apply (Hi m).
    + simpl in *. destruct (Hi _ x Ho Hs) as (Ha & ? & ?). pose proof (Hlive x Ho). lia.
  - intros k m Hm. destruct (Hkey k m Hm) as (x & Ho & Hkk).
    destruct (decide (h_mgr hd = m)) as [<- | Hnm].
    + eexists. rewrite list_lookup_alter_eq, Ho. by split.
    + exists x. by rewrite list_lookup_alter_ne.
  - intros Hst m mg' Ho'.
    apply phase_alter_object in Ho' as [[Hne Ho] | [<- (x & Ho & ->)]]; [by apply Hr |].
    simpl. destruct (Hr Hst _ x Ho) as [Hreg | (D1 & _)]; [by left |].
    pose proof (Hlive x Ho). lia.
Qed.

(** [this.activeHandles++] together with the new handle. *)
Lemma phase_hygiene_new_handle this mg sg w :
  objects w !! this = Some mg → graceTimer mg = None →
  (strict = true → managers w !! key (params mg) = Some this) →
  hygiene strict w →
  hygiene strict (set_handles (alloc {| h_mgr := this; released := false; shouldGrace := sg |})
             (assign this (λ mg, with_activeHandles (activeHandles mg + 1) mg) w)).
Proof.
  intros Ho0 Hg0 Hreg0 [Hc Hh Hg Hgt Hk Hkt Hi Hkey Hr]. split; simpl.
  - intros m mg' Ho'. rewrite phase_live_handles_alloc.
    apply phase_alter_object in Ho' as [[Hne Ho] | [-> (x & Ho & ->)]].
    + rewrite decide_False by (by intros [? _]). rewrite (Hc m mg' Ho). lia.
    + rewrite decide_True by done. simpl. rewrite (Hc m x Ho). lia.
  - intros h hd Hhd.
    assert (∃ x, objects w !! h_mgr hd = Some x) as [x Ho].
    { apply alloc_lookup_inv in Hhd as [Hhd | [_ ->]]; [by apply (Hh h) | by eexists]. }
    destruct (decide (this = h_mgr hd)) as [-> | Hne].
    + eexists. by rewrite list_lookup_alter_eq, Ho.
    + exists x. by rewrite list_lookup_alter_ne.
  - intros m mg' t' Ho' Hgt'.
    assert (∃ x, objects w !! m = Some x ∧ graceTimer x = Some t') as (x & Ho & Hg').
    { apply phase_alter_object in Ho' as [[Hne Ho] | [-> (x & Ho & ->)]]; eauto. }
    by apply (Hg m x).
  - intros t' tm' m Ht' Hl Hcb. destruct (Hgt t' tm' m Ht' Hl Hcb) as (x & Ho & Hg').
    destruct (decide (this = m)) as [-> | Hnm].
    + eexists. rewrite list_lookup_alter_eq, Ho. by split.
    + exists x. by rewrite list_lookup_alter_ne.
  - intros m mg' t' Ho' Hk'.
    assert (∃ x, objects w !! m = Some x ∧ counterTimer x = Some t') as (x & Ho & Hkx).
    { apply phase_alter_object in Ho' as [[Hne Ho] | [-> (x & Ho & ->)]]; eauto. }
    by apply (Hk m x).
  - intros t' tm' m Ht' Hl Hcb. destruct (Hkt t' tm' m Ht' Hl Hcb) as (x & Ho & Hk').
    destruct (decide (this = m)) as [-> | Hnm].
    + eexists. rewrite list_lookup_alter_eq, Ho. by split.
    + exists x. by rewrite list_lookup_alter_ne.
  - intros m mg' Ho' Hs.
    apply phase_alter_object in Ho' as [[Hne Ho] | [-> (x & Ho & ->)]].
    + by apply (Hi m).
    + simpl in Hs. assert (x = mg) as -> by congruence. rewrite Hg0 in Hs. by destruct Hs.
  - intros k m Hm. destruct (Hkey k m Hm) as (x & Ho & Hkk).
    destruct (decide (this = m)) as [-> | Hnm].
    + eexists. rewrite list_lookup_alter_eq, Ho. by split.
    + exists x. by rewrite list_lookup_alter_ne.
  - intros Hst m mg' Ho'.
    pose proof (Hreg0 Hst) as Hreg1.
    apply phase_alter_object in Ho' as [[Hne Ho] | [-> (x & Ho & ->)]]; [by apply Hr |].
    simpl. left. congruence.
Qed.

(** [new ThreadStatusManager(...)] followed by [managers.set(key, mgr)]. *)
Lemma phase_hygiene_register p w :
  managers w !! key p = None → hygiene strict w →
  hygiene strict (set_managers (<[key p := length (objects w)]>)
             (set_objects (alloc (new_ThreadStatusManager p)) w)).
Proof.
  intros Hnone [Hc Hh Hg Hgt Hk Hkt Hi Hkey Hr]. split; simpl.
  - intros m mg' Ho'. apply alloc_lookup_inv in Ho' as [Ho | [-> ->]]; [by apply Hc |].
    simpl. destruct (decide (1 ≤ live_handles (length (objects w)) (handles w))%nat)
      as [Hpos | Hz]; [| lia].
    apply phase_live_handles_some in Hpos as (h & hd & Hhd & Hm & _).
    destruct (Hh h hd Hhd) as [x Hx]. apply lookup_lt_Some in Hx. lia.
  - intros h hd Hhd. destruct (Hh h hd Hhd) as [x Ho]. exists x. by apply alloc_lookup_old.
  - intros m mg' t' Ho' Hgt'. apply alloc_lookup_inv in Ho' as [Ho | [-> ->]]; [| done].
    by apply (Hg m mg').
  - intros t' tm' m Ht' Hl Hcb. destruct (Hgt t' tm' m Ht' Hl Hcb) as (x & Ho & Hg').
    exists x. split; [by apply alloc_lookup_old | done].
  - intros m mg' t' Ho' Hk'. apply alloc_lookup_inv in Ho' as [Ho | [-> ->]]; [| done].
    by apply (Hk m mg').
  - intros t' tm' m Ht' Hl Hcb. destruct (Hkt t' tm' m Ht' Hl Hcb) as (x & Ho & Hk').
    exists x. split; [by apply alloc_lookup_old | done].
  - intros m mg' Ho' Hs. apply alloc_lookup_inv in Ho' as [Ho | [-> ->]];
      [by apply (Hi m) | by destruct Hs].
  - intros k m Hm. destruct (decide (key p = k)) as [<- | Hne].
    + rewrite lookup_insert_eq in Hm. injection Hm as <-. eexists.
      by rewrite alloc_lookup_new.
    + rewrite lookup_insert_ne in Hm by done. destruct (Hkey k m Hm) as (x & Ho & Hkk).
      exists x. split; [by apply alloc_lookup_old | done].
  - intros Hst m mg' Ho'. apply alloc_lookup_inv in Ho' as [Ho | [-> ->]].
    + destruct (Hr Hst m mg' Ho) as [Hreg | Hd]; [| by right].
      left. rewrite lookup_insert_ne; [done |]. intros E. rewrite <- E in Hreg. congruence.
    + left. simpl. by rewrite lookup_insert_eq.
Qed.

Lemma phase_hygiene_pushOnce this text w : hygiene strict w → hygiene strict (pushOnce this text w).
Proof.
  intros Hinv. unfold pushOnce, method.
  destruct (objects w !! this) as [mg |]; [| done].
  destruct (pushing mg); [done |].
  eapply phase_hygiene_frame; [| | | | apply (phase_hygiene_assign this (with_pushing true)); [| done]];
    try reflexivity.
  intros x. by repeat split.
Qed.

Lemma phase_hygiene_destroy this mg w :
  objects w !! this = Some mg → activeHandles mg = 0 →
  (strict = true → managers w !! key (params mg) = Some this) →
  hygiene strict w → hygiene strict (destroy this w).
Proof.
  intros Ho Ha Hreg Hinv. unfold destroy, method.
  assert (Hinv1 : hygiene strict (stopCounter this (cancelGrace this w)))
    by by apply phase_hygiene_stopCounter, phase_hygiene_cancelGrace.
  destruct (objects (stopCounter this (cancelGrace this w)) !! this) as [mg1 |] eqn:Ho1;
    [| done].
  destruct (phase_stopCounter_field _ _ _ Ho1) as (Hk1 & mg2 & Ho2 & Ea & Eg & Ep & _).
  destruct (phase_cancelGrace_field _ _ _ Ho2) as (Hg2 & mg3 & Ho3 & Ea3 & _ & Ep3 & _).
  assert (mg3 = mg) as -> by congruence.
  apply (phase_hygiene_unregister this mg1); [done | | | done].
  - split; [congruence |]. split; [congruence | done].
  - intros Hst. specialize (Hreg Hst).
    rewrite phase_stopCounter_managers, phase_cancelGrace_managers. congruence.
Qed.

Lemma phase_hygiene_stopAndDestroy this mg w :
  objects w !! this = Some mg → activeHandles mg = 0 →
  (strict = true → managers w !! key (params mg) = Some this) →
  hygiene strict w → hygiene strict (stopAndDestroy this w).
Proof.
  intros Ho Ha Hreg Hinv. unfold stopAndDestroy.
  destruct (phase_stopCounter_some this w mg Ho) as [mg1 Ho1].
  destruct (phase_stopCounter_field _ _ _ Ho1) as (_ & mg2 & Ho2 & Ea & _ & Ep & _).
  assert (mg2 = mg) as -> by congruence.
  apply (phase_hygiene_destroy this mg1); [done | congruence | | by apply phase_hygiene_stopCounter].
  intros Hst. specialize (Hreg Hst). rewrite phase_stopCounter_managers. congruence.
Qed.

(** A manager with an unreleased handle has no grace timer pending and,
    under the strict invariant, is registered. *)
Lemma phase_live_registered w h hd mg :
  hygiene strict w → handles w !! h = Some hd → released hd = false →
  objects w !! h_mgr hd = Some mg →
  1 ≤ activeHandles mg ∧ graceTimer mg = None ∧
  (strict = true → managers w !! key (params mg) = Some (h_mgr hd)).
Proof.
  intros Hinv Hh Hr Ho.
  assert (Hl : is_live (h_mgr hd) hd) by by split.
  pose proof (phase_live_handles_pos _ h hd (handles w) Hh Hl) as Hpos.
  pose proof (hy_count _ w Hinv _ mg Ho) as Hc.
  split; [lia |]. split.
  - destruct (graceTimer mg) as [t |] eqn:Hg; [| done].
    destruct (hy_idle _ w Hinv _ mg Ho) as (Ha & _); [by eexists | lia].
  - intros Hst. destruct (hy_registered _ w Hinv Hst _ mg Ho) as [Hreg | (Ha & _)]; [done | lia].
Qed.

Lemma phase_hygiene_handle_release h answer w : hygiene strict w → hygiene strict (handle_release h answer w).
Proof.
  intros Hinv. unfold handle_release.
  destruct (handles w !! h) as [hd |] eqn:Hh; [| done].
  destruct (released hd) eqn:Hr; [done |].
  unfold releaseHandle.
  set (this := h_mgr hd).
  set (w2 := assign this _ (set_handles _ w)).
  assert (Hinv2 : hygiene strict w2) by by apply phase_hygiene_released.
  unfold method.
  destruct (objects w2 !! this) as [mg2 |] eqn:Ho2; [| done].
  assert (∃ mg, objects w !! this = Some mg ∧
                activeHandles mg2 = Z.max 0 (activeHandles mg - 1) ∧
                graceTimer mg2 = graceTimer mg ∧ params mg2 = params mg ∧
                phase mg2 = phase mg) as (mg & Ho & Ea & Eg & Ep & Eph).
  { subst w2. simpl in Ho2. rewrite list_lookup_alter_eq in Ho2.
    destruct (objects w !! this) as [mg |]; simpl in Ho2; [| done].
    injection Ho2 as <-. by exists mg. }
  destruct (phase_live_registered w h hd mg Hinv Hh Hr Ho) as (Hpos & Hng & Hreg).
  assert (Hreg2 : strict = true → managers w2 !! key (params mg2) = Some this)
    by (intros Hst; rewrite Ep; exact (Hreg Hst)).
  case_bool_decide as Hact; [done |].
  assert (Ha2 : activeHandles mg2 = 0).
  { pose proof (hy_count _ w2 Hinv2 this mg2 Ho2). lia. }
  destruct (phase mg2) as [p |] eqn:Hp; [| by apply (phase_hygiene_destroy this mg2)].
  destruct (shouldGrace hd ≫= λ _, Some answer) as [[|] |] eqn:Hsg.
  2: by apply (phase_hygiene_stopAndDestroy this mg2).
  all: destruct (phase_stopCounter_some this w2 mg2 Ho2) as [mg3 Ho3].
  all: destruct (phase_stopCounter_field _ _ _ Ho3) as (Hk3 & x & Hx & Ea3 & Eg3 & Ep3 & Eph3).
  all: assert (x = mg2) as -> by congruence.
  all: rewrite <- Ep3.
  all: apply (phase_hygiene_arm_grace this mg3);
         [done | congruence | done | congruence | rewrite Eph3, Hp; by eexists
         | intros Hst; specialize (Hreg2 Hst); rewrite phase_stopCounter_managers; congruence
         | by apply phase_hygiene_stopCounter].
Qed.

(** [activeHandles++] and [cancelGrace()] touch different fields. *)
Lemma phase_cancelGrace_incr this w :
  cancelGrace this (assign this (λ mg, with_activeHandles (activeHandles mg + 1) mg) w)
  = assign this (λ mg, with_activeHandles (activeHandles mg + 1) mg) (cancelGrace this w).
Proof.
  unfold cancelGrace, method. simpl. rewrite list_lookup_alter_eq.
  destruct (objects w !! this) as [mg |] eqn:Ho; simpl; [| done].
  destruct (graceTimer mg) as [t |] eqn:Hgt; [| done].
  unfold assign, clearTimer, set_objects, set_timers. simpl. f_equal.
  rewrite !list_alter_alter_eq. by apply list_alter_ext.
Qed.

Lemma phase_hygiene_acquire this mg sg w :
  objects w !! this = Some mg → managers w !! key (params mg) = Some this →
  hygiene strict w → hygiene strict (acquire this sg w).
Proof.
  intros Ho Hreg Hinv. unfold acquire. rewrite phase_cancelGrace_incr.
  destruct (phase_cancelGrace_some this w mg Ho) as [mg1 Ho1].
  destruct (phase_cancelGrace_field _ _ _ Ho1) as (Hg1 & x & Hx & _ & _ & Ep & _).
  assert (x = mg) as -> by congruence.
  apply (phase_hygiene_new_handle this mg1); [done | done | | by apply phase_hygiene_cancelGrace].
  intros _. rewrite phase_cancelGrace_managers. congruence.
Qed.

Lemma phase_hygiene_acquireThreadStatus a w :
  hygiene strict w → hygiene strict (acquireThreadStatus a w).
Proof.
  intros Hinv. unfold acquireThreadStatus.
  destruct (managers w !! a_key a) as [m |] eqn:Hm.
  - destruct (hy_key _ w Hinv _ m Hm) as (mg & Ho & Hk).
    apply (phase_hygiene_acquire m mg); [done | congruence | done].
  - eapply phase_hygiene_acquire.
    + simpl. apply alloc_lookup_new.
    + simpl. by rewrite lookup_insert_eq.
    + by apply (phase_hygiene_register
                  {| key := a_key a; push := a_push a;
                     graceMs := default 5000 (a_graceMs a); onError := a_onError a |}).
Qed.

Lemma phase_hygiene_setPhase h hd p w :
  handles w !! h = Some hd → released hd = false →
  hygiene strict w → hygiene strict (setPhase (h_mgr hd) p w).
Proof.
  intros Hh Hr Hinv. unfold setPhase. set (this := h_mgr hd).
  destruct (hy_handle_mgr _ w Hinv h hd Hh) as [mg Ho]. fold this in Ho.
  destruct (phase_live_registered w h hd mg Hinv Hh Hr Ho) as (Hpos & Hng & Hreg).
  set (w1 := assign this (with_phase (Some p) 0) w).
  assert (Hinv1 : hygiene strict w1).
  { apply phase_hygiene_assign; [| done]. intros x. simpl. repeat split; eauto. }
  set (w2 := stopCounter this w1).
  assert (Hinv2 : hygiene strict w2) by by apply phase_hygiene_stopCounter.
  assert (∃ mg2, objects w2 !! this = Some mg2 ∧ counterTimer mg2 = None ∧
                 graceTimer mg2 = None ∧ params mg2 = params mg) as (mg2 & Ho2 & Hk2 & Hg2 & Ep2).
  { assert (Ho1 : objects w1 !! this = Some (with_phase (Some p) 0 mg))
      by (subst w1; simpl; by rewrite list_lookup_alter_eq, Ho).
    destruct (phase_stopCounter_some this w1 _ Ho1) as [mg2 Ho2]. fold w2 in Ho2.
    exists mg2. split; [done |].
    destruct (phase_stopCounter_field _ _ _ Ho2) as (Hk & x & Hx & _ & Eg & Ep & _).
    fold w1 in Hx. assert (x = with_phase (Some p) 0 mg) as -> by congruence.
    simpl in *. split; [done |]. split; congruence. }
  set (w3 := pushOnce this (formatStatus p 0) w2).
  assert (Hinv3 : hygiene strict w3) by by apply phase_hygiene_pushOnce.
  assert (∃ mg3, objects w3 !! this = Some mg3 ∧ counterTimer mg3 = None ∧
                 graceTimer mg3 = None ∧ params mg3 = params mg ∧
                 managers w3 = managers w ∧ True) as (mg3 & Ho3 & Hk3 & Hg3 & Ep3 & Em3 & _).
  { subst w3. unfold pushOnce, method. rewrite Ho2.
    assert (Em : managers w2 = managers w)
      by (subst w2; by rewrite phase_stopCounter_managers).
    destruct (pushing mg2).
    - exists mg2. by repeat split.
    - simpl. rewrite list_lookup_alter_eq, Ho2. simpl. eexists. split; [done |].
      simpl. by repeat split. }
  destruct p; [done | |].
  all: apply (phase_hygiene_arm_counter this mg3); try done.
  all: intros Hst; rewrite Em3, Ep3; exact (Hreg Hst).
Qed.

Lemma phase_hygiene_handle_setStatus h p w : hygiene strict w → hygiene strict (handle_setStatus h p w).
Proof.
  intros Hinv. unfold handle_setStatus.
  destruct (handles w !! h) as [hd |] eqn:Hh; [| done].
  destruct (released hd) eqn:Hr; [done |]. by apply (phase_hygiene_setPhase h hd).
Qed.

Lemma phase_hygiene_handle_pause h w : hygiene strict w → hygiene strict (handle_pause h w).
Proof.
  intros Hinv. unfold handle_pause.
  destruct (handles w !! h) as [hd |]; [| done].
  destruct (released hd); [done |]. by apply phase_hygiene_stopCounter.
Qed.

Lemma phase_hygiene_pushCurrentStatus k w : hygiene strict w → hygiene strict (pushCurrentStatus k w).
Proof.
  intros Hinv. unfold pushCurrentStatus, rePush, method.
  repeat case_match; try done. by apply phase_hygiene_pushOnce.
Qed.

Lemma phase_hygiene_counter_tick this w : hygiene strict w → hygiene strict (counter_tick this w).
Proof.
  intros Hinv. unfold counter_tick, method.
  assert (hygiene strict (assign this (λ mg, with_phase (phase mg) (S (seconds mg)) mg) w)).
  { apply phase_hygiene_assign; [| done]. intros x. simpl. by repeat split. }
  destruct (objects _ !! this); [| done]. by apply phase_hygiene_pushOnce.
Qed.

Lemma phase_hygiene_push_settles c ok w : hygiene strict w → hygiene strict (push_settles c ok w).
Proof.
  intros Hinv. unfold push_settles, method.
  destruct (calls w !! c) as [call |]; [| done].
  destruct (c_done call); [done |].
  set (w1 := set_calls _ w).
  assert (Hinv1 : hygiene strict w1) by by apply (phase_hygiene_frame w).
  destruct (objects w1 !! c_mgr call) as [mg |]; [| done].
  apply phase_hygiene_assign; [intros x; by repeat split |].
  destruct ok; [done |]. destruct (onError (params mg)); [| done].
  by apply (phase_hygiene_frame w1).
Qed.

(** The grace timer fires: the manager forgets it and is destroyed. *)
Lemma phase_hygiene_grace_fires t tm m w :
  timers w !! t = Some tm → t_live tm = true → t_callback tm = GraceEnd m →
  hygiene strict w → hygiene strict (grace_end m (clearTimer t w)).
Proof.
  intros Ht Hl Hcb Hinv.
  destruct (hy_grace_timer _ w Hinv t tm m Ht Hl Hcb) as (mg & Ho & Hg).
  destruct (hy_idle _ w Hinv m mg Ho) as (Ha & Hk & Hp); [by eexists |].
  assert (Hreg : strict = true → managers w !! key (params mg) = Some m).
  { intros Hst.
    destruct (hy_registered _ w Hinv Hst m mg Ho) as [Hreg | (_ & Hd & _)]; [done | congruence]. }
  assert (E : assign m (with_graceTimer None) (clearTimer t w) = cancelGrace m w).
  { unfold cancelGrace, method. by rewrite Ho, Hg. }
  unfold grace_end. rewrite E.
  destruct (phase_cancelGrace_some m w mg Ho) as [mg1 Ho1].
  destruct (phase_cancelGrace_field _ _ _ Ho1) as (_ & x & Hx & Ea & _ & Ep & _).
  assert (x = mg) as -> by congruence.
  apply (phase_hygiene_stopAndDestroy m mg1); [done | congruence | | by apply phase_hygiene_cancelGrace].
  intros Hst. specialize (Hreg Hst). rewrite phase_cancelGrace_managers. congruence.
Qed.

Lemma phase_hygiene_timer_fires t w : hygiene strict w → hygiene strict (timer_fires t w).
Proof.
  intros Hinv. unfold timer_fires.
  destruct (timers w !! t) as [tm |] eqn:Ht; [| done].
  destruct (t_live tm) eqn:Hl; [| done].
  destruct (t_callback tm) as [m | m] eqn:Hcb.
  - by apply phase_hygiene_counter_tick.
  - by apply (phase_hygiene_grace_fires t tm).
Qed.

(** Emptying the registry keeps the invariant that is not strict. *)
Lemma phase_hygiene_resetAllManagers w :
  strict = false → hygiene strict w → hygiene strict (_resetAllManagers w).
Proof.
  intros Hst Hinv. apply phase_reset_ind; [done | |].
  - intros m w0 H0. by apply phase_hygiene_stopCounter, phase_hygiene_cancelGrace.
  - intros w0 [Hc Hh Hg Hgt Hk Hkt Hi Hkey Hr]. split; try done.
    intros Hst'. congruence.
Qed.

Lemma phase_hygiene_step w e :
  (strict = true → e ≠ EReset) → hygiene strict w → hygiene strict (step w e).
Proof.
  intros He Hinv. destruct e; simpl.
  - by apply phase_hygiene_acquireThreadStatus.
  - by apply phase_hygiene_handle_setStatus.
  - by apply phase_hygiene_handle_pause.
  - by apply phase_hygiene_handle_release.
  - by apply phase_hygiene_pushCurrentStatus.
  - by apply phase_hygiene_timer_fires.
  - by apply phase_hygiene_push_settles.
  - apply phase_hygiene_resetAllManagers; [| done].
    destruct strict; [by destruct He | done].
Qed.

Lemma phase_run_hygiene evs : (strict = true → EReset ∉ evs) → hygiene strict (run evs).
Proof.
  unfold run. induction evs as [| e evs IH] using rev_ind; simpl; intros Hev.
  - apply phase_hygiene_init.
  - rewrite foldl_app. simpl. apply phase_hygiene_step.
    + intros Hst ->. apply (Hev Hst). apply elem_of_app. right. by left.
    + apply IH. intros Hst Hin. apply (Hev Hst). apply elem_of_app. by left.
Qed.

End Hygiene.

Lemma phase_reachable_hygiene w : reachable w → hygiene false w.
Proof. intros [evs ->]. by apply phase_run_hygiene. Qed.

Lemma phase_reachable_strict w : reachable_without_reset w → hygiene true w.
Proof. intros (evs & Hev & ->). by apply phase_run_hygiene. Qed.

(** What [destroy] and [stopAndDestroy] leave of the manager and of the
    timer table. *)
Lemma phase_stopAndDestroy_fields this w mg :
  objects w !! this = Some mg →
  ∃ mg', objects (stopAndDestroy this w) !! this = Some mg' ∧
         counterTimer mg' = None ∧ graceTimer mg' = None ∧
         activeHandles mg' = activeHandles mg ∧ params mg' = params mg ∧
         length (timers (stopAndDestroy this w)) = length (timers w).
Proof.
  intros Ho. unfold stopAndDestroy, destroy.
  set (w1 := stopCounter this w).
  set (w2 := stopCounter this (cancelGrace this w1)).
  destruct (phase_stopCounter_some this w mg Ho) as [mg1 Ho1]. fold w1 in Ho1.
  destruct (phase_cancelGrace_some this w1 mg1 Ho1) as [mg2 Ho2].
  destruct (phase_stopCounter_some this _ mg2 Ho2) as [mg3 Ho3]. fold w2 in Ho3.
  destruct (phase_stopCounter_field _ _ _ Ho3) as (Hk3 & x2 & Hx2 & Ea3 & Eg3 & Ep3 & _).
  assert (x2 = mg2) as -> by congruence.
  destruct (phase_cancelGrace_field _ _ _ Ho2) as (Hg2 & x1 & Hx1 & Ea2 & _ & Ep2 & _).
  assert (x1 = mg1) as -> by congruence.
  destruct (phase_stopCounter_field _ _ _ Ho1) as (_ & x0 & Hx0 & Ea1 & _ & Ep1 & _).
  assert (x0 = mg) as -> by congruence.
  assert (Hlen : ∀ w0, length (timers (stopCounter this w0)) = length (timers w0) ∧
                       length (timers (cancelGrace this w0)) = length (timers w0)).
  { intros w0. unfold stopCounter, cancelGrace, method, assign, clearTimer.
    split; repeat case_match; simpl; by rewrite ?length_alter. }
  unfold method. rewrite Ho3. simpl. exists mg3. split; [done |].
  split; [done |]. split; [congruence |]. split; [congruence |]. split; [congruence |].
  unfold w2, w1. by rewrite (proj1 (Hlen _)), (proj2 (Hlen _)), (proj1 (Hlen _)).
Qed.

(** C5 (amended).  In the phase variant, when release() brings
    activeHandles to 0 after a phase has been set, nothing is pushed: every
    text the manager ever hands to the push function is a non-empty
    formatted status, and release() makes no call at all.  If shouldGrace
    was given and returns false the counter is stopped (the manager
    forgets its counter timer and no counter timer of it is live), no
    timer is armed, and the manager leaves the registry at once.
    Otherwise (no shouldGrace, or it returns true) the counter is stopped
    in the same way, a grace timer of the manager's graceMs is armed, the
    registry is left alone, and when that timer fires the manager leaves
    the registry, again without any call to the push function. *)
Theorem last_release_without_clearing_push
    (w : World) (h : nat) (hd : ThreadStatusHandle) (mg : ThreadStatusManager) :
  reachable w →
  handles w !! h = Some hd → released hd = false →
  objects w !! h_mgr hd = Some mg → activeHandles mg ≤ 1 → is_Some (phase mg) →
  (∀ c call, calls w !! c = Some call → c_text call ≠ "") ∧
  (∀ answer, calls (handle_release h answer w) = calls w) ∧
  (is_Some (shouldGrace hd) →
     let w' := handle_release h false w in
     managers w' = delete (key (params mg)) (managers w) ∧
     (∃ mg', objects w' !! h_mgr hd = Some mg' ∧ counterTimer mg' = None ∧
             graceTimer mg' = None ∧ activeHandles mg' = 0) ∧
     (∀ t tm, timers w' !! t = Some tm → t_callback tm = CounterTick (h_mgr hd) →
              t_live tm = false) ∧
     length (timers w') = length (timers w)) ∧
  (∀ answer, shouldGrace hd = None ∨ answer = true →
     let w' := handle_release h answer w in
     let t := length (timers w) in
     managers w' = managers w ∧
     timers w' !! t = Some {| t_callback := GraceEnd (h_mgr hd);
                              t_ms := graceMs (params mg); t_live := true |} ∧
     (∃ mg', objects w' !! h_mgr hd = Some mg' ∧ graceTimer mg' = Some t ∧
             counterTimer mg' = None ∧ activeHandles mg' = 0) ∧
     (∀ t0 tm, timers w' !! t0 = Some tm → t_callback tm = CounterTick (h_mgr hd) →
               t_live tm = false) ∧
     managers (timer_fires t w') = delete (key (params mg)) (managers w) ∧
     calls (timer_fires t w') = calls w).
Proof.
  intros Hreach Hh Hr Ho Hah Hph. apply phase_reachable_inv in Hreach as Hinv.
  assert (Hstopped : ∀ answer mg',
            objects (handle_release h answer w) !! h_mgr hd = Some mg' →
            counterTimer mg' = None →
            ∀ t tm, timers (handle_release h answer w) !! t = Some tm →
                    t_callback tm = CounterTick (h_mgr hd) → t_live tm = false).
  { intros answer mg' Ho' Hk' t tm Ht Hcb. destruct (t_live tm) eqn:Hl; [| done].
    assert (Hreach' : reachable (handle_release h answer w)).
    { destruct Hreach as [evs ->]. exists (evs ++ [ERelease h answer])%list.
      unfold run. by rewrite foldl_app. }
    apply phase_reachable_hygiene in Hreach' as Hinv'.
    destruct (hy_counter_timer _ _ Hinv' t tm _ Ht Hl Hcb) as (x & Hx & Hkx). congruence. }
  split; [apply (inv_text w Hinv) |].
  split; [intros answer; apply phase_handle_release_calls |].
  split.
  - intros [sg Hsg]. cbv zeta.
    split; [by eapply phase_release_last_immediate |].
    set (w1 := assign (h_mgr hd)
                 (λ mg, with_activeHandles (Z.max 0 (activeHandles mg - 1)) mg)
                 (set_handles (alter (with_released true) h) w)).
    assert (Ho1 : objects w1 !! h_mgr hd
                  = Some (with_activeHandles (Z.max 0 (activeHandles mg - 1)) mg))
      by (simpl; by rewrite list_lookup_alter_eq, Ho).
    assert (E : handle_release h false w = stopAndDestroy (h_mgr hd) w1).
    { unfold handle_release. rewrite Hh, Hr, Hsg. simpl.
      unfold releaseHandle, method. fold w1. rewrite Ho1. simpl.
      rewrite bool_decide_eq_false_2 by lia. by destruct Hph as [p ->]. }
    destruct (phase_stopAndDestroy_fields _ _ _ Ho1) as (mg' & Ho' & Hk' & Hg' & Ha' & _ & Hl').
    rewrite <- E in Ho', Hl'.
    split; [exists mg'; repeat split; try done; simpl in Ha'; lia |].
    split; [by apply (Hstopped false mg') | exact Hl'].
  - intros answer Hans.
    destruct (phase_release_last_graced h answer w hd mg Hh Hr Hans Ho Hah Hph)
      as (H1 & H2 & (mg' & Ho' & Hg' & Hk' & Ha') & H4 & H5).
    cbv zeta. split; [done |]. split; [done |]. split; [by exists mg' |].
    split; [by apply (Hstopped answer mg') | by split].
Qed.

(** The last release of [thinking_shown] with [shouldGrace() = false]. *)
Lemma last_release_without_clearing_push_witness :
  managers (handle_release 0 false thinking_shown) = delete "K" (managers thinking_shown) ∧
  calls (handle_release 0 false thinking_shown) = calls thinking_shown ∧
  (t_live <$> timers (handle_release 0 false thinking_shown) !! 0%nat) = Some false.
Proof.
  assert (Hreach : reachable thinking_shown) by by eexists.
  destruct (last_release_without_clearing_push thinking_shown 0%nat
              {| h_mgr := 0; released := false; shouldGrace := Some 3%nat |}
              {| phase := Some thinking; seconds := 0; activeHandles := 1;
                 counterTimer := Some 0%nat; graceTimer := None; pushing := false;
                 params := {| key := "K"; push := 7; graceMs := 5000;
                              onError := None |} |}
              Hreach eq_refl eq_refl eq_refl)
    as (_ & Hcalls & Hnow & _).
  - simpl. lia.
  - by eexists.
  - destruct Hnow as (Hm & _ & Hdead & _); [by eexists |].
    split; [exact Hm |]. split; [apply Hcalls |].
    destruct (timers (handle_release 0 false thinking_shown) !! 0%nat) as [tm |] eqn:Ht;
      [| by vm_compute in Ht].
    simpl. rewrite (Hdead 0%nat tm Ht); [done |].
    vm_compute in Ht. by injection Ht as <-.
Defined.


(** Handle accounting in the phase variant.  In every reachable state the
    counter of a manager is the number of its handles that have not been
    released, so the manager of an unreleased handle counts at least one
    handle and has no grace timer pending; and [isThreadActive(key)] is
    true exactly when the manager registered under [key] has an unreleased
    handle.  As long as [_resetAllManagers] has not been called, the
    manager of an unreleased handle is the one registered under its key,
    so the thread of every holder is active. *)
Theorem phase_handles_accounted (w : World) :
  reachable w →
  (∀ m mg, objects w !! m = Some mg →
     activeHandles mg = Z.of_nat (live_handles m (handles w))) ∧
  (∀ h hd, handles w !! h = Some hd → released hd = false →
     ∃ mg, objects w !! h_mgr hd = Some mg ∧ 1 ≤ activeHandles mg ∧
           graceTimer mg = None) ∧
  (∀ k, isThreadActive k w = true ↔
     ∃ m h hd, managers w !! k = Some m ∧ handles w !! h = Some hd ∧
               h_mgr hd = m ∧ released hd = false) ∧
  (reachable_without_reset w →
   ∀ h hd, handles w !! h = Some hd → released hd = false →
     ∃ mg, objects w !! h_mgr hd = Some mg ∧
           managers w !! key (params mg) = Some (h_mgr hd) ∧
           isThreadActive (key (params mg)) w = true).
Proof.
  intros Hreach. apply phase_reachable_hygiene in Hreach as Hinv.
  split; [apply (hy_count _ w Hinv) |]. split; [| split].
  - intros h hd Hh Hr. destruct (hy_handle_mgr _ w Hinv h hd Hh) as [mg Ho].
    destruct (phase_live_registered w h hd mg Hinv Hh Hr Ho) as (Hpos & Hg & _).
    by exists mg.
  - intros k. unfold isThreadActive. split.
    + destruct (managers w !! k) as [m |] eqn:Hm; simpl; [| done].
      destruct (objects w !! m) as [mg |] eqn:Ho; [| done].
      unfold isActive. intros Hact. apply bool_decide_eq_true_1 in Hact.
      rewrite (hy_count _ w Hinv m mg Ho) in Hact.
      destruct (phase_live_handles_some m (handles w)) as (h & hd & Hh & Hm' & Hr); [lia |].
      by exists m, h, hd.
    + intros (m & h & hd & Hm & Hh & <- & Hr). rewrite Hm. simpl.
      destruct (hy_handle_mgr _ w Hinv h hd Hh) as [mg Ho]. rewrite Ho.
      destruct (phase_live_registered w h hd mg Hinv Hh Hr Ho) as (Hpos & _).
      unfold isActive. apply bool_decide_eq_true_2. lia.
  - intros Hfree h hd Hh Hr. apply phase_reachable_strict in Hfree as Hstrict.
    destruct (hy_handle_mgr _ w Hstrict h hd Hh) as [mg Ho].
    destruct (phase_live_registered w h hd mg Hstrict Hh Hr Ho) as (Hpos & _ & Hreg).
    specialize (Hreg eq_refl).
    exists mg. split; [done |]. split; [done |].
    unfold isThreadActive. rewrite Hreg. simpl. rewrite Ho. unfold isActive.
    apply bool_decide_eq_true_2. lia.
Qed.

(** One holder: the thread is active; after its release it is not. *)
Lemma phase_handles_accounted_witness :
  isThreadActive "K" thinking_shown = true ∧
  (isThreadActive "K" (handle_release 0 true thinking_shown) = true → False).
Proof.
  assert (Hr1 : reachable thinking_shown) by by eexists.
  assert (Hf1 : reachable_without_reset thinking_shown).
  { exists [EAcquire sample_acquire; ESetStatus 0 thinking; ESettle 0 true].
    split; [| done]. intros Hin. repeat (apply elem_of_cons in Hin as [Hin | Hin]; [done |]).
    by apply not_elem_of_nil in Hin. }
  assert (Hr2 : reachable (handle_release 0 true thinking_shown))
    by by exists [EAcquire sample_acquire; ESetStatus 0 thinking; ESettle 0 true;
                  ERelease 0 true].
  destruct (phase_handles_accounted thinking_shown Hr1) as (_ & _ & _ & Hheld).
  destruct (phase_handles_accounted _ Hr2) as (_ & _ & Hiff & _).
  split.
  - destruct (Hheld Hf1 0%nat _ eq_refl eq_refl) as (mg & Ho & _ & Hact).
    vm_compute in Ho. injection Ho as <-. exact Hact.
  - intros Hact. apply Hiff in Hact as (m & h & hd & Hm & Hh & _ & Hr).
    destruct h as [| h]; vm_compute in Hh; [| done]. injection Hh as <-. done.
Defined.

(** Timer housekeeping in the phase variant.  In every reachable state a
    timer is live exactly while its manager remembers it, so a manager has
    at most one counter and one grace timer running and every running
    timer can still be cancelled; while a grace timer is pending the
    manager has no handle and its counter is stopped, so the text shown
    does not advance. *)
Theorem phase_timers_accounted (w : World) :
  reachable w →
  (∀ t tm m, timers w !! t = Some tm → t_live tm = true →
     t_callback tm = CounterTick m →
     ∃ mg, objects w !! m = Some mg ∧ counterTimer mg = Some t) ∧
  (∀ t tm m, timers w !! t = Some tm → t_live tm = true →
     t_callback tm = GraceEnd m →
     ∃ mg, objects w !! m = Some mg ∧ graceTimer mg = Some t) ∧
  (∀ m mg t, objects w !! m = Some mg → counterTimer mg = Some t →
     ∃ tm, timers w !! t = Some tm ∧ t_live tm = true ∧ t_callback tm = CounterTick m) ∧
  (∀ m mg t, objects w !! m = Some mg → graceTimer mg = Some t →
     ∃ tm, timers w !! t = Some tm ∧ t_live tm = true ∧ t_callback tm = GraceEnd m) ∧
  (∀ m mg, objects w !! m = Some mg → is_Some (graceTimer mg) →
     activeHandles mg = 0 ∧ counterTimer mg = None ∧
     (∀ t tm, timers w !! t = Some tm → t_callback tm = CounterTick m →
              t_live tm = false) ∧
     (∀ t tm, timers w !! t = Some tm → t_callback tm = CounterTick m →
              seconds <$> objects (timer_fires t w) !! m = Some (seconds mg))).
Proof.
  intros Hreach. apply phase_reachable_hygiene in Hreach as Hinv.
  split; [apply (hy_counter_timer _ w Hinv) |]. split; [apply (hy_grace_timer _ w Hinv) |].
  split; [apply (hy_counter _ w Hinv) |]. split; [apply (hy_grace _ w Hinv) |].
  intros m mg Ho Hs. destruct (hy_idle _ w Hinv m mg Ho Hs) as (Ha & Hk & _).
  assert (Hdead : ∀ t tm, timers w !! t = Some tm → t_callback tm = CounterTick m →
                           t_live tm = false).
  { intros t tm Ht Hcb. destruct (t_live tm) eqn:Hl; [| done].
    destruct (hy_counter_timer _ w Hinv t tm m Ht Hl Hcb) as (x & Hx & Hkx). congruence. }
  split; [done |]. split; [done |]. split; [exact Hdead |].
  intros t tm Ht Hcb. unfold timer_fires. rewrite Ht, (Hdead t tm Ht Hcb). by rewrite Ho.
Qed.

(** After a graced release of [thinking_shown] the counter timer 0 is dead
    and the grace timer 1 is the one the manager remembers. *)
Lemma phase_timers_accounted_witness :
  ∃ mg, objects (handle_release 0 true thinking_shown) !! 0%nat = Some mg ∧
        graceTimer mg = Some 1%nat ∧ activeHandles mg = 0 ∧ counterTimer mg = None.
Proof.
  assert (Hr : reachable (handle_release 0 true thinking_shown))
    by by exists [EAcquire sample_acquire; ESetStatus 0 thinking; ESettle 0 true;
                  ERelease 0 true].
  destruct (phase_timers_accounted _ Hr) as (_ & Hgt & _ & _ & Hidle).
  destruct (Hgt 1%nat _ 0%nat eq_refl eq_refl eq_refl) as (mg & Ho & Hg).
  destruct (Hidle 0%nat mg Ho) as (Ha & Hk & _); [by eexists |].
  by exists mg.
Defined.

(** The registry of the phase variant, as long as [_resetAllManagers] has
    not been called.  A manager that is not registered under its key holds
    nothing (no unreleased handle, no timer), and whenever an event other
    than a reset takes an entry out of the registry, the manager it
    pointed to is left with no unreleased handle and no timer. *)
Theorem phase_unregistered_holds_nothing (w : World) :
  reachable_without_reset w →
  (∀ m mg, objects w !! m = Some mg → managers w !! key (params mg) ≠ Some m →
     activeHandles mg = 0 ∧ graceTimer mg = None ∧ counterTimer mg = None ∧
     (∀ h hd, handles w !! h = Some hd → h_mgr hd = m → released hd = true) ∧
     (∀ t tm, timers w !! t = Some tm →
              t_callback tm = CounterTick m ∨ t_callback tm = GraceEnd m →
              t_live tm = false)) ∧
  (∀ e k m, e ≠ EReset → managers w !! k = Some m → managers (step w e) !! k ≠ Some m →
     ∃ mg', objects (step w e) !! m = Some mg' ∧ key (params mg') = k ∧
            activeHandles mg' = 0 ∧ graceTimer mg' = None ∧ counterTimer mg' = None ∧
            (∀ h hd, handles (step w e) !! h = Some hd → h_mgr hd = m →
                     released hd = true)).
Proof.
  intros Hfree.
  assert (Hdead : ∀ w0, hygiene true w0 → ∀ m mg, objects w0 !! m = Some mg →
            managers w0 !! key (params mg) ≠ Some m →
     activeHandles mg = 0 ∧ graceTimer mg = None ∧ counterTimer mg = None ∧
     (∀ h hd, handles w0 !! h = Some hd → h_mgr hd = m → released hd = true) ∧
     (∀ t tm, timers w0 !! t = Some tm →
              t_callback tm = CounterTick m ∨ t_callback tm = GraceEnd m →
              t_live tm = false)).
  { intros w0 Hinv m mg Ho Hnreg.
    destruct (hy_registered _ w0 Hinv eq_refl m mg Ho) as [Hreg | (Ha & Hg & Hk)]; [done |].
    split; [done |]. split; [done |]. split; [done |]. split.
    - intros h hd Hh Hm. destruct (released hd) eqn:Hr; [done |].
      rewrite <- Hm in Ho.
      destruct (phase_live_registered w0 h hd mg Hinv Hh Hr Ho) as (Hpos & _). lia.
    - intros t tm Ht Hcb. destruct (t_live tm) eqn:Hl; [| done].
      destruct Hcb as [Hcb | Hcb].
      + destruct (hy_counter_timer _ w0 Hinv t tm m Ht Hl Hcb) as (x & Hx & Hkx). congruence.
      + destruct (hy_grace_timer _ w0 Hinv t tm m Ht Hl Hcb) as (x & Hx & Hgx). congruence. }
  apply phase_reachable_strict in Hfree as Hinv.
  split; [by apply Hdead |].
  intros e k m He Hm Hgone.
  destruct (hy_key _ w Hinv k m Hm) as (mg & Ho & Hk).
  destruct (phase_kp_step w e m mg Ho) as (mg' & Ho' & Ep).
  assert (Hinv' : hygiene true (step w e)) by by apply phase_hygiene_step.
  destruct (Hdead _ Hinv' m mg' Ho') as (Ha & Hg & Hc & Hh & _); [rewrite Ep, Hk; exact Hgone |].
  exists mg'. rewrite Ep. by repeat split.
Qed.

(** The last release with [shouldGrace() = false] takes the entry of ["K"]
    out of the registry and leaves the manager with nothing. *)
Lemma phase_unregistered_holds_nothing_witness :
  (activeHandles <$> objects (handle_release 0 false thinking_shown) !! 0%nat) = Some 0 ∧
  (counterTimer <$> objects (handle_release 0 false thinking_shown) !! 0%nat) = Some None.
Proof.
  assert (Hr : reachable_without_reset thinking_shown).
  { exists [EAcquire sample_acquire; ESetStatus 0 thinking; ESettle 0 true].
    split; [| done]. intros Hin. repeat (apply elem_of_cons in Hin as [Hin | Hin]; [done |]).
    by apply not_elem_of_nil in Hin. }
  destruct (phase_unregistered_holds_nothing _ Hr) as (_ & Hstep).
  destruct (Hstep (ERelease 0 false) "K" 0%nat) as (mg & Ho & _ & Ha & _ & Hk & _);
    [done | done | by vm_compute |].
  change (step thinking_shown (ERelease 0 false))
    with (handle_release 0 false thinking_shown) in Ho.
  rewrite Ho. simpl. by rewrite Ha, Hk.
Defined.

(** [forceDestroy] keeps the handle count, the phase and the parameters
    of every manager, only lowers what managers remember of their timers,
    and leaves the manager it is called on with no timer. *)
Lemma phase_forceDestroy_fields this w m mg :
  objects w !! m = Some mg →
  ∃ mg', objects (forceDestroy this w) !! m = Some mg' ∧
         activeHandles mg' = activeHandles mg ∧ phase mg' = phase mg ∧
         params mg' = params mg ∧
         (counterTimer mg = None → counterTimer mg' = None) ∧
         (graceTimer mg = None → graceTimer mg' = None) ∧
         (m = this → counterTimer mg' = None ∧ graceTimer mg' = None).
Proof.
  intros Ho. unfold forceDestroy. destruct (decide (m = this)) as [-> | Hne].
  - destruct (phase_cancelGrace_some this w mg Ho) as [mg1 Ho1].
    destruct (phase_stopCounter_some this _ mg1 Ho1) as [mg2 Ho2].
    destruct (phase_stopCounter_field _ _ _ Ho2) as (Hk & x1 & Hx1 & Ea2 & Eg2 & Ep2 & Eph2).
    assert (x1 = mg1) as -> by congruence.
    destruct (phase_cancelGrace_field _ _ _ Ho1) as (Hg & x0 & Hx0 & Ea1 & Ek1 & Ep1 & Eph1).
    assert (x0 = mg) as -> by congruence.
    exists mg2. split; [done |]. repeat split; congruence.
  - exists mg. split; [| by repeat split].
    unfold stopCounter, cancelGrace, method.
    repeat case_match; simpl; rewrite ?list_lookup_alter_ne by done; done.
Qed.

Lemma phase_forceDestroy_frame this w :
  managers (forceDestroy this w) = managers w ∧
  handles (forceDestroy this w) = handles w ∧
  calls (forceDestroy this w) = calls w.
Proof. unfold forceDestroy, stopCounter, cancelGrace, method. by repeat case_match. Qed.

(** [forceDestroy] starts no timer: a timer that is live afterwards was
    live before. *)
Lemma phase_forceDestroy_timers this w t tm :
  timers (forceDestroy this w) !! t = Some tm → t_live tm = true →
  timers w !! t = Some tm.
Proof.
  assert (Hkill : ∀ t0 (l : list Timer), alter (with_live false) t0 l !! t = Some tm →
                    t_live tm = true → l !! t = Some tm).
  { intros t0 l Ht Hl. apply alter_lookup_inv in Ht as [[_ Ht] | [_ (x & _ & ->)]]; done. }
  unfold forceDestroy, stopCounter, cancelGrace, method, assign, clearTimer.
  repeat case_match; simpl; intros Ht Hl; eauto.
Qed.

Lemma phase_reset_fold (l : list (string * nat)) w :
  let w' := foldr (λ kv acc, forceDestroy kv.2 acc) w l in
  managers w' = managers w ∧
  (∀ m mg, objects w !! m = Some mg →
     ∃ mg', objects w' !! m = Some mg' ∧ activeHandles mg' = activeHandles mg ∧
            phase mg' = phase mg ∧ params mg' = params mg ∧
            (m ∈ l.*2 → counterTimer mg' = None ∧ graceTimer mg' = None)) ∧
  (∀ t tm, timers w' !! t = Some tm → t_live tm = true → timers w !! t = Some tm).
Proof.
  induction l as [| [k m0] l IH]; simpl.
  - split; [done |]. split; [| done].
    intros m mg Ho. exists mg. do 4 (split; [done |]).
    intros Hin. by apply not_elem_of_nil in Hin.
  - destruct IH as (Em & Hobj & Htm).
    set (w1 := foldr (λ kv acc, forceDestroy kv.2 acc) w l) in *.
    split; [by rewrite (proj1 (phase_forceDestroy_frame m0 w1)) |]. split.
    + intros m mg Ho. destruct (Hobj m mg Ho) as (mg1 & Ho1 & Ea1 & Eph1 & Ep1 & Hnone1).
      destruct (phase_forceDestroy_fields m0 w1 m mg1 Ho1)
        as (mg2 & Ho2 & Ea2 & Eph2 & Ep2 & Hk2 & Hg2 & Hthis).
      exists mg2. split; [done |]. split; [congruence |]. split; [congruence |].
      split; [congruence |].
      intros Hin. apply elem_of_cons in Hin as [-> | Hin]; [by apply Hthis |].
      destruct (Hnone1 Hin). auto.
    + intros t tm Ht Hl. apply Htm; [| done]. by eapply phase_forceDestroy_timers.
Qed.

Lemma phase_hygiene_fold strict (l : list (string * nat)) w :
  hygiene strict w → hygiene strict (foldr (λ kv acc, forceDestroy kv.2 acc) w l).
Proof.
  intros Hinv. induction l as [| [k m0] l IH]; simpl; [done |].
  by apply phase_hygiene_stopCounter, phase_hygiene_cancelGrace.
Qed.

(** [_resetAllManagers] in the phase variant, from any reachable state,
    earlier resets included.  It empties the registry, so that no thread
    is active and no status can be read, and it leaves the handles, the
    call log and the handle count, the phase and the parameters of every
    manager as they are.  Every manager that was registered is left
    without a counter or grace timer, and none of its timers is live.  A
    timer that is still live afterwards was live before and belongs to a
    manager that was not registered: one that an earlier reset took out of
    the registry while a handle was held.  If no reset happened before,
    no timer at all is live afterwards. *)
Theorem resetAllManagers_stops_every_timer (w : World) :
  reachable w →
  let w' := _resetAllManagers w in
  managers w' = ∅ ∧ handles w' = handles w ∧ calls w' = calls w ∧
  (∀ k, isThreadActive k w' = false ∧ getCurrentStatus k w' = None) ∧
  (∀ m mg, objects w !! m = Some mg →
     ∃ mg', objects w' !! m = Some mg' ∧ activeHandles mg' = activeHandles mg ∧
            phase mg' = phase mg ∧ params mg' = params mg) ∧
  (∀ k m, managers w !! k = Some m →
     ∃ mg', objects w' !! m = Some mg' ∧ counterTimer mg' = None ∧ graceTimer mg' = None ∧
            ∀ t tm, timers w' !! t = Some tm →
                    t_callback tm = CounterTick m ∨ t_callback tm = GraceEnd m →
                    t_live tm = false) ∧
  (∀ t tm, timers w' !! t = Some tm → t_live tm = true →
     timers w !! t = Some tm ∧
     ∃ m, (t_callback tm = CounterTick m ∨ t_callback tm = GraceEnd m) ∧
          ∀ k, managers w !! k ≠ Some m) ∧
  (reachable_without_reset w → ∀ t tm, timers w' !! t = Some tm → t_live tm = false).
Proof.
  intros Hreach w'. apply phase_reachable_hygiene in Hreach as Hinv0.
  destruct (phase_resetAllManagers_frame w) as (Em' & Eh' & Ec' & _).
  fold w' in Em', Eh', Ec'.
  destruct (phase_reset_fold (map_to_list (managers w)) w) as (Em & Hobj & Htm).
  set (w1 := foldr (λ kv acc, forceDestroy kv.2 acc) w (map_to_list (managers w))) in *.
  assert (Eo : objects w' = objects w1) by done.
  assert (Et : timers w' = timers w1) by done.
  assert (Hinv1 : hygiene false w1) by by apply phase_hygiene_fold.
  assert (Hreg : ∀ k m, managers w !! k = Some m →
            ∃ mg', objects w1 !! m = Some mg' ∧ counterTimer mg' = None ∧
                   graceTimer mg' = None).
  { intros k m Hm. destruct (hy_key _ w Hinv0 k m Hm) as (mg & Ho & _).
    destruct (Hobj m mg Ho) as (mg' & Ho' & _ & _ & _ & Hnone).
    exists mg'. split; [done |]. apply Hnone.
    apply list_elem_of_fmap. exists (k, m). split; [done |]. by apply elem_of_map_to_list. }
  assert (Howner : ∀ strict, hygiene strict w1 → ∀ t tm, timers w1 !! t = Some tm →
            t_live tm = true →
            ∃ m mg', (t_callback tm = CounterTick m ∨ t_callback tm = GraceEnd m) ∧
                     objects w1 !! m = Some mg' ∧
                     (counterTimer mg' = Some t ∨ graceTimer mg' = Some t)).
  { intros strict Hinv t tm Ht Hl. destruct (t_callback tm) as [m | m] eqn:Hcb.
    - destruct (hy_counter_timer _ w1 Hinv t tm m Ht Hl Hcb) as (mg' & Ho' & Hk').
      exists m, mg'. auto.
    - destruct (hy_grace_timer _ w1 Hinv t tm m Ht Hl Hcb) as (mg' & Ho' & Hg').
      exists m, mg'. auto. }
  split; [done |]. split; [done |]. split; [done |]. split.
  { intros k. unfold isThreadActive, getCurrentStatus. rewrite Em'. by rewrite lookup_empty. }
  split.
  { intros m mg Ho. destruct (Hobj m mg Ho) as (mg' & Ho' & Ea & Eph & Ep & _).
    exists mg'. by rewrite Eo. }
  split.
  { intros k m Hm. destruct (Hreg k m Hm) as (mg' & Ho' & Hk' & Hg').
    exists mg'. rewrite Eo, Et. split; [done |]. split; [done |]. split; [done |].
    intros t tm Ht Hcb. destruct (t_live tm) eqn:Hl; [| done].
    destruct (Howner false Hinv1 t tm Ht Hl) as (m' & x & Hcb' & Hx & Hown).
    assert (m' = m) as -> by (destruct Hcb as [E | E], Hcb' as [E' | E']; congruence).
    destruct Hown; congruence. }
  split.
  { intros t tm Ht Hl. rewrite Et in Ht. split; [by apply Htm |].
    destruct (Howner false Hinv1 t tm Ht Hl) as (m & x & Hcb & Hx & Hown).
    exists m. split; [done |]. intros k Hm.
    destruct (Hreg k m Hm) as (mg' & Ho' & Hk' & Hg'). destruct Hown; congruence. }
  intros Hfree t tm Ht. rewrite Et in Ht. destruct (t_live tm) eqn:Hl; [| done].
  apply phase_reachable_strict in Hfree as Hstrict0.
  assert (Hstrict1 : hygiene true w1) by by apply phase_hygiene_fold.
  destruct (Howner true Hstrict1 t tm Ht Hl) as (m & x & Hcb & Hx & Hown).
  destruct (hy_registered _ w1 Hstrict1 eq_refl m x Hx) as [Hm | (_ & Hg & Hk)].
  - rewrite Em in Hm. destruct (Hreg _ m Hm) as (mg' & Ho' & Hk' & Hg').
    destruct Hown; congruence.
  - destruct Hown; congruence.
Qed.

(** Reset while one holder shows a phase: the counter timer 0 is stopped,
    and the manager still counts the holder's handle. *)
Lemma resetAllManagers_stops_every_timer_witness :
  (t_live <$> timers (_resetAllManagers thinking_shown) !! 0%nat) = Some false ∧
  (activeHandles <$> objects (_resetAllManagers thinking_shown) !! 0%nat) = Some 1.
Proof.
  assert (Hr : reachable thinking_shown) by by eexists.
  destruct (resetAllManagers_stops_every_timer _ Hr) as (_ & _ & _ & _ & Hkeep & Hdead & _).
  split.
  - destruct (Hdead "K" 0%nat eq_refl) as (mg' & _ & _ & _ & Hd).
    destruct (timers (_resetAllManagers thinking_shown) !! 0%nat) as [tm |] eqn:Ht;
      [| by vm_compute in Ht].
    simpl. rewrite (Hd 0%nat tm Ht); [done |].
    vm_compute in Ht. injection Ht as <-. by left.
  - destruct (Hkeep 0%nat _ eq_refl) as (mg' & Ho' & Ha & _). by rewrite Ho'; simpl; rewrite Ha.
Defined.

Lemma phase_pushOnce_effect this text w mg :
  objects w !! this = Some mg →
  ∃ b, objects (pushOnce this text w) !! this = Some (with_pushing b mg) ∧
       timers (pushOnce this text w) = timers w ∧
       managers (pushOnce this text w) = managers w ∧
       (calls (pushOnce this text w) = calls w ∨
        calls (pushOnce this text w) =
          alloc {| c_mgr := this; c_fn := push (params mg); c_text := text;
                   c_done := false |} (calls w)).
Proof.
  intros Ho. unfold pushOnce, method. rewrite Ho. destruct (pushing mg) eqn:Hp.
  - exists true. rewrite Ho. repeat split; auto. by destruct mg; simpl in *; subst.
  - exists true. simpl. rewrite list_lookup_alter_eq, Ho. repeat split; auto.
Qed.

(** The call [pushOnce] makes, by the state of the gate. *)
Lemma phase_pushOnce_calls this text w mg :
  objects w !! this = Some mg →
  calls (pushOnce this text w) =
    if pushing mg then calls w
    else alloc {| c_mgr := this; c_fn := push (params mg); c_text := text;
                  c_done := false |} (calls w).
Proof. intros Ho. unfold pushOnce, method. rewrite Ho. by destruct (pushing mg). Qed.

Lemma phase_stopCounter_effect this w mg :
  objects w !! this = Some mg →
  objects (stopCounter this w) !! this = Some (with_counterTimer None mg) ∧
  length (timers (stopCounter this w)) = length (timers w) ∧
  managers (stopCounter this w) = managers w ∧ calls (stopCounter this w) = calls w.
Proof.
  intros Ho. unfold stopCounter, method. rewrite Ho. destruct (counterTimer mg) eqn:Hk.
  - simpl. rewrite list_lookup_alter_eq, Ho, length_alter. done.
  - rewrite Ho. repeat split; auto. by destruct mg; simpl in *; subst.
Qed.

Lemma phase_one_push_counts m p n i fn w w' :
  (i ≤ n)%nat →
  calls w' = calls w ∨
  calls w' = alloc {| c_mgr := m; c_fn := fn; c_text := formatStatus p i;
                      c_done := false |} (calls w) →
  pushes_counts m p n w w'.
Proof.
  intros Hi [E | E].
  - exists []. by rewrite E, app_nil_r.
  - eexists [_]. split; [exact E |]. constructor; [| constructor].
    split; [done |]. split; [done |]. by exists i.
Qed.

Lemma phase_setPhase_shows this p w mg :
  objects w !! this = Some mg → p ≠ reading →
  shows this p 0 (length (timers w)) (setPhase this p w) ∧
  managers (setPhase this p w) = managers w ∧
  pushes_counts this p 0 w (setPhase this p w) ∧
  calls (setPhase this p w) =
    (if pushing mg then calls w
     else alloc {| c_mgr := this; c_fn := push (params mg); c_text := formatStatus p 0;
                   c_done := false |} (calls w)) ∧
  (params <$> objects (setPhase this p w) !! this) = Some (params mg).
Proof.
  intros Ho Hp. unfold setPhase.
  set (w1 := assign this (with_phase (Some p) 0) w).
  assert (Ho1 : objects w1 !! this = Some (with_phase (Some p) 0 mg))
    by (simpl; by rewrite list_lookup_alter_eq, Ho).
  destruct (phase_stopCounter_effect this w1 _ Ho1) as (Ho2 & Hlen & Em2 & Ec2).
  set (w2 := stopCounter this w1) in *.
  destruct (phase_pushOnce_effect this (formatStatus p 0) w2 _ Ho2) as (b & Ho3 & Et3 & Em3 & Ec3).
  pose proof (phase_pushOnce_calls this (formatStatus p 0) w2 _ Ho2) as Ecall.
  set (w3 := pushOnce this (formatStatus p 0) w2) in *.
  assert (Hl3 : length (timers w3) = length (timers w)) by (rewrite Et3, Hlen; done).
  assert (Hcalls : pushes_counts this p 0 w w3).
  { rewrite Ec2 in Ec3. change (calls w1) with (calls w) in Ec3.
    by eapply (phase_one_push_counts this p 0 0). }
  rewrite Ec2 in Ecall. change (calls w1) with (calls w) in Ecall. simpl in Ecall.
  destruct p; [done | |].
  all: split; [| split; [simpl; by rewrite Em3, Em2 |
                         split; [exact Hcalls | split; [exact Ecall |]]]].
  all: try (simpl; by rewrite list_lookup_alter_eq, Ho3).
  all: eexists; simpl; rewrite list_lookup_alter_eq, Ho3; simpl.
  all: split; [reflexivity |]; simpl; rewrite Hl3.
  all: repeat split; try done.
  all: eexists; rewrite <- Hl3; split; [apply alloc_lookup_new | done].
Qed.

Lemma phase_counter_tick_shows this p s t w :
  shows this p s t w →
  shows this p (S s) t (counter_tick this w) ∧
  managers (counter_tick this w) = managers w ∧
  pushes_counts this p (S s) w (counter_tick this w).
Proof.
  intros (mg & Ho & Hp & Hs & Hk & tm & Ht & Hl & Hcb). unfold counter_tick, method.
  set (w1 := assign this (λ mg, with_phase (phase mg) (S (seconds mg)) mg) w).
  assert (Ho1 : objects w1 !! this = Some (with_phase (phase mg) (S (seconds mg)) mg))
    by (simpl; by rewrite list_lookup_alter_eq, Ho).
  rewrite Ho1. simpl. rewrite Hp, Hs.
  destruct (phase_pushOnce_effect this (formatStatus p (S s)) w1 _ Ho1)
    as (b & Ho2 & Et2 & Em2 & Ec2).
  split; [| split; [done |]].
  - eexists. split; [exact Ho2 |]. simpl. rewrite Hp, Hs, Et2. repeat split; try done.
    by exists tm.
  - change (calls w1) with (calls w) in Ec2.
    by eapply (phase_one_push_counts this p (S s) (S s)).
Qed.

(** The call a tick of the counter makes, by the state of the gate. *)
Lemma phase_counter_tick_calls this p s t w mg :
  shows this p s t w → objects w !! this = Some mg →
  calls (step w (ETimer t)) =
    if pushing mg then calls w
    else alloc {| c_mgr := this; c_fn := push (params mg);
                  c_text := formatStatus p (S s); c_done := false |} (calls w).
Proof.
  intros (x & Hx & Hp & Hs & Hk & tm & Ht & Hl & Hcb) Ho.
  assert (x = mg) as -> by congruence.
  simpl. unfold timer_fires. rewrite Ht, Hl, Hcb. unfold counter_tick, method.
  set (w1 := assign this (λ mg, with_phase (phase mg) (S (seconds mg)) mg) w).
  assert (Ho1 : objects w1 !! this = Some (with_phase (phase mg) (S (seconds mg)) mg))
    by (simpl; by rewrite list_lookup_alter_eq, Ho).
  rewrite Ho1. simpl. rewrite Hp, Hs.
  by rewrite (phase_pushOnce_calls this _ w1 _ Ho1).
Qed.

(** A settlement changes the [done] mark of one call and the push flag of
    its manager, and nothing else of the managers. *)
Lemma phase_push_settles_effect c ok w :
  let w' := push_settles c ok w in
  timers w' = timers w ∧ managers w' = managers w ∧
  (calls w' = calls w ∨ calls w' = alter (with_done true) c (calls w)) ∧
  (∀ m mg, objects w !! m = Some mg → ∃ b, objects w' !! m = Some (with_pushing b mg)).
Proof.
  assert (Hsame : ∀ m mg, objects w !! m = Some mg →
            ∃ b, objects w !! m = Some (with_pushing b mg)).
  { intros m mg Ho. exists (pushing mg). rewrite Ho. by destruct mg. }
  cbv zeta. unfold push_settles, method.
  destruct (calls w !! c) as [call |]; [| by repeat split; auto].
  destruct (c_done call); [by repeat split; auto |].
  simpl. destruct (objects w !! c_mgr call) as [mg0 |] eqn:Ho0.
  - assert (Hobj : ∀ m mg, objects w !! m = Some mg →
              ∃ b, alter (with_pushing false) (c_mgr call) (objects w) !! m
                   = Some (with_pushing b mg)).
    { intros m mg Ho. destruct (decide (c_mgr call = m)) as [<- | Hne].
      - exists false. by rewrite list_lookup_alter_eq, Ho.
      - rewrite list_lookup_alter_ne by done. by apply Hsame. }
    destruct ok; [| destruct (onError (params mg0))]; simpl; repeat split; auto.
  - simpl. repeat split; auto.
Qed.

Lemma phase_shows_settle this p s t c ok w :
  shows this p s t w → shows this p s t (push_settles c ok w).
Proof.
  intros (mg & Ho & Hp & Hs & Hk & tm & Ht & Hl & Hcb).
  destruct (phase_push_settles_effect c ok w) as (Et & _ & _ & Hobj).
  destruct (Hobj this mg Ho) as (b & Ho'). exists (with_pushing b mg).
  split; [done |]. simpl. do 3 (split; [done |]). exists tm. by rewrite Et.
Qed.

Lemma phase_counted_pushes m p n n' base w w' :
  (n ≤ n')%nat → counted m p n base w → pushes_counts m p n' w w' →
  counted m p n' base w'.
Proof.
  intros Hn [Hlen Hold] (news & E & Hnews). split.
  - rewrite E, length_app. lia.
  - intros c call Hc Hge. rewrite E in Hc. apply lookup_app_Some in Hc as [Hc | [_ Hc]].
    + destruct (Hold c call Hc Hge) as (Hm & i & Hi & Ht).
      split; [done |]. exists i. split; [lia | done].
    + apply list_elem_of_lookup_2 in Hc.
      rewrite Forall_forall in Hnews. destruct (Hnews call Hc) as (Hm & _ & Hi).
      by split.
Qed.

Lemma phase_counted_settle m p n base c ok w :
  counted m p n base w → counted m p n base (push_settles c ok w).
Proof.
  intros [Hlen Hold]. unfold counted.
  destruct (phase_push_settles_effect c ok w) as (_ & _ & [E | E] & _);
    rewrite E; [by split |].
  split; [by rewrite length_alter |].
  intros c' call Hc Hge.
  apply alter_lookup_inv in Hc as [[_ Hc] | [-> (x & Hx & ->)]]; [by apply (Hold c') |].
  simpl. by apply (Hold c').
Qed.

Lemma phase_ticks_snoc t evs e :
  ticks t (evs ++ [e]) = (ticks t evs + (if is_tick t e then 1 else 0))%nat.
Proof.
  unfold ticks. rewrite filter_app, length_app. f_equal.
  rewrite filter_cons, filter_nil. destruct (is_tick t e); by case_decide.
Qed.

(** Ticks of the counter and settlements of pushes, in any order. *)
Lemma phase_ticks_count this p t w evs base :
  shows this p 0 t w → counted this p 0 base w →
  Forall (λ e, e = ETimer t ∨ ∃ c ok, e = ESettle c ok) evs →
  let wn := run_from w evs in
  shows this p (ticks t evs) t wn ∧ managers wn = managers w ∧
  counted this p (ticks t evs) base wn.
Proof.
  intros Hs Hc. induction evs as [| e evs IH] using rev_ind; intros Hev; [done |].
  apply Forall_app in Hev as [Hev He]. rewrite Forall_singleton in He.
  specialize (IH Hev). simpl in IH. destruct IH as (Hsn & Em & Hcn).
  simpl. rewrite phase_run_from_snoc, phase_ticks_snoc.
  set (wn := run_from w evs) in *.
  destruct He as [-> | (c & ok & ->)].
  - assert (Hfire : step wn (ETimer t) = counter_tick this wn).
    { destruct Hsn as (mg & _ & _ & _ & _ & tm & Ht & Hl & Hcb).
      simpl. unfold timer_fires. by rewrite Ht, Hl, Hcb. }
    rewrite Hfire. simpl. rewrite bool_decide_eq_true_2 by done.
    destruct (phase_counter_tick_shows this p _ t wn Hsn) as (H1 & H2 & H3).
    rewrite Nat.add_1_r. split; [done |]. split; [congruence |].
    eapply phase_counted_pushes; [| exact Hcn | exact H3]. lia.
  - simpl. rewrite Nat.add_0_r. split; [by apply phase_shows_settle |]. split.
    + rewrite <- Em. apply (phase_push_settles_effect c ok wn).
    + by apply phase_counted_settle.
Qed.

(** The seconds counter of the phase variant.  After an unreleased handle
    sets a phase other than [reading], let the counter interval tick and
    pushes settle in any order.  The manager then shows that phase at the
    number of ticks so far (this is what [getCurrentStatus] reads while
    the manager is registered).  [setStatus] pushes the phase at 0 s and
    every tick pushes the phase at the new count, each provided that no
    push of the manager is in flight; otherwise that push is dropped.
    When the push in flight settles the gate opens again, so the next
    tick pushes.  Every call made on the way is a call of this manager
    and shows that phase with a count of at most the number of ticks. *)
Theorem counter_counts_ticks (w : World) h hd mg p (evs : list event) :
  reachable w → handles w !! h = Some hd → released hd = false →
  objects w !! h_mgr hd = Some mg → p ≠ reading →
  let m := h_mgr hd in
  let t := length (timers w) in
  let w1 := handle_setStatus h p w in
  Forall (λ e, e = ETimer t ∨ ∃ c ok, e = ESettle c ok) evs →
  let wn := run_from w1 evs in
  let n := ticks t evs in
  calls w1 =
    (if pushing mg then calls w
     else alloc {| c_mgr := m; c_fn := push (params mg); c_text := formatStatus p 0;
                   c_done := false |} (calls w)) ∧
  (∃ mgn, objects wn !! m = Some mgn ∧ params mgn = params mg ∧
          getFormattedStatus mgn = Some (formatStatus p n) ∧
          calls (step wn (ETimer t)) =
            (if pushing mgn then calls wn
             else alloc {| c_mgr := m; c_fn := push (params mg);
                           c_text := formatStatus p (S n); c_done := false |} (calls wn))) ∧
  (managers w !! key (params mg) = Some m →
   getCurrentStatus (key (params mg)) wn = Some (formatStatus p n)) ∧
  (∀ c call ok, calls wn !! c = Some call → c_mgr call = m → c_done call = false →
     pushing <$> objects (push_settles c ok wn) !! m = Some false) ∧
  (length (calls w) ≤ length (calls wn))%nat ∧
  (∀ c call, calls wn !! c = Some call → (length (calls w) ≤ c)%nat →
     c_mgr call = m ∧ ∃ i, (i ≤ n)%nat ∧ c_text call = formatStatus p i).
Proof.
  intros Hreach Hh Hr Ho Hp m t w1 Hev wn n.
  assert (E1 : w1 = setPhase m p w).
  { unfold w1, handle_setStatus. by rewrite Hh, Hr. }
  destruct (phase_setPhase_shows m p w mg Ho Hp) as (Hs1 & Em1 & Hc1 & Ecall1 & Epar1).
  rewrite <- E1 in Hs1, Em1, Hc1, Ecall1, Epar1.
  assert (Hbase : counted m p 0 (length (calls w)) w1).
  { apply (phase_counted_pushes m p 0 0 _ w); [done | | done].
    split; [done |]. intros c call Hc Hge. apply lookup_lt_Some in Hc. lia. }
  destruct (phase_ticks_count m p t w1 evs _ Hs1 Hbase Hev) as (Hsn & Emn & (Hlen & Hcn)).
  fold wn in Hsn, Emn, Hlen, Hcn. fold n in Hsn, Hcn.
  assert (Hparn : keeps_params w1 wn) by apply phase_run_from_params.
  destruct Hsn as (mgn & Hon & Hpn & Hsecn & Hkn & Htmn).
  assert (Eparn : params mgn = params mg).
  { destruct (objects w1 !! m) as [mg1 |] eqn:Ho1; [| done].
    simpl in Epar1. injection Epar1 as Epar1.
    destruct (Hparn m mg1 Ho1) as (x & Hx & Epx). congruence. }
  split; [exact Ecall1 |]. split.
  { exists mgn. split; [done |]. split; [done |]. split.
    - unfold getFormattedStatus. by rewrite Hpn, Hsecn.
    - rewrite <- Eparn. apply (phase_counter_tick_calls m p n t wn mgn); [| done].
      by exists mgn. }
  split.
  { intros Hreg. unfold getCurrentStatus. rewrite Emn, Em1, Hreg. simpl. rewrite Hon. simpl.
    unfold getFormattedStatus. by rewrite Hpn, Hsecn. }
  split.
  { intros c call ok Hc Hm Hd. unfold push_settles, method. rewrite Hc, Hd. simpl.
    rewrite Hm, Hon. destruct ok; [| destruct (onError (params mgn))]; simpl.
    all: by rewrite list_lookup_alter_eq, Hon. }
  split; [exact Hlen | exact Hcn].
Qed.

(** A second [setStatus] on [thinking_shown], then a tick and a second
    tick with every push settled in between: [reasoning 1s] and
    [reasoning 2s] are pushed. *)
Lemma counter_counts_ticks_witness :
  let wn := run_from (handle_setStatus 0 reasoning thinking_shown)
              [ESettle 1 true; ETimer 1; ESettle 2 true] in
  getCurrentStatus "K" wn = Some "reasoning 1s" ∧
  c_text <$> calls (step wn (ETimer 1))
    = ["thinking 0s"; "reasoning 0s"; "reasoning 1s"; "reasoning 2s"].
Proof.
  intros wn.
  assert (Hr : reachable thinking_shown) by by eexists.
  assert (Hev : Forall (λ e, e = ETimer 1 ∨ ∃ c ok, e = ESettle c ok)
                  [ESettle 1 true; ETimer 1; ESettle 2 true]).
  { constructor; [right; by eexists _, _ |]. constructor; [by left |].
    constructor; [right; by eexists _, _ | constructor]. }
  assert (Hp : reasoning ≠ reading) by done.
  pose proof (counter_counts_ticks thinking_shown 0%nat
                {| h_mgr := 0; released := false; shouldGrace := Some 3%nat |}
                {| phase := Some thinking; seconds := 0; activeHandles := 1;
                   counterTimer := Some 0%nat; graceTimer := None; pushing := false;
                   params := {| key := "K"; push := 7; graceMs := 5000;
                                onError := None |} |}
                reasoning [ESettle 1 true; ETimer 1; ESettle 2 true]
                Hr eq_refl eq_refl eq_refl Hp Hev) as H.
  cbv zeta in H. fold wn in H.
  destruct H as (_ & (mgn & Hon & _ & _ & Hnext) & Hread & _).
  split.
  - assert (Hreg : managers thinking_shown !! "K" = Some 0%nat) by by vm_compute.
    exact (Hread Hreg).
  - assert (Hgate : pushing mgn = false).
    { vm_compute in Hon. by injection Hon as <-. }
    rewrite Hgate in Hnext.
    replace (length (timers thinking_shown)) with 1%nat in Hnext by by vm_compute.
    rewrite Hnext. by vm_compute.
Defined.

(** A timer callback of manager [m'] leaves the other managers alone. *)
Lemma phase_timer_other_object t tm m w :
  timers w !! t = Some tm → t_callback tm ≠ CounterTick m → t_callback tm ≠ GraceEnd m →
  objects (timer_fires t w) !! m = objects w !! m.
Proof.
  intros Ht Hk Hg. unfold timer_fires. rewrite Ht.
  destruct (t_live tm); [| done].
  destruct (t_callback tm) as [m' | m'] eqn:Hcb.
  - assert (m' ≠ m) by congruence.
    unfold counter_tick, pushOnce, method. repeat case_match; simpl.
    all: by rewrite ?list_lookup_alter_ne by done.
  - assert (m' ≠ m) by congruence.
    unfold grace_end, stopAndDestroy, destroy, stopCounter, cancelGrace, clearTimer, method.
    repeat case_match; simpl.
    all: by rewrite ?list_lookup_alter_ne by done.
Qed.

Lemma phase_timer_fires_dead t w :
  (∀ tm, timers w !! t = Some tm → t_live tm = false) → timer_fires t w = w.
Proof.
  intros Hdead. unfold timer_fires. destruct (timers w !! t) as [tm |] eqn:Ht; [| done].
  by rewrite (Hdead tm eq_refl).
Qed.

(** [pause()] in the phase variant.  On an unreleased handle it stops the
    counter without pushing anything and without changing what can be
    read; and afterwards no timer that fires changes the manager in any
    way, so the status shown stays frozen until the next [setStatus] or
    [release]. *)
Theorem pause_freezes_counter (w : World) h hd mg :
  reachable w → handles w !! h = Some hd → released hd = false →
  objects w !! h_mgr hd = Some mg →
  let w1 := handle_pause h w in
  objects w1 !! h_mgr hd = Some (with_counterTimer None mg) ∧
  calls w1 = calls w ∧ managers w1 = managers w ∧ handles w1 = handles w ∧
  (∀ k, getCurrentStatus k w1 = getCurrentStatus k w) ∧
  (∀ t, objects (timer_fires t w1) !! h_mgr hd = objects w1 !! h_mgr hd) ∧
  (∀ t c call, calls (timer_fires t w1) !! c = Some call → (length (calls w1) ≤ c)%nat →
               c_mgr call ≠ h_mgr hd).
Proof.
  intros Hreach Hh Hr Ho w1.
  assert (E1 : w1 = stopCounter (h_mgr hd) w).
  { unfold w1, handle_pause. by rewrite Hh, Hr. }
  assert (Hreach1 : reachable w1).
  { destruct Hreach as [evs ->]. exists (evs ++ [EPause h])%list.
    unfold run. by rewrite foldl_app. }
  apply phase_reachable_hygiene in Hreach1 as Hinv1.
  destruct (phase_stopCounter_effect (h_mgr hd) w mg Ho) as (Ho1 & _ & Em1 & Ec1).
  rewrite <- E1 in Ho1, Em1, Ec1.
  assert (Eh1 : handles w1 = handles w).
  { rewrite E1. unfold stopCounter, method. by repeat case_match. }
  assert (Hh1 : handles w1 !! h = Some hd) by by rewrite Eh1.
  destruct (phase_live_registered w1 h hd _ Hinv1 Hh1 Hr Ho1) as (Hpos & Hg1 & _).
  assert (Hmine : ∀ t tm, timers w1 !! t = Some tm → t_live tm = true →
                          t_callback tm ≠ CounterTick (h_mgr hd) ∧
                          t_callback tm ≠ GraceEnd (h_mgr hd)).
  { intros t tm Ht Hl. split; intros Hcb.
    - destruct (hy_counter_timer _ w1 Hinv1 t tm _ Ht Hl Hcb) as (x & Hx & Hkx).
      rewrite Ho1 in Hx. injection Hx as <-. done.
    - destruct (hy_grace_timer _ w1 Hinv1 t tm _ Ht Hl Hcb) as (x & Hx & Hgx).
      rewrite Ho1 in Hx. injection Hx as <-. congruence. }
  split; [done |]. split; [done |]. split; [done |]. split; [done |]. split; [| split].
  - intros k. unfold getCurrentStatus. rewrite Em1.
    destruct (managers w !! k) as [m |]; simpl; [| done].
    destruct (decide (m = h_mgr hd)) as [-> | Hne].
    + by rewrite Ho1, Ho.
    + rewrite E1. unfold stopCounter, method. rewrite Ho.
      destruct (counterTimer mg); [| done]. simpl. by rewrite list_lookup_alter_ne.
  - intros t. destruct (timers w1 !! t) as [tm |] eqn:Ht.
    + destruct (t_live tm) eqn:Hl.
      * destruct (Hmine t tm Ht Hl). by apply (phase_timer_other_object t tm).
      * rewrite phase_timer_fires_dead; [done |]. intros tm' Ht'. congruence.
    + rewrite phase_timer_fires_dead; [done |]. intros tm' Ht'. congruence.
  - intros t c call Hc Hge Hm. unfold timer_fires in Hc.
    destruct (timers w1 !! t) as [tm |] eqn:Ht; [| apply lookup_lt_Some in Hc; lia].
    destruct (t_live tm) eqn:Hl; [| apply lookup_lt_Some in Hc; lia].
    destruct (Hmine t tm Ht Hl) as [Hk Hg].
    destruct (t_callback tm) as [m' | m'] eqn:Hcb.
    + assert (m' ≠ h_mgr hd) by congruence.
      revert Hc. unfold counter_tick, pushOnce, method. repeat case_match; simpl; intros Hc.
      all: try (apply lookup_lt_Some in Hc; lia).
      all: apply alloc_lookup_inv in Hc as [Hc | [_ ->]];
        [apply lookup_lt_Some in Hc; lia | simpl in Hm; congruence].
    + rewrite phase_grace_end_calls in Hc. simpl in Hc. apply lookup_lt_Some in Hc. lia.
Qed.

(** Pausing [thinking_shown]: the counter timer 0 no longer advances it. *)
Lemma pause_freezes_counter_witness :
  getCurrentStatus "K" (timer_fires 0 (handle_pause 0 thinking_shown)) = Some "thinking 0s".
Proof.
  assert (Hr : reachable thinking_shown) by by eexists.
  destruct (pause_freezes_counter thinking_shown 0%nat _ _ Hr eq_refl eq_refl eq_refl)
    as (Ho & _ & _ & _ & _ & Hfrozen & _).
  specialize (Hfrozen 0%nat). simpl in Ho, Hfrozen. rewrite Ho in Hfrozen.
  unfold getCurrentStatus.
  replace (managers (timer_fires 0 (handle_pause 0 thinking_shown)) !! "K")
    with (Some 0%nat) by by vm_compute.
  simpl. rewrite Hfrozen. reflexivity.
Defined.

(** Handing a thread over within the grace period (phase variant).  When
    a caller acquires the key of a registered manager whose grace timeout
    is pending, it gets a handle of that same manager; the grace timeout
    is cancelled for good (when it fires later nothing happens), what can
    be read for any key is as before, the thread is active again, and
    nothing is pushed. *)
Theorem acquire_within_grace_keeps_status (w : World) (a : AcquireParams) m mg t :
  reachable w → managers w !! a_key a = Some m → objects w !! m = Some mg →
  graceTimer mg = Some t →
  let w' := acquireThreadStatus a w in
  managers w' = managers w ∧
  handles w' = alloc {| h_mgr := m; released := false; shouldGrace := a_shouldGrace a |}
                 (handles w) ∧
  objects w' !! m = Some (with_graceTimer None (with_activeHandles 1 mg)) ∧
  (t_live <$> timers w' !! t) = Some false ∧
  timer_fires t w' = w' ∧
  (∀ k, getCurrentStatus k w' = getCurrentStatus k w) ∧
  isThreadActive (a_key a) w = false ∧ isThreadActive (a_key a) w' = true ∧
  calls w' = calls w.
Proof.
  intros Hreach Hm Ho Hg w'. apply phase_reachable_hygiene in Hreach as Hinv.
  destruct (hy_idle _ w Hinv m mg Ho) as (Hz & Hk & Hph); [by eexists |].
  destruct (hy_grace _ w Hinv m mg t Ho Hg) as (tm & Ht & Hl & Hcb).
  assert (E : w' = set_handles
                     (alloc {| h_mgr := m; released := false;
                               shouldGrace := a_shouldGrace a |})
                     (assign m (with_graceTimer None)
                        (clearTimer t
                           (assign m (λ mg, with_activeHandles (activeHandles mg + 1) mg)
                              w)))).
  { unfold w', acquireThreadStatus. rewrite Hm. unfold acquire, cancelGrace, method.
    simpl. rewrite list_lookup_alter_eq, Ho. simpl. by rewrite Hg. }
  assert (Ho' : objects w' !! m = Some (with_graceTimer None (with_activeHandles 1 mg))).
  { rewrite E. simpl. rewrite !list_lookup_alter_eq, Ho. simpl. by rewrite Hz. }
  assert (Ht' : timers w' !! t = Some (with_live false tm)).
  { rewrite E. simpl. by rewrite list_lookup_alter_eq, Ht. }
  split; [by rewrite E |]. split; [by rewrite E |]. split; [done |].
  split; [by rewrite Ht' |]. split.
  { apply phase_timer_fires_dead. intros tm' Htm'. rewrite Ht' in Htm'. by injection Htm' as <-. }
  split.
  { intros k. unfold getCurrentStatus. replace (managers w') with (managers w) by by rewrite E.
    destruct (managers w !! k) as [m0 |]; simpl; [| done].
    destruct (decide (m0 = m)) as [-> | Hne].
    - by rewrite Ho', Ho.
    - rewrite E. simpl. by rewrite !list_lookup_alter_ne. }
  split; [| split; [| by rewrite E]].
  - unfold isThreadActive. rewrite Hm. simpl. rewrite Ho. unfold isActive.
    apply bool_decide_eq_false_2. lia.
  - unfold isThreadActive. replace (managers w') with (managers w) by by rewrite E.
    rewrite Hm. simpl. by rewrite Ho'.
Qed.

(** A second dispatch acquires ["K"] while the grace timeout 1 is pending. *)
Lemma acquire_within_grace_keeps_status_witness :
  getCurrentStatus "K"
    (acquireThreadStatus sample_acquire (handle_release 0 true thinking_shown))
  = Some "thinking 0s".
Proof.
  assert (Hr : reachable (handle_release 0 true thinking_shown))
    by by exists [EAcquire sample_acquire; ESetStatus 0 thinking; ESettle 0 true;
                  ERelease 0 true].
  destruct (acquire_within_grace_keeps_status _ sample_acquire 0%nat _ 1%nat Hr
              eq_refl eq_refl eq_refl) as (_ & _ & _ & _ & _ & Hread & _).
  by rewrite Hread.
Defined.

End PhaseFacts.

(** ** The text status manager (the push-loop ThreadStatusManager) *)
Module TextFacts.
Import TextStatus.

Lemma text_gate_init : gate_inv init.
Proof.
  split.
  - intros m c1 c2 (call & H & _). by cbn in H.
  - intros m c (call & H & _). by cbn in H.
  - intros m mg H. by cbn in H.
Qed.

Lemma text_gate_assign this f w :
  (∀ mg, pushing (f mg) = pushing mg) → gate_inv w → gate_inv (assign this f w).
Proof.
  intros Hq [Hu Hgf Hfg]. split; simpl.
  - exact Hu.
  - intros m c Hc. destruct (Hgf m c Hc) as (mg & Ho & Hp).
    destruct (decide (this = m)) as [-> | Hne].
    + exists (f mg). rewrite list_lookup_alter_eq, Ho. split; [done |]. by rewrite Hq.
    + exists mg. by rewrite list_lookup_alter_ne.
  - intros m mg' Ho' Hp'. apply alter_lookup_inv in Ho' as [[Hne Ho'] | [-> (mg & Ho & ->)]].
    + by apply (Hfg m mg').
    + apply (Hfg m mg Ho). by rewrite <- Hq.
Qed.

Lemma text_gate_set_timers f w : gate_inv w → gate_inv (set_timers f w).
Proof. intros [Hu Hgf Hfg]. by split. Qed.

Lemma text_gate_set_handles f w : gate_inv w → gate_inv (set_handles f w).
Proof. intros [Hu Hgf Hfg]. by split. Qed.

Lemma text_gate_set_managers f w : gate_inv w → gate_inv (set_managers f w).
Proof. intros [Hu Hgf Hfg]. by split. Qed.

Lemma text_gate_set_onError_calls f w : gate_inv w → gate_inv (set_onError_calls f w).
Proof. intros [Hu Hgf Hfg]. by split. Qed.

Lemma text_gate_new_object x w :
  pushing x = false → gate_inv w → gate_inv (set_objects (alloc x) w).
Proof.
  intros Hx [Hu Hgf Hfg]. split; simpl.
  - exact Hu.
  - intros m c Hc. destruct (Hgf m c Hc) as (mg & Ho & Hp).
    exists mg. split; [by apply alloc_lookup_old | done].
  - intros m mg Ho Hp. apply alloc_lookup_inv in Ho as [Ho | [_ ->]]; [| congruence].
    by apply (Hfg m mg).
Qed.

Lemma text_tick_in_flight_alloc m w c call :
  tick_in_flight m (set_calls (alloc call) w) c ↔
  tick_in_flight m w c ∨
  (c = length (calls w) ∧ c_mgr call = m ∧ c_done call = false ∧ c_site call = ByPushTick).
Proof.
  unfold tick_in_flight. simpl. split.
  - intros (x & Hx & Hm & Hd). apply alloc_lookup_inv in Hx as [Hx | [-> ->]].
    + left. by exists x.
    + by right.
  - intros [(x & Hx & Hm & Hd) | (-> & Hm & Hd)].
    + exists x. split; [by apply alloc_lookup_old | done].
    + exists call. split; [apply alloc_lookup_new | done].
Qed.

Lemma text_tick_in_flight_lt m w c : tick_in_flight m w c → (c < length (calls w))%nat.
Proof. intros (x & Hx & _). by apply lookup_lt_Some in Hx. Qed.

(** The unguarded [pushOnce] adds a call that the gate does not see. *)
Lemma text_gate_pushOnce this text w : gate_inv w → gate_inv (pushOnce this text w).
Proof.
  intros Hinv. unfold pushOnce, call_pushFn, method.
  destruct (objects w !! this) as [mg |] eqn:Ho; [| done].
  destruct Hinv as [Hu Hgf Hfg].
  assert (Hsame : ∀ m c,
    tick_in_flight m (set_calls (alloc {| c_mgr := this; c_fn := push (params mg);
       c_text := text; c_site := ByPushOnce; c_done := false |}) w) c
    ↔ tick_in_flight m w c).
  { intros m c. rewrite text_tick_in_flight_alloc. simpl. naive_solver. }
  split.
  - intros m c1 c2 H1 H2. apply Hsame in H1, H2. by apply (Hu m).
  - intros m c Hc. apply Hsame in Hc. by apply (Hgf m c).
  - intros m mg' Ho' Hp'. destruct (Hfg m mg' Ho' Hp') as [c Hc].
    exists c. by apply Hsame.
Qed.

Lemma text_gate_pushTick this w : gate_inv w → gate_inv (pushTick this w).
Proof.
  intros Hinv. unfold pushTick, call_pushFn, method.
  destruct (objects w !! this) as [mg |] eqn:Ho; [| done].
  destruct (pushing mg) eqn:Hp; [done |].
  simpl. rewrite list_lookup_alter_eq, Ho. simpl.
  destruct Hinv as [Hu Hgf Hfg].
  assert (Hnone : ∀ c, ¬ tick_in_flight this w c).
  { intros c Hc. destruct (Hgf this c Hc) as (mg' & Ho' & Hp'). congruence. }
  split.
  - intros m c1 c2 H1 H2.
    apply text_tick_in_flight_alloc in H1 as [H1 | (-> & Hm1 & _)];
      apply text_tick_in_flight_alloc in H2 as [H2 | (-> & Hm2 & _)]; simpl in *.
    + by apply (Hu m).
    + subst m. by destruct (Hnone c1).
    + subst m. by destruct (Hnone c2).
    + done.
  - intros m c Hc. apply text_tick_in_flight_alloc in Hc as [Hc | (-> & Hm & _)]; simpl in *.
    + destruct (Hgf m c Hc) as (mg' & Ho' & Hp').
      assert (this ≠ m) by (intros ->; congruence).
      exists mg'. by rewrite list_lookup_alter_ne.
    + subst m. exists (with_pushing true mg).
      by rewrite list_lookup_alter_eq, Ho.
  - intros m mg' Ho' Hp'. simpl in Ho'.
    apply alter_lookup_inv in Ho' as [[Hne Ho'] | [-> (x & Hx & ->)]].
    + destruct (Hfg m mg' Ho' Hp') as [c Hc]. exists c.
      apply text_tick_in_flight_alloc. by left.
    + exists (length (calls w)). apply text_tick_in_flight_alloc. by right.
Qed.

Lemma text_gate_clearTimer t w : gate_inv w → gate_inv (clearTimer t w).
Proof. apply text_gate_set_timers. Qed.

Lemma text_gate_setTimer cb ms w : gate_inv w → gate_inv (setTimer cb ms w).
Proof. apply text_gate_set_timers. Qed.

Lemma text_gate_cancelGrace this w : gate_inv w → gate_inv (cancelGrace this w).
Proof.
  intros Hinv. unfold cancelGrace, method.
  destruct (objects w !! this) as [mg |]; [| done].
  destruct (graceTimer mg); [| done].
  apply text_gate_assign; [done | by apply text_gate_clearTimer].
Qed.

Lemma text_gate_stopLoop this w : gate_inv w → gate_inv (stopLoop this w).
Proof.
  intros Hinv. unfold stopLoop, method.
  destruct (objects w !! this) as [mg |]; [| done].
  destruct (pushTimer mg); [| done].
  apply text_gate_assign; [done | by apply text_gate_clearTimer].
Qed.

Lemma text_gate_destroy this w : gate_inv w → gate_inv (destroy this w).
Proof.
  intros Hinv. unfold destroy, method.
  assert (gate_inv (stopLoop this (cancelGrace this w)))
    by by apply text_gate_stopLoop, text_gate_cancelGrace.
  destruct (objects _ !! this) as [mg |]; [| done].
  by apply text_gate_set_managers.
Qed.

Lemma text_gate_stopAndDestroy this w : gate_inv w → gate_inv (stopAndDestroy this w).
Proof. intros Hinv. by apply text_gate_destroy, text_gate_stopLoop. Qed.

Lemma text_gate_startPushLoop this w : gate_inv w → gate_inv (startPushLoop this w).
Proof.
  intros Hinv. unfold startPushLoop, method.
  assert (gate_inv (pushTick this w)) by by apply text_gate_pushTick.
  destruct (objects _ !! this) as [mg |]; [| done].
  apply text_gate_assign; [done | by apply text_gate_setTimer].
Qed.

Lemma text_gate_grace_end this w : gate_inv w → gate_inv (grace_end this w).
Proof.
  intros Hinv. unfold grace_end.
  apply text_gate_pushOnce, text_gate_assign; [done |]. by apply text_gate_assign.
Qed.

Lemma text_gate_releaseHandle this g w : gate_inv w → gate_inv (releaseHandle this g w).
Proof.
  intros Hinv. unfold releaseHandle, method.
  assert (gate_inv (assign this
                 (λ mg, with_activeHandles (Z.max 0 (activeHandles mg - 1)) mg) w))
    by (by apply text_gate_assign).
  destruct (objects _ !! this) as [mg |]; [| done].
  case_bool_decide; [done |].
  destruct (pushTimer mg); [| by apply text_gate_destroy].
  destruct g as [[] |].
  2: by apply text_gate_pushOnce, text_gate_assign.
  all: apply text_gate_assign; [done |]; apply text_gate_setTimer; by apply text_gate_assign.
Qed.

Lemma text_gate_acquire this sg w : gate_inv w → gate_inv (acquire this sg w).
Proof.
  intros Hinv. unfold acquire.
  apply text_gate_set_handles, text_gate_cancelGrace. by apply text_gate_assign.
Qed.

Lemma text_gate_acquireThreadStatus a w : gate_inv w → gate_inv (acquireThreadStatus a w).
Proof.
  intros Hinv. unfold acquireThreadStatus.
  destruct (managers w !! a_key a) as [m |] eqn:Hm; [by apply text_gate_acquire |].
  apply text_gate_acquire, text_gate_set_managers. by apply text_gate_new_object.
Qed.

Lemma text_gate_handle_setStatus h text w : gate_inv w → gate_inv (handle_setStatus h text w).
Proof.
  intros Hinv. unfold handle_setStatus, method.
  destruct (handles w !! h) as [hd |]; [| done].
  destruct (released hd); [done |].
  assert (gate_inv (assign (h_mgr hd) (with_currentText text) w))
    by (by apply text_gate_assign).
  destruct (objects _ !! h_mgr hd) as [mg |]; [| done].
  destruct (_ && _); [by apply text_gate_startPushLoop | done].
Qed.

Lemma text_gate_handle_release h answer w : gate_inv w → gate_inv (handle_release h answer w).
Proof.
  intros Hinv. unfold handle_release.
  destruct (handles w !! h) as [hd |]; [| done].
  destruct (released hd); [done |].
  by apply text_gate_releaseHandle, text_gate_set_handles.
Qed.

Lemma text_gate_report_error this c ok w : gate_inv w → gate_inv (report_error this c ok w).
Proof.
  intros Hinv. unfold report_error, method. destruct ok; [done |].
  destruct (objects w !! this) as [mg |]; [| done].
  destruct (onError (params mg)); [by apply text_gate_set_onError_calls | done].
Qed.

Lemma text_tick_in_flight_settled m w c c' :
  tick_in_flight m (set_calls (alter (with_done true) c) w) c'
  ↔ c' ≠ c ∧ tick_in_flight m w c'.
Proof.
  unfold tick_in_flight. simpl. split.
  - intros (x & Hx & Hm & Hd).
    apply alter_lookup_inv in Hx as [[Hne Hx] | [-> (y & Hy & ->)]].
    + split; [done |]. by exists x.
    + by destruct Hd.
  - intros [Hne (x & Hx & Hm & Hd)]. exists x.
    by rewrite list_lookup_alter_ne.
Qed.

(** Marking a [pushOnce] call settled changes nothing for the gate. *)
Lemma text_gate_settle_once c call w :
  calls w !! c = Some call → c_site call = ByPushOnce →
  gate_inv w → gate_inv (set_calls (alter (with_done true) c) w).
Proof.
  intros Hc Hsite [Hu Hgf Hfg].
  assert (Hsame : ∀ m c', tick_in_flight m (set_calls (alter (with_done true) c) w) c'
                          ↔ tick_in_flight m w c').
  { intros m c'. rewrite text_tick_in_flight_settled. split; [by intros [_ ?] |].
    intros Hin. split; [| done]. intros ->.
    destruct Hin as (x & Hx & _ & _ & Hs). congruence. }
  split.
  - intros m c1 c2 H1 H2. apply Hsame in H1, H2. by apply (Hu m).
  - intros m c' Hc'. apply Hsame in Hc'. by apply (Hgf m c').
  - intros m mg Ho Hp. destruct (Hfg m mg Ho Hp) as [c' Hc']. exists c'. by apply Hsame.
Qed.

Lemma text_report_error_frame this c ok w :
  calls (report_error this c ok w) = calls w ∧
  objects (report_error this c ok w) = objects w.
Proof. unfold report_error, method. by repeat case_match. Qed.

Lemma text_gate_push_settles c ok w : gate_inv w → gate_inv (push_settles c ok w).
Proof.
  intros Hinv. unfold push_settles.
  destruct (calls w !! c) as [call |] eqn:Hc; [| done].
  destruct (c_done call) eqn:Hd; [done |].
  destruct (c_site call) eqn:Hsite.
  - (* the rest of pushTick *)
    assert (Hfl : tick_in_flight (c_mgr call) w c) by by exists call.
    destruct (gate_flag w Hinv _ _ Hfl) as (mg & Ho & Hp).
    set (w1 := report_error (c_mgr call) c ok (set_calls (alter (with_done true) c) w)).
    destruct (text_report_error_frame (c_mgr call) c ok
                (set_calls (alter (with_done true) c) w)) as [Ec Eo].
    fold w1 in Ec, Eo. simpl in Ec, Eo.
    destruct Hinv as [Hu Hgf Hfg].
    assert (Hfl' : ∀ m c', tick_in_flight m (assign (c_mgr call) (with_pushing false) w1) c'
                           ↔ c' ≠ c ∧ tick_in_flight m w c').
    { intros m c'. rewrite <- text_tick_in_flight_settled. unfold tick_in_flight. simpl.
      by rewrite Ec. }
    split.
    + intros m c1 c2 H1 H2. apply Hfl' in H1 as [_ H1]. apply Hfl' in H2 as [_ H2].
      by apply (Hu m).
    + intros m c' Hc'. apply Hfl' in Hc' as [Hne Hc'].
      destruct (Hgf m c' Hc') as (mg' & Ho' & Hp').
      assert (c_mgr call ≠ m).
      { intros <-. apply Hne. by apply (Hu (c_mgr call)). }
      exists mg'. simpl. rewrite Eo. by rewrite list_lookup_alter_ne.
    + intros m mg' Ho' Hp'. simpl in Ho'. rewrite Eo in Ho'.
      apply alter_lookup_inv in Ho' as [[Hne Ho'] | [<- (x & Hx & ->)]]; [| done].
      destruct (Hfg m mg' Ho' Hp') as [c' Hc']. exists c'. apply Hfl'.
      split; [| done]. intros ->. destruct Hc' as (x & Hx & Hm & _). congruence.
  - (* the rest of pushOnce, then stopAndDestroy *)
    apply text_gate_stopAndDestroy, text_gate_report_error. by eapply text_gate_settle_once.
Qed.

Lemma text_gate_timer_fires t w : gate_inv w → gate_inv (timer_fires t w).
Proof.
  intros Hinv. unfold timer_fires.
  destruct (timers w !! t) as [tm |]; [| done].
  destruct (t_live tm); [| done].
  destruct (t_callback tm).
  - by apply text_gate_pushTick.
  - by apply text_gate_grace_end, text_gate_clearTimer.
Qed.

Lemma text_gate_step w e : gate_inv w → gate_inv (step w e).
Proof.
  intros Hinv. destruct e; simpl.
  - by apply text_gate_acquireThreadStatus.
  - by apply text_gate_handle_setStatus.
  - by apply text_gate_handle_release.
  - by apply text_gate_timer_fires.
  - by apply text_gate_push_settles.
Qed.

Lemma text_reachable_gate w : reachable w → gate_inv w.
Proof.
  intros [evs ->]. unfold run.
  induction evs as [| e evs IH] using rev_ind; simpl.
  - apply text_gate_init.
  - rewrite foldl_app. simpl. by apply text_gate_step.
Qed.

Lemma text_live_handles_alloc m hd hs :
  live_handles m (alloc hd hs) =
  (live_handles m hs + if decide (is_live m hd) then 1 else 0)%nat.
Proof.
  unfold live_handles, alloc. rewrite filter_app, length_app. f_equal.
  rewrite filter_cons, filter_nil. by case_decide.
Qed.

Lemma text_live_handles_release m h hd hs :
  hs !! h = Some hd → released hd = false →
  (live_handles m (alter (with_released true) h hs)
   + (if decide (h_mgr hd = m) then 1 else 0))%nat = live_handles m hs.
Proof.
  unfold live_handles. revert h. induction hs as [| x hs IH]; intros h Hh Hr; [done |].
  destruct h as [| h]; simpl in *.
  - simplify_eq. rewrite !filter_cons.
    rewrite (decide_False (P := is_live m (with_released true hd)))
      by (by intros [_ ?]).
    destruct (decide (h_mgr hd = m)) as [Hm | Hm].
    + rewrite decide_True by done. simpl. by rewrite Nat.add_1_r.
    + rewrite decide_False by (by intros [? _]). by rewrite Nat.add_0_r.
  - rewrite !filter_cons. specialize (IH h Hh Hr).
    destruct (decide (is_live m x)); simpl; [| exact IH].
    by rewrite <- IH.
Qed.

Lemma text_live_handles_pos m h hd hs :
  hs !! h = Some hd → is_live m hd → (1 ≤ live_handles m hs)%nat.
Proof.
  intros Hh Hl. unfold live_handles.
  assert (Hin : hd ∈ filter (is_live m) hs).
  { apply list_elem_of_filter. split; [done |]. by eapply list_elem_of_lookup_2. }
  destruct (filter (is_live m) hs); [by apply not_elem_of_nil in Hin | simpl; lia].
Qed.


Lemma text_life_init : life_inv init.
Proof.
  split.
  - intros m mg H. by cbn in H.
  - intros h hd H. by cbn in H.
  - intros m mg t H. by cbn in H.
  - intros t tm m H. by cbn in H.
  - intros m mg t H. by cbn in H.
  - intros m mg H. by cbn in H.
Qed.

(** Assignments that touch neither the counter nor the grace timer. *)
Lemma text_life_assign this f w :
  (∀ mg, objects w !! this = Some mg →
     activeHandles (f mg) = activeHandles mg ∧ graceTimer (f mg) = graceTimer mg ∧
     params (f mg) = params mg ∧
     (currentText (f mg) = currentText mg ∨ graceTimer mg = None) ∧
     (pushTimer (f mg) = pushTimer mg ∨ pushTimer (f mg) = None ∨
      ∃ t tm, pushTimer (f mg) = Some t ∧ timers w !! t = Some tm ∧
              t_callback tm = PushTick this)) →
  life_inv w → life_inv (assign this f w).
Proof.
  intros Hf [Hc Hh Hg Hgt Hpt Hi]. split; simpl.
  - intros m mg' Ho'. apply alter_lookup_inv in Ho' as [[Hne Ho'] | [-> (mg & Ho & ->)]].
    + by apply Hc.
    + destruct (Hf mg Ho) as (-> & _). by apply Hc.
  - intros h hd Hhd. destruct (Hh h hd Hhd) as [mg Ho].
    destruct (decide (this = h_mgr hd)) as [-> | Hne].
    + exists (f mg). by rewrite list_lookup_alter_eq, Ho.
    + exists mg. by rewrite list_lookup_alter_ne.
  - intros m mg' t Ho' Hgt'.
    apply alter_lookup_inv in Ho' as [[Hne Ho'] | [-> (mg & Ho & ->)]].
    + by apply (Hg m mg').
    + destruct (Hf mg Ho) as (_ & Eg & Ep & Et & _). rewrite Eg in Hgt'.
      destruct (Hg m mg t Ho Hgt') as [Htext Htm]. split; [| done].
      rewrite Ep. destruct Et as [-> | Et]; [done | congruence].
  - intros t tm m Ht Hl Hcb. destruct (Hgt t tm m Ht Hl Hcb) as (mg & Ho & Hgt').
    destruct (decide (this = m)) as [-> | Hne].
    + exists (f mg). rewrite list_lookup_alter_eq, Ho. split; [done |].
      destruct (Hf mg Ho) as (_ & -> & _). done.
    + exists mg. by rewrite list_lookup_alter_ne.
  - intros m mg' t Ho' Hpt'.
    apply alter_lookup_inv in Ho' as [[Hne Ho'] | [-> (mg & Ho & ->)]].
    + by apply (Hpt m mg').
    + destruct (Hf mg Ho) as (_ & _ & _ & _ & [E | [E | (t0 & tm & E & Htm & Hcb)]]).
      * rewrite E in Hpt'. by apply (Hpt m mg).
      * congruence.
      * rewrite E in Hpt'. simplify_eq. by exists tm.
  - intros m mg' Ho' Hs.
    apply alter_lookup_inv in Ho' as [[Hne Ho'] | [-> (mg & Ho & ->)]].
    + by apply (Hi m).
    + destruct (Hf mg Ho) as (-> & Eg & _). rewrite Eg in Hs. by apply (Hi m).
Qed.

Lemma text_life_set_managers f w : life_inv w → life_inv (set_managers f w).
Proof. intros [Hc Hh Hg Hgt Hpt Hi]. by split. Qed.

Lemma text_life_set_calls f w : life_inv w → life_inv (set_calls f w).
Proof. intros [Hc Hh Hg Hgt Hpt Hi]. by split. Qed.

Lemma text_life_set_onError_calls f w : life_inv w → life_inv (set_onError_calls f w).
Proof. intros [Hc Hh Hg Hgt Hpt Hi]. by split. Qed.

(** Starting a timer whose callback is [pushTick]. *)
Lemma text_life_setTimer_push m ms w : life_inv w → life_inv (setTimer (PushTick m) ms w).
Proof.
  intros [Hc Hh Hg Hgt Hpt Hi]. split; simpl; try done.
  - intros m' mg t Ho Hgt'. destruct (Hg m' mg t Ho Hgt') as [Htext (tm & Htm & Hrest)].
    split; [done |]. exists tm. split; [by apply alloc_lookup_old | done].
  - intros t tm m' Ht Hl Hcb. apply alloc_lookup_inv in Ht as [Ht | [_ ->]]; [| done].
    by apply (Hgt t tm m').
  - intros m' mg t Ho Hpt'. destruct (Hpt m' mg t Ho Hpt') as (tm & Htm & Hcb).
    exists tm. split; [by apply alloc_lookup_old | done].
Qed.

(** Cancelling a timer whose callback is [pushTick]. *)
Lemma text_life_clearTimer_push t tm m w :
  timers w !! t = Some tm → t_callback tm = PushTick m →
  life_inv w → life_inv (clearTimer t w).
Proof.
  intros Ht Hcb [Hc Hh Hg Hgt Hpt Hi]. split; simpl; try done.
  - intros m' mg t' Ho Hgt'. destruct (Hg m' mg t' Ho Hgt') as [Htext (tm' & Htm' & Hl & Hcb')].
    split; [done |]. exists tm'. split; [| done].
    rewrite list_lookup_alter_ne; [done |]. intros ->. congruence.
  - intros t' tm' m' Ht' Hl Hcb'.
    apply alter_lookup_inv in Ht' as [[Hne Ht'] | [-> (x & Hx & ->)]]; [| done].
    by apply (Hgt t' tm' m').
  - intros m' mg t' Ho Hpt'. destruct (Hpt m' mg t' Ho Hpt') as (tm' & Htm' & Hcb').
    destruct (decide (t = t')) as [-> | Hne].
    + exists (with_live false tm'). by rewrite list_lookup_alter_eq, Htm'.
    + exists tm'. by rewrite list_lookup_alter_ne.
Qed.

Lemma text_life_stopLoop this w : life_inv w → life_inv (stopLoop this w).
Proof.
  intros Hinv. unfold stopLoop, method.
  destruct (objects w !! this) as [mg |] eqn:Ho; [| done].
  destruct (pushTimer mg) as [t |] eqn:Hpt; [| done].
  destruct (life_push_timer w Hinv this mg t Ho Hpt) as (tm & Htm & Hcb).
  apply text_life_assign; [| by eapply text_life_clearTimer_push].
  intros mg' _. simpl. repeat split; auto.
Qed.

(** What [cancelGrace] does when a grace timer is pending. *)
Lemma text_life_cancel this t mg w :
  objects w !! this = Some mg → graceTimer mg = Some t →
  life_inv w → life_inv (assign this (with_graceTimer None) (clearTimer t w)).
Proof.
  intros Ho Hgt0 Hinv. destruct (life_grace w Hinv this mg t Ho Hgt0) as [_ (tm0 & Htm0 & Hl0 & Hcb0)].
  destruct Hinv as [Hc Hh Hg Hgt Hpt Hi]. split; simpl.
  - intros m mg' Ho'. apply alter_lookup_inv in Ho' as [[Hne Ho'] | [-> (x & Hx & ->)]].
    + by apply Hc.
    + simpl. by apply Hc.
  - intros h hd Hhd. destruct (Hh h hd Hhd) as [x Hx].
    destruct (decide (this = h_mgr hd)) as [-> | Hne].
    + eexists. by rewrite list_lookup_alter_eq, Hx.
    + exists x. by rewrite list_lookup_alter_ne.
  - intros m mg' t' Ho' Hgt'.
    apply alter_lookup_inv in Ho' as [[Hne Ho'] | [-> (x & Hx & ->)]]; [| done].
    destruct (Hg m mg' t' Ho' Hgt') as [Htext (tm' & Htm' & Hl' & Hcb')].
    split; [done |]. exists tm'. split; [| done].
    rewrite list_lookup_alter_ne; [done |]. intros ->. congruence.
  - intros t' tm' m Ht' Hl Hcb.
    apply alter_lookup_inv in Ht' as [[Hne Ht'] | [-> (x & Hx & ->)]]; [| done].
    destruct (Hgt t' tm' m Ht' Hl Hcb) as (mg' & Ho' & Hgt').
    assert (this ≠ m) by (intros ->; congruence).
    exists mg'. by rewrite list_lookup_alter_ne.
  - intros m mg' t' Ho' Hpt'.
    assert (∃ x, objects w !! m = Some x ∧ pushTimer x = Some t') as (x & Hx & Hptx).
    { apply alter_lookup_inv in Ho' as [[Hne Ho'] | [-> (x & Hx & ->)]]; eauto. }
    destruct (Hpt m x t' Hx Hptx) as (tm' & Htm' & Hcb').
    destruct (decide (t = t')) as [-> | Hne].
    + exists (with_live false tm'). by rewrite list_lookup_alter_eq, Htm'.
    + exists tm'. by rewrite list_lookup_alter_ne.
  - intros m mg' Ho' Hs.
    apply alter_lookup_inv in Ho' as [[Hne Ho'] | [-> (x & Hx & ->)]].
    + by apply (Hi m).
    + simpl in Hs. by destruct Hs.
Qed.

Lemma text_life_cancelGrace this w : life_inv w → life_inv (cancelGrace this w).
Proof.
  intros Hinv. unfold cancelGrace, method.
  destruct (objects w !! this) as [mg |] eqn:Ho; [| done].
  destruct (graceTimer mg) as [t |] eqn:Hgt; [| done].
  by eapply text_life_cancel.
Qed.

Lemma text_cancelGrace_no_grace this w mg :
  objects (cancelGrace this w) !! this = Some mg → graceTimer mg = None.
Proof.
  unfold cancelGrace, method.
  destruct (objects w !! this) as [mg0 |] eqn:Ho; [| congruence].
  destruct (graceTimer mg0) as [t |] eqn:Hgt.
  - simpl. rewrite list_lookup_alter_eq, Ho. simpl. by intros [= <-].
  - congruence.
Qed.

Lemma text_life_destroy this w : life_inv w → life_inv (destroy this w).
Proof.
  intros Hinv. unfold destroy, method.
  assert (life_inv (stopLoop this (cancelGrace this w)))
    by by apply text_life_stopLoop, text_life_cancelGrace.
  destruct (objects _ !! this) as [mg |]; [| done].
  by apply text_life_set_managers.
Qed.

Lemma text_life_stopAndDestroy this w : life_inv w → life_inv (stopAndDestroy this w).
Proof. intros Hinv. by apply text_life_destroy, text_life_stopLoop. Qed.

Ltac life_flag :=
  intros ? _; simpl; repeat split; auto.

Lemma text_life_pushOnce this text w : life_inv w → life_inv (pushOnce this text w).
Proof.
  intros Hinv. unfold pushOnce, call_pushFn, method.
  destruct (objects w !! this); [by apply text_life_set_calls | done].
Qed.

Lemma text_life_pushTick this w : life_inv w → life_inv (pushTick this w).
Proof.
  intros Hinv. unfold pushTick, call_pushFn, method.
  destruct (objects w !! this) as [mg |] eqn:Ho; [| done].
  destruct (pushing mg); [done |].
  assert (life_inv (assign this (with_pushing true) w))
    by (apply text_life_assign; [life_flag | done]).
  destruct (objects (assign _ _ _) !! this); [by apply text_life_set_calls | done].
Qed.

Lemma text_life_report_error this c ok w : life_inv w → life_inv (report_error this c ok w).
Proof.
  intros Hinv. unfold report_error, method. destruct ok; [done |].
  destruct (objects w !! this) as [mg |]; [| done].
  destruct (onError (params mg)); [by apply text_life_set_onError_calls | done].
Qed.

Lemma text_life_startPushLoop this w : life_inv w → life_inv (startPushLoop this w).
Proof.
  intros Hinv. unfold startPushLoop, method.
  assert (Hinv1 : life_inv (pushTick this w)) by by apply text_life_pushTick.
  destruct (objects _ !! this) as [mg |] eqn:Ho; [| done].
  apply text_life_assign; [| by apply text_life_setTimer_push].
  intros mg' _. simpl. repeat split; auto. right. right.
  eexists _, _. split; [done |]. split; [apply alloc_lookup_new | done].
Qed.

(** [this.activeHandles++] together with the new handle. *)
Lemma text_life_new_handle this sg w :
  is_Some (objects w !! this) →
  (∀ mg, objects w !! this = Some mg → graceTimer mg = None) →
  life_inv w →
  life_inv (set_handles (alloc {| h_mgr := this; released := false; shouldGrace := sg |})
              (assign this (λ mg, with_activeHandles (activeHandles mg + 1) mg) w)).
Proof.
  intros [mg0 Ho0] Hng [Hc Hh Hg Hgt Hpt Hi]. split; simpl.
  - intros m mg' Ho'. rewrite text_live_handles_alloc.
    apply alter_lookup_inv in Ho' as [[Hne Ho'] | [-> (x & Hx & ->)]].
    + rewrite decide_False by (by intros [? _]). rewrite (Hc m mg' Ho'). lia.
    + rewrite decide_True by done. simpl. rewrite (Hc m x Hx). lia.
  - intros h hd Hhd. apply alloc_lookup_inv in Hhd as [Hhd | [_ ->]]; simpl.
    + destruct (Hh h hd Hhd) as [x Hx].
      destruct (decide (this = h_mgr hd)) as [-> | Hne].
      * eexists. by rewrite list_lookup_alter_eq, Hx.
      * exists x. by rewrite list_lookup_alter_ne.
    + eexists. by rewrite list_lookup_alter_eq, Ho0.
  - intros m mg' t Ho' Hgt'.
    apply alter_lookup_inv in Ho' as [[Hne Ho'] | [-> (x & Hx & ->)]].
    + by apply (Hg m mg').
    + simpl in Hgt'. rewrite (Hng x Hx) in Hgt'. done.
  - intros t tm m Ht Hl Hcb. destruct (Hgt t tm m Ht Hl Hcb) as (mg' & Ho' & Hgt').
    destruct (decide (this = m)) as [-> | Hne].
    + eexists. rewrite list_lookup_alter_eq, Ho'. done.
    + exists mg'. by rewrite list_lookup_alter_ne.
  - intros m mg' t Ho' Hpt'.
    apply alter_lookup_inv in Ho' as [[Hne Ho'] | [-> (x & Hx & ->)]].
    + by apply (Hpt m mg').
    + by apply (Hpt m x).
  - intros m mg' Ho' Hs.
    apply alter_lookup_inv in Ho' as [[Hne Ho'] | [-> (x & Hx & ->)]].
    + by apply (Hi m).
    + simpl in Hs. rewrite (Hng x Hx) in Hs. by destruct Hs.
Qed.

(** A manager with an unreleased handle has no grace timer pending. *)
Lemma text_live_no_grace w h hd mg :
  life_inv w → handles w !! h = Some hd → released hd = false →
  objects w !! h_mgr hd = Some mg →
  graceTimer mg = None ∧ 1 ≤ activeHandles mg.
Proof.
  intros Hinv Hh Hr Ho.
  assert (Hpos : 1 ≤ activeHandles mg).
  { rewrite (life_count w Hinv _ _ Ho).
    pose proof (text_live_handles_pos (h_mgr hd) h hd (handles w) Hh (conj eq_refl Hr)). lia. }
  split; [| done]. destruct (graceTimer mg) eqn:Hgt; [| done].
  pose proof (life_idle w Hinv _ _ Ho) as Hz. rewrite Hgt in Hz.
  specialize (Hz (mk_is_Some _ _ eq_refl)). lia.
Qed.

(** [released = true] together with [this.activeHandles = Math.max(0, n - 1)]. *)
Lemma text_life_released h hd w :
  handles w !! h = Some hd → released hd = false →
  life_inv w →
  life_inv (assign (h_mgr hd)
              (λ mg, with_activeHandles (Z.max 0 (activeHandles mg - 1)) mg)
              (set_handles (alter (with_released true) h) w)).
Proof.
  intros Hhd Hr Hinv. destruct (life_handle_mgr w Hinv h hd Hhd) as [mg0 Ho0].
  destruct (text_live_no_grace w h hd mg0 Hinv Hhd Hr Ho0) as [Hng Hpos].
  destruct Hinv as [Hc Hh Hg Hgt Hpt Hi]. split; simpl.
  - intros m mg' Ho'.
    pose proof (text_live_handles_release m h hd (handles w) Hhd Hr) as Hrel.
    apply alter_lookup_inv in Ho' as [[Hne Ho'] | [<- (x & Hx & ->)]].
    + rewrite decide_False in Hrel by done. rewrite (Hc m mg' Ho'). lia.
    + rewrite decide_True in Hrel by done. simpl. simplify_eq.
      rewrite (Hc _ _ Ho0) in *. lia.
  - intros h' hd' Hhd'.
    assert (∃ x, handles w !! h' = Some x ∧ h_mgr x = h_mgr hd') as (x & Hx & Hm).
    { apply alter_lookup_inv in Hhd' as [[Hne Hhd'] | [-> (x & Hx & ->)]]; eauto. }
    destruct (Hh h' x Hx) as [mg Ho]. rewrite Hm in Ho.
    destruct (decide (h_mgr hd = h_mgr hd')) as [E | Hne].
    + rewrite E. eexists. by rewrite list_lookup_alter_eq, Ho.
    + exists mg. by rewrite list_lookup_alter_ne.
  - intros m mg' t Ho' Hgt'.
    apply alter_lookup_inv in Ho' as [[Hne Ho'] | [<- (x & Hx & ->)]].
    + by apply (Hg m mg').
    + simpl in Hgt'. congruence.
  - intros t tm m Ht Hl Hcb. destruct (Hgt t tm m Ht Hl Hcb) as (mg' & Ho' & Hgt').
    destruct (decide (h_mgr hd = m)) as [<- | Hne].
    + congruence.
    + exists mg'. by rewrite list_lookup_alter_ne.
  - intros m mg' t Ho' Hpt'.
    apply alter_lookup_inv in Ho' as [[Hne Ho'] | [<- (x & Hx & ->)]].
    + by apply (Hpt m mg').
    + by apply (Hpt (h_mgr hd) x).
  - intros m mg' Ho' Hs.
    apply alter_lookup_inv in Ho' as [[Hne Ho'] | [<- (x & Hx & ->)]].
    + by apply (Hi m).
    + simpl in Hs. simplify_eq. rewrite Hng in Hs. by destruct Hs.
Qed.

(** [this.graceTimer = setTimeout(...)] on an idle manager showing
    [graceText]. *)
Lemma text_life_grace_start this mg ms w :
  objects w !! this = Some mg → graceTimer mg = None → activeHandles mg = 0 →
  currentText mg = graceText (params mg) →
  life_inv w →
  life_inv (assign this (with_graceTimer (Some (length (timers w))))
              (setTimer (GraceEnd this) ms w)).
Proof.
  intros Ho0 Hng Hz Htext [Hc Hh Hg Hgt Hpt Hi]. split; simpl.
  - intros m mg' Ho'. apply alter_lookup_inv in Ho' as [[Hne Ho'] | [-> (x & Hx & ->)]].
    + by apply Hc.
    + simpl. by apply Hc.
  - intros h hd Hhd. destruct (Hh h hd Hhd) as [x Hx].
    destruct (decide (this = h_mgr hd)) as [-> | Hne].
    + eexists. by rewrite list_lookup_alter_eq, Hx.
    + exists x. by rewrite list_lookup_alter_ne.
  - intros m mg' t Ho' Hgt'.
    apply alter_lookup_inv in Ho' as [[Hne Ho'] | [-> (x & Hx & ->)]].
    + destruct (Hg m mg' t Ho' Hgt') as [Ht (tm & Htm & Hrest)].
      split; [done |]. exists tm. split; [by apply alloc_lookup_old | done].
    + simpl in *. simplify_eq. split; [done |].
      eexists. split; [apply alloc_lookup_new | done].
  - intros t tm m Ht Hl Hcb. apply alloc_lookup_inv in Ht as [Ht | [-> ->]].
    + destruct (Hgt t tm m Ht Hl Hcb) as (mg' & Ho' & Hgt').
      assert (this ≠ m) by (intros ->; congruence).
      exists mg'. by rewrite list_lookup_alter_ne.
    + simpl in Hcb. simplify_eq. eexists.
      rewrite list_lookup_alter_eq, Ho0. done.
  - intros m mg' t Ho' Hpt'.
    assert (∃ x, objects w !! m = Some x ∧ pushTimer x = Some t) as (x & Hx & Hptx).
    { apply alter_lookup_inv in Ho' as [[Hne Ho'] | [-> (x & Hx & ->)]]; eauto. }
    destruct (Hpt m x t Hx Hptx) as (tm & Htm & Hcb).
    exists tm. split; [by apply alloc_lookup_old | done].
  - intros m mg' Ho' Hs.
    apply alter_lookup_inv in Ho' as [[Hne Ho'] | [-> (x & Hx & ->)]].
    + by apply (Hi m).
    + simpl. congruence.
Qed.

(** [new ThreadStatusManager(...)]. *)
Lemma text_life_new_object p w :
  life_inv w → life_inv (set_objects (alloc (new_ThreadStatusManager p)) w).
Proof.
  intros [Hc Hh Hg Hgt Hpt Hi]. split; simpl.
  - intros m mg Ho. apply alloc_lookup_inv in Ho as [Ho | [-> ->]]; [by apply Hc |].
    simpl. destruct (live_handles (length (objects w)) (handles w)) eqn:E; [done |].
    exfalso. unfold live_handles in E.
    destruct (filter _ (handles w)) as [| hd l] eqn:Ef; [done |].
    assert (Hin : hd ∈ filter (is_live (length (objects w))) (handles w))
      by (rewrite Ef; apply elem_of_cons; by left).
    apply list_elem_of_filter in Hin as [[Hm _] Hin].
    apply list_elem_of_lookup in Hin as [h Hhd].
    destruct (Hh h hd Hhd) as [x Hx]. apply lookup_lt_Some in Hx. lia.
  - intros h hd Hhd. destruct (Hh h hd Hhd) as [x Hx].
    exists x. by apply alloc_lookup_old.
  - intros m mg t Ho Hgt'. apply alloc_lookup_inv in Ho as [Ho | [-> ->]]; [| done].
    by apply (Hg m mg).
  - intros t tm m Ht Hl Hcb. destruct (Hgt t tm m Ht Hl Hcb) as (mg & Ho & Hgt').
    exists mg. split; [by apply alloc_lookup_old | done].
  - intros m mg t Ho Hpt'. apply alloc_lookup_inv in Ho as [Ho | [-> ->]]; [| done].
    by apply (Hpt m mg).
  - intros m mg Ho Hs. apply alloc_lookup_inv in Ho as [Ho | [-> ->]]; [by apply (Hi m) |].
    by destruct Hs.
Qed.

(** [activeHandles++] and [cancelGrace()] touch different fields. *)
Lemma text_cancelGrace_incr this w :
  cancelGrace this (assign this (λ mg, with_activeHandles (activeHandles mg + 1) mg) w)
  = assign this (λ mg, with_activeHandles (activeHandles mg + 1) mg) (cancelGrace this w).
Proof.
  unfold cancelGrace, method. simpl. rewrite list_lookup_alter_eq.
  destruct (objects w !! this) as [mg |] eqn:Ho; simpl; [| done].
  destruct (graceTimer mg) as [t |] eqn:Hgt; [| done].
  unfold assign, clearTimer, set_objects, set_timers. simpl. f_equal.
  rewrite !list_alter_alter_eq. by apply list_alter_ext.
Qed.

Lemma text_life_acquire this sg w :
  is_Some (objects w !! this) → life_inv w → life_inv (acquire this sg w).
Proof.
  intros [mg Ho] Hinv. unfold acquire. rewrite text_cancelGrace_incr.
  apply text_life_new_handle.
  - unfold cancelGrace, method. rewrite Ho.
    destruct (graceTimer mg); [| by eexists].
    simpl. rewrite list_lookup_alter_eq, Ho. by eexists.
  - apply text_cancelGrace_no_grace.
  - by apply text_life_cancelGrace.
Qed.

Lemma text_life_acquireThreadStatus a w :
  (∀ k m, managers w !! k = Some m → is_Some (objects w !! m)) →
  life_inv w → life_inv (acquireThreadStatus a w).
Proof.
  intros Hreg Hinv. unfold acquireThreadStatus.
  destruct (managers w !! a_key a) as [m |] eqn:Hm.
  - apply text_life_acquire; [by eapply Hreg | done].
  - apply text_life_acquire.
    + simpl. rewrite alloc_lookup_new. by eexists.
    + by apply text_life_set_managers, text_life_new_object.
Qed.

Lemma text_life_handle_setStatus h text w : life_inv w → life_inv (handle_setStatus h text w).
Proof.
  intros Hinv. unfold handle_setStatus, method.
  destruct (handles w !! h) as [hd |] eqn:Hh; [| done].
  destruct (released hd) eqn:Hr; [done |].
  assert (life_inv (assign (h_mgr hd) (with_currentText text) w)).
  { apply text_life_assign; [| done]. intros mg Ho. simpl.
    destruct (text_live_no_grace w h hd mg Hinv Hh Hr Ho) as [Hng _].
    repeat split; auto. }
  destruct (objects (assign _ _ _) !! h_mgr hd) as [mg |]; [| done].
  destruct (_ && _); [by apply text_life_startPushLoop | done].
Qed.

Lemma text_life_handle_release h answer w : life_inv w → life_inv (handle_release h answer w).
Proof.
  intros Hinv. unfold handle_release.
  destruct (handles w !! h) as [hd |] eqn:Hh; [| done].
  destruct (released hd) eqn:Hr; [done |].
  destruct (life_handle_mgr w Hinv h hd Hh) as [mg0 Ho0].
  destruct (text_live_no_grace w h hd mg0 Hinv Hh Hr Ho0) as [Hng Hpos].
  pose proof (text_life_released h hd w Hh Hr Hinv) as Hinv1.
  unfold releaseHandle, method.
  set (w1 := assign (h_mgr hd) _ (set_handles _ w)) in *.
  assert (Ho1 : objects w1 !! h_mgr hd =
                Some (with_activeHandles (Z.max 0 (activeHandles mg0 - 1)) mg0)).
  { subst w1. simpl. by rewrite list_lookup_alter_eq, Ho0. }
  rewrite Ho1. simpl.
  case_bool_decide as Hpos'; [done |].
  destruct (pushTimer mg0) eqn:Hpt; [| by apply text_life_destroy].
  assert (Htext : ∀ text, life_inv (assign (h_mgr hd) (with_currentText text) w1)).
  { intros text. apply text_life_assign; [| done]. intros mg Ho. rewrite Ho1 in Ho.
    simplify_eq. simpl. repeat split; auto. }
  set (mg2 := with_currentText (graceText (params mg0))
                (with_activeHandles (Z.max 0 (activeHandles mg0 - 1)) mg0)).
  set (w2 := assign (h_mgr hd) (with_currentText (graceText (params mg0))) w1).
  assert (Ho2 : objects w2 !! h_mgr hd = Some mg2).
  { change (objects w2) with
      (alter (with_currentText (graceText (params mg0))) (h_mgr hd) (objects w1)).
    by rewrite list_lookup_alter_eq, Ho1. }
  assert (Hz : activeHandles mg2 = 0) by (simpl; lia).
  pose proof (text_life_grace_start (h_mgr hd) mg2 (graceMs (params mg0)) w2
                Ho2 Hng Hz eq_refl (Htext _)) as Hstart.
  destruct (shouldGrace hd ≫= (λ _, Some answer)) as [[] |].
  2: by apply text_life_pushOnce.
  all: exact Hstart.
Qed.

Lemma text_life_grace_end t tm m w :
  timers w !! t = Some tm → t_live tm = true → t_callback tm = GraceEnd m →
  life_inv w → life_inv (grace_end m (clearTimer t w)).
Proof.
  intros Ht Hl Hcb Hinv.
  destruct (life_grace_timer w Hinv t tm m Ht Hl Hcb) as (mg & Ho & Hgt).
  unfold grace_end.
  assert (Hinv1 : life_inv (assign m (with_graceTimer None) (clearTimer t w)))
    by by eapply text_life_cancel.
  apply text_life_pushOnce, text_life_assign; [| done].
  intros mg' Ho'. simpl in Ho'. rewrite list_lookup_alter_eq, Ho in Ho'.
  simpl in Ho'. injection Ho' as <-. simpl. repeat split; auto.
Qed.

Lemma text_life_timer_fires t w : life_inv w → life_inv (timer_fires t w).
Proof.
  intros Hinv. unfold timer_fires.
  destruct (timers w !! t) as [tm |] eqn:Ht; [| done].
  destruct (t_live tm) eqn:Hl; [| done].
  destruct (t_callback tm) eqn:Hcb.
  - by apply text_life_pushTick.
  - by eapply text_life_grace_end.
Qed.

Lemma text_life_push_settles c ok w : life_inv w → life_inv (push_settles c ok w).
Proof.
  intros Hinv. unfold push_settles.
  destruct (calls w !! c) as [call |]; [| done].
  destruct (c_done call); [done |].
  assert (life_inv (report_error (c_mgr call) c ok
                      (set_calls (alter (with_done true) c) w)))
    by by apply text_life_report_error, text_life_set_calls.
  destruct (c_site call).
  - apply text_life_assign; [life_flag | done].
  - by apply text_life_stopAndDestroy.
Qed.

Lemma text_reg_init : reg_inv init.
Proof. split. intros k m H. cbn in H. by rewrite lookup_empty in H. Qed.

Lemma text_reg_assign this f w :
  (∀ mg, params (f mg) = params mg) → reg_inv w → reg_inv (assign this f w).
Proof.
  intros Hf [Hk]. split. simpl. intros k m Hm. destruct (Hk k m Hm) as (mg & Ho & Hkey).
  destruct (decide (this = m)) as [-> | Hne].
  - exists (f mg). rewrite list_lookup_alter_eq, Ho. split; [done |]. by rewrite Hf.
  - exists mg. by rewrite list_lookup_alter_ne.
Qed.

Lemma text_reg_set_handles f w : reg_inv w → reg_inv (set_handles f w).
Proof. intros [Hk]. by split. Qed.

Lemma text_reg_set_timers f w : reg_inv w → reg_inv (set_timers f w).
Proof. intros [Hk]. by split. Qed.

Lemma text_reg_set_calls f w : reg_inv w → reg_inv (set_calls f w).
Proof. intros [Hk]. by split. Qed.

Lemma text_reg_set_onError_calls f w : reg_inv w → reg_inv (set_onError_calls f w).
Proof. intros [Hk]. by split. Qed.

Lemma text_reg_delete k w : reg_inv w → reg_inv (set_managers (delete k) w).
Proof.
  intros [Hk]. split. simpl. intros k' m Hm.
  apply lookup_delete_Some in Hm as [_ Hm]. by apply Hk.
Qed.

Lemma text_reg_register p w :
  reg_inv w →
  reg_inv (set_managers (<[key p := length (objects w)]>)
             (set_objects (alloc (new_ThreadStatusManager p)) w)).
Proof.
  intros [Hk]. split. simpl. intros k m Hm.
  destruct (decide (key p = k)) as [<- | Hne].
  - rewrite lookup_insert_eq in Hm. simplify_eq.
    exists (new_ThreadStatusManager p). split; [apply alloc_lookup_new | done].
  - rewrite lookup_insert_ne in Hm by done.
    destruct (Hk k m Hm) as (mg & Ho & Hkey).
    exists mg. split; [by apply alloc_lookup_old | done].
Qed.

Ltac solve_reg :=
  repeat first
    [ assumption
    | apply text_reg_assign; [intros ?; reflexivity |]
    | apply text_reg_set_handles | apply text_reg_set_timers | apply text_reg_set_calls
    | apply text_reg_set_onError_calls | apply text_reg_delete
    | match goal with
      | |- reg_inv (set_managers _ (set_objects (alloc (new_ThreadStatusManager ?p)) _)) =>
          apply (text_reg_register p)
      end ].

Ltac open_all :=
  unfold acquireThreadStatus, handle_setStatus, handle_release, timer_fires, push_settles,
    acquire, releaseHandle, grace_end, startPushLoop, pushTick, pushOnce, call_pushFn,
    report_error, stopAndDestroy, destroy, forceDestroy, stopLoop, cancelGrace, method;
  repeat case_match; unfold setTimer, clearTimer.

Lemma text_reg_step w e : reg_inv w → reg_inv (step w e).
Proof. intros Hinv. destruct e; simpl; open_all; solve_reg. Qed.

Lemma text_life_step w e : reg_inv w → life_inv w → life_inv (step w e).
Proof.
  intros Hreg Hinv. destruct e; simpl.
  - apply text_life_acquireThreadStatus; [| done].
    intros k m Hm. destruct (reg_key w Hreg k m Hm) as (mg & Ho & _). by eexists.
  - by apply text_life_handle_setStatus.
  - by apply text_life_handle_release.
  - by apply text_life_timer_fires.
  - by apply text_life_push_settles.
Qed.

Lemma text_reachable_life w : reachable w → reg_inv w ∧ life_inv w.
Proof.
  intros [evs ->]. unfold run.
  induction evs as [| e evs IH] using rev_ind; simpl.
  - split; [apply text_reg_init | apply text_life_init].
  - rewrite foldl_app. simpl. destruct IH as [Hreg Hlife].
    split; [by apply text_reg_step | by apply text_life_step].
Qed.

Lemma text_kp_refl w : keeps_params w w.
Proof. intros m mg H. by exists mg. Qed.

Lemma text_kp_assign this f w w1 :
  (∀ mg, params (f mg) = params mg) → keeps_params w w1 →
  keeps_params w (assign this f w1).
Proof.
  intros Hf Hk m mg Ho. destruct (Hk m mg Ho) as (mg1 & Ho1 & Hp1). simpl.
  destruct (decide (this = m)) as [-> | Hne].
  - exists (f mg1). rewrite list_lookup_alter_eq, Ho1. split; [done |]. by rewrite Hf.
  - exists mg1. by rewrite list_lookup_alter_ne.
Qed.

Lemma text_kp_new_object x w w1 :
  keeps_params w w1 → keeps_params w (set_objects (alloc x) w1).
Proof.
  intros Hk m mg Ho. destruct (Hk m mg Ho) as (mg1 & Ho1 & Hp1).
  exists mg1. split; [by apply alloc_lookup_old | done].
Qed.

Lemma text_kp_set_handles f w w1 : keeps_params w w1 → keeps_params w (set_handles f w1).
Proof. done. Qed.

Lemma text_kp_set_timers f w w1 : keeps_params w w1 → keeps_params w (set_timers f w1).
Proof. done. Qed.

Lemma text_kp_set_calls f w w1 : keeps_params w w1 → keeps_params w (set_calls f w1).
Proof. done. Qed.

Lemma text_kp_set_managers f w w1 : keeps_params w w1 → keeps_params w (set_managers f w1).
Proof. done. Qed.

Lemma text_kp_set_onError_calls f w w1 :
  keeps_params w w1 → keeps_params w (set_onError_calls f w1).
Proof. done. Qed.

Ltac solve_kp :=
  repeat first
    [ apply text_kp_refl
    | apply text_kp_assign; [intros ?; reflexivity |]
    | apply text_kp_new_object
    | apply text_kp_set_handles | apply text_kp_set_timers | apply text_kp_set_calls
    | apply text_kp_set_managers | apply text_kp_set_onError_calls ].

Lemma text_kp_step w e : keeps_params w (step w e).
Proof. destruct e; simpl; open_all; solve_kp. Qed.

Ltac old_call :=
  simpl in *;
  match goal with
  | H : calls ?w !! ?c = Some _, Hge : (length (calls ?w) ≤ ?c)%nat |- _ =>
      apply lookup_lt_Some in H; lia
  end.

Ltac new_call H :=
  apply alloc_lookup_inv in H as [H | [-> ->]]; [old_call |].

Lemma text_pushTick_calls this w mg :
  objects w !! this = Some mg →
  calls (pushTick this w) =
  if pushing mg then calls w
  else alloc {| c_mgr := this; c_fn := push (params mg); c_text := currentText mg;
                c_site := ByPushTick; c_done := false |} (calls w).
Proof.
  intros Ho. unfold pushTick, call_pushFn, method. rewrite Ho.
  destruct (pushing mg); [done |]. simpl. by rewrite list_lookup_alter_eq, Ho.
Qed.

Lemma text_pushOnce_calls this text w mg :
  objects w !! this = Some mg →
  calls (pushOnce this text w) =
  alloc {| c_mgr := this; c_fn := push (params mg); c_text := text;
           c_site := ByPushOnce; c_done := false |} (calls w).
Proof. intros Ho. unfold pushOnce, call_pushFn, method. by rewrite Ho. Qed.

Lemma text_startPushLoop_calls this w : calls (startPushLoop this w) = calls (pushTick this w).
Proof. unfold startPushLoop, method. by case_match. Qed.

Lemma text_stopAndDestroy_calls this w : calls (stopAndDestroy this w) = calls w.
Proof.
  unfold stopAndDestroy, destroy, stopLoop, cancelGrace, method. by repeat case_match.
Qed.

Lemma text_destroy_calls this w : calls (destroy this w) = calls w.
Proof. unfold destroy, stopLoop, cancelGrace, method. by repeat case_match. Qed.

Lemma text_acquireThreadStatus_calls a w : calls (acquireThreadStatus a w) = calls w.
Proof.
  unfold acquireThreadStatus, acquire, cancelGrace, method. by repeat case_match.
Qed.

Lemma text_push_settles_calls c ok w :
  length (calls (push_settles c ok w)) = length (calls w).
Proof.
  unfold push_settles. destruct (calls w !! c) as [call |]; [| done].
  destruct (c_done call); [done |].
  destruct (c_site call); [simpl | rewrite text_stopAndDestroy_calls].
  all: rewrite (proj1 (text_report_error_frame _ _ _ _)); simpl; by rewrite length_alter.
Qed.

Lemma text_new_call_cause w e c call :
  calls (step w e) !! c = Some call → (length (calls w) ≤ c)%nat →
  call_cause w e call.
Proof.
  intros Hc Hge. destruct e as [a | h text | h answer | t | c0 ok]; simpl in Hc.
  - rewrite text_acquireThreadStatus_calls in Hc. old_call.
  - unfold handle_setStatus in Hc.
    destruct (handles w !! h) as [hd |] eqn:Hh; [| old_call].
    destruct (released hd) eqn:Hr; [old_call |].
    unfold method in Hc. simpl in Hc. rewrite list_lookup_alter_eq in Hc.
    destruct (objects w !! h_mgr hd) as [mg |] eqn:Ho; simpl in Hc; [| old_call].
    case_bool_decide as Htext; simpl in Hc; [old_call |].
    destruct (pushTimer mg) eqn:Hpt; simpl in Hc; [old_call |].
    rewrite text_startPushLoop_calls in Hc.
    erewrite text_pushTick_calls in Hc
      by (simpl; by rewrite list_lookup_alter_eq, Ho).
    simpl in Hc. destruct (pushing mg); [old_call |].
    new_call Hc. by eapply cause_setStatus.
  - unfold handle_release in Hc.
    destruct (handles w !! h) as [hd |] eqn:Hh; [| old_call].
    destruct (released hd) eqn:Hr; [old_call |].
    unfold releaseHandle, method in Hc. simpl in Hc.
    rewrite list_lookup_alter_eq in Hc.
    destruct (objects w !! h_mgr hd) as [mg |] eqn:Ho; simpl in Hc; [| old_call].
    case_bool_decide as Hpos; [old_call |].
    destruct (pushTimer mg) eqn:Hpt; [| rewrite text_destroy_calls in Hc; old_call].
    destruct (shouldGrace hd ≫= (λ _, Some answer)) as [[] |] eqn:Hg; simpl in Hc;
      try old_call.
    erewrite text_pushOnce_calls in Hc
      by (simpl; by rewrite !list_lookup_alter_eq, Ho).
    new_call Hc. eapply cause_release; eauto. lia.
  - unfold timer_fires in Hc.
    destruct (timers w !! t) as [tm |] eqn:Ht; [| old_call].
    destruct (t_live tm) eqn:Hl; [| old_call].
    destruct (t_callback tm) as [m | m] eqn:Hcb.
    + destruct (objects w !! m) as [mg |] eqn:Ho.
      * rewrite (text_pushTick_calls m w mg Ho) in Hc.
        destruct (pushing mg); [old_call |].
        new_call Hc. by eapply cause_tick.
      * unfold pushTick, method in Hc. rewrite Ho in Hc. old_call.
    + unfold grace_end in Hc.
      destruct (objects w !! m) as [mg |] eqn:Ho.
      * erewrite text_pushOnce_calls in Hc
          by (simpl; by rewrite !list_lookup_alter_eq, Ho).
        new_call Hc. by eapply cause_grace_end.
      * unfold pushOnce, call_pushFn, method in Hc. simpl in Hc.
        rewrite !list_lookup_alter_eq, Ho in Hc. old_call.
  - apply lookup_lt_Some in Hc. rewrite text_push_settles_calls in Hc. lia.
Qed.

Section Keeps.
Context {A : Type} (g : ThreadStatusManager → A) (m : nat).










End Keeps.






Ltac open_ops :=
  unfold acquireThreadStatus, handle_setStatus, handle_release, timer_fires, push_settles,
    acquire, releaseHandle, grace_end, startPushLoop, pushTick, pushOnce, call_pushFn,
    report_error, stopAndDestroy, destroy, forceDestroy, stopLoop, cancelGrace, method;
  repeat case_match.

(** Handles are only ever added, and only [release()] changes one. *)
Lemma text_releaseHandle_handles this g w : handles (releaseHandle this g w) = handles w.
Proof. open_all; reflexivity. Qed.

Lemma text_handles_step w e h hd :
  handles w !! h = Some hd →
  ∃ hd', handles (step w e) !! h = Some hd' ∧ h_mgr hd' = h_mgr hd ∧
         (released hd = true → released hd' = true).
Proof.
  intros Hh. destruct e as [a | h0 text | h0 answer | t | c0 ok]; simpl.
  - exists hd. split; [| done]. open_all; simpl; by apply alloc_lookup_old.
  - exists hd. split; [| done]. open_all; simpl; done.
  - unfold handle_release.
    destruct (handles w !! h0) as [hd0 |] eqn:Hh0; [| by exists hd].
    destruct (released hd0) eqn:Hr0; [by exists hd |].
    rewrite text_releaseHandle_handles. simpl.
    destruct (decide (h0 = h)) as [-> | Hne].
    + exists (with_released true hd). by rewrite list_lookup_alter_eq, Hh.
    + exists hd. by rewrite list_lookup_alter_ne.
  - exists hd. split; [| done]. open_all; simpl; done.
  - exists hd. split; [| done]. open_all; simpl; done.
Qed.

Lemma text_released_after_release h answer w hd :
  handles w !! h = Some hd →
  ∃ hd', handles (handle_release h answer w) !! h = Some hd' ∧ released hd' = true.
Proof.
  intros Hh. unfold handle_release. rewrite Hh.
  destruct (released hd) eqn:Hr; [by exists hd |].
  rewrite text_releaseHandle_handles. simpl.
  exists (with_released true hd). by rewrite list_lookup_alter_eq, Hh.
Qed.



Lemma text_nr_refl t m w : no_revive t m w w.
Proof. split; [done |]. intros mg' Ho Hgt. left. by exists mg'. Qed.

Lemma text_nr_assign t m this f w w1 :
  (∀ mg, graceTimer (f mg) = graceTimer mg ∨ graceTimer (f mg) = None) →
  no_revive t m w w1 → no_revive t m w (assign this f w1).
Proof.
  intros Hf [Hlen Hk]. split; [done |]. simpl. intros mg' Ho' Hgt.
  apply alter_lookup_inv in Ho' as [[Hne Ho'] | [-> (x & Hx & ->)]].
  - by apply (Hk mg').
  - destruct (Hf x) as [E | E]; rewrite E in Hgt; [by apply (Hk x) | done].
Qed.

Lemma text_nr_grace_start t m this cb ms w w1 :
  no_revive t m w w1 →
  no_revive t m w (assign this (with_graceTimer (Some (length (timers w1))))
                     (setTimer cb ms w1)).
Proof.
  intros [Hlen Hk]. split; [simpl; rewrite alloc_length; lia |]. simpl.
  intros mg' Ho' Hgt.
  apply alter_lookup_inv in Ho' as [[Hne Ho'] | [-> (x & Hx & ->)]].
  - by apply (Hk mg').
  - simpl in Hgt. right. simplify_eq. done.
Qed.

Lemma text_nr_clearTimer t m t' w w1 : no_revive t m w w1 → no_revive t m w (clearTimer t' w1).
Proof. intros [Hlen Hk]. split; [simpl; by rewrite length_alter | done]. Qed.

Lemma text_nr_setTimer t m cb ms w w1 : no_revive t m w w1 → no_revive t m w (setTimer cb ms w1).
Proof. intros [Hlen Hk]. split; [simpl; rewrite alloc_length; lia | done]. Qed.

Lemma text_nr_new_object t m p w w1 :
  no_revive t m w w1 →
  no_revive t m w (set_objects (alloc (new_ThreadStatusManager p)) w1).
Proof.
  intros [Hlen Hk]. split; [done |]. simpl. intros mg' Ho' Hgt.
  apply alloc_lookup_inv in Ho' as [Ho' | [_ ->]]; [by apply (Hk mg') | done].
Qed.

Lemma text_nr_set_handles t m f w w1 : no_revive t m w w1 → no_revive t m w (set_handles f w1).
Proof. done. Qed.

Lemma text_nr_set_calls t m f w w1 : no_revive t m w w1 → no_revive t m w (set_calls f w1).
Proof. done. Qed.

Lemma text_nr_set_managers t m f w w1 : no_revive t m w w1 → no_revive t m w (set_managers f w1).
Proof. done. Qed.

Lemma text_nr_set_onError_calls t m f w w1 :
  no_revive t m w w1 → no_revive t m w (set_onError_calls f w1).
Proof. done. Qed.

Ltac solve_nr :=
  repeat first
    [ apply text_nr_refl
    | apply text_nr_grace_start
    | apply text_nr_assign; [intros ?; simpl; auto |]
    | apply text_nr_clearTimer | apply text_nr_setTimer | apply text_nr_new_object
    | apply text_nr_set_handles | apply text_nr_set_calls
    | apply text_nr_set_managers | apply text_nr_set_onError_calls ].

Lemma text_nr_step t m w e : no_revive t m w (step w e).
Proof. destruct e; simpl; open_ops; solve_nr. Qed.

Lemma text_run_from_snoc w evs e : run_from w (evs ++ [e]) = step (run_from w evs) e.
Proof. unfold run_from. by rewrite foldl_app. Qed.


Lemma text_run_from_params w evs m mg :
  objects w !! m = Some mg →
  ∃ mg', objects (run_from w evs) !! m = Some mg' ∧ params mg' = params mg.
Proof.
  intros Ho. induction evs as [| e evs IH] using rev_ind; [by exists mg |].
  rewrite text_run_from_snoc. destruct IH as (mg1 & Ho1 & Hp1).
  destruct (text_kp_step (run_from w evs) e m mg1 Ho1) as (mg2 & Ho2 & Hp2).
  exists mg2. split; [done | congruence].
Qed.

Lemma text_run_from_timers w evs :
  (length (timers w) ≤ length (timers (run_from w evs)))%nat.
Proof.
  induction evs as [| e evs IH] using rev_ind; [done |].
  rewrite text_run_from_snoc.
  pose proof (proj1 (text_nr_step 0 0 (run_from w evs) e)). lia.
Qed.



Lemma text_pending_back m t w e :
  (t < length (timers w))%nat → pending_grace m t (step w e) → pending_grace m t w.
Proof.
  intros Hlt (mg' & Ho' & Hgt).
  destruct (proj2 (text_nr_step t m w e) mg' Ho' Hgt) as [H | H]; [done | lia].
Qed.

Lemma text_pending_back_run m t w evs :
  (t < length (timers w))%nat → pending_grace m t (run_from w (evs)) →
  ∀ n, pending_grace m t (run_from w (take n evs)).
Proof.
  intros Hlt. induction evs as [| e evs IH] using rev_ind; intros Hp n.
  - by rewrite take_nil.
  - rewrite text_run_from_snoc in Hp.
    assert (Hprev : pending_grace m t (run_from w evs)).
    { eapply text_pending_back; [| done]. pose proof (text_run_from_timers w evs). lia. }
    destruct (decide (n ≤ length evs)%nat).
    + rewrite take_app_le by done. by apply IH.
    + rewrite take_ge by (rewrite length_app; simpl; lia).
      rewrite text_run_from_snoc. done.
Qed.











(** A timer tick that finds a tick push in flight does nothing at all. *)
Lemma text_pushTick_skipped m c w :
  gate_inv w → tick_in_flight m w c → pushTick m w = w.
Proof.
  intros Hinv Hc. destruct (gate_flag w Hinv m c Hc) as (mg & Ho & Hp).
  unfold pushTick, method. by rewrite Ho, Hp.
Qed.

Ltac solve_one_call :=
  first [ left; reflexivity | right; eexists; split; [| reflexivity]; reflexivity ].

Lemma text_setStatus_calls h text w : one_call_more w (handle_setStatus h text w).
Proof.
  unfold handle_setStatus, method. repeat case_match; try solve_one_call.
  unfold one_call_more. rewrite text_startPushLoop_calls.
  unfold pushTick, call_pushFn, method. repeat case_match; simpl; solve_one_call.
Qed.

Lemma text_release_calls h answer w : one_call_more w (handle_release h answer w).
Proof.
  unfold handle_release, releaseHandle, method. unfold one_call_more.
  repeat case_match; rewrite ?text_destroy_calls; try solve_one_call.
  all: unfold pushOnce, call_pushFn, method; repeat case_match; simpl; solve_one_call.
Qed.

Lemma text_timer_calls t w : one_call_more w (timer_fires t w).
Proof.
  unfold timer_fires, grace_end, pushTick, pushOnce, call_pushFn, method.
  unfold one_call_more. repeat case_match; simpl; solve_one_call.
Qed.

(** A call that a step adds to the log has not settled. *)
Lemma text_new_call_in_flight w e c call :
  calls (step w e) !! c = Some call → (length (calls w) ≤ c)%nat → c_done call = false.
Proof.
  intros Hc Hge.
  assert (Hold : calls w !! c = Some call → c_done call = false).
  { intros H. apply lookup_lt_Some in H. lia. }
  assert (Hnew : ∀ x, c_done x = false → alloc x (calls w) !! c = Some call →
                      c_done call = false).
  { intros x Hx H. apply alloc_lookup_inv in H as [H | [_ ->]]; [| done].
    apply lookup_lt_Some in H. lia. }
  assert (Hcase : ∀ w0, (calls w0 = calls w ∨
                          ∃ x, c_done x = false ∧ calls w0 = alloc x (calls w)) →
                         calls w0 !! c = Some call → c_done call = false).
  { intros w0 [E | (x & Hx & E)] H; rewrite E in H; eauto. }
  destruct e as [a | h text | h answer | t | c0 ok].
  - simpl in Hc. rewrite text_acquireThreadStatus_calls in Hc. eauto.
  - apply (Hcase _ (text_setStatus_calls h text w) Hc).
  - apply (Hcase _ (text_release_calls h answer w) Hc).
  - apply (Hcase _ (text_timer_calls t w) Hc).
  - apply lookup_lt_Some in Hc. simpl in Hc. rewrite text_push_settles_calls in Hc. lia.
Qed.

(** While a tick push of [m] is in flight no event starts another one. *)
Lemma text_no_tick_while_in_flight m c w e c' call' :
  gate_inv w → tick_in_flight m w c →
  calls (step w e) !! c' = Some call' → c_mgr call' = m → c_site call' = ByPushTick →
  (c' < length (calls w))%nat.
Proof.
  intros Hinv Hc Hc' Hm Hsite.
  destruct (decide (c' < length (calls w))%nat) as [| Hge]; [done |]. exfalso.
  assert (Hd : c_done call' = false) by (eapply text_new_call_in_flight; eauto; lia).
  assert (Hin1 : tick_in_flight m (step w e) c') by by exists call'.
  assert (Hin2 : tick_in_flight m (step w e) c).
  { destruct Hc as (x & Hx & Hxm & Hxd & Hxs).
    assert (Hcase : ∀ w0, one_call_more w w0 → tick_in_flight m w0 c).
    { intros w0 [E | (y & _ & E)]; exists x; rewrite E;
        [done | split; [by apply alloc_lookup_old | done]]. }
    destruct e as [a | h text | h answer | t | c0 ok].
    - exists x. simpl. by rewrite text_acquireThreadStatus_calls.
    - apply Hcase, text_setStatus_calls.
    - apply Hcase, text_release_calls.
    - apply Hcase, text_timer_calls.
    - apply lookup_lt_Some in Hc'. simpl in Hc'. rewrite text_push_settles_calls in Hc'. lia. }
  pose proof (gate_unique _ (text_gate_step w e Hinv) m _ _ Hin1 Hin2) as Heq.
  apply text_tick_in_flight_lt in Hc. lia.
Qed.

Lemma text_release_idempotent h a1 a2 text w :
  let w1 := handle_release h a1 w in
  handle_release h a2 w1 = w1 ∧ handle_setStatus h text w1 = w1.
Proof.
  intros w1. destruct (handles w !! h) as [hd |] eqn:Hh.
  - destruct (text_released_after_release h a1 w hd Hh) as (hd' & Hh' & Hr').
    fold w1 in Hh'. unfold handle_release, handle_setStatus.
    by rewrite Hh', Hr'.
  - assert (w1 = w) as -> by (subst w1; unfold handle_release; by rewrite Hh).
    unfold handle_release, handle_setStatus. by rewrite Hh.
Qed.

Lemma text_acquire_existing a w m :
  managers w !! a_key a = Some m →
  let w' := acquireThreadStatus a w in
  (∀ a', a_key a' = a_key a → a_shouldGrace a' = a_shouldGrace a →
         acquireThreadStatus a' w = w') ∧
  handles w' = alloc {| h_mgr := m; released := false; shouldGrace := a_shouldGrace a |}
                 (handles w) ∧
  managers w' = managers w ∧ length (objects w') = length (objects w) ∧
  keeps_params w w'.
Proof.
  intros Hm w'. split; [| split; [| split; [| split]]].
  - intros a' Hk Hs. subst w'. unfold acquireThreadStatus. by rewrite Hk, Hm, Hs.
  - subst w'. unfold acquireThreadStatus. rewrite Hm. open_all; reflexivity.
  - subst w'. unfold acquireThreadStatus. rewrite Hm. open_all; reflexivity.
  - subst w'. unfold acquireThreadStatus. rewrite Hm. open_all; simpl;
      by rewrite ?length_alter.
  - apply (text_kp_step w (EAcquire a)).
Qed.

Lemma text_acquire_fresh a w :
  managers w !! a_key a = None →
  let w' := acquireThreadStatus a w in
  let m := length (objects w) in
  managers w' !! a_key a = Some m ∧
  ∃ mg, objects w' !! m = Some mg ∧
        params mg = {| key := a_key a; push := a_push a;
                       pushIntervalMs := default 100 (a_pushIntervalMs a);
                       graceMs := default 5000 (a_graceMs a);
                       graceText := default "is thinking..." (a_graceText a);
                       onError := a_onError a |}.
Proof.
  intros Hm w' m. subst w'. unfold acquireThreadStatus. rewrite Hm.
  unfold acquire, cancelGrace, method. simpl.
  rewrite list_lookup_alter_eq, alloc_lookup_new. simpl.
  rewrite lookup_insert_eq. split; [done |].
  rewrite list_lookup_alter_eq, alloc_lookup_new. simpl. by eexists.
Qed.

Ltac norm_lookups :=
  repeat match goal with
  | H : context [alter _ ?i _ !! ?i] |- _ => rewrite list_lookup_alter_eq in H
  | H : ?l !! ?i = Some _, H' : context [?l !! ?i] |- _ =>
      lazymatch H' with H => fail | _ => rewrite H in H' end
  | H : _ <$> Some _ = _ |- _ => simpl in H
  | H : _ <$> None = _ |- _ => simpl in H
  | H : Some _ = Some _ |- _ => injection H as H; subst
  | H : Some _ = None |- _ => discriminate H
  | H : None = Some _ |- _ => discriminate H
  end.

Ltac read_params :=
  simpl in *; norm_lookups;
  first
    [ eexists; split; [eassumption | reflexivity]
    | match goal with
      | |- ∃ mg, ?l !! ?i = Some mg ∧ _ => destruct (l !! i) eqn:?
      end;
      simpl in *; simplify_eq; eexists; split; reflexivity ].

Lemma text_new_call_fn w e c call :
  calls (step w e) !! c = Some call → (length (calls w) ≤ c)%nat →
  ∃ mg, objects w !! c_mgr call = Some mg ∧ c_fn call = push (params mg).
Proof.
  intros Hc Hge. destruct e as [a | h text | h answer | t | c0 ok]; simpl in Hc.
  - rewrite text_acquireThreadStatus_calls in Hc. old_call.
  - revert Hc. open_ops; simpl; intros Hc; try old_call.
    all: new_call Hc; read_params.
  - revert Hc. open_ops; simpl; intros Hc; try old_call.
    all: new_call Hc; read_params.
  - revert Hc. open_ops; simpl; intros Hc; try old_call.
    all: new_call Hc; read_params.
  - apply lookup_lt_Some in Hc. rewrite text_push_settles_calls in Hc. lia.
Qed.
Ltac old_timer H :=
  simpl in H; apply lookup_lt_Some in H; simpl in H; rewrite ?length_alter in H; lia.

Ltac new_timer H :=
  simpl in H; apply alloc_lookup_inv in H as [H | [-> ->]]; [old_timer H |].

Lemma text_new_timer_ms w e t tm :
  timers (step w e) !! t = Some tm → (length (timers w) ≤ t)%nat →
  ∃ m mg, objects w !! m = Some mg ∧
    ((t_callback tm = PushTick m ∧ t_ms tm = pushIntervalMs (params mg)) ∨
     (t_callback tm = GraceEnd m ∧ t_ms tm = graceMs (params mg))).
Proof.
  intros Ht Hge. destruct e as [a | h text | h answer | t0 | c0 ok]; simpl in Ht.
  all: revert Ht; open_ops; unfold setTimer, clearTimer; simpl; intros Ht.
  all: try (old_timer Ht).
  all: new_timer Ht.
  all: simpl in *; norm_lookups.
  all: match goal with
       | H : _ <$> objects ?w0 !! ?i = Some _ |- _ => destruct (objects w0 !! i) as [mg0 |] eqn:?
       end; simpl in *; simplify_eq.
  all: eexists _, mg0; split; [eassumption |].
  all: first [left; split; reflexivity | right; split; reflexivity].
Qed.

(** C4 fails in the text variant.  After the trace
    [reacquired_before_clear_settles] the registry no longer has an entry
    for ["K"], although the manager counts one active handle and that
    handle (1) has not been released: the [.finally] of the clearing push
    destroys the manager the second dispatch is holding.  A third dispatch
    then gets a second manager for the same thread. *)
Theorem text_manager_destroyed_while_held :
  let w := run reacquired_before_clear_settles in
  managers w !! "K" = None ∧
  (activeHandles <$> objects w !! 0%nat) = Some 1 ∧
  handles w !! 1%nat = Some {| h_mgr := 0; released := false; shouldGrace := Some 3%nat |} ∧
  let w' := acquireThreadStatus sample_acquire w in
  managers w' !! "K" = Some 1%nat ∧
  handles w' !! 2%nat = Some {| h_mgr := 1; released := false; shouldGrace := Some 3%nat |}.
Proof. vm_compute. done. Qed.



(** A released handle stays released. *)
Lemma text_released_for_good w evs h hd :
  handles w !! h = Some hd → released hd = true →
  ∃ hd', handles (run_from w evs) !! h = Some hd' ∧ released hd' = true.
Proof.
  intros Hh Hr. induction evs as [| e evs IH] using rev_ind; [by exists hd |].
  rewrite text_run_from_snoc. destruct IH as (hd1 & Hh1 & Hr1).
  destruct (text_handles_step (run_from w evs) e h hd1 Hh1) as (hd2 & Hh2 & _ & Hr2).
  exists hd2. split; [done | by apply Hr2].
Qed.

Lemma text_release_idempotent_later h a1 a2 text evs w :
  is_Some (handles w !! h) →
  let w1 := run_from (handle_release h a1 w) evs in
  handle_release h a2 w1 = w1 ∧ handle_setStatus h text w1 = w1.
Proof.
  intros [hd Hh] w1.
  destruct (text_released_after_release h a1 w hd Hh) as (hd1 & Hh1 & Hr1).
  destruct (text_released_for_good _ evs h hd1 Hh1 Hr1) as (hd2 & Hh2 & Hr2).
  fold w1 in Hh2. unfold handle_release, handle_setStatus.
  by rewrite Hh2, Hr2.
Qed.

Lemma text_step_one_call w e : one_call_more w (step w e) ∨ ∃ c ok, e = ESettle c ok.
Proof.
  destruct e as [a | h text | h answer | t | c0 ok]; simpl.
  - left. left. apply text_acquireThreadStatus_calls.
  - left. apply text_setStatus_calls.
  - left. apply text_release_calls.
  - left. apply text_timer_calls.
  - right. eauto.
Qed.

(** Why the text manager calls its push function.  A call that an event
    adds to the log is the only one that event makes and has not settled;
    it goes to the push function the manager was created with; and it has
    one of four causes: a live tick of the push loop (with the text then
    shown), the end of the grace period (empty text), [setStatus] with a
    non-empty text on an unreleased handle, or the last release when
    [shouldGrace] answers false (empty text).  Acquiring a handle and the
    settling of a push make no call. *)
Theorem push_calls_have_a_cause w e c call :
  calls (step w e) !! c = Some call → (length (calls w) ≤ c)%nat →
  call_cause w e call ∧ c = length (calls w) ∧ c_done call = false ∧
  (∃ mg, objects w !! c_mgr call = Some mg ∧ c_fn call = push (params mg)) ∧
  (∀ a, e ≠ EAcquire a) ∧ (∀ c0 ok, e ≠ ESettle c0 ok).
Proof.
  intros Hc Hge.
  split; [by eapply text_new_call_cause |].
  split.
  { destruct (text_step_one_call w e) as [[E | (x & _ & E)] | (c0 & ok & ->)].
    - rewrite E in Hc. apply lookup_lt_Some in Hc. lia.
    - rewrite E in Hc. apply alloc_lookup_inv in Hc as [Hc | [Hc _]]; [| done].
      apply lookup_lt_Some in Hc. lia.
    - apply lookup_lt_Some in Hc. simpl in Hc. rewrite text_push_settles_calls in Hc. lia. }
  split; [by eapply text_new_call_in_flight |].
  split; [by eapply text_new_call_fn |].
  split.
  - intros a ->. simpl in Hc. rewrite text_acquireThreadStatus_calls in Hc.
    apply lookup_lt_Some in Hc. lia.
  - intros c0 ok ->. apply lookup_lt_Some in Hc. simpl in Hc.
    rewrite text_push_settles_calls in Hc. lia.
Qed.

(** The first [setStatus] of a holder makes call 0 with the text set. *)
Lemma push_calls_have_a_cause_witness :
  call_cause (run [EAcquire sample_acquire]) (ESetStatus 0 "x")
    {| c_mgr := 0; c_fn := 7; c_text := "x"; c_site := ByPushTick; c_done := false |}.
Proof.
  refine (proj1 (push_calls_have_a_cause (run [EAcquire sample_acquire]) (ESetStatus 0 "x")
                   0%nat _ _ _)); [reflexivity | vm_compute; lia].
Defined.

Lemma text_calls_step_done w e c call :
  calls w !! c = Some call → c_done call = true →
  ∃ call', calls (step w e) !! c = Some call' ∧ c_done call' = true ∧
           c_mgr call' = c_mgr call.
Proof.
  intros Hc Hd.
  assert (Halt : ∀ c0, ∃ call', alter (with_done true) c0 (calls w) !! c = Some call' ∧
            c_done call' = true ∧ c_mgr call' = c_mgr call).
  { intros c0. destruct (decide (c0 = c)) as [-> | Hne].
    - exists (with_done true call). by rewrite list_lookup_alter_eq, Hc.
    - exists call. by rewrite list_lookup_alter_ne. }
  assert (Hnew : ∀ x, ∃ call', alloc x (calls w) !! c = Some call' ∧
            c_done call' = true ∧ c_mgr call' = c_mgr call).
  { intros x. exists call. split; [by apply alloc_lookup_old | done]. }
  assert (Hsame : ∃ call', calls w !! c = Some call' ∧
            c_done call' = true ∧ c_mgr call' = c_mgr call) by by exists call.
  destruct e; simpl; open_all; simpl; eauto.
Qed.

Lemma text_stopAndDestroy_errors this w :
  onError_calls (stopAndDestroy this w) = onError_calls w.
Proof.
  unfold stopAndDestroy, destroy, stopLoop, cancelGrace, method. by repeat case_match.
Qed.

(** What an event does to the [onError] log: nothing, unless it is the
    rejection of a call in flight whose manager has an [onError]. *)
Lemma text_step_errors w e :
  onError_calls (step w e) = onError_calls w ∨
  ∃ c call mg cb, e = ESettle c false ∧ calls w !! c = Some call ∧ c_done call = false ∧
    objects w !! c_mgr call = Some mg ∧ onError (params mg) = Some cb ∧
    onError_calls (step w e) = alloc (cb, c) (onError_calls w).
Proof.
  destruct e as [a | h text | h answer | t | c ok]; simpl.
  1-4: left; open_all; reflexivity.
  unfold push_settles. destruct (calls w !! c) as [call |] eqn:Hc; [| by left].
  destruct (c_done call) eqn:Hd; [by left |].
  assert (E : ∀ w1, onError_calls
              match c_site call with
              | ByPushTick => assign (c_mgr call) (with_pushing false) w1
              | ByPushOnce => stopAndDestroy (c_mgr call) w1
              end = onError_calls w1).
  { intros w1. destruct (c_site call); [done | apply text_stopAndDestroy_errors]. }
  rewrite E. unfold report_error, method. simpl.
  destruct ok; [by left |].
  destruct (objects w !! c_mgr call) as [mg |] eqn:Ho; [| by left].
  destruct (onError (params mg)) as [cb |] eqn:Hcb; [| by left].
  right. by exists c, call, mg, cb.
Qed.

Lemma text_settle_marks_done c ok w call :
  calls w !! c = Some call →
  ∃ call', calls (push_settles c ok w) !! c = Some call' ∧ c_done call' = true ∧
           c_mgr call' = c_mgr call.
Proof.
  intros Hc. unfold push_settles. rewrite Hc.
  destruct (c_done call) eqn:Hd; [by exists call |].
  exists (with_done true call).
  assert (E : calls match c_site call with
              | ByPushTick => assign (c_mgr call) (with_pushing false)
                  (report_error (c_mgr call) c ok (set_calls (alter (with_done true) c) w))
              | ByPushOnce => stopAndDestroy (c_mgr call)
                  (report_error (c_mgr call) c ok (set_calls (alter (with_done true) c) w))
              end = alter (with_done true) c (calls w)).
  { destruct (c_site call); [simpl | rewrite text_stopAndDestroy_calls];
      by rewrite (proj1 (text_report_error_frame _ _ _ _)). }
  rewrite E. by rewrite list_lookup_alter_eq, Hc.
Qed.

Lemma text_err_step w e : err_inv w → err_inv (step w e).
Proof.
  intros [Hentry Honce].
  assert (Hold : ∀ i cb c, onError_calls w !! i = Some (cb, c) →
    ∃ call mg, calls (step w e) !! c = Some call ∧ c_done call = true ∧
               objects (step w e) !! c_mgr call = Some mg ∧ onError (params mg) = Some cb).
  { intros i cb c Hi. destruct (Hentry i cb c Hi) as (call & mg & Hc & Hd & Ho & Hcb).
    destruct (text_calls_step_done w e c call Hc Hd) as (call' & Hc' & Hd' & Hm').
    destruct (text_kp_step w e _ mg Ho) as (mg' & Ho' & Ep).
    exists call', mg'. rewrite Hm', Ep. done. }
  destruct (text_step_errors w e) as [E | (c & call & mg & cb & -> & Hc & Hd & Ho & Hcb & E)].
  - split; rewrite E; done.
  - split; rewrite E.
    + intros i cb' c' Hi. apply alloc_lookup_inv in Hi as [Hi | [_ Hi]]; [eauto |].
      injection Hi as Ecb Ec. subst cb' c'.
      destruct (text_settle_marks_done c false w call Hc) as (call' & Hc' & Hd' & Hm').
      destruct (text_kp_step w (ESettle c false) _ mg Ho) as (mg' & Ho' & Ep).
      exists call', mg'. simpl. rewrite Hm', Ep. done.
    + unfold alloc. rewrite fmap_app. simpl. apply NoDup_app. split; [done |]. split.
      * intros x Hx Hx'. apply list_elem_of_singleton in Hx' as ->.
        apply list_elem_of_fmap in Hx as ([cb' c'] & Hcc & Hin). simpl in Hcc. subst c'.
        apply list_elem_of_lookup in Hin as [i Hi].
        destruct (Hentry i cb' c Hi) as (call0 & _ & Hc0 & Hd0 & _). congruence.
      * apply NoDup_singleton.
Qed.

Lemma text_reachable_err w : reachable w → err_inv w.
Proof.
  intros [evs ->]. unfold run.
  induction evs as [| e evs IH] using rev_ind; simpl.
  - split; [intros i cb c Hi; done | constructor].
  - rewrite foldl_app. simpl. by apply text_err_step.
Qed.

(** How the text manager reports a failed push.  In every reachable state
    each entry of the [onError] log names a call that has settled and the
    [onError] callback of the manager that made it, and no call is
    reported twice.  An event adds an entry only when it is the rejection
    of a call in flight whose manager has an [onError]; a fulfilled push
    and a manager without [onError] report nothing.  A rejection is never
    fatal to the loop: after a rejected tick the timers are as before and
    the tick gate is open again. *)
Theorem failed_push_reported_once (w : World) :
  reachable w →
  (∀ i cb c, onError_calls w !! i = Some (cb, c) →
     ∃ call mg, calls w !! c = Some call ∧ c_done call = true ∧
                objects w !! c_mgr call = Some mg ∧ onError (params mg) = Some cb) ∧
  NoDup (onError_calls w).*2 ∧
  (∀ e, onError_calls (step w e) = onError_calls w ∨
        ∃ c call mg cb, e = ESettle c false ∧ calls w !! c = Some call ∧
          c_done call = false ∧ objects w !! c_mgr call = Some mg ∧
          onError (params mg) = Some cb ∧
          onError_calls (step w e) = alloc (cb, c) (onError_calls w)) ∧
  (∀ c call mg, calls w !! c = Some call → c_done call = false →
     c_site call = ByPushTick → objects w !! c_mgr call = Some mg →
     timers (push_settles c false w) = timers w ∧
     objects (push_settles c false w) !! c_mgr call = Some (with_pushing false mg) ∧
     managers (push_settles c false w) = managers w).
Proof.
  intros Hreach. destruct (text_reachable_err w Hreach) as [Hentry Honce].
  split; [done |]. split; [done |]. split; [apply text_step_errors |].
  intros c call mg Hc Hd Hs Ho. unfold push_settles. rewrite Hc, Hd, Hs.
  unfold report_error, method. simpl. rewrite Ho.
  destruct (onError (params mg)); simpl; by rewrite list_lookup_alter_eq, Ho.
Qed.

(** A caller with an [onError] callback whose first push is rejected. *)
Lemma failed_push_reported_once_witness :
  onError_calls (run [EAcquire other_acquire; ESetStatus 0 "x"; ESettle 0 false])
    = [(4%nat, 0%nat)].
Proof.
  assert (Hr : reachable (run [EAcquire other_acquire; ESetStatus 0 "x"])) by by eexists.
  destruct (failed_push_reported_once _ Hr) as (_ & _ & Hstep & _).
  destruct (Hstep (ESettle 0 false)) as [E | (c & call & mg & cb & He & Hc & _ & Ho & Hcb & E)].
  - vm_compute in E. discriminate E.
  - injection He as <-. vm_compute in Hc. injection Hc as <-.
    vm_compute in Ho. injection Ho as <-. vm_compute in Hcb. injection Hcb as <-.
    exact E.
Defined.

Lemma text_loop_init : loop_inv init.
Proof. split; intros *; by cbn. Qed.

Lemma text_loop_frame w w' :
  objects w' = objects w → timers w' = timers w → loop_inv w → loop_inv w'.
Proof. intros Eo Et [H1 H2 H3]. split; rewrite ?Eo, ?Et; eauto. Qed.

Lemma text_loop_set_managers f w : loop_inv w → loop_inv (set_managers f w).
Proof. by apply text_loop_frame. Qed.

Lemma text_loop_set_handles f w : loop_inv w → loop_inv (set_handles f w).
Proof. by apply text_loop_frame. Qed.

Lemma text_loop_set_calls f w : loop_inv w → loop_inv (set_calls f w).
Proof. by apply text_loop_frame. Qed.

Lemma text_loop_set_onError_calls f w : loop_inv w → loop_inv (set_onError_calls f w).
Proof. by apply text_loop_frame. Qed.

(** Assignments that keep [pushTimer] and keep or forget [graceTimer]. *)
Lemma text_loop_assign this f w :
  (∀ mg, objects w !! this = Some mg →
     pushTimer (f mg) = pushTimer mg ∧
     (graceTimer (f mg) = graceTimer mg ∨ graceTimer (f mg) = None)) →
  loop_inv w → loop_inv (assign this f w).
Proof.
  intros Hf [H1 H2 H3]. split; simpl.
  - intros m mg' t Ho' Hpt.
    apply alter_lookup_inv in Ho' as [[Hne Ho'] | [-> (mg & Ho & ->)]]; [eauto |].
    destruct (Hf mg Ho) as [Ep _]. rewrite Ep in Hpt. eauto.
  - intros t tm m Ht Hl Hcb. destruct (H2 t tm m Ht Hl Hcb) as (mg & Ho & Hpt).
    destruct (decide (this = m)) as [-> | Hne].
    + exists (f mg). rewrite list_lookup_alter_eq, Ho. split; [done |].
      destruct (Hf mg Ho) as [-> _]. done.
    + exists mg. by rewrite list_lookup_alter_ne.
  - intros m mg' t Ho' Hgt.
    apply alter_lookup_inv in Ho' as [[Hne Ho'] | [-> (mg & Ho & ->)]]; [eauto |].
    destruct (Hf mg Ho) as [_ [Eg | Eg]]; rewrite Eg in Hgt; [eauto | done].
Qed.

Ltac loop_flag := intros ? _; simpl; split; auto.

Lemma text_loop_new_object p w :
  loop_inv w → loop_inv (set_objects (alloc (new_ThreadStatusManager p)) w).
Proof.
  intros [H1 H2 H3]. split; simpl.
  - intros m mg t Ho Hpt. apply alloc_lookup_inv in Ho as [Ho | [_ ->]]; [eauto | done].
  - intros t tm m Ht Hl Hcb. destruct (H2 t tm m Ht Hl Hcb) as (mg & Ho & Hpt).
    exists mg. split; [by apply alloc_lookup_old | done].
  - intros m mg t Ho Hgt. apply alloc_lookup_inv in Ho as [Ho | [_ ->]]; [eauto | done].
Qed.

(** Cancelling a timeout leaves the interval timers alone. *)
Lemma text_loop_clear_timeout t tm m w :
  timers w !! t = Some tm → t_callback tm = GraceEnd m →
  loop_inv w → loop_inv (clearTimer t w).
Proof.
  intros Ht Hcb [H1 H2 H3]. split; simpl.
  - intros m' mg t' Ho Hpt. destruct (H1 m' mg t' Ho Hpt) as (tm' & Ht' & Hl' & Hcb').
    exists tm'. split; [| done]. rewrite list_lookup_alter_ne; [done |].
    intros ->. congruence.
  - intros t' tm' m' Ht' Hl' Hcb'.
    apply alter_lookup_inv in Ht' as [[Hne Ht'] | [-> (x & Hx & ->)]]; [eauto | done].
  - intros m' mg t' Ho Hgt. destruct (H3 m' mg t' Ho Hgt) as (tm' & m2 & Ht' & Hcb').
    destruct (decide (t = t')) as [-> | Hne].
    + exists (with_live false tm'), m2. by rewrite list_lookup_alter_eq, Ht'.
    + exists tm', m2. by rewrite list_lookup_alter_ne.
Qed.

Lemma text_loop_cancelGrace this w : loop_inv w → loop_inv (cancelGrace this w).
Proof.
  intros Hinv. unfold cancelGrace, method.
  destruct (objects w !! this) as [mg |] eqn:Ho; [| done].
  destruct (graceTimer mg) as [t |] eqn:Hgt; [| done].
  destruct (loop_grace w Hinv this mg t Ho Hgt) as (tm & m' & Ht & Hcb).
  apply text_loop_assign; [| by eapply text_loop_clear_timeout].
  intros mg' _. simpl. auto.
Qed.

Lemma text_loop_stopLoop this w : loop_inv w → loop_inv (stopLoop this w).
Proof.
  intros Hinv. unfold stopLoop, method.
  destruct (objects w !! this) as [mg |] eqn:Ho; [| done].
  destruct (pushTimer mg) as [t |] eqn:Hpt; [| done].
  destruct Hinv as [H1 H2 H3].
  destruct (H1 this mg t Ho Hpt) as (tm & Ht & Hl & Hcb).
  split; simpl.
  - intros m mg' t' Ho' Hpt'.
    apply alter_lookup_inv in Ho' as [[Hne Ho'] | [-> (x & Hx & ->)]]; [| done].
    destruct (H1 m mg' t' Ho' Hpt') as (tm' & Ht' & Hl' & Hcb').
    exists tm'. split; [| done]. rewrite list_lookup_alter_ne; [done |].
    intros ->. congruence.
  - intros t' tm' m Ht' Hl' Hcb'.
    apply alter_lookup_inv in Ht' as [[Hne Ht'] | [-> (x & Hx & ->)]]; [| done].
    destruct (H2 t' tm' m Ht' Hl' Hcb') as (mg' & Ho' & Hpt').
    assert (this ≠ m) by (intros ->; congruence).
    exists mg'. by rewrite list_lookup_alter_ne.
  - intros m mg' t' Ho' Hgt.
    assert (∃ x, objects w !! m = Some x ∧ graceTimer x = Some t') as (x & Hx & Hgx).
    { apply alter_lookup_inv in Ho' as [[Hne Ho'] | [-> (x & Hx & ->)]]; eauto. }
    destruct (H3 m x t' Hx Hgx) as (tm' & m2 & Ht' & Hcb').
    destruct (decide (t = t')) as [-> | Hne].
    + exists (with_live false tm'), m2. by rewrite list_lookup_alter_eq, Ht'.
    + exists tm', m2. by rewrite list_lookup_alter_ne.
Qed.

Lemma text_loop_destroy this w : loop_inv w → loop_inv (destroy this w).
Proof.
  intros Hinv. unfold destroy, method.
  assert (loop_inv (stopLoop this (cancelGrace this w)))
    by by apply text_loop_stopLoop, text_loop_cancelGrace.
  destruct (objects _ !! this) as [mg |]; [| done].
  by apply text_loop_set_managers.
Qed.

Lemma text_loop_stopAndDestroy this w : loop_inv w → loop_inv (stopAndDestroy this w).
Proof. intros Hinv. by apply text_loop_destroy, text_loop_stopLoop. Qed.

Lemma text_loop_pushOnce this text w : loop_inv w → loop_inv (pushOnce this text w).
Proof.
  intros Hinv. unfold pushOnce, call_pushFn, method.
  destruct (objects w !! this); [by apply text_loop_set_calls | done].
Qed.

Lemma text_loop_pushTick this w : loop_inv w → loop_inv (pushTick this w).
Proof.
  intros Hinv. unfold pushTick, call_pushFn, method.
  destruct (objects w !! this) as [mg |] eqn:Ho; [| done].
  destruct (pushing mg); [done |].
  assert (loop_inv (assign this (with_pushing true) w))
    by (apply text_loop_assign; [loop_flag | done]).
  destruct (objects (assign _ _ _) !! this); [by apply text_loop_set_calls | done].
Qed.

Lemma text_pushTick_pushTimer this w mg :
  objects w !! this = Some mg →
  ∃ mg', objects (pushTick this w) !! this = Some mg' ∧ pushTimer mg' = pushTimer mg.
Proof.
  intros Ho. unfold pushTick, call_pushFn, method. rewrite Ho.
  destruct (pushing mg); [by exists mg |].
  simpl. rewrite list_lookup_alter_eq, Ho. simpl.
  exists (with_pushing true mg). by rewrite list_lookup_alter_eq, Ho.
Qed.

Lemma text_pushTick_timers this w : timers (pushTick this w) = timers w.
Proof. unfold pushTick, call_pushFn, method. by repeat case_match. Qed.

Lemma text_loop_report_error this c ok w : loop_inv w → loop_inv (report_error this c ok w).
Proof.
  intros Hinv. unfold report_error, method. destruct ok; [done |].
  destruct (objects w !! this) as [mg |]; [| done].
  destruct (onError (params mg)); [by apply text_loop_set_onError_calls | done].
Qed.

(** Starting the interval of a manager whose loop is not running. *)
Lemma text_loop_start this mg ms w :
  objects w !! this = Some mg → pushTimer mg = None →
  loop_inv w →
  loop_inv (assign this (with_pushTimer (Some (length (timers w))))
              (setTimer (PushTick this) ms w)).
Proof.
  intros Ho Hnone [H1 H2 H3]. split; simpl.
  - intros m mg' t Ho' Hpt.
    apply alter_lookup_inv in Ho' as [[Hne Ho'] | [-> (x & Hx & ->)]].
    + destruct (H1 m mg' t Ho' Hpt) as (tm & Ht & Hrest).
      exists tm. split; [by apply alloc_lookup_old | done].
    + simpl in Hpt. injection Hpt as <-. eexists. split; [apply alloc_lookup_new | done].
  - intros t tm m Ht Hl Hcb. apply alloc_lookup_inv in Ht as [Ht | [-> ->]].
    + destruct (H2 t tm m Ht Hl Hcb) as (mg' & Ho' & Hpt).
      assert (this ≠ m) by (intros ->; congruence).
      exists mg'. by rewrite list_lookup_alter_ne.
    + simpl in Hcb. injection Hcb as <-. eexists.
      by rewrite list_lookup_alter_eq, Ho.
  - intros m mg' t Ho' Hgt.
    assert (∃ x, objects w !! m = Some x ∧ graceTimer x = Some t) as (x & Hx & Hgx).
    { apply alter_lookup_inv in Ho' as [[Hne Ho'] | [-> (x & Hx & ->)]]; eauto. }
    destruct (H3 m x t Hx Hgx) as (tm & m2 & Ht & Hcb).
    exists tm, m2. split; [by apply alloc_lookup_old | done].
Qed.

Lemma text_loop_startPushLoop this w :
  (∀ mg, objects w !! this = Some mg → pushTimer mg = None) →
  loop_inv w → loop_inv (startPushLoop this w).
Proof.
  intros Hnone Hinv. unfold startPushLoop, method.
  assert (Hinv1 : loop_inv (pushTick this w)) by by apply text_loop_pushTick.
  destruct (objects (pushTick this w) !! this) as [mg1 |] eqn:Ho1; [| done].
  assert (Hn1 : pushTimer mg1 = None).
  { destruct (objects w !! this) as [mg |] eqn:Ho.
    - destruct (text_pushTick_pushTimer this w mg Ho) as (x & Hx & Ex).
      rewrite Ho1 in Hx. injection Hx as <-. rewrite Ex. by apply Hnone.
    - unfold pushTick, method in Ho1. rewrite Ho in Ho1. congruence. }
  by apply (text_loop_start this mg1).
Qed.

(** Arming the grace timeout. *)
Lemma text_loop_grace_start this ms w :
  loop_inv w →
  loop_inv (assign this (with_graceTimer (Some (length (timers w))))
              (setTimer (GraceEnd this) ms w)).
Proof.
  intros [H1 H2 H3]. split; simpl.
  - intros m mg' t Ho' Hpt.
    assert (∃ x, objects w !! m = Some x ∧ pushTimer x = Some t) as (x & Hx & Hpx).
    { apply alter_lookup_inv in Ho' as [[Hne Ho'] | [-> (x & Hx & ->)]]; eauto. }
    destruct (H1 m x t Hx Hpx) as (tm & Ht & Hrest).
    exists tm. split; [by apply alloc_lookup_old | done].
  - intros t tm m Ht Hl Hcb. apply alloc_lookup_inv in Ht as [Ht | [_ ->]]; [| done].
    destruct (H2 t tm m Ht Hl Hcb) as (mg' & Ho' & Hpt).
    destruct (decide (this = m)) as [-> | Hne].
    + eexists. rewrite list_lookup_alter_eq, Ho'. done.
    + exists mg'. by rewrite list_lookup_alter_ne.
  - intros m mg' t Ho' Hgt.
    apply alter_lookup_inv in Ho' as [[Hne Ho'] | [-> (x & Hx & ->)]].
    + destruct (H3 m mg' t Ho' Hgt) as (tm & m2 & Ht & Hcb).
      exists tm, m2. split; [by apply alloc_lookup_old | done].
    + simpl in Hgt. injection Hgt as <-. eexists _, _.
      split; [apply alloc_lookup_new | done].
Qed.

Lemma text_loop_grace_end this w : loop_inv w → loop_inv (grace_end this w).
Proof.
  intros Hinv. unfold grace_end. apply text_loop_pushOnce.
  apply text_loop_assign; [loop_flag |]. apply text_loop_assign; [| done].
  intros mg _. simpl. auto.
Qed.

Lemma text_loop_releaseHandle this g w : loop_inv w → loop_inv (releaseHandle this g w).
Proof.
  intros Hinv. unfold releaseHandle, method.
  set (w1 := assign this _ w).
  assert (Hinv1 : loop_inv w1) by (apply text_loop_assign; [loop_flag | done]).
  destruct (objects w1 !! this) as [mg |] eqn:Ho; [| done].
  case_bool_decide; [done |].
  destruct (pushTimer mg) as [t |] eqn:Hpt; [| by apply text_loop_destroy].
  assert (Hclear : loop_inv (pushOnce this "" (assign this (with_currentText "") w1))).
  { apply text_loop_pushOnce. apply text_loop_assign; [loop_flag | done]. }
  assert (Hgrace : loop_inv
    (assign this (with_graceTimer (Some (length (timers
        (assign this (with_currentText (graceText (params mg))) w1)))))
       (setTimer (GraceEnd this) (graceMs (params mg))
          (assign this (with_currentText (graceText (params mg))) w1)))).
  { apply text_loop_grace_start. apply text_loop_assign; [loop_flag | done]. }
  destruct g as [[|] |]; done.
Qed.

Lemma text_loop_acquire this sg w : loop_inv w → loop_inv (acquire this sg w).
Proof.
  intros Hinv. unfold acquire. apply text_loop_set_handles.
  apply text_loop_cancelGrace. apply text_loop_assign; [loop_flag | done].
Qed.

Lemma text_loop_acquireThreadStatus a w : loop_inv w → loop_inv (acquireThreadStatus a w).
Proof.
  intros Hinv. unfold acquireThreadStatus.
  destruct (managers w !! a_key a) as [m |]; [by apply text_loop_acquire |].
  apply text_loop_acquire.
  apply text_loop_set_managers. by apply text_loop_new_object.
Qed.

Lemma text_loop_handle_setStatus h text w : loop_inv w → loop_inv (handle_setStatus h text w).
Proof.
  intros Hinv. unfold handle_setStatus, method.
  destruct (handles w !! h) as [hd |]; [| done].
  destruct (released hd); [done |].
  set (w1 := assign (h_mgr hd) (with_currentText text) w).
  assert (Hinv1 : loop_inv w1) by (apply text_loop_assign; [loop_flag | done]).
  destruct (objects w1 !! h_mgr hd) as [mg |] eqn:Ho; [| done].
  destruct (negb (bool_decide (text = "")) && negb (bool_decide (is_Some (pushTimer mg))))
    eqn:Hb; [| done].
  apply text_loop_startPushLoop; [| done].
  intros mg' Ho'. rewrite Ho in Ho'. injection Ho' as <-.
  apply andb_true_iff in Hb as [_ Hb]. apply negb_true_iff in Hb.
  apply bool_decide_eq_false_1 in Hb. destruct (pushTimer mg); [| done].
  exfalso. apply Hb. by eexists.
Qed.

Lemma text_loop_handle_release h answer w : loop_inv w → loop_inv (handle_release h answer w).
Proof.
  intros Hinv. unfold handle_release.
  destruct (handles w !! h) as [hd |]; [| done].
  destruct (released hd); [done |].
  apply text_loop_releaseHandle. by apply text_loop_set_handles.
Qed.

Lemma text_loop_timer_fires t w : loop_inv w → loop_inv (timer_fires t w).
Proof.
  intros Hinv. unfold timer_fires.
  destruct (timers w !! t) as [tm |] eqn:Ht; [| done].
  destruct (t_live tm); [| done].
  destruct (t_callback tm) as [m | m] eqn:Hcb; [by apply text_loop_pushTick |].
  apply text_loop_grace_end. by eapply text_loop_clear_timeout.
Qed.

Lemma text_loop_push_settles c ok w : loop_inv w → loop_inv (push_settles c ok w).
Proof.
  intros Hinv. unfold push_settles.
  destruct (calls w !! c) as [call |]; [| done].
  destruct (c_done call); [done |].
  assert (loop_inv (report_error (c_mgr call) c ok (set_calls (alter (with_done true) c) w))).
  { apply text_loop_report_error. by apply text_loop_set_calls. }
  destruct (c_site call); [| by apply text_loop_stopAndDestroy].
  apply text_loop_assign; [loop_flag | done].
Qed.

Lemma text_loop_step w e : loop_inv w → loop_inv (step w e).
Proof.
  intros Hinv. destruct e; simpl.
  - by apply text_loop_acquireThreadStatus.
  - by apply text_loop_handle_setStatus.
  - by apply text_loop_handle_release.
  - by apply text_loop_timer_fires.
  - by apply text_loop_push_settles.
Qed.

Lemma text_reachable_loop w : reachable w → loop_inv w.
Proof.
  intros [evs ->]. unfold run.
  induction evs as [| e evs IH] using rev_ind; simpl.
  - apply text_loop_init.
  - rewrite foldl_app. simpl. by apply text_loop_step.
Qed.

(** Timer housekeeping in the text variant.  In every reachable state the
    interval of a push loop is live exactly while its manager remembers
    it, so a manager runs at most one loop and every running loop can be
    stopped; the same holds of the grace timeout; and while a grace
    timeout is pending the manager has no holder and shows [graceText]. *)
Theorem text_timers_accounted (w : World) :
  reachable w →
  (∀ m mg t, objects w !! m = Some mg → pushTimer mg = Some t →
     ∃ tm, timers w !! t = Some tm ∧ t_live tm = true ∧ t_callback tm = PushTick m) ∧
  (∀ t tm m, timers w !! t = Some tm → t_live tm = true → t_callback tm = PushTick m →
     ∃ mg, objects w !! m = Some mg ∧ pushTimer mg = Some t) ∧
  (∀ t1 t2 tm1 tm2, timers w !! t1 = Some tm1 → timers w !! t2 = Some tm2 →
     t_live tm1 = true → t_live tm2 = true → t_callback tm1 = t_callback tm2 →
     t1 = t2) ∧
  (∀ m mg t, objects w !! m = Some mg → graceTimer mg = Some t →
     (∃ tm, timers w !! t = Some tm ∧ t_live tm = true ∧ t_callback tm = GraceEnd m) ∧
     activeHandles mg = 0 ∧ currentText mg = graceText (params mg) ∧
     ∀ h hd, handles w !! h = Some hd → h_mgr hd = m → released hd = true) ∧
  (∀ t tm m, timers w !! t = Some tm → t_live tm = true → t_callback tm = GraceEnd m →
     ∃ mg, objects w !! m = Some mg ∧ graceTimer mg = Some t).
Proof.
  intros Hreach. pose proof (text_reachable_loop w Hreach) as [H1 H2 H3].
  destruct (text_reachable_life w Hreach) as [_ Hlife].
  split; [exact H1 |]. split; [exact H2 |]. split; [| split].
  - intros t1 t2 tm1 tm2 Ht1 Ht2 Hl1 Hl2 Hcb.
    destruct (t_callback tm1) as [m | m] eqn:Hcb1.
    + destruct (H2 t1 tm1 m Ht1 Hl1 Hcb1) as (mg1 & Ho1 & Hp1).
      destruct (H2 t2 tm2 m Ht2 Hl2 (eq_sym Hcb)) as (mg2 & Ho2 & Hp2). congruence.
    + destruct (life_grace_timer w Hlife t1 tm1 m Ht1 Hl1 Hcb1) as (mg1 & Ho1 & Hp1).
      destruct (life_grace_timer w Hlife t2 tm2 m Ht2 Hl2 (eq_sym Hcb)) as (mg2 & Ho2 & Hp2).
      congruence.
  - intros m mg t Ho Hgt. destruct (life_grace w Hlife m mg t Ho Hgt) as [Htext Htm].
    assert (Hz : activeHandles mg = 0) by (apply (life_idle w Hlife m mg Ho); by eexists).
    split; [done |]. split; [done |]. split; [done |].
    intros h hd Hh Hm. destruct (released hd) eqn:Hr; [done |].
    rewrite <- Hm in Ho.
    destruct (text_live_no_grace w h hd mg Hlife Hh Hr Ho) as [_ Hpos]. lia.
  - apply (life_grace_timer w Hlife).
Qed.

(** In [grace_started] the loop interval 0 and the grace timeout 1 are
    both live and remembered. *)
Lemma text_timers_accounted_witness :
  ∃ mg, objects (grace_started sample_acquire) !! 0%nat = Some mg ∧
        pushTimer mg = Some 0%nat ∧ graceTimer mg = Some 1%nat ∧ activeHandles mg = 0.
Proof.
  assert (Hr : reachable (grace_started sample_acquire)) by by eexists.
  destruct (text_timers_accounted _ Hr) as (_ & Hpt & _ & Hg & Hgt).
  destruct (Hpt 0%nat _ 0%nat eq_refl eq_refl eq_refl) as (mg & Ho & Hp).
  destruct (Hgt 1%nat _ 0%nat eq_refl eq_refl eq_refl) as (mg' & Ho' & Hg').
  rewrite Ho in Ho'. injection Ho' as <-.
  destruct (Hg 0%nat mg 1%nat Ho Hg') as (_ & Hz & _).
  by exists mg.
Defined.

End TextFacts.

(** ** The typing controller (createTypingController) *)
Module TypingFacts.
Import Typing.

Section Sealed.
Variable trim : string → string.
Variable isSilentReplyText : string → string → bool.
Variable cfg : Params.

Lemma typing_maybeStopOnIdle_sealed s : sealed s = true → maybeStopOnIdle cfg s = s.
Proof.
  intros Hs. unfold maybeStopOnIdle, cleanup. rewrite Hs.
  destruct (active s); simpl; [| done]. by destruct (runComplete s && dispatchIdle s).
Qed.

(** The operations on a sealed controller, and the tick of a typing
    interval. *)
Lemma typing_sealed_perform (s : Controller) :
  sealed s = true →
  (∀ op, op ≠ ResetForFollowup → op ≠ MarkRunComplete → op ≠ MarkDispatchIdle →
         perform trim isSilentReplyText cfg op s = s) ∧
  perform trim isSilentReplyText cfg MarkRunComplete s = with_runComplete true s ∧
  perform trim isSilentReplyText cfg MarkDispatchIdle s = with_dispatchIdle true s ∧
  (∀ op, op ≠ ResetForFollowup →
         sealed (perform trim isSilentReplyText cfg op s) = true ∧
         invoked (perform trim isSilentReplyText cfg op s) = invoked s) ∧
  isActive s = false ∧
  (∀ t tm, timers s !! t = Some tm → t_kind tm = TriggerInterval →
           timer_fires cfg t s = s).
Proof.
  intros Hs.
  assert (Hrun : markRunComplete cfg s = with_runComplete true s).
  { unfold markRunComplete. by rewrite typing_maybeStopOnIdle_sealed. }
  assert (Hidle : markDispatchIdle cfg s = with_dispatchIdle true s).
  { unfold markDispatchIdle. rewrite typing_maybeStopOnIdle_sealed by done. simpl.
    rewrite Hs. simpl. by rewrite andb_false_r. }
  assert (Hothers : ∀ op, op ≠ ResetForFollowup → op ≠ MarkRunComplete →
            op ≠ MarkDispatchIdle → perform trim isSilentReplyText cfg op s = s).
  { intros op H1 H2 H3. destruct op; simpl; try done.
    - unfold ensureStart. by rewrite Hs.
    - unfold startThinkingLoop. by rewrite Hs.
    - unfold startTypingLoop. by rewrite Hs.
    - unfold startTypingOnText. by rewrite Hs.
    - unfold refreshTypingTtl. by rewrite Hs.
    - unfold transitionToFollowup. by rewrite Hs.
    - unfold cleanup. by rewrite Hs. }
  split; [done |]. split; [done |]. split; [done |]. split; [| split].
  - intros op Hop.
    destruct op; try done;
      first [ by rewrite Hothers | simpl; by rewrite Hrun | simpl; by rewrite Hidle ].
  - unfold isActive. rewrite Hs. apply andb_false_r.
  - intros t tm Ht Hk. unfold timer_fires. rewrite Ht, Hk.
    destruct (t_live tm); [| done]. unfold triggerTyping. by rewrite Hs.
Qed.

End Sealed.

(** C9 as the specification words it: on a sealed controller
    markRunComplete() and markDispatchIdle() still write their flags. *)
Lemma sealed_flags_still_written :
  sealed sealed_controller = true ∧
  runComplete sealed_controller = false ∧
  runComplete (perform sample_trim sample_isSilentReplyText sample_params
                 MarkRunComplete sealed_controller) = true ∧
  dispatchIdle sealed_controller = false ∧
  dispatchIdle (perform sample_trim sample_isSilentReplyText sample_params
                  MarkDispatchIdle sealed_controller) = true.
Proof. vm_compute. done. Qed.

Lemma typing_calm_refl s : calm s s.
Proof. by repeat split. Qed.

Lemma typing_calm_trans s1 s2 s3 : calm s1 s2 → calm s2 s3 → calm s1 s3.
Proof.
  intros (E1 & C1 & F1) (E2 & C2 & F2). split; [congruence |]. split; [congruence |].
  intros Hs. destruct (F1 Hs) as (? & ? & ? & ? & ?).
  destruct F2 as (? & ? & ? & ? & ?); [congruence |]. repeat split; congruence.
Qed.

Lemma typing_calm_open s s' :
  sealed s = false → sealed s' = false → cleanups s' = cleanups s → calm s s'.
Proof. intros Hs Hs' Hc. split; [congruence |]. split; [done |]. congruence. Qed.

Lemma typing_seals_calm_l s1 s2 s3 : calm s1 s2 → seals_or_calm s2 s3 → seals_or_calm s1 s3.
Proof.
  intros Hc [Hc' | (Hs & Hs' & Hn & Hf)]; [left; by eapply typing_calm_trans |].
  right. destruct Hc as (E & C & _). rewrite <- C, <- E. done.
Qed.

Lemma typing_seals_calm_r s1 s2 s3 : seals_or_calm s1 s2 → calm s2 s3 → seals_or_calm s1 s3.
Proof.
  intros [Hc | (Hs & Hs' & Hn & Hf)] Hc'; [left; by eapply typing_calm_trans |].
  right. destruct Hc' as (E & C & F). destruct (F Hs') as (? & ? & ? & ? & ?).
  destruct Hf as (? & ? & ? & ? & ?).
  split; [done |]. split; [congruence |]. split; [lia |]. repeat split; congruence.
Qed.

Lemma typing_cleanups_invoke cb s :
  cleanups (invoke cb s) = (cleanups s + (if is_cleanup cb then 1 else 0))%nat.
Proof.
  unfold cleanups, invoke, alloc. simpl. rewrite filter_app, length_app.
  f_equal. destruct cb; reflexivity.
Qed.

Lemma typing_calm_invoke_opt b cb s : is_cleanup cb = false → calm s (invoke_opt b cb s).
Proof.
  intros Hcb. unfold invoke_opt. destruct b; [| apply typing_calm_refl].
  split; [done |]. split; [| done]. rewrite typing_cleanups_invoke, Hcb. lia.
Qed.

(** Assignments to the fields other than [sealed] and the callback log. *)
Lemma typing_calm_fields s s' :
  sealed s' = sealed s → invoked s' = invoked s →
  (sealed s = true →
     active s' = active s ∧ started s' = started s ∧ phase s' = phase s ∧
     transitioning s' = transitioning s ∧ typingTtlTimer s' = typingTtlTimer s) →
  calm s s'.
Proof. intros Hs Hi Hf. split; [done |]. split; [| done]. unfold cleanups. by rewrite Hi. Qed.

Section Cycle.
Variable trim : string → string.
Variable isSilentReplyText : string → string → bool.
Variable cfg : Params.

Lemma typing_calm_triggerTyping s : calm s (triggerTyping cfg s).
Proof.
  unfold triggerTyping. destruct (sealed s); [apply typing_calm_refl |].
  by apply typing_calm_invoke_opt.
Qed.

Lemma typing_calm_refreshTypingTtl s : calm s (refreshTypingTtl cfg s).
Proof.
  unfold refreshTypingTtl. destruct (sealed s) eqn:Hs; [apply typing_calm_refl |].
  repeat case_match; try apply typing_calm_refl.
  all: apply typing_calm_open; done.
Qed.

Lemma typing_calm_ensureStart s : calm s (ensureStart cfg s).
Proof.
  unfold ensureStart. destruct (sealed s) eqn:Hs; [apply typing_calm_refl |].
  destruct (runComplete s); [apply typing_calm_refl |].
  set (s1 := if negb (active s) then with_active true s else s).
  assert (H1 : calm s s1).
  { unfold s1. destruct (negb (active s)); [| apply typing_calm_refl].
    by apply typing_calm_open. }
  destruct (started s1); [done |].
  eapply typing_calm_trans; [exact H1 |].
  eapply typing_calm_trans; [| apply typing_calm_triggerTyping].
  destruct H1 as (E1 & _). apply typing_calm_open; [congruence | simpl; congruence | done].
Qed.

Lemma typing_calm_await s : calm s (await_ensureStart_then_arm cfg s).
Proof.
  unfold await_ensureStart_then_arm.
  eapply typing_calm_trans; [apply typing_calm_ensureStart |].
  apply typing_calm_fields; try done; intros ?; by repeat split.
Qed.

Lemma typing_calm_set_phase p s :
  sealed s = false →
  calm s (invoke_opt (has_onPhaseChange cfg) (CbPhaseChange p) (with_phase (Some p) s)).
Proof.
  intros Hs. eapply typing_calm_trans; [| by apply typing_calm_invoke_opt].
  by apply typing_calm_open.
Qed.

Lemma typing_calm_startThinkingLoop s : calm s (startThinkingLoop cfg s).
Proof.
  unfold startThinkingLoop. destruct (sealed s) eqn:Hs; [apply typing_calm_refl |].
  destruct (runComplete s); [apply typing_calm_refl |].
  set (s1 := match phase s with None => _ | Some _ => s end).
  assert (H1 : calm s s1).
  { unfold s1. destruct (phase s); [apply typing_calm_refl | by apply typing_calm_set_phase]. }
  assert (H2 : calm s (refreshTypingTtl cfg s1))
    by (eapply typing_calm_trans; [exact H1 | apply typing_calm_refreshTypingTtl]).
  repeat case_match; try done.
  eapply typing_calm_trans; [exact H2 | apply typing_calm_await].
Qed.

Lemma typing_calm_startTypingLoop s : calm s (startTypingLoop cfg s).
Proof.
  unfold startTypingLoop. destruct (sealed s) eqn:Hs; [apply typing_calm_refl |].
  destruct (runComplete s); [apply typing_calm_refl |].
  set (s1 := match phase s with Some ph_typing => s | _ => _ end).
  assert (H1 : calm s s1).
  { unfold s1. destruct (phase s) as [[|] |];
      [by apply typing_calm_set_phase | apply typing_calm_refl |
       by apply typing_calm_set_phase]. }
  assert (H2 : calm s (refreshTypingTtl cfg s1))
    by (eapply typing_calm_trans; [exact H1 | apply typing_calm_refreshTypingTtl]).
  repeat case_match; try done.
  - eapply typing_calm_trans; [exact H2 | apply typing_calm_triggerTyping].
  - eapply typing_calm_trans; [exact H2 | apply typing_calm_await].
Qed.

Lemma typing_calm_startTypingOnText text s :
  calm s (startTypingOnText trim isSilentReplyText cfg text s).
Proof.
  unfold startTypingOnText. repeat case_match; try apply typing_calm_refl.
  eapply typing_calm_trans; [apply typing_calm_refreshTypingTtl |].
  apply typing_calm_startTypingLoop.
Qed.

Lemma typing_calm_transitionToFollowup s : calm s (transitionToFollowup cfg s).
Proof.
  unfold transitionToFollowup. destruct (sealed s) eqn:Hs; [apply typing_calm_refl |].
  set (s1 := with_transitioning true (with_runComplete false (with_started false s))).
  assert (H1 : calm s s1) by by apply typing_calm_open.
  set (s2 := if bool_decide (phase s1 = Some ph_thinking) then s1 else _).
  assert (H2 : calm s s2).
  { unfold s2. case_bool_decide; [done |].
    eapply typing_calm_trans; [exact H1 |].
    eapply typing_calm_trans; [| apply typing_calm_triggerTyping].
    by apply typing_calm_set_phase. }
  destruct (has_onReplyStart cfg && bool_decide (0 < typingIntervalMs cfg)); [| done].
  eapply typing_calm_trans; [exact H2 |].
  destruct (typingTimer s2); apply typing_calm_fields; try done; intros ?; by repeat split.
Qed.

(** [cleanup] seals an open controller and calls [onCleanup] at most once. *)
Lemma typing_seals_cleanup s : seals_or_calm s (cleanup cfg s).
Proof.
  unfold cleanup. destruct (sealed s) eqn:Hs; [left; apply typing_calm_refl |].
  right. split; [done |]. split; [done |]. split.
  - unfold clear_typingTtlTimer, clear_typingTimer, invoke_opt.
    repeat case_match; unfold cleanups, invoke; simpl; unfold alloc;
      rewrite ?filter_app, ?length_app; simpl; lia.
  - unfold reset_flags, clear_typingTtlTimer, clear_typingTimer, invoke_opt.
    repeat case_match; simpl in *; by repeat split.
Qed.

Lemma typing_seals_maybeStopOnIdle s : seals_or_calm s (maybeStopOnIdle cfg s).
Proof.
  unfold maybeStopOnIdle. repeat case_match; try (left; apply typing_calm_refl).
  apply typing_seals_cleanup.
Qed.

Lemma typing_seals_markRunComplete s : seals_or_calm s (markRunComplete cfg s).
Proof.
  unfold markRunComplete.
  eapply typing_seals_calm_l; [| apply typing_seals_maybeStopOnIdle].
  apply typing_calm_fields; try done; intros ?; by repeat split.
Qed.

Lemma typing_seals_markDispatchIdle s : seals_or_calm s (markDispatchIdle cfg s).
Proof.
  unfold markDispatchIdle.
  set (s1 := maybeStopOnIdle cfg (with_dispatchIdle true s)).
  assert (H1 : seals_or_calm s s1).
  { eapply typing_seals_calm_l; [| apply typing_seals_maybeStopOnIdle].
    apply typing_calm_fields; try done; intros ?; by repeat split. }
  destruct (transitioning s1 && active s1 && negb (sealed s1)) eqn:Hb; [| done].
  eapply typing_seals_calm_r; [exact H1 |].
  eapply typing_calm_trans; [| apply typing_calm_triggerTyping].
  apply andb_true_iff in Hb as [_ Hb]. apply negb_true_iff in Hb.
  by apply typing_calm_open.
Qed.

Lemma typing_seals_timer_fires t s : seals_or_calm s (timer_fires cfg t s).
Proof.
  unfold timer_fires. destruct (timers s !! t) as [tm |]; [| left; apply typing_calm_refl].
  destruct (t_live tm); [| left; apply typing_calm_refl].
  destruct (t_kind tm); [left; apply typing_calm_triggerTyping |].
  unfold ttl_expires.
  assert (H1 : calm s (clearTimer t s)).
  { apply typing_calm_fields; try done; intros ?; by repeat split. }
  destruct (typingTimer (clearTimer t s)); [| by left].
  eapply typing_seals_calm_l; [| apply typing_seals_cleanup].
  eapply typing_calm_trans; [exact H1 |]. by apply typing_calm_invoke_opt.
Qed.

Lemma typing_calm_resume i ok s : calm s (resume cfg i ok s).
Proof.
  unfold resume. repeat case_match; try apply typing_calm_refl.
  all: apply typing_calm_fields; try done; intros ?; by repeat split.
Qed.

(** What one event does: it resets the controller, or it is calm, or it
    seals an open controller. *)
Lemma typing_step_effect s e :
  let s' := step trim isSilentReplyText cfg s e in
  (is_reset e = true ∧ sealed s' = false ∧ cleanups s' = cleanups s) ∨
  (is_reset e = false ∧ seals_or_calm s s').
Proof.
  destruct e as [op | t | i ok]; simpl.
  - destruct op; simpl.
    9: { left. unfold resetForFollowup, clear_typingTimer, clear_typingTtlTimer.
         repeat split. by repeat case_match. }
    all: right; split; [done |].
    + left. apply typing_calm_ensureStart.
    + left. apply typing_calm_startThinkingLoop.
    + left. apply typing_calm_startTypingLoop.
    + left. apply typing_calm_startTypingOnText.
    + left. apply typing_calm_refreshTypingTtl.
    + apply typing_seals_markRunComplete.
    + apply typing_seals_markDispatchIdle.
    + left. apply typing_calm_transitionToFollowup.
    + apply typing_seals_cleanup.
  - right. split; [done |]. apply typing_seals_timer_fires.
  - right. split; [done |]. left. apply typing_calm_resume.
Qed.

Lemma typing_resets_snoc evs e :
  resets (evs ++ [e]) = (resets evs + (if is_reset e then 1 else 0))%nat.
Proof.
  unfold resets. rewrite filter_app, length_app. f_equal.
  destruct e as [[] | |]; reflexivity.
Qed.

Lemma typing_run_snoc evs e :
  run trim isSilentReplyText cfg (evs ++ [e])
  = step trim isSilentReplyText cfg (run trim isSilentReplyText cfg evs) e.
Proof. unfold run. by rewrite foldl_app. Qed.

Lemma typing_run_cycle (evs : list event) :
  (cleanups (run trim isSilentReplyText cfg evs)
   ≤ resets evs + (if sealed (run trim isSilentReplyText cfg evs) then 1 else 0))%nat ∧
  (sealed (run trim isSilentReplyText cfg evs) = true →
   reset_flags (run trim isSilentReplyText cfg evs)).
Proof.
  induction evs as [| e evs IH] using rev_ind; [by split |].
  rewrite typing_run_snoc, typing_resets_snoc. destruct IH as [Hn Hf].
  set (s := run trim isSilentReplyText cfg evs) in *.
  destruct (typing_step_effect s e) as [(-> & Hs' & Hc) | (-> & [Hcalm | Hseal])].
  - rewrite Hs', Hc. split; [destruct (sealed s); lia | done].
  - destruct Hcalm as (Es & Ec & Ef). rewrite Es, Ec. split; [lia |].
    intros Hs. destruct (Ef Hs) as (? & ? & ? & ? & ?).
    destruct (Hf Hs) as (? & ? & ? & ? & ?). repeat split; congruence.
  - destruct Hseal as (Hs & Hs' & Hc & Hfl). rewrite Hs', Hs in *. split; [lia | done].
Qed.

(** [onCleanup] and the life cycle of the typing controller.  Whatever
    the callers do and whichever timers fire, [onCleanup] has been called
    at most once per cycle: at most once more than [resetForFollowup] was
    called, and not more often than that unless the controller is sealed.
    A sealed controller is inactive, not started, without a phase, not in
    transition and without a TTL timeout; no single event calls
    [onCleanup] twice, and on a sealed controller no event calls it. *)
Theorem onCleanup_once_per_cycle (evs : list event) :
  let s := run trim isSilentReplyText cfg evs in
  (cleanups s ≤ resets evs + (if sealed s then 1 else 0))%nat ∧
  (sealed s = true →
     active s = false ∧ started s = false ∧ phase s = None ∧ transitioning s = false ∧
     typingTtlTimer s = None ∧ isActive s = false) ∧
  (∀ e, (cleanups (step trim isSilentReplyText cfg s e) ≤ cleanups s + 1)%nat ∧
        (sealed s = true → cleanups (step trim isSilentReplyText cfg s e) = cleanups s)).
Proof.
  simpl. destruct (typing_run_cycle evs) as [Hn Hf]. split; [done |]. split.
  - intros Hs. destruct (Hf Hs) as (Ha & ? & ? & ? & ?). repeat split; try done.
    unfold isActive. by rewrite Ha.
  - intros e.
    destruct (typing_step_effect (run trim isSilentReplyText cfg evs) e)
      as [(_ & Hs' & Hc) | (_ & [Hcalm | Hseal])].
    + simpl in Hc. rewrite Hc. split; [lia | done].
    + destruct Hcalm as (_ & Ec & _). rewrite Ec. split; [lia | done].
    + destruct Hseal as (Hs & _ & Hc & _). split; [done |]. congruence.
Qed.

Lemma typing_timers_fields s s' :
  timers s' = timers s → typingTtlTimer s' = typingTtlTimer s → parked s' = parked s →
  timers_ok cfg s → timers_ok cfg s'.
Proof. intros Et Ett Ep [H1 H2 H3 H4]. split; rewrite ?Et, ?Ett, ?Ep; done. Qed.

Lemma typing_timers_clearTimer t s : timers_ok cfg s → timers_ok cfg (clearTimer t s).
Proof.
  intros [H1 H2 H3 H4]. split; simpl; [| | | done].
  - intros t' tm' Ht' Hl Hk.
    apply alter_lookup_inv in Ht' as [[Hne Ht'] | [-> (x & Hx & ->)]]; [eauto | done].
  - intros t' tm' Ht' Hk.
    apply alter_lookup_inv in Ht' as [[Hne Ht'] | [-> (x & Hx & ->)]]; [eauto |].
    simpl in *. eauto.
  - intros t' tm' Ht' Hk.
    apply alter_lookup_inv in Ht' as [[Hne Ht'] | [-> (x & Hx & ->)]]; [eauto |].
    simpl in *. eauto.
Qed.

Lemma typing_timers_arm_interval ms s :
  0 < ms ≤ typingIntervalMs cfg →
  timers_ok cfg s →
  timers_ok cfg (with_typingTimer (Some (length (timers s))) (setTimer TriggerInterval ms s)).
Proof.
  intros Hms [H1 H2 H3 H4]. split; simpl; [| | | done].
  - intros t tm Ht Hl Hk. apply alloc_lookup_inv in Ht as [Ht | [_ ->]]; [eauto | done].
  - intros t tm Ht Hk. apply alloc_lookup_inv in Ht as [Ht | [_ ->]]; [eauto | done].
  - intros t tm Ht Hk. apply alloc_lookup_inv in Ht as [Ht | [_ ->]]; [eauto | done].
Qed.

Lemma typing_timers_forget_ttl s : timers_ok cfg s → timers_ok cfg (clear_typingTtlTimer s).
Proof.
  intros Hok. unfold clear_typingTtlTimer. destruct (typingTtlTimer s) as [t |] eqn:Ett; [| done].
  pose proof (typing_timers_clearTimer t s Hok) as [H1 H2 H3 H4].
  split; simpl; [| done..].
  intros t' tm' Ht' Hl Hk. exfalso.
  pose proof (H1 t' tm' Ht' Hl Hk) as E. simpl in E. rewrite Ett in E. injection E as ->.
  simpl in Ht'. rewrite list_lookup_alter_eq in Ht'.
  destruct (timers s !! t'); simpl in Ht'; [| done]. injection Ht' as <-. done.
Qed.

Lemma typing_timers_forget_interval s : timers_ok cfg s → timers_ok cfg (clear_typingTimer s).
Proof.
  intros Hok. unfold clear_typingTimer. destruct (typingTimer s) as [t |]; [| done].
  apply (typing_timers_fields (clearTimer t s)); try done.
  by apply typing_timers_clearTimer.
Qed.

Lemma typing_timers_refreshTypingTtl s : timers_ok cfg s → timers_ok cfg (refreshTypingTtl cfg s).
Proof.
  intros Hok. unfold refreshTypingTtl. destruct (sealed s); [done |].
  destruct (bool_decide (typingIntervalMs cfg = 0) || bool_decide (typingIntervalMs cfg ≤ 0));
    [done |].
  case_bool_decide as Hpos; [done |].
  pose proof (typing_timers_forget_ttl s Hok) as Hforget. unfold clear_typingTtlTimer in Hforget.
  set (s1 := match typingTtlTimer s with Some t => clearTimer t s | None => s end).
  assert (Hs1 : timers_ok cfg (with_typingTtlTimer None s1)).
  { unfold s1. destruct (typingTtlTimer s) eqn:Ett; [done |].
    apply (typing_timers_fields s); try done. }
  destruct Hs1 as [H1 H2 H3 H4]. split; simpl in *; [| | | done].
  - intros t tm Ht Hl Hk. apply alloc_lookup_inv in Ht as [Ht | [-> _]]; [| done].
    by specialize (H1 t tm Ht Hl Hk).
  - intros t tm Ht Hk. apply alloc_lookup_inv in Ht as [Ht | [_ ->]]; [eauto |].
    simpl. split; [done | lia].
  - intros t tm Ht Hk. apply alloc_lookup_inv in Ht as [Ht | [_ ->]]; [eauto | done].
Qed.

Lemma typing_timers_cleanup s : timers_ok cfg s → timers_ok cfg (cleanup cfg s).
Proof.
  intros Hok. unfold cleanup. destruct (sealed s); [done |].
  set (s2 := clear_typingTimer (clear_typingTtlTimer s)).
  assert (H2 : timers_ok cfg s2)
    by by apply typing_timers_forget_interval, typing_timers_forget_ttl.
  apply (typing_timers_fields s2); try done.
  all: unfold invoke_opt; by repeat case_match.
Qed.

Lemma typing_triggerTyping_timers s :
  timers (triggerTyping cfg s) = timers s ∧
  typingTtlTimer (triggerTyping cfg s) = typingTtlTimer s ∧
  parked (triggerTyping cfg s) = parked s.
Proof. unfold triggerTyping, invoke_opt. by repeat case_match. Qed.

Lemma typing_timers_triggerTyping s : timers_ok cfg s → timers_ok cfg (triggerTyping cfg s).
Proof.
  destruct (typing_triggerTyping_timers s) as (? & ? & ?). by apply typing_timers_fields.
Qed.

Lemma typing_timers_ensureStart s : timers_ok cfg s → timers_ok cfg (ensureStart cfg s).
Proof.
  intros Hok. unfold ensureStart. repeat case_match; try done.
  all: try (by apply (typing_timers_fields s)).
  all: apply typing_timers_triggerTyping.
  all: by apply (typing_timers_fields s).
Qed.

Lemma typing_timers_await s :
  0 < typingIntervalMs cfg →
  timers_ok cfg s → timers_ok cfg (await_ensureStart_then_arm cfg s).
Proof.
  intros Hpos Hok. unfold await_ensureStart_then_arm.
  destruct (typing_timers_ensureStart s Hok) as [H1 H2 H3 H4]. by split.
Qed.

Lemma typing_timers_invoke_opt b cb s : timers_ok cfg s → timers_ok cfg (invoke_opt b cb s).
Proof. intros Hok. unfold invoke_opt. destruct b; [| done]. by apply (typing_timers_fields s). Qed.

Lemma typing_timers_startThinkingLoop s :
  timers_ok cfg s → timers_ok cfg (startThinkingLoop cfg s).
Proof.
  intros Hok. unfold startThinkingLoop. destruct (sealed s); [done |].
  destruct (runComplete s); [done |].
  set (s1 := match phase s with None => _ | Some _ => s end).
  assert (H1 : timers_ok cfg s1).
  { unfold s1. destruct (phase s); [done |].
    apply typing_timers_invoke_opt. by apply (typing_timers_fields s). }
  assert (H2 : timers_ok cfg (refreshTypingTtl cfg s1))
    by by apply typing_timers_refreshTypingTtl.
  destruct (negb (has_onReplyStart cfg)); [done |].
  case_bool_decide as Hpos; [done |].
  destruct (typingTimer _); [done |]. apply typing_timers_await; [lia | done].
Qed.

Lemma typing_timers_startTypingLoop s :
  timers_ok cfg s → timers_ok cfg (startTypingLoop cfg s).
Proof.
  intros Hok. unfold startTypingLoop. destruct (sealed s); [done |].
  destruct (runComplete s); [done |].
  set (s1 := match phase s with Some ph_typing => s | _ => _ end).
  assert (H1 : timers_ok cfg s1).
  { unfold s1. destruct (phase s) as [[|] |]; [| done |].
    all: apply typing_timers_invoke_opt; by apply (typing_timers_fields s). }
  assert (H2 : timers_ok cfg (refreshTypingTtl cfg s1))
    by by apply typing_timers_refreshTypingTtl.
  destruct (negb (has_onReplyStart cfg)); [done |].
  case_bool_decide as Hpos; [done |].
  destruct (typingTimer _).
  - destruct (bool_decide _); [by apply typing_timers_triggerTyping | done].
  - apply typing_timers_await; [lia | done].
Qed.

Lemma typing_timers_startTypingOnText text s :
  timers_ok cfg s → timers_ok cfg (startTypingOnText trim isSilentReplyText cfg text s).
Proof.
  intros Hok. unfold startTypingOnText. repeat case_match; try done.
  by apply typing_timers_startTypingLoop, typing_timers_refreshTypingTtl.
Qed.

Lemma typing_timers_maybeStopOnIdle s : timers_ok cfg s → timers_ok cfg (maybeStopOnIdle cfg s).
Proof.
  intros Hok. unfold maybeStopOnIdle. repeat case_match; try done.
  by apply typing_timers_cleanup.
Qed.

Lemma typing_timers_markDispatchIdle s : timers_ok cfg s → timers_ok cfg (markDispatchIdle cfg s).
Proof.
  intros Hok. unfold markDispatchIdle.
  set (s1 := maybeStopOnIdle cfg (with_dispatchIdle true s)).
  assert (H1 : timers_ok cfg s1).
  { apply typing_timers_maybeStopOnIdle. by apply (typing_timers_fields s). }
  destruct (_ && _); [| done].
  apply typing_timers_triggerTyping. by apply (typing_timers_fields s1).
Qed.

Lemma typing_timers_transitionToFollowup s :
  timers_ok cfg s → timers_ok cfg (transitionToFollowup cfg s).
Proof.
  intros Hok. unfold transitionToFollowup. destruct (sealed s); [done |].
  set (s1 := with_transitioning true (with_runComplete false (with_started false s))).
  assert (H1 : timers_ok cfg s1) by by apply (typing_timers_fields s).
  set (s2 := if bool_decide (phase s1 = Some ph_thinking) then s1 else _).
  assert (H2 : timers_ok cfg s2).
  { unfold s2. case_bool_decide; [done |].
    apply typing_timers_triggerTyping, typing_timers_invoke_opt.
    by apply (typing_timers_fields s1). }
  destruct (has_onReplyStart cfg); simpl; [| done].
  case_bool_decide as Hpos; [| done].
  destruct (typingTimer s2) as [t |].
  - pose proof (typing_timers_arm_interval (Z.min (typingIntervalMs cfg) 2000)
                  (clearTimer t s2)) as Harm.
    apply Harm; [lia | by apply typing_timers_clearTimer].
  - apply typing_timers_arm_interval; [lia | done].
Qed.

Lemma typing_timers_resetForFollowup s :
  timers_ok cfg s → timers_ok cfg (resetForFollowup s).
Proof.
  intros Hok. unfold resetForFollowup.
  set (s1 := clear_typingTimer (clear_typingTtlTimer s)).
  assert (H1 : timers_ok cfg s1)
    by by apply typing_timers_forget_interval, typing_timers_forget_ttl.
  by apply (typing_timers_fields s1).
Qed.

Lemma typing_timers_timer_fires t s : timers_ok cfg s → timers_ok cfg (timer_fires cfg t s).
Proof.
  intros Hok. unfold timer_fires. destruct (timers s !! t) as [tm |]; [| done].
  destruct (t_live tm); [| done].
  destruct (t_kind tm); [by apply typing_timers_triggerTyping |].
  unfold ttl_expires.
  assert (H1 : timers_ok cfg (clearTimer t s)) by by apply typing_timers_clearTimer.
  destruct (typingTimer (clearTimer t s)); [| done].
  by apply typing_timers_cleanup, typing_timers_invoke_opt.
Qed.

Lemma typing_timers_resume i ok s : timers_ok cfg s → timers_ok cfg (resume cfg i ok s).
Proof.
  intros Hok. unfold resume. destruct (parked s !! i) as [p |] eqn:Hp; [| done].
  destruct (p_done p); [done |].
  pose proof (parked_interval cfg s Hok i p Hp) as Hpos.
  set (s1 := set_parked (alter (with_done true) i) s).
  assert (H1 : timers_ok cfg s1).
  { destruct Hok as [H1 H2 H3 H4]. split; try done. }
  destruct (ok || negb (on_call p)); [| done].
  apply (typing_timers_arm_interval (typingIntervalMs cfg) s1); [lia | done].
Qed.

Lemma typing_timers_step s e :
  timers_ok cfg s → timers_ok cfg (step trim isSilentReplyText cfg s e).
Proof.
  intros Hok. destruct e as [op | t | i ok]; simpl.
  - destruct op; simpl.
    + by apply typing_timers_ensureStart.
    + by apply typing_timers_startThinkingLoop.
    + by apply typing_timers_startTypingLoop.
    + by apply typing_timers_startTypingOnText.
    + by apply typing_timers_refreshTypingTtl.
    + apply typing_timers_maybeStopOnIdle. by apply (typing_timers_fields s).
    + by apply typing_timers_markDispatchIdle.
    + by apply typing_timers_transitionToFollowup.
    + by apply typing_timers_resetForFollowup.
    + by apply typing_timers_cleanup.
  - by apply typing_timers_timer_fires.
  - by apply typing_timers_resume.
Qed.

Lemma typing_run_timers (evs : list event) :
  timers_ok cfg (run trim isSilentReplyText cfg evs).
Proof.
  induction evs as [| e evs IH] using rev_ind; [by split |].
  rewrite typing_run_snoc. by apply typing_timers_step.
Qed.

(** The timers of the typing controller, for whole numbers of seconds and
    milliseconds in its parameters.  Whatever the callers do and
    whichever timers fire: at most one TTL timeout is pending, and it is
    the one [typingTtlTimer] holds, so every refresh replaces it and
    [cleanup] cancels it; a sealed controller has none pending.  Every TTL
    timeout is armed with [typingTtlMs] and every trigger interval with at
    most the typing interval, none with zero or a negative delay.  The
    runtime runs a TTL timeout for [typingTtlMs] when that is at most
    2^31 - 1 ms, and for 1 ms when it is more. *)
Theorem at_most_one_ttl_timeout (evs : list event) :
  let s := run trim isSilentReplyText cfg evs in
  (∀ t tm, timers s !! t = Some tm → t_live tm = true → t_kind tm = TtlTimeout →
           typingTtlTimer s = Some t) ∧
  (∀ t1 t2 tm1 tm2, timers s !! t1 = Some tm1 → timers s !! t2 = Some tm2 →
     t_live tm1 = true → t_live tm2 = true →
     t_kind tm1 = TtlTimeout → t_kind tm2 = TtlTimeout → t1 = t2) ∧
  (sealed s = true →
     ∀ t tm, timers s !! t = Some tm → t_kind tm = TtlTimeout → t_live tm = false) ∧
  (∀ t tm, timers s !! t = Some tm →
     0 < t_ms tm ∧
     match t_kind tm with
     | TtlTimeout =>
         t_ms tm = typingTtlMs cfg ∧
         timer_duration (t_ms tm)
         = (if bool_decide (typingTtlMs cfg ≤ TIMEOUT_MAX) then typingTtlMs cfg else 1)
     | TriggerInterval =>
         t_ms tm ≤ typingIntervalSeconds cfg * 1000 ∧
         1 ≤ timer_duration (t_ms tm) ≤ typingIntervalSeconds cfg * 1000
     end).
Proof.
  simpl. destruct (typing_run_timers evs) as [H1 H2 H3 H4].
  split; [exact H1 |]. split; [| split].
  - intros t1 t2 tm1 tm2 Ht1 Ht2 Hl1 Hl2 Hk1 Hk2.
    pose proof (H1 t1 tm1 Ht1 Hl1 Hk1). pose proof (H1 t2 tm2 Ht2 Hl2 Hk2). congruence.
  - intros Hs t tm Ht Hk. destruct (t_live tm) eqn:Hl; [| done].
    pose proof (H1 t tm Ht Hl Hk) as E.
    destruct (typing_run_cycle evs) as (_ & Hf).
    destruct (Hf Hs) as (_ & _ & _ & _ & Hnone). congruence.
  - intros t tm Ht. destruct (t_kind tm) eqn:Hk.
    + destruct (H3 t tm Ht Hk). unfold typingIntervalMs in *. split; [lia |].
      split; [lia |]. unfold timer_duration. case_bool_decide; lia.
    + destruct (H2 t tm Ht Hk) as [E Hpos]. split; [lia |]. split; [done |].
      unfold timer_duration. rewrite E in *.
      repeat case_bool_decide; unfold TIMEOUT_MAX in *; lia.
Qed.

Lemma typing_triggerTyping_sealed s : sealed s = true → triggerTyping cfg s = s.
Proof. intros Hs. unfold triggerTyping. by rewrite Hs. Qed.

(** C9 (amended).  On a sealed controller every operation other than
    resetForFollowup, markRunComplete and markDispatchIdle returns the
    state unchanged; markRunComplete only sets runComplete and
    markDispatchIdle only sets dispatchIdle; no operation other than
    resetForFollowup un-seals or invokes an injected callback; isActive()
    is false; and a tick of a typing interval changes nothing.  A loop
    starter that was suspended at its [await ensureStart()] is not stopped
    by the seal: when it resumes (and the call it waited for did not
    reject) it arms a typing interval and stores it in typingTimer,
    changing nothing else, and the ticks of that interval change nothing.
    In a state reached from [createTypingController] no timer that fires
    on a sealed controller changes anything, and no event other than
    resetForFollowup un-seals the controller or invokes a callback. *)
Theorem sealed_controller_is_inert (s : Controller) :
  sealed s = true →
  (∀ op, op ≠ ResetForFollowup → op ≠ MarkRunComplete → op ≠ MarkDispatchIdle →
         perform trim isSilentReplyText cfg op s = s) ∧
  perform trim isSilentReplyText cfg MarkRunComplete s = with_runComplete true s ∧
  perform trim isSilentReplyText cfg MarkDispatchIdle s = with_dispatchIdle true s ∧
  (∀ op, op ≠ ResetForFollowup →
         sealed (perform trim isSilentReplyText cfg op s) = true ∧
         invoked (perform trim isSilentReplyText cfg op s) = invoked s) ∧
  isActive s = false ∧
  (∀ t tm, timers s !! t = Some tm → t_kind tm = TriggerInterval →
           timer_fires cfg t s = s) ∧
  (∀ i ok,
     let s' := resume cfg i ok s in
     sealed s' = true ∧ invoked s' = invoked s ∧
     started s' = started s ∧ active s' = active s ∧ runComplete s' = runComplete s ∧
     dispatchIdle s' = dispatchIdle s ∧ transitioning s' = transitioning s ∧
     phase s' = phase s ∧ typingTtlTimer s' = typingTtlTimer s ∧
     match parked s !! i with
     | Some p =>
         if p_done p then s' = s
         else if ok || negb (on_call p) then
           timers s' = alloc {| t_kind := TriggerInterval; t_ms := typingIntervalMs cfg;
                                t_live := true |} (timers s) ∧
           typingTimer s' = Some (length (timers s)) ∧
           timer_fires cfg (length (timers s)) s' = s'
         else timers s' = timers s ∧ typingTimer s' = typingTimer s
     | None => s' = s
     end) ∧
  (∀ evs, s = run trim isSilentReplyText cfg evs →
     (∀ t, timer_fires cfg t s = s) ∧
     (∀ e, e ≠ EOp ResetForFollowup →
           sealed (step trim isSilentReplyText cfg s e) = true ∧
           invoked (step trim isSilentReplyText cfg s e) = invoked s ∧
           isActive (step trim isSilentReplyText cfg s e) = false)).
Proof.
  intros Hs.
  destruct (typing_sealed_perform trim isSilentReplyText cfg s Hs)
    as (Hothers & Hrun & Hidle & Hquiet & Hact & Htick).
  assert (Hresume : ∀ i ok, sealed (resume cfg i ok s) = true ∧
                            invoked (resume cfg i ok s) = invoked s).
  { intros i ok. unfold resume. by repeat case_match. }
  do 6 (split; [done |]). split.
  - intros i ok. cbv zeta. destruct (Hresume i ok) as [Hs' Hi'].
    split; [done |]. split; [done |].
    unfold resume. destruct (parked s !! i) as [p |]; [| done].
    destruct (p_done p); [done |].
    destruct (ok || negb (on_call p)); simpl; [| done].
    do 7 (split; [done |]). split; [done |]. split; [done |].
    unfold timer_fires. simpl. rewrite alloc_lookup_new. simpl.
    by apply typing_triggerTyping_sealed.
  - intros evs ->. set (s := run trim isSilentReplyText cfg evs) in *.
    assert (Hfire : ∀ t, timer_fires cfg t s = s).
    { intros t. unfold timer_fires. destruct (timers s !! t) as [tm |] eqn:Ht; [| done].
      destruct (t_live tm) eqn:Hl; [| done].
      destruct (t_kind tm) eqn:Hk; [by apply typing_triggerTyping_sealed |].
      pose proof (ttl_live cfg s (typing_run_timers evs) t tm Ht Hl Hk) as E.
      destruct (typing_run_cycle evs) as (_ & Hf).
      destruct (Hf Hs) as (_ & _ & _ & _ & Hnone). fold s in Hnone. congruence. }
    split; [exact Hfire |].
    intros e He.
    assert (Hse : sealed (step trim isSilentReplyText cfg s e) = true ∧
                  invoked (step trim isSilentReplyText cfg s e) = invoked s).
    { destruct e as [op | t | i ok]; simpl.
      - apply Hquiet. congruence.
      - by rewrite Hfire.
      - apply Hresume. }
    destruct Hse as [Hs' Hi']. split; [done |]. split; [done |].
    unfold isActive. rewrite Hs'. apply andb_false_r.
Qed.

Lemma typing_cleanup_stops s x :
  sealed x = false → active x = true → cleanups x = cleanups s →
  stopped cfg s (cleanup cfg x).
Proof.
  intros Hx Hax Hcx. unfold stopped. rewrite <- Hcx. clear Hcx.
  destruct x as [st ac rc di tr se ph ty ttl tms pk inv]. simpl in Hx, Hax. subst se ac.
  unfold cleanup, clear_typingTtlTimer, clear_typingTimer, invoke_opt, cleanups.
  destruct ty, ttl, (has_onCleanup cfg); simpl; repeat split; try done.
  all: unfold alloc; rewrite ?filter_app, ?length_app; simpl; lia.
Qed.

Lemma typing_stopped_markDispatchIdle s x :
  stopped cfg s x → stopped cfg s (markDispatchIdle cfg x).
Proof.
  intros (Hs & Ha & Ht & Hty & Htt & Hc).
  unfold markDispatchIdle, maybeStopOnIdle. simpl. rewrite Ha. simpl. rewrite Ht. simpl.
  by repeat split.
Qed.

Lemma typing_stopped_markRunComplete s x :
  stopped cfg s x → stopped cfg s (markRunComplete cfg x).
Proof.
  intros (Hs & Ha & Ht & Hty & Htt & Hc).
  unfold markRunComplete, maybeStopOnIdle. simpl. rewrite Ha. simpl. by repeat split.
Qed.

Lemma typing_markRunComplete_active s :
  sealed s = false → active s = true →
  markRunComplete cfg s =
  if dispatchIdle s then cleanup cfg (with_runComplete true s) else with_runComplete true s.
Proof. intros Hs Ha. unfold markRunComplete, maybeStopOnIdle. simpl. by rewrite Ha. Qed.

Lemma typing_markDispatchIdle_active s :
  sealed s = false → active s = true →
  markDispatchIdle cfg s =
  if runComplete s then cleanup cfg (with_dispatchIdle true s)
  else if transitioning s
       then invoke_opt (has_onReplyStart cfg) CbReplyStart
              (with_transitioning false (with_dispatchIdle true s))
       else with_dispatchIdle true s.
Proof.
  intros Hs Ha. unfold markDispatchIdle, maybeStopOnIdle. simpl. rewrite Ha. simpl.
  destruct (runComplete s) eqn:Hr; simpl.
  - destruct (typing_cleanup_stops s (with_dispatchIdle true s) Hs Ha eq_refl)
      as (_ & _ & -> & _). done.
  - rewrite Ha, Hs. destruct (transitioning s); simpl; [| done].
    unfold triggerTyping. simpl. by rewrite Hs.
Qed.

(** When the typing controller stops.  An active controller stops only
    when the run is complete and the dispatcher is idle: either signal
    alone leaves it open, and the two together, in either order, seal it,
    forget both timers, make [isActive()] false and call [onCleanup]
    exactly once (if it was given). *)
Theorem stops_when_run_complete_and_idle (s : Controller) :
  sealed s = false → active s = true →
  let done_first := markDispatchIdle cfg (markRunComplete cfg s) in
  let idle_first := markRunComplete cfg (markDispatchIdle cfg s) in
  (dispatchIdle s = false → sealed (markRunComplete cfg s) = false ∧
                            isActive (markRunComplete cfg s) = true) ∧
  (runComplete s = false → sealed (markDispatchIdle cfg s) = false ∧
                           isActive (markDispatchIdle cfg s) = true) ∧
  sealed done_first = true ∧ sealed idle_first = true ∧
  isActive done_first = false ∧ isActive idle_first = false ∧
  typingTimer done_first = None ∧ typingTtlTimer done_first = None ∧
  typingTimer idle_first = None ∧ typingTtlTimer idle_first = None ∧
  cleanups done_first = (cleanups s + (if has_onCleanup cfg then 1 else 0))%nat ∧
  cleanups idle_first = (cleanups s + (if has_onCleanup cfg then 1 else 0))%nat.
Proof.
  intros Hs Ha. simpl.
  assert (H1 : stopped cfg s (markDispatchIdle cfg (markRunComplete cfg s))).
  { rewrite (typing_markRunComplete_active s Hs Ha). destruct (dispatchIdle s).
    - apply typing_stopped_markDispatchIdle. by apply typing_cleanup_stops.
    - rewrite typing_markDispatchIdle_active by done. simpl.
      by apply typing_cleanup_stops. }
  assert (H2 : stopped cfg s (markRunComplete cfg (markDispatchIdle cfg s))).
  { rewrite (typing_markDispatchIdle_active s Hs Ha). destruct (runComplete s).
    - apply typing_stopped_markRunComplete. by apply typing_cleanup_stops.
    - destruct (transitioning s).
      + rewrite typing_markRunComplete_active;
          [| by destruct (has_onReplyStart cfg) | by destruct (has_onReplyStart cfg)].
        replace (dispatchIdle _) with true by by destruct (has_onReplyStart cfg).
        apply typing_cleanup_stops; unfold invoke_opt; destruct (has_onReplyStart cfg);
          try done.
        change (cleanups (invoke CbReplyStart
                  (with_transitioning false (with_dispatchIdle true s))) = cleanups s).
        rewrite typing_cleanups_invoke. simpl. unfold cleanups. simpl. lia.
      + rewrite typing_markRunComplete_active by done. simpl.
        by apply typing_cleanup_stops. }
  destruct H1 as (S1 & A1 & _ & Ty1 & Tt1 & C1). destruct H2 as (S2 & A2 & _ & Ty2 & Tt2 & C2).
  unfold isActive. rewrite A1, A2.
  split.
  { intros Hd. rewrite (typing_markRunComplete_active s Hs Ha), Hd. simpl.
    by rewrite Hs, Ha. }
  split.
  { intros Hr. rewrite (typing_markDispatchIdle_active s Hs Ha), Hr.
    destruct (transitioning s); unfold invoke_opt; [destruct (has_onReplyStart cfg) |];
      simpl; by rewrite Hs, Ha. }
  by repeat split.
Qed.

(** Continuity into a follow-up run.  After [transitionToFollowup] on an
    active controller the run counts as not complete, so the next
    [markDispatchIdle] does not stop the controller: it calls
    [onReplyStart] once more (if it was given) and lowers the transition
    flag, and a further [markDispatchIdle] calls nothing. *)
Theorem followup_retriggers_typing_once (s : Controller) :
  sealed s = false → active s = true →
  let s1 := transitionToFollowup cfg s in
  let s2 := markDispatchIdle cfg s1 in
  transitioning s1 = true ∧ runComplete s1 = false ∧ phase s1 = Some ph_thinking ∧
  sealed s2 = false ∧ active s2 = true ∧ transitioning s2 = false ∧
  invoked s2 = (if has_onReplyStart cfg then alloc CbReplyStart (invoked s1)
                else invoked s1) ∧
  timers s2 = timers s1 ∧
  markDispatchIdle cfg s2 = s2.
Proof.
  intros Hs Ha. cbv zeta.
  assert (H1 : sealed (transitionToFollowup cfg s) = false ∧
               active (transitionToFollowup cfg s) = true ∧
               transitioning (transitionToFollowup cfg s) = true ∧
               runComplete (transitionToFollowup cfg s) = false ∧
               phase (transitionToFollowup cfg s) = Some ph_thinking).
  { unfold transitionToFollowup, triggerTyping, invoke_opt. rewrite Hs. simpl.
    repeat case_match; simpl in *; rewrite ?Hs, ?Ha; repeat split; try done.
    all: by case_bool_decide. }
  destruct H1 as (Hs1 & Ha1 & Ht1 & Hr1 & Hp1).
  set (s1 := transitionToFollowup cfg s) in *.
  assert (E2 : markDispatchIdle cfg s1
               = invoke_opt (has_onReplyStart cfg) CbReplyStart
                   (with_transitioning false (with_dispatchIdle true s1))).
  { rewrite typing_markDispatchIdle_active by done. by rewrite Hr1, Ht1. }
  rewrite E2. split; [done |]. split; [done |]. split; [done |].
  unfold invoke_opt. destruct (has_onReplyStart cfg) eqn:Ho; simpl.
  all: rewrite Hs1, Ha1; repeat split; try done.
  all: unfold markDispatchIdle, maybeStopOnIdle; simpl; rewrite Ha1, Hr1; simpl; done.
Qed.

End Cycle.

(** A controller that is cleaned up while the loop starter of
    [startTypingLoop] is suspended. *)
Lemma sealed_controller_is_inert_witness :
  perform sample_trim sample_isSilentReplyText sample_params StartTypingLoop
    sealed_controller = sealed_controller ∧
  perform sample_trim sample_isSilentReplyText sample_params (StartTypingOnText (Some "hi"))
    sealed_controller = sealed_controller ∧
  invoked (perform sample_trim sample_isSilentReplyText sample_params MarkRunComplete
             sealed_controller) = invoked sealed_controller ∧
  let s := run sample_trim sample_isSilentReplyText sample_params
             [EOp StartTypingLoop; EOp Cleanup] in
  sealed s = true ∧
  typingTimer (resume sample_params 0 true s) = Some 1%nat ∧
  invoked (resume sample_params 0 true s) = invoked s.
Proof.
  destruct (sealed_controller_is_inert sample_trim sample_isSilentReplyText sample_params
              sealed_controller eq_refl) as (Hsame & _ & _ & Hquiet & _).
  split; [by apply Hsame |]. split; [by apply Hsame |].
  split; [by apply Hquiet |].
  intros s.
  destruct (sealed_controller_is_inert sample_trim sample_isSilentReplyText sample_params
              s eq_refl) as (_ & _ & _ & _ & _ & _ & Hresume & _).
  destruct (Hresume 0%nat true) as (_ & Hinv & _ & _ & _ & _ & _ & _ & _ & Harm).
  change (parked s !! 0%nat) with (Some {| on_call := true; p_done := false |}) in Harm.
  simpl in Harm. destruct Harm as (_ & Htimer & _).
  split; [done |]. split; [exact Htimer | exact Hinv].
Defined.

(** After the main run of a started controller. *)
Lemma followup_retriggers_typing_once_witness :
  invoked (markDispatchIdle sample_params
             (transitionToFollowup sample_params (ensureStart sample_params create)))
  = [CbReplyStart; CbPhaseChange ph_thinking; CbReplyStart; CbReplyStart].
Proof.
  destruct (followup_retriggers_typing_once sample_params
              (ensureStart sample_params create) eq_refl eq_refl)
    as (_ & _ & _ & _ & _ & _ & Hinv & _).
  rewrite Hinv. reflexivity.
Defined.

(** A started controller: the run completes, then the dispatcher drains. *)
Lemma stops_when_run_complete_and_idle_witness :
  sealed (markDispatchIdle sample_params
            (markRunComplete sample_params (ensureStart sample_params create))) = true.
Proof.
  refine (proj1 (proj2 (proj2 (stops_when_run_complete_and_idle sample_params
                                 (ensureStart sample_params create) _ _))));
    reflexivity.
Defined.

End TypingFacts.

(** ** The threading tool context (buildSlackThreadingToolContext) *)
Module ToolContextFacts.
Import ToolContext.

Lemma tool_append_cons c p rest : String c p ++ rest = String c (p ++ rest).
Proof. reflexivity. Qed.

Lemma tool_startsWith_app p rest : startsWith (p ++ rest) p = true.
Proof.
  induction p as [| c p IH]; [reflexivity |].
  rewrite tool_append_cons. simpl. rewrite IH. by rewrite bool_decide_eq_true_2.
Qed.

Lemma tool_slice_app p rest : slice (p ++ rest) (String.length p) = rest.
Proof. induction p as [| c p IH]; [reflexivity | exact IH]. Qed.

Lemma tool_startsWith_split s p :
  startsWith s p = true → s = p ++ slice s (String.length p).
Proof.
  revert s. induction p as [| c p IH]; intros s H; [reflexivity |].
  destruct s as [| d s]; [done |]. simpl in H.
  apply andb_true_iff in H as [Hc Hp]. apply bool_decide_eq_true_1 in Hc. subst d.
  rewrite tool_append_cons. f_equal. by apply IH.
Qed.

(** A target with the prefix [p] is read back as what follows the prefix. *)
Lemma tool_prefix_target p t id :
  (Some t ≫= λ t, if startsWith t p then Some (slice t (String.length p)) else None)
    = Some id ↔ Some t = Some (p ++ id).
Proof.
  cbn [mbind option_bind]. destruct (startsWith t p) eqn:Hp.
  - apply tool_startsWith_split in Hp. split.
    + intros [= <-]. f_equal. exact Hp.
    + intros [= ->]. f_equal. apply tool_slice_app.
  - split; [done |]. intros [= ->]. by rewrite tool_startsWith_app in Hp.
Qed.

Section Build.
Variable String_of_number : Z → string.
Variable configuredReplyToMode : ReplyToMode.

(** What [buildSlackThreadingToolContext] makes of the target and the
    thread.  The target [To] is read as a channel exactly when it is
    ["channel:"] followed by the id reported, and as a direct-message user
    exactly when it is ["user:"] followed by the id reported, never as
    both; a non-empty thread label forces the reply mode [all], otherwise
    the configured mode is passed on; and the thread timestamp is
    [MessageThreadId] when there is one, else [ReplyToId], else absent. *)
Theorem target_and_thread_of_context (context : ChannelThreadingContext)
    (ref : option nat) :
  let r := buildSlackThreadingToolContext String_of_number configuredReplyToMode
             context ref in
  (∀ id, currentChannelId r = Some id ↔ To context = Some ("channel:" ++ id)) ∧
  (∀ id, currentDmUserId r = Some id ↔ To context = Some ("user:" ++ id)) ∧
  (currentChannelId r = None ∨ currentDmUserId r = None) ∧
  (replyToMode r = if truthy (ThreadLabel context) then all else configuredReplyToMode) ∧
  (∀ t, MessageThreadId context = Some t →
        currentThreadTs r = Some (String_of String_of_number t)) ∧
  (MessageThreadId context = None → currentThreadTs r = ReplyToId context) ∧
  hasRepliedRef r = ref.
Proof.
  intros r. subst r. unfold buildSlackThreadingToolContext.
  cbn [currentChannelId currentDmUserId currentThreadTs replyToMode hasRepliedRef].
  split; [| split; [| split; [| split; [| split; [| split]]]]].
  - intros id. destruct (To context) as [t |]; [| done].
    apply (tool_prefix_target "channel:").
  - intros id. destruct (To context) as [t |]; [| done].
    apply (tool_prefix_target "user:").
  - destruct (To context) as [t |]; [| by left].
    cbn [mbind option_bind].
    destruct (startsWith t "channel:") eqn:Hc; [| by left].
    destruct (startsWith t "user:") eqn:Hu; [| by right].
    apply tool_startsWith_split in Hc. apply tool_startsWith_split in Hu.
    rewrite Hc in Hu. discriminate Hu.
  - done.
  - intros t ->. done.
  - intros ->. by destruct (ReplyToId context).
  - done.
Qed.

End Build.

End ToolContextFacts.

(** ** The dispatch that holds a phase status handle *)
Module DispatchFacts.
Import PhaseStatus PhaseFacts Dispatch.

Lemma dispatch_setPhase_reading this w mg :
  objects w !! this = Some mg →
  let w1 := setPhase this reading w in
  (∃ mg1, objects w1 !! this = Some mg1 ∧ phase mg1 = Some reading ∧ seconds mg1 = 0%nat ∧
          counterTimer mg1 = None ∧ params mg1 = params mg) ∧
  managers w1 = managers w ∧ handles w1 = handles w ∧
  calls w1 = (if pushing mg then calls w
              else alloc {| c_mgr := this; c_fn := push (params mg);
                            c_text := "reading messages..."; c_done := false |} (calls w)).
Proof.
  intros Ho. unfold setPhase.
  set (w0 := assign this (with_phase (Some reading) 0) w).
  assert (Ho0 : objects w0 !! this = Some (with_phase (Some reading) 0 mg))
    by (simpl; by rewrite list_lookup_alter_eq, Ho).
  destruct (phase_stopCounter_effect this w0 _ Ho0) as (Ho2 & _ & Em2 & Ec2).
  destruct (phase_pushOnce_effect this (formatStatus reading 0) (stopCounter this w0) _ Ho2)
    as (b & Ho3 & _ & Em3 & Ec3).
  cbv zeta. fold w0. split; [| split; [| split]].
  - eexists. split; [exact Ho3 |]. done.
  - by rewrite Em3, Em2.
  - unfold pushOnce, stopCounter, method. by repeat case_match.
  - rewrite (phase_pushOnce_calls this _ _ _ Ho2), Ec2. done.
Qed.

(** A release that asks for grace keeps what the manager shows. *)
Lemma dispatch_graced_release h w hd mg :
  handles w !! h = Some hd → released hd = false →
  objects w !! h_mgr hd = Some mg → is_Some (phase mg) → counterTimer mg = None →
  let w' := handle_release h true w in
  (∃ mg', objects w' !! h_mgr hd = Some mg' ∧ phase mg' = phase mg ∧
          seconds mg' = seconds mg ∧ counterTimer mg' = None) ∧
  managers w' = managers w ∧ calls w' = calls w.
Proof.
  intros Hh Hr Ho [ph Hp] Hk. cbv zeta.
  set (w1 := assign (h_mgr hd)
               (λ mg, with_activeHandles (Z.max 0 (activeHandles mg - 1)) mg)
               (set_handles (alter (with_released true) h) w)).
  set (mg1 := with_activeHandles (Z.max 0 (activeHandles mg - 1)) mg).
  assert (Ho1 : objects w1 !! h_mgr hd = Some mg1)
    by (simpl; by rewrite list_lookup_alter_eq, Ho).
  destruct (phase_stopCounter_effect (h_mgr hd) w1 mg1 Ho1) as (Ho2 & _ & Em2 & _).
  assert (E : handle_release h true w =
              if bool_decide (0 < activeHandles mg1) then w1
              else assign (h_mgr hd)
                     (with_graceTimer (Some (length (timers (stopCounter (h_mgr hd) w1)))))
                     (setTimer (GraceEnd (h_mgr hd)) (graceMs (params mg1))
                        (stopCounter (h_mgr hd) w1))).
  { unfold handle_release. rewrite Hh, Hr. unfold releaseHandle, method. fold w1.
    rewrite Ho1. case_bool_decide; [done |].
    replace (phase mg1) with (Some ph) by done.
    by destruct (shouldGrace hd) as [sg |]. }
  rewrite E. split; [| split; [| rewrite <- E; apply phase_handle_release_calls]].
  - case_bool_decide; [by exists mg1 |].
    eexists. split; [simpl; rewrite list_lookup_alter_eq, Ho2; reflexivity |]. done.
  - case_bool_decide; [done |]. simpl. by rewrite Em2.
Qed.

(** A manager whose counter is stopped makes no call when a timer fires. *)
Lemma dispatch_stopped_counter_silent strict w m mg t c call :
  hygiene strict w → objects w !! m = Some mg → counterTimer mg = None →
  calls (timer_fires t w) !! c = Some call → (length (calls w) ≤ c)%nat →
  c_mgr call ≠ m.
Proof.
  intros Hinv Ho Hk Hc Hge Hm. unfold timer_fires in Hc.
  destruct (timers w !! t) as [tm |] eqn:Ht; [| apply lookup_lt_Some in Hc; lia].
  destruct (t_live tm) eqn:Hl; [| apply lookup_lt_Some in Hc; lia].
  destruct (t_callback tm) as [m' | m'] eqn:Hcb.
  - assert (m' ≠ m).
    { intros ->. destruct (hy_counter_timer _ w Hinv t tm m Ht Hl Hcb) as (x & Hx & Hkx).
      congruence. }
    revert Hc. unfold counter_tick, pushOnce, method. repeat case_match; simpl; intros Hc.
    all: try (apply lookup_lt_Some in Hc; lia).
    all: apply alloc_lookup_inv in Hc as [Hc | [_ ->]];
      [apply lookup_lt_Some in Hc; lia | simpl in Hm; congruence].
  - rewrite phase_grace_end_calls in Hc. simpl in Hc. apply lookup_lt_Some in Hc. lia.
Qed.

(** How a dispatch hands a thread over when messages are pending.  When
    [stop] runs while the dispatch still holds its handle and
    [hasPendingMessages] answers true, the manager shows
    [reading messages...] afterwards with its seconds counter stopped
    (and this is what [getCurrentStatus] reads if the manager is the one
    registered for its key), and the handle is released: every later
    callback of this dispatch leaves the status manager as it is.  The
    status is pushed, by one call, exactly when no push of that manager
    is in flight at that moment; while one is in flight nothing is pushed:
    the new status is dropped, and afterwards no timer and no settlement
    makes a call of this manager, so the manager does not push it later
    by itself. *)
Theorem stop_with_pending_shows_reading (p : Prepared) (d : Dispatch) (w : World) h hd mg :
  reachable w → statusHandle d = Some h →
  handles w !! h = Some hd → released hd = false → objects w !! h_mgr hd = Some mg →
  is_Some (hasPendingMessages p) →
  let m := h_mgr hd in
  let w' := stop p true true d w in
  (∃ mg', objects w' !! m = Some mg' ∧
          getFormattedStatus mg' = Some "reading messages..." ∧ counterTimer mg' = None) ∧
  (managers w !! key (params mg) = Some m →
     managers w' !! key (params mg) = Some m ∧
     getCurrentStatus (key (params mg)) w' = Some "reading messages...") ∧
  (∀ t tm, timers w' !! t = Some tm → t_callback tm = CounterTick m → t_live tm = false) ∧
  (released <$> handles w' !! h) = Some true ∧
  calls w' = (if pushing mg then calls w
              else alloc {| c_mgr := m; c_fn := push (params mg);
                            c_text := "reading messages..."; c_done := false |}
                     (calls w)) ∧
  (∀ t c call, calls (timer_fires t w') !! c = Some call → (length (calls w') ≤ c)%nat →
               c_mgr call ≠ m) ∧
  (∀ c ok, length (calls (push_settles c ok w')) = length (calls w')) ∧
  start d w' = w' ∧ deliver_pause d w' = w' ∧
  (∀ a b, stop p a b d w' = w') ∧
  (∀ ph, (onPhaseChange ph d w').1 = w').
Proof.
  intros Hreach Hd Hh Hr Ho [f Hf] m w'. subst m.
  set (w1 := handle_setStatus h reading w).
  assert (E' : w' = handle_release h true w1).
  { unfold w', stop. by rewrite Hf, Hd. }
  assert (E1 : w1 = setPhase (h_mgr hd) reading w).
  { unfold w1, handle_setStatus. by rewrite Hh, Hr. }
  destruct (dispatch_setPhase_reading (h_mgr hd) w mg Ho)
    as ((mg1 & Ho1 & Hp1 & Hs1 & Hk1 & Epar1) & Em1 & Eh1 & Ec1).
  rewrite <- E1 in Ho1, Em1, Eh1, Ec1.
  assert (Hh1 : handles w1 !! h = Some hd) by by rewrite Eh1.
  destruct (dispatch_graced_release h w1 hd mg1 Hh1 Hr Ho1)
    as ((mg2 & Ho2 & Hp2 & Hs2 & Hk2) & Em2 & Ec2); [by rewrite Hp1 | done |].
  rewrite <- E' in Ho2, Em2, Ec2.
  assert (Hreach' : reachable w').
  { destruct Hreach as [evs ->]. exists (evs ++ [ESetStatus h reading; ERelease h true])%list.
    unfold run. rewrite foldl_app. simpl. by rewrite E'. }
  apply phase_reachable_hygiene in Hreach' as Hinv'.
  destruct (phase_release_idempotent h true true reading w1) as (Hrel & Hset & Hpause).
  rewrite <- E' in Hrel, Hset, Hpause.
  assert (Hany : ∀ a q, handle_release h a w' = w' ∧ handle_setStatus h q w' = w').
  { intros a q. rewrite E'. split; by apply (phase_release_idempotent h true a q w1). }
  assert (Hshown : getFormattedStatus mg2 = Some "reading messages...").
  { unfold getFormattedStatus. by rewrite Hp2, Hp1. }
  split; [by exists mg2 |]. split.
  { intros Hreg. assert (Hreg' : managers w' !! key (params mg) = Some (h_mgr hd))
      by by rewrite Em2, Em1.
    split; [done |]. unfold getCurrentStatus. rewrite Hreg'. simpl.
    by rewrite Ho2. }
  split.
  { intros t tm Ht Hcb. destruct (t_live tm) eqn:Hl; [| done].
    destruct (hy_counter_timer _ w' Hinv' t tm _ Ht Hl Hcb) as (x & Hx & Hkx). congruence. }
  split.
  { destruct (phase_released_after_release h true w1 hd Hh1) as (hd' & Hh' & Hr').
    rewrite <- E' in Hh'. by rewrite Hh'; simpl; rewrite Hr'. }
  split; [by rewrite Ec2 |]. split.
  { intros t c call. by apply (dispatch_stopped_counter_silent false w' (h_mgr hd) mg2). }
  split.
  { intros c ok. destruct (phase_push_settles_effect c ok w') as (_ & _ & [E | E] & _);
      rewrite E; [done | by rewrite length_alter]. }
  split; [unfold start; rewrite Hd; apply (Hany true) |].
  split; [unfold deliver_pause; by rewrite Hd |].
  split.
  - intros a b. unfold stop. rewrite Hd, Hf.
    destruct a; [rewrite (proj2 (Hany true reading)) |]; apply (Hany b reading).
  - intros ph. unfold onPhaseChange, start. simpl. rewrite Hd. apply (Hany true).
Qed.

Lemma dispatch_acquire_handle a w :
  ∃ m, managers (acquireThreadStatus a w) !! a_key a = Some m ∧
       handles (acquireThreadStatus a w)
         = alloc {| h_mgr := m; released := false; shouldGrace := a_shouldGrace a |}
             (handles w) ∧
       calls (acquireThreadStatus a w) = calls w.
Proof.
  unfold acquireThreadStatus. destruct (managers w !! a_key a) as [m |] eqn:Hm.
  - exists m. unfold acquire, cancelGrace, method. repeat case_match; simpl; by rewrite ?Hm.
  - exists (length (objects w)). unfold acquire, cancelGrace, method.
    repeat case_match; simpl; by rewrite lookup_insert_eq.
Qed.

(** What a dispatch holds.  With a status thread, the dispatch starts by
    acquiring a handle of the manager registered for its channel and
    thread: the handle is unreleased and carries [hasPendingMessages] as
    its [shouldGrace], the thread counts as active, and nothing has been
    pushed yet.  Without a status thread it acquires nothing, and none of
    its callbacks touches the status managers. *)
Theorem dispatch_holds_its_thread (p : Prepared) (w : World) :
  reachable w →
  let w0 := (begin p w).1 in
  let d := (begin p w).2 in
  match statusThreadTs p with
  | Some ts =>
      if bool_decide (ts = "") then w0 = w ∧ statusHandle d = None
      else
        let k := channel p ++ ":" ++ ts in
        ∃ h hd, statusHandle d = Some h ∧ handles w0 !! h = Some hd ∧
                released hd = false ∧ shouldGrace hd = hasPendingMessages p ∧
                managers w0 !! k = Some (h_mgr hd) ∧ isThreadActive k w0 = true ∧
                calls w0 = calls w
  | None => w0 = w ∧ statusHandle d = None
  end ∧
  (statusHandle d = None →
   ∀ w1 a b ph, start d w1 = w1 ∧ deliver_pause d w1 = w1 ∧ stop p a b d w1 = w1 ∧
                (onPhaseChange ph d w1).1 = w1).
Proof.
  intros Hreach. cbv zeta. split.
  - unfold begin. destruct (statusThreadTs p) as [ts |]; [| done].
    case_bool_decide; [done |]. cbn [fst snd].
    set (a := {| a_key := channel p ++ ":" ++ ts; a_push := push_closure p;
                 a_graceMs := None; a_shouldGrace := hasPendingMessages p;
                 a_onError := Some (onError_closure p) |}).
    destruct (dispatch_acquire_handle a w) as (m & Hm & Eh & Ec).
    assert (Hreach' : reachable (acquireThreadStatus a w)).
    { destruct Hreach as [evs ->]. exists (evs ++ [EAcquire a])%list.
      unfold run. by rewrite foldl_app. }
    apply phase_reachable_hygiene in Hreach' as Hinv.
    assert (Hh : handles (acquireThreadStatus a w) !! length (handles w)
                 = Some {| h_mgr := m; released := false;
                           shouldGrace := hasPendingMessages p |})
      by (rewrite Eh; apply alloc_lookup_new).
    destruct (hy_key _ _ Hinv _ m Hm) as (mg & Ho & Hk).
    destruct (phase_live_registered _ _ _ mg Hinv Hh eq_refl Ho) as (Hpos & _ & _).
    eexists _, _. split; [reflexivity |]. split; [exact Hh |].
    split; [done |]. split; [done |]. split; [exact Hm |]. split; [| done].
    unfold isThreadActive. change (channel p ++ ":" ++ ts) with (a_key a).
    rewrite Hm. simpl. rewrite Ho. unfold isActive. apply bool_decide_eq_true_2. lia.
  - intros Hnone w1 a b ph.
    unfold start, deliver_pause, stop, onPhaseChange, start. simpl. rewrite Hnone.
    repeat split; by repeat case_match.
Qed.

(** A dispatch for thread ["T"] of channel ["C"], from the initial state. *)
Lemma dispatch_holds_its_thread_witness :
  isThreadActive "C:T"
    (begin {| channel := "C"; statusThreadTs := Some "T"; hasPendingMessages := Some 3%nat;
              push_closure := 7; onError_closure := 4 |} init).1 = true.
Proof.
  assert (Hr : reachable init) by by exists [].
  destruct (dispatch_holds_its_thread
              {| channel := "C"; statusThreadTs := Some "T";
                 hasPendingMessages := Some 3%nat;
                 push_closure := 7; onError_closure := 4 |} init Hr) as [H _].
  simpl in H. destruct H as (h & hd & _ & _ & _ & _ & _ & Hact & _). exact Hact.
Defined.

(** A dispatch that holds handle 0: with the first push delivered
    ([thinking_shown]) the status is pushed; with the first push still in
    flight ([thinking_in_flight]) it is shown but not pushed. *)
Lemma stop_with_pending_shows_reading_witness :
  let p := {| channel := "C"; statusThreadTs := Some "T"; hasPendingMessages := Some 3%nat;
              push_closure := 7; onError_closure := 4 |} in
  let d := {| statusRef_phase := thinking; statusHandle := Some 0%nat |} in
  c_text <$> calls (stop p true true d thinking_shown)
    = ["thinking 0s"; "reading messages..."] ∧
  c_text <$> calls (stop p true true d thinking_in_flight) = ["thinking 0s"] ∧
  getCurrentStatus "K" (stop p true true d thinking_in_flight) = Some "reading messages...".
Proof.
  intros p d.
  assert (Hr1 : reachable thinking_shown) by by eexists.
  assert (Hr2 : reachable thinking_in_flight) by by eexists.
  assert (Hp : is_Some (hasPendingMessages p)) by by eexists.
  pose proof (stop_with_pending_shows_reading p d thinking_shown 0%nat
                {| h_mgr := 0; released := false; shouldGrace := Some 3%nat |}
                {| phase := Some thinking; seconds := 0; activeHandles := 1;
                   counterTimer := Some 0%nat; graceTimer := None; pushing := false;
                   params := {| key := "K"; push := 7; graceMs := 5000;
                                onError := None |} |}
                Hr1 eq_refl eq_refl eq_refl eq_refl Hp) as H1.
  pose proof (stop_with_pending_shows_reading p d thinking_in_flight 0%nat
                {| h_mgr := 0; released := false; shouldGrace := Some 3%nat |}
                {| phase := Some thinking; seconds := 0; activeHandles := 1;
                   counterTimer := Some 0%nat; graceTimer := None; pushing := true;
                   params := {| key := "K"; push := 7; graceMs := 5000;
                                onError := None |} |}
                Hr2 eq_refl eq_refl eq_refl eq_refl Hp) as H2.
  cbv zeta in H1, H2.
  destruct H1 as (_ & _ & _ & _ & Hcalls1 & _).
  destruct H2 as (_ & Hread2 & _ & _ & Hcalls2 & _).
  split; [rewrite Hcalls1; by vm_compute |].
  split; [rewrite Hcalls2; by vm_compute |].
  apply Hread2. by vm_compute.
Defined.

End DispatchFacts.

(** ** The dispatch that sets the Slack status itself *)
Module DispatchDirectFacts.
Import DispatchDirect.

Lemma direct_trimStart_suffix s : ∃ pre, s = (pre ++ trimStart s)%list ∧ Forall (λ c, is_space c = true) pre.
Proof.
  induction s as [| c s (pre & E & F)]; [by exists [] |].
  simpl. destruct (is_space c) eqn:Hc.
  - exists (c :: pre). split; [by rewrite E at 1 | by constructor].
  - by exists [].
Qed.

Lemma direct_trimStart_head s c rest : trimStart s = c :: rest → is_space c = false.
Proof.
  induction s as [| d s IH]; simpl; [done |].
  destruct (is_space d) eqn:Hd; [done |]. by intros [= <- _].
Qed.

Lemma direct_trimStart_id s : head s ≫= (λ c, Some (is_space c)) ≠ Some true → trimStart s = s.
Proof. destruct s as [| c s]; simpl; [done |]. by destruct (is_space c). Qed.

(** [trim] only removes code units, and leaves no space at either end. *)
Lemma direct_trim_sub s : ∀ c, c ∈ trim s → c ∈ s.
Proof.
  intros c. unfold trim. rewrite elem_of_reverse.
  destruct (direct_trimStart_suffix (reverse (trimStart s))) as (pre & E & _).
  intros Hin. assert (c ∈ reverse (trimStart s)) by (rewrite E; set_solver).
  rewrite elem_of_reverse in H.
  destruct (direct_trimStart_suffix s) as (pre' & E' & _). rewrite E'. set_solver.
Qed.

Lemma direct_trim_last s c : last (trim s) = Some c → is_space c = false.
Proof.
  unfold trim. rewrite last_reverse. intros H.
  destruct (trimStart (reverse (trimStart s))) as [| d rest] eqn:E; [done |].
  simpl in H. injection H as ->. by eapply direct_trimStart_head.
Qed.

Lemma direct_trim_head s c : head (trim s) = Some c → is_space c = false.
Proof.
  unfold trim. rewrite head_reverse. intros H.
  destruct (direct_trimStart_suffix (reverse (trimStart s))) as (pre & E & _).
  assert (Hl : last (reverse (trimStart s)) = Some c).
  { rewrite E, last_app, H. done. }
  rewrite last_reverse in Hl.
  destruct (trimStart s) as [| d rest] eqn:Es; [done |].
  simpl in Hl. injection Hl as ->. by eapply direct_trimStart_head.
Qed.

Lemma direct_trim_id t :
  (∀ c, head t = Some c → is_space c = false) →
  (∀ c, last t = Some c → is_space c = false) → trim t = t.
Proof.
  intros Hh Hl. unfold trim.
  assert (E1 : trimStart t = t).
  { destruct t as [| c t]; [done |]. simpl. by rewrite (Hh c eq_refl). }
  rewrite E1.
  assert (E2 : trimStart (reverse t) = reverse t).
  { destruct (reverse t) as [| c r] eqn:Er; [done |]. simpl.
    assert (Hc : last t = Some c) by (by rewrite <- head_reverse, Er).
    by rewrite (Hl c Hc). }
  rewrite E2. apply reverse_involutive.
Qed.

Lemma direct_replace_no_newline t : 10%N ∉ replace_newlines t.
Proof.
  unfold replace_newlines. intros Hin. apply list_elem_of_fmap in Hin as (c & Hc & _).
  case_bool_decide; [done | congruence].
Qed.

Lemma direct_replace_id t : 10%N ∉ t → replace_newlines t = t.
Proof.
  unfold replace_newlines. induction t as [| c t IH]; [done |].
  intros Hn. rewrite fmap_cons, IH by set_solver.
  case_bool_decide; [set_solver | done].
Qed.

Lemma direct_working_ok :
  let st := (lit "working" ++ ellipsis)%list in
  st ≠ [] ∧ (length st ≤ 81)%nat ∧ (10%N ∉ st).
Proof.
  split; [done |]. split; [vm_compute; lia |].
  apply (bool_decide_unpack _). by vm_compute.
Qed.

(** The status preview of a partial reply.  It is never empty, never
    longer than 81 code units and never contains a line feed; a text with
    no line feed, no space at either end and between 1 and 80 code units
    is shown as it is; a longer one is cut after 80 code units and gets an
    ellipsis; and no text, or a text of spaces only, shows [working…]. *)
Theorem partial_status_is_bounded (payload_text : option jsstring) :
  let st := partial_status payload_text in
  st ≠ [] ∧ (length st ≤ 81)%nat ∧ (10%N ∉ st) ∧
  (∀ t, payload_text = Some t → 10%N ∉ t →
        (∀ c, head t = Some c → is_space c = false) →
        (∀ c, last t = Some c → is_space c = false) →
        (0 < length t ≤ 80)%nat → st = t) ∧
  (∀ t, payload_text = Some t → (80 < length (trim (replace_newlines t)))%nat →
        st = (take 80 (trim (replace_newlines t)) ++ ellipsis)%list ∧ length st = 81%nat) ∧
  (match payload_text with
   | None => True
   | Some t => trim (replace_newlines t) = []
   end → st = (lit "working" ++ ellipsis)%list).
Proof.
  cbv zeta. unfold partial_status, STATUS_PREVIEW_MAX_LEN.
  destruct direct_working_ok as (W1 & W2 & W3).
  destruct payload_text as [t |]; cbn [fmap option_fmap option_map].
  2: { split; [done |]. split; [done |]. split; [done |]. split; [done |]. by split. }
  set (text := trim (replace_newlines t)).
  assert (Hnl : 10%N ∉ text).
  { intros Hin. apply direct_trim_sub in Hin. by apply direct_replace_no_newline in Hin. }
  assert (Hid : ∀ t0, Some t = Some t0 → 10%N ∉ t0 →
            (∀ c, head t0 = Some c → is_space c = false) →
            (∀ c, last t0 = Some c → is_space c = false) → text = t0).
  { intros t0 [= <-] Hn Hh Hl. unfold text.
    rewrite direct_replace_id by done. by apply direct_trim_id. }
  destruct (decide (text = [])) as [Et | Hne].
  { rewrite Et. rewrite bool_decide_eq_false_2 by (intros H; by apply H).
    cbn [andb]. split; [done |]. split; [done |]. split; [done |]. split; [| split].
    - intros t0 E0 Hn Hh Hl Hlen. exfalso.
      rewrite (Hid t0 E0 Hn Hh Hl) in Et. subst t0. simpl in Hlen. lia.
    - intros t0 [= <-] Hlen. fold text in Hlen. rewrite Et in Hlen. simpl in Hlen. lia.
    - done. }
  assert (Hpos : (0 < length text)%nat) by (destruct text; [done | simpl; lia]).
  rewrite bool_decide_eq_true_2 by done. rewrite bool_decide_eq_true_2 by done.
  cbn [andb]. case_bool_decide as Hlen.
  - split; [done |]. split; [lia |]. split; [done |]. split; [| split].
    + intros t0 E0 Hn Hh Hl _. by apply Hid.
    + intros t0 [= <-] Hlong. fold text in Hlong. lia.
    + intros E. done.
  - assert (Hlen80 : length (take 80 text) = 80%nat) by (rewrite length_take; lia).
    split; [by destruct (take 80 text) |]. split.
    { rewrite length_app, Hlen80. simpl. lia. }
    split.
    { intros Hin. apply elem_of_app in Hin as [Hin | Hin].
      - apply Hnl. apply elem_of_take in Hin as (i & Hi & _). by eapply list_elem_of_lookup_2.
      - apply list_elem_of_singleton in Hin. done. }
    split; [| split].
    + intros t0 E0 Hn Hh Hl Hshort. exfalso. apply Hlen.
      rewrite (Hid t0 E0 Hn Hh Hl). lia.
    + intros t0 [= <-] _. split; [done |]. rewrite length_app, Hlen80. simpl. lia.
    + intros E. done.
Qed.

Lemma direct_partial_status_nonempty text : partial_status text ≠ [].
Proof.
  unfold partial_status. destruct (trim <$> (replace_newlines <$> text)) as [t |]; [| done].
  destruct (decide (t = [])) as [-> | Hne]; [done |].
  rewrite bool_decide_eq_true_2 by done.
  destruct t as [| c t]; [done |]. simpl. case_bool_decide; done.
Qed.

Lemma direct_tool_status_nonempty name : tool_status name ≠ [].
Proof. unfold tool_status. destruct name as [n |]; [case_bool_decide |]; done. Qed.

Section Callbacks.
Variable has_statusThreadTs : bool.

(** What an event other than [stop] does: nothing, or it raises the flag,
    and then it sends at most one status, which is not empty. *)
Lemma direct_step_sends d e :
  e ≠ Stop →
  step has_statusThreadTs d e = d ∨
  (didSetStatus (step has_statusThreadTs d e) = true ∧
   (sent (step has_statusThreadTs d e) = sent d ∨
    ∃ st, st ≠ [] ∧ sent (step has_statusThreadTs d e) = (sent d ++ [st])%list)).
Proof.
  intros He. destruct e as [| | | now text | name | b]; simpl; [| done | | | |].
  - right. split; [done | by left].
  - unfold deliver_status. destruct has_statusThreadTs; [| by left].
    right. split; [done |]. right. exists (lit "typing..."). split; [by vm_compute | done].
  - unfold onPartialReply. destruct has_statusThreadTs; simpl; [| by left].
    case_bool_decide; [by left |]. right. split; [done |]. right.
    exists (partial_status text). split; [| done]. apply direct_partial_status_nonempty.
  - unfold onToolUse. destruct has_statusThreadTs; simpl; [| by left].
    right. split; [done |]. right.
    exists (tool_status name). split; [apply direct_tool_status_nonempty | done].
  - unfold onDrainPhaseChange. destruct has_statusThreadTs; simpl; [| by left].
    right. split; [done |]. right.
    exists (if b then lit "read messages..." else lit "thinking...").
    split; [by destruct b; vm_compute | done].
Qed.

Lemma direct_run_snoc evs e :
  run has_statusThreadTs (evs ++ [e]) = step has_statusThreadTs (run has_statusThreadTs evs) e.
Proof. unfold run. by rewrite foldl_app. Qed.

Lemma direct_flag_down evs :
  didSetStatus (run has_statusThreadTs evs) = false →
  last (sent (run has_statusThreadTs evs)) = None ∨
  last (sent (run has_statusThreadTs evs)) = Some [].
Proof.
  induction evs as [| e evs IH] using rev_ind.
  - unfold run, begin. simpl. destruct has_statusThreadTs; [done | by left].
  - rewrite direct_run_snoc. set (d := run has_statusThreadTs evs) in *.
    assert (Hcase : e = Stop ∨ e ≠ Stop) by (destruct e; auto).
    destruct Hcase as [-> | He].
    + simpl. unfold stop. destruct (didSetStatus d) eqn:Hd; simpl; [| by rewrite Hd].
      intros _. right. by rewrite last_snoc.
    + destruct (direct_step_sends d e He) as [-> | [Hup _]]; [done | congruence].
Qed.

(** The status flag of a dispatch that sets the Slack status itself.
    Whatever callbacks run and in whichever order: while [didSetStatus] is
    down, either nothing was ever sent or the last status sent was the
    empty one, so no status stays on screen unnoticed.  [stop] lowers the
    flag, sends the empty status once if the flag was up and nothing
    otherwise, and a second [stop] does nothing.  No other callback ever
    sends an empty status, and a partial reply within 3000 ms of the last
    one that was shown changes nothing. *)
Theorem status_is_cleared_when_flag_is_down (evs : list event) :
  let d := run has_statusThreadTs evs in
  (didSetStatus d = false → last (sent d) = None ∨ last (sent d) = Some []) ∧
  (didSetStatus (stop d) = false ∧ stop (stop d) = stop d ∧
   sent (stop d) = (if didSetStatus d then (sent d ++ [[]])%list else sent d) ∧
   (last (sent (stop d)) = None ∨ last (sent (stop d)) = Some [])) ∧
  (∀ e, e ≠ Stop →
     sent (step has_statusThreadTs d e) = sent d ∨
     ∃ st, st ≠ [] ∧ sent (step has_statusThreadTs d e) = (sent d ++ [st])%list) ∧
  (∀ now text, now - lastWorkingStatusAt d < 3000 →
     onPartialReply has_statusThreadTs now text d = d).
Proof.
  cbv zeta. set (d := run has_statusThreadTs evs).
  split; [apply direct_flag_down |]. split; [| split].
  - pose proof (direct_flag_down (evs ++ [Stop])) as Hdown.
    rewrite direct_run_snoc in Hdown. fold d in Hdown. simpl in Hdown.
    assert (Hs : didSetStatus (stop d) = false).
    { unfold stop. by destruct (didSetStatus d) eqn:Hd. }
    split; [done |]. split; [| split; [| by apply Hdown]].
    + unfold stop at 1. by rewrite Hs.
    + unfold stop. by destruct (didSetStatus d).
  - intros e He. destruct (direct_step_sends d e He) as [-> | [_ H]]; [by left | done].
  - intros now text Hnow. unfold onPartialReply, WORKING_STATUS_DEBOUNCE_MS.
    destruct has_statusThreadTs; simpl; [| done]. by rewrite bool_decide_eq_true_2.
Qed.

End Callbacks.

End DispatchDirectFacts.

(** ** Both status managers *)
Module ManagerFacts.

(** C1 as the specification words it fails in the text variant: the
    clearing push made by release() (call 1, from [pushOnce]) starts while
    the push of the loop (call 0) has not settled; two calls of the same
    manager are in flight. *)
Lemma text_clearing_push_overlaps_loop_push :
  let w := TextStatus.handle_release 0 false TextStatus.status_in_flight in
  TextStatus.in_flight 0 w 0 ∧ TextStatus.in_flight 0 w 1 ∧
  (TextStatus.c_site <$> TextStatus.calls w !! 0%nat) = Some TextStatus.ByPushTick ∧
  (TextStatus.c_site <$> TextStatus.calls w !! 1%nat) = Some TextStatus.ByPushOnce.
Proof.
  split; [| split]; [eexists; by vm_compute .. |]. vm_compute. done.
Qed.

(** C1 (amended).  Phase variant: in every reachable state at most one
    call of a manager's push function is in flight; while one is, pushOnce
    changes nothing (no call, nothing kept for later), and no event
    whatsoever adds a call of that manager.  Text variant: the same holds
    for the calls made by the push loop ([pushTick]): at most one of them
    is in flight per manager, a tick during one changes nothing, and no
    event adds a loop call of that manager; the clearing push of [""] made
    by release() or by the grace timer is outside this gate. *)
Theorem push_gate :
  (∀ w : PhaseStatus.World, PhaseStatus.reachable w →
     (∀ m c1 c2, PhaseStatus.in_flight m w c1 → PhaseStatus.in_flight m w c2 → c1 = c2) ∧
     (∀ m c, PhaseStatus.in_flight m w c →
        (∀ text, PhaseStatus.pushOnce m text w = w) ∧
        (∀ e c' call', PhaseStatus.calls (PhaseStatus.step w e) !! c' = Some call' →
           PhaseStatus.c_mgr call' = m → (c' < length (PhaseStatus.calls w))%nat))) ∧
  (∀ w : TextStatus.World, TextStatus.reachable w →
     (∀ m c1 c2, TextStatus.tick_in_flight m w c1 → TextStatus.tick_in_flight m w c2 →
                 c1 = c2) ∧
     (∀ m c, TextStatus.tick_in_flight m w c →
        TextStatus.pushTick m w = w ∧
        (∀ e c' call', TextStatus.calls (TextStatus.step w e) !! c' = Some call' →
           TextStatus.c_mgr call' = m → TextStatus.c_site call' = TextStatus.ByPushTick →
           (c' < length (TextStatus.calls w))%nat))).
Proof.
  split.
  - intros w Hreach. apply PhaseFacts.phase_reachable_inv in Hreach as Hinv. split.
    + apply (PhaseStatus.inv_gate_unique w Hinv).
    + intros m c Hc. split.
      * intros text. by eapply PhaseFacts.phase_pushOnce_skipped.
      * intros e c' call'. by eapply PhaseFacts.phase_no_call_while_in_flight.
  - intros w Hreach. apply TextFacts.text_reachable_gate in Hreach as Hinv. split.
    + apply (TextStatus.gate_unique w Hinv).
    + intros m c Hc. split.
      * by eapply TextFacts.text_pushTick_skipped.
      * intros e c' call'. by eapply TextFacts.text_no_tick_while_in_flight.
Qed.

(** A second push attempt while the first push is in flight, in each
    variant. *)
Lemma push_gate_witness :
  PhaseStatus.pushOnce 0 "thinking 1s" PhaseStatus.thinking_in_flight
    = PhaseStatus.thinking_in_flight ∧
  TextStatus.pushTick 0 TextStatus.status_in_flight = TextStatus.status_in_flight.
Proof.
  destruct push_gate as [Hphase Htext]. split.
  - destruct (Hphase PhaseStatus.thinking_in_flight) as [_ Hskip]; [by eexists |].
    destruct (Hskip 0%nat 0%nat) as [Hsame _]; [eexists; by vm_compute |].
    apply Hsame.
  - destruct (Htext TextStatus.status_in_flight) as [_ Hskip]; [by eexists |].
    destruct (Hskip 0%nat 0%nat) as [Hsame _]; [eexists; by vm_compute |].
    exact Hsame.
Defined.

(** C8.  In both variants: once release() has been called on a handle, a
    further release() on it returns the state unchanged, whatever
    shouldGrace would answer, and so do setStatus() and (phase variant)
    pause() -- when called right away, for any handle reference, and when
    called after any further events, for a handle that acquire() has
    returned. *)
Theorem release_is_idempotent :
  (∀ (w : PhaseStatus.World) h a1 a2 p,
     let w1 := PhaseStatus.handle_release h a1 w in
     PhaseStatus.handle_release h a2 w1 = w1 ∧
     PhaseStatus.handle_setStatus h p w1 = w1 ∧
     PhaseStatus.handle_pause h w1 = w1) ∧
  (∀ (w : PhaseStatus.World) h a1 evs a2 p,
     is_Some (PhaseStatus.handles w !! h) →
     let w1 := PhaseStatus.run_from (PhaseStatus.handle_release h a1 w) evs in
     PhaseStatus.handle_release h a2 w1 = w1 ∧
     PhaseStatus.handle_setStatus h p w1 = w1 ∧
     PhaseStatus.handle_pause h w1 = w1) ∧
  (∀ (w : TextStatus.World) h a1 a2 text,
     let w1 := TextStatus.handle_release h a1 w in
     TextStatus.handle_release h a2 w1 = w1 ∧
     TextStatus.handle_setStatus h text w1 = w1) ∧
  (∀ (w : TextStatus.World) h a1 evs a2 text,
     is_Some (TextStatus.handles w !! h) →
     let w1 := TextStatus.run_from (TextStatus.handle_release h a1 w) evs in
     TextStatus.handle_release h a2 w1 = w1 ∧
     TextStatus.handle_setStatus h text w1 = w1).
Proof.
  split; [| split; [| split]].
  - intros w h a1 a2 p. apply PhaseFacts.phase_release_idempotent.
  - intros w h a1 evs a2 p Hh. by apply PhaseFacts.phase_release_idempotent_later.
  - intros w h a1 a2 text. apply TextFacts.text_release_idempotent.
  - intros w h a1 evs a2 text Hh. by apply TextFacts.text_release_idempotent_later.
Qed.

(** A first release that counts, then a second one, at once and after the
    grace timer has fired. *)
Lemma release_is_idempotent_witness :
  let w1 := PhaseStatus.handle_release 0 true PhaseStatus.thinking_shown in
  PhaseStatus.handle_release 0 false w1 = w1 ∧
  w1 ≠ PhaseStatus.thinking_shown ∧
  let w2 := PhaseStatus.run_from w1 [PhaseStatus.ETimer 1] in
  PhaseStatus.handle_release 0 false w2 = w2.
Proof.
  destruct release_is_idempotent as (Hnow & Hlater & _).
  pose proof (Hnow PhaseStatus.thinking_shown 0%nat true false PhaseStatus.reading)
    as [Hagain _].
  assert (Hh : is_Some (PhaseStatus.handles PhaseStatus.thinking_shown !! 0%nat))
    by by eexists.
  pose proof (Hlater PhaseStatus.thinking_shown 0%nat true [PhaseStatus.ETimer 1] false
                PhaseStatus.reading Hh) as [Hafter _].
  split; [exact Hagain |]. split; [by vm_compute |]. exact Hafter.
Defined.

(** C10.  In both variants the configuration of a manager is that of the
    call of acquireThreadStatus that created it.  Let a call [a0] create
    the manager of its key, let any events follow, and let a later call
    [a] find that manager registered under its key.  Then the result of the
    later call depends on its key and shouldGrace only (any other push,
    interval, grace and onError arguments give the very same state); the
    new handle is backed by the existing manager and carries the later
    call's shouldGrace; the registry and the set of manager objects are as
    before; and in every later state the parameters of the manager are
    the arguments of the creating call with its defaults: every call the
    manager makes goes to the creating call's push function, every timer
    it arms has the creating call's graceMs (text variant: or
    pushIntervalMs) as its delay, and a rejected push of it is reported to
    the creating call's onError. *)
Theorem acquire_existing_key_keeps_configuration :
  (∀ (w : PhaseStatus.World) (a0 : PhaseStatus.AcquireParams) evs0
     (a : PhaseStatus.AcquireParams),
     PhaseStatus.managers w !! PhaseStatus.a_key a0 = None →
     let m := length (PhaseStatus.objects w) in
     let w1 := PhaseStatus.run_from (PhaseStatus.acquireThreadStatus a0 w) evs0 in
     PhaseStatus.managers w1 !! PhaseStatus.a_key a = Some m →
     let w' := PhaseStatus.acquireThreadStatus a w1 in
     (∀ a', PhaseStatus.a_key a' = PhaseStatus.a_key a →
            PhaseStatus.a_shouldGrace a' = PhaseStatus.a_shouldGrace a →
            PhaseStatus.acquireThreadStatus a' w1 = w') ∧
     PhaseStatus.handles w' =
       alloc {| PhaseStatus.h_mgr := m; PhaseStatus.released := false;
                PhaseStatus.shouldGrace := PhaseStatus.a_shouldGrace a |}
             (PhaseStatus.handles w1) ∧
     PhaseStatus.managers w' = PhaseStatus.managers w1 ∧
     length (PhaseStatus.objects w') = length (PhaseStatus.objects w1) ∧
     ∀ evs, let w2 := PhaseStatus.run_from w' evs in
       (∃ mg, PhaseStatus.objects w2 !! m = Some mg ∧
              PhaseStatus.params mg =
                {| PhaseStatus.key := PhaseStatus.a_key a0;
                   PhaseStatus.push := PhaseStatus.a_push a0;
                   PhaseStatus.graceMs := default 5000 (PhaseStatus.a_graceMs a0);
                   PhaseStatus.onError := PhaseStatus.a_onError a0 |}) ∧
       (∀ e c call, PhaseStatus.calls (PhaseStatus.step w2 e) !! c = Some call →
          (length (PhaseStatus.calls w2) ≤ c)%nat → PhaseStatus.c_mgr call = m →
          PhaseStatus.c_fn call = PhaseStatus.a_push a0) ∧
       (∀ e t tm, PhaseStatus.timers (PhaseStatus.step w2 e) !! t = Some tm →
          (length (PhaseStatus.timers w2) ≤ t)%nat →
          PhaseStatus.t_callback tm = PhaseStatus.GraceEnd m →
          PhaseStatus.t_ms tm = default 5000 (PhaseStatus.a_graceMs a0)) ∧
       (∀ e cb c call,
          PhaseStatus.onError_calls (PhaseStatus.step w2 e)
            = alloc (cb, c) (PhaseStatus.onError_calls w2) →
          PhaseStatus.calls w2 !! c = Some call → PhaseStatus.c_mgr call = m →
          PhaseStatus.a_onError a0 = Some cb)) ∧
  (∀ (w : TextStatus.World) (a0 : TextStatus.AcquireParams) evs0
     (a : TextStatus.AcquireParams),
     TextStatus.managers w !! TextStatus.a_key a0 = None →
     let m := length (TextStatus.objects w) in
     let w1 := TextStatus.run_from (TextStatus.acquireThreadStatus a0 w) evs0 in
     TextStatus.managers w1 !! TextStatus.a_key a = Some m →
     let w' := TextStatus.acquireThreadStatus a w1 in
     (∀ a', TextStatus.a_key a' = TextStatus.a_key a →
            TextStatus.a_shouldGrace a' = TextStatus.a_shouldGrace a →
            TextStatus.acquireThreadStatus a' w1 = w') ∧
     TextStatus.handles w' =
       alloc {| TextStatus.h_mgr := m; TextStatus.released := false;
                TextStatus.shouldGrace := TextStatus.a_shouldGrace a |}
             (TextStatus.handles w1) ∧
     TextStatus.managers w' = TextStatus.managers w1 ∧
     length (TextStatus.objects w') = length (TextStatus.objects w1) ∧
     ∀ evs, let w2 := TextStatus.run_from w' evs in
       (∃ mg, TextStatus.objects w2 !! m = Some mg ∧
              TextStatus.params mg =
                {| TextStatus.key := TextStatus.a_key a0;
                   TextStatus.push := TextStatus.a_push a0;
                   TextStatus.pushIntervalMs := default 100 (TextStatus.a_pushIntervalMs a0);
                   TextStatus.graceMs := default 5000 (TextStatus.a_graceMs a0);
                   TextStatus.graceText :=
                     default "is thinking..." (TextStatus.a_graceText a0);
                   TextStatus.onError := TextStatus.a_onError a0 |}) ∧
       (∀ e c call, TextStatus.calls (TextStatus.step w2 e) !! c = Some call →
          (length (TextStatus.calls w2) ≤ c)%nat → TextStatus.c_mgr call = m →
          TextStatus.c_fn call = TextStatus.a_push a0) ∧
       (∀ e t tm, TextStatus.timers (TextStatus.step w2 e) !! t = Some tm →
          (length (TextStatus.timers w2) ≤ t)%nat →
          (TextStatus.t_callback tm = TextStatus.GraceEnd m →
             TextStatus.t_ms tm = default 5000 (TextStatus.a_graceMs a0)) ∧
          (TextStatus.t_callback tm = TextStatus.PushTick m →
             TextStatus.t_ms tm = default 100 (TextStatus.a_pushIntervalMs a0))) ∧
       (∀ e cb c call,
          TextStatus.onError_calls (TextStatus.step w2 e)
            = alloc (cb, c) (TextStatus.onError_calls w2) →
          TextStatus.calls w2 !! c = Some call → TextStatus.c_mgr call = m →
          TextStatus.a_onError a0 = Some cb)).
Proof.
  assert (Hgrow : ∀ {A} (x : A) (l : list A), l ≠ alloc x l).
  { intros A x l E. apply (f_equal length) in E. rewrite alloc_length in E. lia. }
  split.
  - intros w a0 evs0 a Hnone m w1 Hm w'.
    destruct (PhaseFacts.phase_acquire_fresh a0 w Hnone) as (_ & mg0 & Ho0 & Hp0).
    destruct (PhaseFacts.phase_run_from_params _ evs0 _ mg0 Ho0) as (mg & Ho & Hp).
    fold m w1 in Ho. rewrite Hp0 in Hp.
    destruct (PhaseFacts.phase_acquire_existing a w1 m Hm) as (Hsame & Hh & Hreg & Hlen & Hkp).
    fold w' in Hsame, Hh, Hreg, Hlen, Hkp.
    split; [done |]. split; [done |]. split; [done |]. split; [done |].
    intros evs w2.
    destruct (Hkp m mg Ho) as (mgx & Hox & Hpx).
    destruct (PhaseFacts.phase_run_from_params w' evs m mgx Hox) as (mg2 & Ho2 & Hp2).
    fold w2 in Ho2.
    assert (Epar : PhaseStatus.params mg2 =
              {| PhaseStatus.key := PhaseStatus.a_key a0;
                 PhaseStatus.push := PhaseStatus.a_push a0;
                 PhaseStatus.graceMs := default 5000 (PhaseStatus.a_graceMs a0);
                 PhaseStatus.onError := PhaseStatus.a_onError a0 |}) by congruence.
    split; [by exists mg2 |]. split; [| split].
    + intros e c call Hc Hge Hcm.
      destruct (PhaseFacts.phase_new_call_fn w2 e c call Hc Hge) as (x & Hx & ->).
      rewrite Hcm, Ho2 in Hx. injection Hx as <-. by rewrite Epar.
    + intros e t tm Ht Hge Hcb.
      destruct (PhaseFacts.phase_new_grace_timer_ms w2 e t tm m Ht Hge Hcb) as (x & Hx & ->).
      rewrite Ho2 in Hx. injection Hx as <-. by rewrite Epar.
    + intros e cb c call He Hc Hcm.
      destruct (PhaseFacts.phase_step_errors w2 e)
        as [E | (c' & call' & x & cb' & _ & Hc' & _ & Hx & Hcb & E)];
        rewrite E in He; [by apply Hgrow in He |].
      apply app_inj_tail in He as [_ [= -> ->]].
      rewrite Hc in Hc'. injection Hc' as <-. rewrite Hcm, Ho2 in Hx. injection Hx as <-.
      rewrite Epar in Hcb. exact Hcb.
  - intros w a0 evs0 a Hnone m w1 Hm w'.
    destruct (TextFacts.text_acquire_fresh a0 w Hnone) as (_ & mg0 & Ho0 & Hp0).
    destruct (TextFacts.text_run_from_params _ evs0 _ mg0 Ho0) as (mg & Ho & Hp).
    fold m w1 in Ho. rewrite Hp0 in Hp.
    destruct (TextFacts.text_acquire_existing a w1 m Hm) as (Hsame & Hh & Hreg & Hlen & Hkp).
    fold w' in Hsame, Hh, Hreg, Hlen, Hkp.
    split; [done |]. split; [done |]. split; [done |]. split; [done |].
    intros evs w2.
    destruct (Hkp m mg Ho) as (mgx & Hox & Hpx).
    destruct (TextFacts.text_run_from_params w' evs m mgx Hox) as (mg2 & Ho2 & Hp2).
    fold w2 in Ho2.
    assert (Epar : TextStatus.params mg2 =
              {| TextStatus.key := TextStatus.a_key a0;
                 TextStatus.push := TextStatus.a_push a0;
                 TextStatus.pushIntervalMs := default 100 (TextStatus.a_pushIntervalMs a0);
                 TextStatus.graceMs := default 5000 (TextStatus.a_graceMs a0);
                 TextStatus.graceText :=
                   default "is thinking..." (TextStatus.a_graceText a0);
                 TextStatus.onError := TextStatus.a_onError a0 |}) by congruence.
    split; [by exists mg2 |]. split; [| split].
    + intros e c call Hc Hge Hcm.
      destruct (TextFacts.text_new_call_fn w2 e c call Hc Hge) as (x & Hx & ->).
      rewrite Hcm, Ho2 in Hx. injection Hx as <-. by rewrite Epar.
    + intros e t tm Ht Hge.
      destruct (TextFacts.text_new_timer_ms w2 e t tm Ht Hge)
        as (m2 & x & Hx & [[Hcb ->] | [Hcb ->]]); rewrite Hcb.
      * split; [done |]. intros [= ->]. rewrite Ho2 in Hx. injection Hx as <-.
        by rewrite Epar.
      * split; [| done]. intros [= ->]. rewrite Ho2 in Hx. injection Hx as <-.
        by rewrite Epar.
    + intros e cb c call He Hc Hcm.
      destruct (TextFacts.text_step_errors w2 e)
        as [E | (c' & call' & x & cb' & _ & Hc' & _ & Hx & Hcb & E)];
        rewrite E in He; [by apply Hgrow in He |].
      apply app_inj_tail in He as [_ [= -> ->]].
      rewrite Hc in Hc'. injection Hc' as <-. rewrite Hcm, Ho2 in Hx. injection Hx as <-.
      rewrite Epar in Hcb. exact Hcb.
Qed.

(** A first caller creates the manager of ["K"]; a later caller with a
    different push function, grace time and error handler gets the same
    state as one repeating the first caller's arguments, and the manager
    keeps the first caller's push function. *)
Lemma acquire_existing_key_keeps_configuration_witness :
  let w1 := PhaseStatus.run_from
              (PhaseStatus.acquireThreadStatus PhaseStatus.sample_acquire PhaseStatus.init)
              [PhaseStatus.ESetStatus 0 PhaseStatus.thinking; PhaseStatus.ESettle 0 true] in
  let t1 := TextStatus.run_from
              (TextStatus.acquireThreadStatus TextStatus.sample_acquire TextStatus.init)
              [TextStatus.ESetStatus 0 "x"] in
  PhaseStatus.acquireThreadStatus PhaseStatus.sample_acquire w1
    = PhaseStatus.acquireThreadStatus PhaseStatus.other_acquire w1 ∧
  (PhaseStatus.push ∘ PhaseStatus.params
     <$> PhaseStatus.objects (PhaseStatus.acquireThreadStatus PhaseStatus.other_acquire w1)
         !! 0%nat) = Some 7%nat ∧
  TextStatus.acquireThreadStatus TextStatus.sample_acquire t1
    = TextStatus.acquireThreadStatus TextStatus.other_acquire t1.
Proof.
  intros w1 t1.
  destruct acquire_existing_key_keeps_configuration as [Hphase Htext].
  pose proof (Hphase PhaseStatus.init PhaseStatus.sample_acquire
                [PhaseStatus.ESetStatus 0 PhaseStatus.thinking; PhaseStatus.ESettle 0 true]
                PhaseStatus.other_acquire eq_refl) as H1.
  pose proof (Htext TextStatus.init TextStatus.sample_acquire
                [TextStatus.ESetStatus 0 "x"] TextStatus.other_acquire eq_refl) as H2.
  cbv zeta in H1, H2. fold w1 in H1. fold t1 in H2.
  destruct H1 as (Hsame1 & _ & _ & _ & Hlater1); [by vm_compute |].
  destruct H2 as (Hsame2 & _); [by vm_compute |].
  split; [by apply Hsame1 |]. split; [| by apply Hsame2].
  destruct (Hlater1 []) as ((mg & Ho & Hp) & _).
  change (PhaseStatus.run_from
            (PhaseStatus.acquireThreadStatus PhaseStatus.other_acquire w1) [])
    with (PhaseStatus.acquireThreadStatus PhaseStatus.other_acquire w1) in Ho.
  change (length (PhaseStatus.objects PhaseStatus.init)) with 0%nat in Ho.
  rewrite Ho. simpl. by rewrite Hp.
Defined.

(** The handle counter.  In every reachable state of either variant
    activeHandles is not negative; in the text variant it is exactly the
    number of the manager's handles that have not been released. *)
Theorem activeHandles_never_negative :
  (∀ w : PhaseStatus.World, PhaseStatus.reachable w →
     ∀ m mg, PhaseStatus.objects w !! m = Some mg → 0 ≤ PhaseStatus.activeHandles mg) ∧
  (∀ w : TextStatus.World, TextStatus.reachable w →
     ∀ m mg, TextStatus.objects w !! m = Some mg →
       0 ≤ TextStatus.activeHandles mg ∧
       TextStatus.activeHandles mg
         = Z.of_nat (TextStatus.live_handles m (TextStatus.handles w))).
Proof.
  split.
  - intros w Hreach m mg Ho.
    apply PhaseFacts.phase_reachable_inv in Hreach. by apply (PhaseStatus.inv_nonneg w Hreach m).
  - intros w Hreach m mg Ho.
    destruct (TextFacts.text_reachable_life w Hreach) as [_ Hlife].
    rewrite (TextStatus.life_count w Hlife m mg Ho). split; [lia | done].
Qed.

End ManagerFacts.
